(** * Resilient email service: a shallow embedding and its properties

    The development follows the TypeScript sources class by class:
    [EmailQueue], [CircuitBreaker], [RateLimiter], [IdempotencyService],
    [RetryMechanism] and the coordinating [EmailService].

    Conventions of the embedding.
    - JavaScript numbers that the code uses as counters, priorities and
      millisecond timestamps are integers of [Z]; the fractions of the mock
      backends (success rates, jittered delays, the numbers that
      [Math.random()] returns) are rationals of [Q], without the rounding of
      floating-point arithmetic.
    - An [async] function is a state transformer over the part of the
      program state it can touch; its promise either fulfils ([Returned]),
      rejects ([Thrown]) or is still pending when the fuel given to an
      unbounded loop runs out ([Unsettled]).
    - Objects that are mutated in place (the status records held by the
      status table, the arrays of a message) are threaded explicitly: a
      function that mutates its argument returns the argument as it left it.
    - Calls run one at a time: an asynchronous function runs to its end, or
      until the fuel of its loops is spent, before the next one starts. The
      one place where the code looks at what other callers did while it was
      suspended, the polling loop of [IdempotencyService], takes their doing
      as a parameter.
    - A promise that is started and not awaited ([processEmail] in
      [sendEmail], [processNext] in [startProcessing]) has run up to its
      first suspension when the call that started it returns: the call
      includes that part, and hands over the rest as a value to be run
      later. *)

From Stdlib Require Import ZArith Lia QArith Qminmax Qround Lqa.
From stdpp Require Import gmap strings list sorting pretty.
From Equations Require Import Equations.

Local Open Scope string_scope.
Local Open Scope list_scope.
Local Open Scope Z_scope.

(** ** Values shared by all classes (src/types/index.ts) *)

(** [to: string | string[]] *)
Inductive Recipients :=
| OneRecipient (address : string)
| ManyRecipients (addresses : list string).

Record EmailAttachment := mkAttachment {
  filename : string;
  content : string;
  contentType : option string
}.

Record EmailData := mkEmail {
  to : Recipients;
  from : string;
  subject : string;
  body : string;
  html : option string;
  cc : option (list string);
  bcc : option (list string);
  attachments : option (list EmailAttachment)
}.

Record EmailResult := mkResult {
  success : bool;
  messageId : option string;
  error : option string;
  provider : string;
  timestamp : Z
}.

Inductive StatusTag := pending | sending | sent | failed | retrying.

Record EmailStatus := mkStatus {
  id : string;
  status : StatusTag;
  attempts : Z;
  maxAttemptsOf : Z;
  lastAttempt : option Z;
  nextRetry : option Z;
  result : option EmailResult;
  createdAt : Z;
  updatedAt : Z
}.

Record RetryConfig := mkRetryConfig {
  maxAttempts : Z;
  initialDelay : Z;
  maxDelay : Z;
  backoffMultiplier : Z
}.

Record RateLimitConfig := mkRateLimitConfig {
  maxRequests : Z;
  timeWindow : Z
}.

Record CircuitBreakerConfig := mkCircuitBreakerConfig {
  failureThreshold : Z;
  recoveryTimeout : Z;
  monitoringPeriod : Z
}.

Record QueueItem := mkQueueItem {
  itemId : string;
  email : EmailData;
  priority : Z;
  enqueuedAt : Z;
  retryCount : Z
}.

Inductive CircuitBreakerState := CLOSED | OPEN | HALF_OPEN.

(** [CircuitBreakerStats]; the fields are reached as
    [CircuitBreakerStats.state] and so on. *)
Module CircuitBreakerStats.

Record t := mk {
  state : CircuitBreakerState;
  failureCount : Z;
  lastFailureTime : option Z;
  nextAttemptTime : option Z
}.

End CircuitBreakerStats.

(** ** Promises and thrown values *)

(** What a [throw] carries: an [Error] object with its message, or any
    other value ([error instanceof Error] tells them apart). *)
Inductive JsThrown :=
| ErrorObj (message : string)
| OtherValue (shown : string).

(** [error.message]: defined for an [Error], [undefined] otherwise. *)
Definition messageOf (e : JsThrown) : option string :=
  match e with
  | ErrorObj m => Some m
  | OtherValue _ => None
  end.

(** [x || fallback] on an optional string: [undefined] and the empty
    string are falsy. *)
Definition orElse (x : option string) (fallback : string) : string :=
  match x with
  | Some s => if String.eqb s "" then fallback else s
  | None => fallback
  end.

Inductive Outcome (A : Type) :=
| Returned (a : A)
| Thrown (e : JsThrown)
| Unsettled.
Arguments Returned {A} a.
Arguments Thrown {A} e.
Arguments Unsettled {A}.

Definition Async (W A : Type) : Type := W → Outcome A * W.

Definition ret {W A} (a : A) : Async W A := λ w, (Returned a, w).

Definition throw {W A} (e : JsThrown) : Async W A := λ w, (Thrown e, w).

Definition bind {W A B} (m : Async W A) (k : A → Async W B) : Async W B :=
  λ w, match m w with
       | (Returned a, w') => k a w'
       | (Thrown e, w') => (Thrown e, w')
       | (Unsettled, w') => (Unsettled, w')
       end.

(** [try { m } catch (error) { h error }] *)
Definition tryCatch {W A} (m : Async W A) (h : JsThrown → Async W A) : Async W A :=
  λ w, match m w with
       | (Thrown e, w') => h e w'
       | settled => settled
       end.

(** [try { m } finally { f }] with a finaliser that cannot throw; a promise
    that never settles never reaches its finaliser. *)
Definition tryFinally {W A} (m : Async W A) (f : W → W) : Async W A :=
  λ w, match m w with
       | (Unsettled, w') => (Unsettled, w')
       | (r, w') => (r, f w')
       end.

(** A synchronous state update. *)
Definition modify {W} (f : W → W) : Async W unit := λ w, (Returned tt, f w).

Notation "'await' x ← m ; k" := (bind m (λ x, k))
  (at level 10, x name, m at level 100, k at level 200,
   format "'[v' 'await'  x  ←  m ; '/' k ']'").
Notation "'run' m ; k" := (bind m (λ _, k))
  (at level 10, m at level 100, k at level 200,
   format "'[v' 'run'  m ; '/' k ']'").

(** Running a computation of a component [C] inside a larger state [S]:
    the component is read from [S] before the call and written back after. *)
Definition zoom {S C W A} (get : S → C) (set : C → S → S)
    (m : Async (C * (S * W)) A) : Async (S * W) A :=
  λ '(s, w), match m (get s, (s, w)) with
             | (r, (c', (s', w'))) => (r, (set c' s', w'))
             end.

(** An operation of the outer world, seen from a component that owns [C]. *)
Definition outside {C W A} (op : Async W A) : Async (C * W) A :=
  λ '(c, w), match op w with (r, w') => (r, (c, w')) end.

(** ** EmailQueue (src/utils/EmailQueue.ts) *)

Module EmailQueue.

Record t := mk {
  queue : list QueueItem;
  processing : bool
}.

Definition empty : t := {| queue := []; processing := false |}.

(** The scan of [insertWithPriority]: [i] is the loop index and
    [insertIndex] the value of the variable of the same name. *)
Fixpoint scan (q : list QueueItem) (p : Z) (i insertIndex : nat) : nat :=
  match q with
  | [] => insertIndex
  | x :: rest =>
      if priority x <? p then scan rest p (S i) (S i) else insertIndex
  end.

(** [this.queue.splice(insertIndex, 0, item)] *)
Definition splice0 (q : list QueueItem) (insertIndex : nat) (item : QueueItem)
  : list QueueItem :=
  take insertIndex q ++ item :: drop insertIndex q.

Definition insertWithPriority (item : QueueItem) (s : t) : t :=
  {| queue := splice0 (queue s) (scan (queue s) (priority item) 0 0) item;
     processing := processing s |}.

(** [enqueue(email, priority)], given the identifier produced by
    [generateUUID()] and the reading of [new Date()]. *)
Definition enqueue (newId : string) (now : Z) (e : EmailData) (p : Z) (s : t)
  : string * t :=
  let item := {| itemId := newId; email := e; priority := p;
                 enqueuedAt := now; retryCount := 0 |} in
  (newId, insertWithPriority item s).

(** [this.queue.shift()] *)
Definition dequeue (s : t) : option QueueItem * t :=
  match queue s with
  | [] => (None, s)
  | x :: rest => (Some x, {| queue := rest; processing := processing s |})
  end.

Definition getSize (s : t) : nat := length (queue s).

Definition getItems (s : t) : list QueueItem := queue s.

(** [this.queue[0]] *)
Definition peek (s : t) : option QueueItem := head (queue s).

(** [this.queue.findIndex(item => item.id === id)]; [None] stands for the
    -1 of a search without a match. *)
Definition findIndex (id : string) (q : list QueueItem) : option nat :=
  fst <$> list_find (λ item, itemId item = id) q.

(** [remove(id)]; [delete index] is [splice(index, 1)]. *)
Definition remove (id : string) (s : t) : bool * t :=
  match findIndex id (queue s) with
  | Some index =>
      (true, {| queue := delete index (queue s); processing := processing s |})
  | None => (false, s)
  end.

Definition isEmpty (s : t) : bool := Nat.eqb (length (queue s)) 0.

Definition clear (s : t) : t := {| queue := []; processing := processing s |}.

(** [this.queue.find(item => item.id === id)] *)
Definition getItemById (id : string) (s : t) : option QueueItem :=
  snd <$> list_find (λ item, itemId item = id) (queue s).

(** [item.priority = newPriority] *)
Definition setPriority (newPriority : Z) (item : QueueItem) : QueueItem :=
  {| itemId := itemId item; email := email item; priority := newPriority;
     enqueuedAt := enqueuedAt item; retryCount := retryCount item |}.

(** [updatePriority(id, newPriority)]: the item found is the object that
    [remove] takes out of the array, so the assignment to its priority is
    seen only by the insertion that follows. *)
Definition updatePriority (id : string) (newPriority : Z) (s : t) : bool * t :=
  match getItemById id s with
  | None => (false, s)
  | Some item =>
      (true, insertWithPriority (setPriority newPriority item) (snd (remove id s)))
  end.

Definition stopProcessing (s : t) : t :=
  {| queue := queue s; processing := false |}.

(** [item.retryCount++] *)
Definition bumpRetry (item : QueueItem) : QueueItem :=
  {| itemId := itemId item; email := email item; priority := priority item;
     enqueuedAt := enqueuedAt item; retryCount := retryCount item + 1 |}.

(** What the round of [processNext] that [startProcessing] starts is
    suspended on when [startProcessing] returns: the timer that calls
    [processNext] again, or the promise of the processor for the item taken
    from the queue, which remembers [r]. *)
Inductive Suspended (R : Type) :=
| OnTimer (ms : Z)
| OnProcessor (item : QueueItem) (r : R).
Arguments OnTimer {R} ms.
Arguments OnProcessor {R} item r.

Section Processing.
(** The drain loop. [W] is the world of the handler, [sleep ms] the
    passing of a timer of [ms] milliseconds, and [fuel] bounds the number
    of rounds, since the loop re-arms its own timer for ever. *)
Context {W : Type} (sleep : Z → W → W).
Context (processor : QueueItem → Async W unit).

(** [catch (error) { if (item.retryCount < 3) { ... } }] *)
Definition requeue (item : QueueItem) (s : t) : t :=
  if retryCount item <? 3 then insertWithPriority (bumpRetry item) s else s.

Fixpoint processNext (fuel : nat) : Async (t * W) unit :=
  match fuel with
  | O => λ s, (Unsettled, s)
  | S fuel' =>
      λ '(s, w),
        if negb (processing s) then (Returned tt, (s, w))
        else
          match dequeue s with
          | (None, s') => processNext fuel' (s', sleep 1000 w)
          | (Some item, s') =>
              match processor item w with
              | (Returned _, w') => processNext fuel' (s', sleep 10 w')
              | (Thrown _, w') => processNext fuel' (requeue item s', sleep 10 w')
              | (Unsettled, w') => (Unsettled, (s', w'))
              end
          end
  end.

(** The call [this.processor(item)] runs the processor up to its first
    suspension: [processorStart item] is that part of [processor item], which
    returns what the promise remembers (or throws, when the processor throws
    before it has a promise), and [processorRest item r] is the rest of the
    promise. *)
Context {R : Type} (processorStart : QueueItem → Async W R).
Context (processorRest : QueueItem → R → Async W unit).

(** [startProcessing(processor)]: the checks, the two assignments, and
    the call [this.processNext()] up to its first suspension: on an empty
    queue the timer of 1000 ms is armed; otherwise the first item is taken
    from the queue and the processor is called on it. The call returns what
    the loop is suspended on. *)
Definition startProcessing : Async (t * W) (Suspended R) :=
  λ '(s, w),
    if processing s
    then (Thrown (ErrorObj "Queue is already processing"), (s, w))
    else
      match dequeue {| queue := queue s; processing := true |} with
      | (None, s') => (Returned (OnTimer 1000), (s', w))
      | (Some item, s') =>
          match processorStart item w with
          | (Returned r, w') => (Returned (OnProcessor item r), (s', w'))
          | (Thrown _, w') => (Returned (OnTimer 10), (requeue item s', w'))
          | (Unsettled, w') => (Unsettled, (s', w'))
          end
      end.

(** The loop from the suspension at which [startProcessing] left it. *)
Definition resumeProcessing (fuel : nat) (suspended : Suspended R)
  : Async (t * W) unit :=
  λ '(s, w),
    match suspended with
    | OnTimer ms => processNext fuel (s, sleep ms w)
    | OnProcessor item r =>
        match processorRest item r w with
        | (Returned _, w') => processNext fuel (s, sleep 10 w')
        | (Thrown _, w') => processNext fuel (requeue item s, sleep 10 w')
        | (Unsettled, w') => (Unsettled, (s, w'))
        end
    end.

End Processing.

End EmailQueue.

(** ** CircuitBreaker (src/utils/CircuitBreaker.ts) *)

Module CircuitBreaker.

Record t := mk {
  state : CircuitBreakerState;
  failureCount : Z;
  lastFailureTime : option Z;
  nextAttemptTime : option Z
}.

(** The field initialisers of the class. *)
Definition new : t :=
  {| state := CLOSED; failureCount := 0;
     lastFailureTime := None; nextAttemptTime := None |}.

Definition getStats (cb : t) : CircuitBreakerStats.t :=
  {| CircuitBreakerStats.state := state cb;
     CircuitBreakerStats.failureCount := failureCount cb;
     CircuitBreakerStats.lastFailureTime := lastFailureTime cb;
     CircuitBreakerStats.nextAttemptTime := nextAttemptTime cb |}.

Definition isOpen (cb : t) : bool :=
  match state cb with OPEN => true | _ => false end.

Definition isHalfOpen (cb : t) : bool :=
  match state cb with HALF_OPEN => true | _ => false end.

Definition isClosed (cb : t) : bool :=
  match state cb with CLOSED => true | _ => false end.

Section Execute.
(** [W] is the world the wrapped operation runs in, [Date_now] the clock
    reading [Date.now()] in it, and [showDate] the text a template
    literal produces for [this.lastFailureTime]. *)
Context {W : Type} (Date_now : W → Z) (showDate : option Z → string).
Context (config : CircuitBreakerConfig).

Definition onSuccess (cb : t) : t :=
  {| state := CLOSED; failureCount := 0;
     lastFailureTime := None; nextAttemptTime := None |}.

Definition onFailure (now : Z) (cb : t) : t :=
  let count := failureCount cb + 1 in
  if failureThreshold config <=? count
  then {| state := OPEN; failureCount := count;
          lastFailureTime := Some now;
          nextAttemptTime := Some (now + recoveryTimeout config) |}
  else {| state := state cb; failureCount := count;
          lastFailureTime := Some now;
          nextAttemptTime := nextAttemptTime cb |}.

Definition shouldAttemptReset (now : Z) (cb : t) : bool :=
  match nextAttemptTime cb with
  | None => false
  | Some reopen => reopen <=? now
  end.

Definition openError (cb : t) : JsThrown :=
  ErrorObj ("Circuit breaker is OPEN. Last failure: "
            +:+ showDate (lastFailureTime cb)).

(** The guard at the head of [execute]. *)
Definition enter : Async (t * W) unit :=
  λ '(cb, w),
    match state cb with
    | OPEN =>
        if shouldAttemptReset (Date_now w) cb
        then (Returned tt,
              ({| state := HALF_OPEN; failureCount := failureCount cb;
                  lastFailureTime := lastFailureTime cb;
                  nextAttemptTime := nextAttemptTime cb |}, w))
        else (Thrown (openError cb), (cb, w))
    | _ => (Returned tt, (cb, w))
    end.

Definition execute {T} (operation : Async W T) : Async (t * W) T :=
  run enter;
  tryCatch
    (await result ← outside operation;
     run modify (λ '(cb, w), (onSuccess cb, w));
     ret result)
    (λ error,
       run modify (λ '(cb, w), (onFailure (Date_now w) cb, w));
       throw error).

Definition reset (cb : t) : t := new.

End Execute.

End CircuitBreaker.

(** ** RateLimiter (src/utils/RateLimiter.ts) *)

Module RateLimiter.

Record t := mk { requests : list Z }.

Definition new : t := {| requests := [] |}.

Section Limiter.
(** [sleep ms] is what awaiting a [setTimeout] of [ms] milliseconds does
    to the world. *)
Context {W : Type} (Date_now : W → Z) (sleep : Z → W → W).
Context (config : RateLimitConfig).

(** [requests.filter(timestamp => now - timestamp < timeWindow)] *)
Definition purge (now : Z) (reqs : list Z) : list Z :=
  filter (λ timestamp, now - timestamp < timeWindow config) reqs.

Definition acquire : Async (t * W) bool :=
  λ '(rl, w),
    let now := Date_now w in
    let reqs := purge now (requests rl) in
    if maxRequests config <=? Z.of_nat (length reqs)
    then (Returned false, ({| requests := reqs |}, w))
    else (Returned true, ({| requests := reqs ++ [now] |}, w)).

(** [Math.min(...requests)]; [None] stands for the [Infinity] that the
    call yields on an empty array. *)
Definition oldestRequest (reqs : list Z) : option Z :=
  match reqs with
  | [] => None
  | r :: rest => Some (foldr Z.min r rest)
  end.

(** The body of the [while] loop of [waitForSlot] after a refusal. A
    timer whose delay is not a finite 32-bit number fires after one
    millisecond. *)
Definition backOff : Async (t * W) unit :=
  λ '(rl, w),
    let now := Date_now w in
    match oldestRequest (requests rl) with
    | Some oldest =>
        let waitTime := timeWindow config - (now - oldest) in
        if 0 <? waitTime
        then (Returned tt, (rl, sleep waitTime w))
        else (Returned tt, (rl, w))
    | None => (Returned tt, (rl, sleep 1 w))
    end.

Fixpoint waitForSlot (fuel : nat) : Async (t * W) unit :=
  match fuel with
  | O => λ s, (Unsettled, s)
  | S fuel' =>
      await granted ← acquire;
      if granted : bool then ret tt
      else run backOff; waitForSlot fuel'
  end.

(** [waitForSlot] from its first suspension on, the first call of
    [acquire] having answered [granted]; [fuel] counts the round of that
    call as well. *)
Definition waitForSlotFrom (granted : bool) (fuel : nat) : Async (t * W) unit :=
  match fuel with
  | O => λ s, (Unsettled, s)
  | S fuel' => if granted then ret tt else run backOff; waitForSlot fuel'
  end.

Definition getCurrentUsage : Async (t * W) Z :=
  λ '(rl, w),
    let now := Date_now w in
    let reqs := purge now (requests rl) in
    (Returned (Z.of_nat (length reqs)), ({| requests := reqs |}, w)).

Definition getRemainingSlots : Async (t * W) Z :=
  await usage ← getCurrentUsage;
  ret (Z.max 0 (maxRequests config - usage)).

Definition reset (rl : t) : t := {| requests := [] |}.

End Limiter.

End RateLimiter.

(** ** RetryMechanism (src/utils/RetryMechanism.ts) *)

Module RetryMechanism.

Section Retry.
Context {W : Type} (sleep : Z → W → W).
Context (config : RetryConfig).

Definition calculateDelay (attempt : Z) : Z :=
  let delay := initialDelay config * backoffMultiplier config ^ (attempt - 1) in
  Z.min delay (maxDelay config).

Definition getNextRetryDelay (attempt : Z) : Z := calculateDelay attempt.

Definition shouldRetry (attempt : Z) : bool :=
  attempt <? maxAttempts config.

(** [execute(operation, attempt)]; the recursion stops because every
    call that recurses has [attempt < maxAttempts]. *)
Equations? execute {T} (operation : Async W T) (attempt : Z) (w : W)
  : Outcome T * W by wf (Z.to_nat (maxAttempts config - attempt)) lt :=
  execute operation attempt w with operation w => {
    | (Returned r, w1) := (Returned r, w1);
    | (Unsettled, w1) := (Unsettled, w1);
    | (Thrown error, w1) with Z_le_dec (maxAttempts config) attempt => {
        | left _ := (Thrown error, w1);
        | right _ :=
            execute operation (attempt + 1)
                    (sleep (calculateDelay attempt) w1) } }.
Proof. lia. Qed.

End Retry.

End RetryMechanism.

(** ** IdempotencyService (src/utils/IdempotencyService.ts) *)

Module IdempotencyService.

Record t (T : Type) := mk {
  cache : gmap string T;
  pendingRequests : gset string
}.
Arguments mk {T} _ _.
Arguments cache {T} _.
Arguments pendingRequests {T} _.

Definition new {T} : t T := {| cache := ∅; pendingRequests := ∅ |}.

(** *** generateKey *)

(** [Array.prototype.sort()] without a comparator, on an array of
    strings: ascending order of the code units. The array is sorted in
    place and returned. *)
Fixpoint insertSorted (s : string) (l : list string) : list string :=
  match l with
  | [] => [s]
  | x :: rest => if String.leb s x then s :: l else x :: insertSorted s rest
  end.

Definition sort (l : list string) : list string := foldr insertSorted [] l.

(** The object literal handed to [JSON.stringify]. *)
Record KeyContent := mkKeyContent {
  k_to : Recipients;
  k_from : string;
  k_subject : string;
  k_body : string;
  k_html : option string;
  k_cc : option (list string);
  k_bcc : option (list string);
  k_userId : option string
}.

(** Two's-complement wrap-around of the bitwise operators. *)
Definition toInt32 (x : Z) : Z := (x + 2 ^ 31) mod 2 ^ 32 - 2 ^ 31.

(** One round of the loop: [hash = ((hash << 5) - hash) + char;
    hash = hash & hash]. *)
Definition hashStep (hash char : Z) : Z :=
  let hash := (toInt32 (Z.shiftl hash 5) - hash) + char in
  toInt32 (Z.land hash hash).

Definition hashOf (codeUnits : list Z) : Z := foldl hashStep 0 codeUnits.

(** A string is truthy when it is defined and not empty. *)
Definition truthyString (x : option string) : option string :=
  match x with
  | Some s => if String.eqb s "" then None else Some s
  | None => None
  end.

Section GenerateKey.
(** [stringify] gives the code units of the text [JSON.stringify]
    produces for the object literal. *)
Context (stringify : KeyContent → list Z).

(** [generateKey(email, idempotencyKey?, userId?)]: the key, and the
    message object as the call leaves it (the three [sort()] calls work
    on the arrays of the message itself). *)
Definition generateKey (email : EmailData) (idempotencyKey userId : option string)
  : string * EmailData :=
  match truthyString idempotencyKey with
  | Some k => ("idempotency_" +:+ k, email)
  | None =>
      let to' := match to email with
                 | ManyRecipients l => ManyRecipients (sort l)
                 | OneRecipient a => OneRecipient a
                 end in
      let cc' := sort <$> cc email in
      let bcc' := sort <$> bcc email in
      let emailContent :=
        stringify {| k_to := to'; k_from := from email;
                     k_subject := subject email; k_body := body email;
                     k_html := html email; k_cc := cc'; k_bcc := bcc';
                     k_userId := userId |} in
      let hash := hashOf emailContent in
      ("email_" +:+ pretty (Z.abs hash) +:+ "_" +:+ orElse userId "anonymous",
       {| to := to'; from := from email; subject := subject email;
          body := body email; html := html email; cc := cc'; bcc := bcc';
          attachments := attachments email |})
  end.
End GenerateKey.

(** *** execute *)

Section Execute.
(** [T] is the type of cached results and [truthy] the JavaScript truth
    value of such a result. [pause ms] is everything that happens to the
    service and the world while the caller is suspended on a timer of
    [ms] milliseconds, the work of other callers included. *)
Context {W T : Type} (Date_now : W → Z) (truthy : T → bool).
Context (pause : Z → t T * W → t T * W).

Definition cacheGet (key : string) : Async (t T * W) (option T) :=
  λ '(s, w), (Returned (cache s !! key), (s, w)).

Definition isPending (key : string) : Async (t T * W) bool :=
  λ '(s, w), (Returned (bool_decide (key ∈ pendingRequests s)), (s, w)).

Definition cacheSet (key : string) (r : T) (s : t T) : t T :=
  {| cache := <[key := r]> (cache s); pendingRequests := pendingRequests s |}.

Definition pendingAdd (key : string) (s : t T) : t T :=
  {| cache := cache s; pendingRequests := {[key]} ∪ pendingRequests s |}.

Definition pendingDelete (key : string) (s : t T) : t T :=
  {| cache := cache s; pendingRequests := pendingRequests s ∖ {[key]} |}.

(** [if (x)] on what [Map.get] returned. *)
Definition whenTruthy (x : option T) : option T :=
  match x with
  | Some r => if truthy r then Some r else None
  | None => None
  end.

(** The [while] loop of [waitForPendingRequest]; [fuel] bounds its
    iterations. *)
Fixpoint poll (fuel : nat) (key : string) (startTime : Z) : Async (t T * W) T :=
  match fuel with
  | O => λ s, (Unsettled, s)
  | S fuel' =>
      λ '(s, w),
        if Date_now w - startTime <? 30000 then
          match whenTruthy (cache s !! key) with
          | Some r => (Returned r, (s, w))
          | None =>
              if bool_decide (key ∈ pendingRequests s)
              then poll fuel' key startTime (pause 100 (s, w))
              else (Thrown (ErrorObj "Request failed while waiting for pending operation"),
                    (s, w))
          end
        else (Thrown (ErrorObj "Timeout waiting for pending request"), (s, w))
  end.

Definition waitForPendingRequest (fuel : nat) (key : string) : Async (t T * W) T :=
  λ '(s, w), poll fuel key (Date_now w) (s, w).

Definition execute (fuel : nat) (key : string) (operation : Async (t T * W) T)
  : Async (t T * W) T :=
  await existingResult ← cacheGet key;
  match whenTruthy existingResult with
  | Some r => ret r
  | None =>
      await inProgress ← isPending key;
      if inProgress : bool then waitForPendingRequest fuel key
      else
        run modify (λ '(s, w), (pendingAdd key s, w));
        tryFinally
          (await result ← operation;
           run modify (λ '(s, w), (cacheSet key result s, w));
           ret result)
          (λ '(s, w), (pendingDelete key s, w))
  end.

Definition hasResult (key : string) (s : t T) : bool :=
  bool_decide (is_Some (cache s !! key)).

Definition getResult (key : string) (s : t T) : option T := cache s !! key.

Definition clearCache (s : t T) : t T :=
  {| cache := ∅; pendingRequests := pendingRequests s |}.

Definition removeFromCache (key : string) (s : t T) : t T :=
  {| cache := delete key (cache s); pendingRequests := pendingRequests s |}.

Definition getCacheSize (s : t T) : nat := size (cache s).

Definition getPendingRequestsCount (s : t T) : nat := size (pendingRequests s).

End Execute.

End IdempotencyService.

(** ** The world outside the service *)

(** The clock, the record of every call of a provider's [send] (provider
    name and message, oldest first), and the number of identifiers handed
    out by [generateUUID]. *)
Record Env := mkEnv {
  clock : Z;
  sendLog : list (string * EmailData);
  generated : nat
}.

(** Awaiting a timer of [ms] milliseconds. *)
Definition sleep (ms : Z) (env : Env) : Env :=
  {| clock := clock env + ms; sendLog := sendLog env; generated := generated env |}.

(** A delivery backend ([EmailProvider]): its name, and how it answers a
    [send] of a message in a given world: the way its promise settles and
    the milliseconds that pass until then. *)
Record EmailProvider := mkProvider {
  name : string;
  respond : EmailData → Env → Outcome EmailResult * Z
}.

(** [provider.send(email)] *)
Definition send (p : EmailProvider) (e : EmailData) : Async Env EmailResult :=
  λ env,
    let '(answer, elapsed) := respond p e env in
    (answer, {| clock := clock env + Z.max 0 elapsed;
                sendLog := sendLog env ++ [(name p, e)];
                generated := generated env |}).

(** ** MockEmailProvider (src/providers/MockEmailProvider.ts) *)

Module MockEmailProvider.

Record t := mk {
  name : string;
  successRate : Q;
  averageDelay : Q;
  isHealthyStatus : bool
}.

(** The constructor; the defaults of its parameters are 0.9, 100 and
    true. *)
Definition new (name : string) (successRate averageDelay : Q) (isHealthy : bool)
  : t :=
  {| name := name;
     successRate := Qmax 0 (Qmin 1 successRate);
     averageDelay := Qmax 0 averageDelay;
     isHealthyStatus := isHealthy |}.

Definition setSuccessRate (rate : Q) (m : t) : t :=
  {| name := name m; successRate := Qmax 0 (Qmin 1 rate);
     averageDelay := averageDelay m; isHealthyStatus := isHealthyStatus m |}.

Definition setAverageDelay (delay : Q) (m : t) : t :=
  {| name := name m; successRate := successRate m;
     averageDelay := Qmax 0 delay; isHealthyStatus := isHealthyStatus m |}.

Definition setHealthy (healthy : bool) (m : t) : t :=
  {| name := name m; successRate := successRate m;
     averageDelay := averageDelay m; isHealthyStatus := healthy |}.

(** The texts among which a failing [send] picks its error. *)
Definition errors : list string :=
  ["SMTP connection failed"; "Authentication failed"; "Rate limit exceeded";
   "Invalid recipient address"; "Server temporarily unavailable"].

(** The numbers that the calls of [Math.random()] in one [send] return, in
    the order of the calls: for the delay, for the outcome, and for the
    message id or the choice of the error text. *)
Record Draws := mkDraws {
  forDelay : Q;
  forOutcome : Q;
  forDetail : Q
}.

Section Send.
(** [base36 r] is the text of [r.toString(36).substr(2, 9)], and [timer d]
    the milliseconds that pass while a [setTimeout] of [d] milliseconds is
    awaited. *)
Context (base36 : Q → string) (timer : Q → Z).

(** [this.averageDelay + (Math.random() - 0.5) * this.averageDelay] *)
Definition delayOf (d : Draws) (m : t) : Q :=
  averageDelay m + (forDelay d - (1 # 2)) * averageDelay m.

(** [errors[Math.floor(Math.random() * errors.length)]] *)
Definition pickError (r : Q) : option string :=
  let index := Qfloor (r * inject_Z (Z.of_nat (length errors))) in
  if index <? 0 then None else errors !! Z.to_nat index.

(** [send(email)] called when the clock reads [now]: the outcome, and the
    milliseconds that have passed when the promise fulfils. *)
Definition send (d : Draws) (m : t) (email : EmailData) (now : Z) : EmailResult * Z :=
  let elapsed := Z.max 0 (timer (delayOf d m)) in
  let later := now + elapsed in
  if Qlt_le_dec (forOutcome d) (successRate m)
  then ({| success := true;
           messageId := Some ("msg_" +:+ pretty later +:+ "_" +:+ base36 (forDetail d));
           error := None; provider := name m; timestamp := later |}, elapsed)
  else ({| success := false; messageId := None;
           error := pickError (forDetail d);
           provider := name m; timestamp := later |}, elapsed).

(** [isHealthy()]: the answer, and the 50 ms it takes. *)
Definition isHealthy (m : t) : bool * Z := (isHealthyStatus m, 50).

(** The mock as an [EmailProvider]; [chance env] gives the numbers that
    [Math.random()] returns during a [send] that starts in the world
    [env]. *)
Definition asProvider (chance : Env → Draws) (m : t) : EmailProvider :=
  mkProvider (name m)
    (λ email env,
       let '(outcome, elapsed) := send (chance env) m email (clock env) in
       (Returned outcome, elapsed)).

End Send.

(** The pre-configured backends. *)
Definition ReliableProvider : t := new "ReliableProvider" (95 # 100) 80 true.

Definition UnreliableProvider : t := new "UnreliableProvider" (7 # 10) 200 true.

Definition SlowProvider : t := new "SlowProvider" (9 # 10) 500 true.

Definition FailingProvider : t := new "FailingProvider" (1 # 10) 100 false.

End MockEmailProvider.

Record EmailServiceConfig := mkConfig {
  retry : RetryConfig;
  rateLimit : RateLimitConfig;
  circuitBreaker : CircuitBreakerConfig;
  providers : list EmailProvider
}.

(** What the surroundings of the code provide: the sequence of
    identifiers, the serialiser and the rendering of dates. *)
Record Host := mkHost {
  (** the identifier that the [n]-th call of [generateUUID] returns *)
  uuid : nat → string;
  (** the code units of [JSON.stringify] of the key content *)
  stringify : IdempotencyService.KeyContent → list Z;
  (** the text of a [Date] (or of [undefined]) inside a template literal *)
  showDate : option Z → string
}.

(** ** EmailService (src/EmailService.ts) *)

Module EmailService.

Record t := mk {
  config : EmailServiceConfig;
  circuitBreakers : gmap string CircuitBreaker.t;
  rateLimiter : RateLimiter.t;
  idempotencyService : IdempotencyService.t EmailResult;
  queue : EmailQueue.t;
  statusTracking : gmap string EmailStatus
}.

(** The objects that the statistics methods return. *)
Module ProviderStats.

Record t := mk {
  circuitBreaker : CircuitBreakerStats.t;
  healthy : bool
}.

End ProviderStats.

Module RateLimitStats.

Record t := mk {
  currentUsage : Z;
  remainingSlots : Z;
  maxRequests : Z;
  timeWindow : Z
}.

End RateLimitStats.

Module QueueStats.

Record t := mk {
  size : nat;
  items : list QueueItem
}.

End QueueStats.

Module IdempotencyStats.

Record t := mk {
  cacheSize : nat;
  pendingRequests : nat
}.

End IdempotencyStats.

(** The task a call leaves running in the background; the number bounds
    the rounds of the waiting loops inside it. *)
Definition Task : Type := nat → Async (t * Env) unit.

Definition setCircuitBreakers (m : gmap string CircuitBreaker.t) (s : t) : t :=
  {| config := config s; circuitBreakers := m; rateLimiter := rateLimiter s;
     idempotencyService := idempotencyService s; queue := queue s;
     statusTracking := statusTracking s |}.

Definition setRateLimiter (r : RateLimiter.t) (s : t) : t :=
  {| config := config s; circuitBreakers := circuitBreakers s; rateLimiter := r;
     idempotencyService := idempotencyService s; queue := queue s;
     statusTracking := statusTracking s |}.

Definition setIdempotencyService (i : IdempotencyService.t EmailResult) (s : t) : t :=
  {| config := config s; circuitBreakers := circuitBreakers s;
     rateLimiter := rateLimiter s; idempotencyService := i; queue := queue s;
     statusTracking := statusTracking s |}.

Definition setQueue (q : EmailQueue.t) (s : t) : t :=
  {| config := config s; circuitBreakers := circuitBreakers s;
     rateLimiter := rateLimiter s; idempotencyService := idempotencyService s;
     queue := q; statusTracking := statusTracking s |}.

Definition setStatusTracking (m : gmap string EmailStatus) (s : t) : t :=
  {| config := config s; circuitBreakers := circuitBreakers s;
     rateLimiter := rateLimiter s; idempotencyService := idempotencyService s;
     queue := queue s; statusTracking := m |}.

(** The constructor. *)
Definition new (cfg : EmailServiceConfig) : t :=
  {| config := cfg;
     circuitBreakers :=
       foldl (λ m p, <[name p := CircuitBreaker.new]> m) ∅ (providers cfg);
     rateLimiter := RateLimiter.new;
     idempotencyService := IdempotencyService.new;
     queue := EmailQueue.empty;
     statusTracking := ∅ |}.

(** The clock and the timers, seen from inside the service. *)
Definition Date_now (w : t * Env) : Z := clock (snd w).

Definition sleepIn {S} (ms : Z) (w : S * Env) : S * Env := (fst w, sleep ms (snd w)).

Section Service.
Context (host : Host).

(** Modelled from the spec: [generateUUID] of src/utils/UUID.ts is not
    among the sources, and the spec only says that a submission "allocates an
    id". The call returns the next identifier of the host's sequence. *)
Definition generateUUID : Async (t * Env) string :=
  λ '(s, env),
    (Returned (uuid host (generated env)),
     (s, {| clock := clock env; sendLog := sendLog env;
            generated := S (generated env) |})).

(** The writes of [updateStatus] to the record it found. *)
Definition transition (now : Z) (tag : StatusTag) (res : option EmailResult)
    (err : option string) (es : EmailStatus) : EmailStatus :=
  let es1 := {| id := id es; status := tag; attempts := attempts es;
                maxAttemptsOf := maxAttemptsOf es; lastAttempt := lastAttempt es;
                nextRetry := nextRetry es; result := result es;
                createdAt := createdAt es; updatedAt := now |} in
  match tag, res with
  | sending, _ =>
      {| id := id es1; status := status es1; attempts := attempts es1 + 1;
         maxAttemptsOf := maxAttemptsOf es1; lastAttempt := Some now;
         nextRetry := nextRetry es1; result := result es1;
         createdAt := createdAt es1; updatedAt := updatedAt es1 |}
  | sent, Some r =>
      {| id := id es1; status := status es1; attempts := attempts es1;
         maxAttemptsOf := maxAttemptsOf es1; lastAttempt := lastAttempt es1;
         nextRetry := nextRetry es1; result := Some r;
         createdAt := createdAt es1; updatedAt := updatedAt es1 |}
  | failed, _ =>
      {| id := id es1; status := status es1; attempts := attempts es1;
         maxAttemptsOf := maxAttemptsOf es1; lastAttempt := lastAttempt es1;
         nextRetry := nextRetry es1;
         result := Some {| success := false; messageId := None;
                           error := Some (orElse err "Unknown error");
                           provider := "unknown"; timestamp := now |};
         createdAt := createdAt es1; updatedAt := updatedAt es1 |}
  | _, _ => es1
  end.

Definition updateStatus (emailId : string) (tag : StatusTag)
    (res : option EmailResult) (err : option string) : Async (t * Env) unit :=
  λ '(s, env),
    match statusTracking s !! emailId with
    | None => (Returned tt, (s, env))
    | Some emailStatus =>
        (Returned tt,
         (setStatusTracking
            (<[emailId := transition (clock env) tag res err emailStatus]>
               (statusTracking s)) s,
          env))
    end.

Definition getEmailStatus (emailId : string) (s : t) : option EmailStatus :=
  statusTracking s !! emailId.

(** [error instanceof Error ? error : new Error('Unknown error')] *)
Definition asError (e : JsThrown) : JsThrown :=
  match e with
  | ErrorObj m => ErrorObj m
  | OtherValue _ => ErrorObj "Unknown error"
  end.

(** One provider of the loop of [sendWithFallback]: the retry executor
    inside the provider's circuit breaker. *)
Definition attemptVia (p : EmailProvider) (e : EmailData)
  : Async (CircuitBreaker.t * (t * Env)) EmailResult :=
  λ '(cb, (s, env)),
    CircuitBreaker.execute Date_now (showDate host) (circuitBreaker (config s))
      (outside (RetryMechanism.execute sleep (retry (config s)) (send p e) 1))
      (cb, (s, env)).

(** The [try] statement in the body of the loop of [sendWithFallback]:
    [inl] is the [return result], [inr] the new value of [lastError]. *)
Definition tryProvider (p : EmailProvider) (cb : CircuitBreaker.t) (e : EmailData)
  : Async (t * Env) (EmailResult + JsThrown) :=
  tryCatch
    (await res ←
       zoom (λ _, cb)
            (λ cb' s', setCircuitBreakers
                         (<[name p := cb']> (circuitBreakers s')) s')
            (attemptVia p e);
     if success res then ret (inl res)
     else ret (inr (ErrorObj (orElse (error res) "Provider returned failure"))))
    (λ err, ret (inr (asError err))).

(** The [for] loop of [sendWithFallback] over the providers still to
    try, with the current value of [lastError]. *)
Fixpoint fallback (ps : list EmailProvider) (e : EmailData)
    (lastError : option JsThrown) : Async (t * Env) EmailResult :=
  match ps with
  | [] => throw (default (ErrorObj "All providers failed") lastError)
  | p :: rest =>
      λ '(s, env),
        match circuitBreakers s !! name p with
        | None => fallback rest e lastError (s, env)
        | Some cb =>
            (await verdict ← tryProvider p cb e;
             match verdict with
             | inl res => ret res
             | inr err => fallback rest e (Some err)
             end) (s, env)
        end
  end.

Definition sendWithFallback (e : EmailData) : Async (t * Env) EmailResult :=
  λ '(s, env), fallback (providers (config s)) e None (s, env).

Definition waitForSlot (fuel : nat) : Async (t * Env) unit :=
  λ '(s, env),
    zoom rateLimiter setRateLimiter
      (RateLimiter.waitForSlot Date_now sleepIn (rateLimit (config s)) fuel)
      (s, env).

(** [idempotencyService.execute(idempotencyKey, () => sendWithFallback(email))].
    Every [EmailResult] is an object, hence truthy; while this caller polls
    for a pending duplicate only the clock moves. *)
Definition executeOnce (fuel : nat) (key : string) (e : EmailData)
  : Async (t * Env) EmailResult :=
  zoom idempotencyService setIdempotencyService
    (IdempotencyService.execute Date_now (λ _, true)
       (λ ms '(i, w), (i, sleepIn ms w)) fuel key
       (outside (sendWithFallback e))).

(** [processEmail(emailId, email, idempotencyKey, userId)] *)
Definition processEmail (fuel : nat) (emailId : string) (e : EmailData)
    (idempotencyKey : string) (userId : option string) : Async (t * Env) unit :=
  tryCatch
    (run updateStatus emailId sending None None;
     run waitForSlot fuel;
     await res ← executeOnce fuel idempotencyKey e;
     updateStatus emailId sent (Some res) None)
    (λ err,
       run updateStatus emailId failed None
             (Some (default "Unknown error" (messageOf err)));
       throw err).

(** [processEmail] up to its first suspension, which is the [await] of
    the first [acquire] in [waitForSlot]: the write of [sending] and that
    call of [acquire], whose answer the promise remembers. *)
Definition processEmailStart (emailId : string) : Async (t * Env) bool :=
  run updateStatus emailId sending None None;
  λ '(s, env),
    zoom rateLimiter setRateLimiter
      (RateLimiter.acquire Date_now (rateLimit (config s))) (s, env).

(** [waitForSlot] from that suspension on. *)
Definition waitForSlotFrom (granted : bool) (fuel : nat) : Async (t * Env) unit :=
  λ '(s, env),
    zoom rateLimiter setRateLimiter
      (RateLimiter.waitForSlotFrom Date_now sleepIn (rateLimit (config s))
         granted fuel)
      (s, env).

(** [processEmail] from its first suspension on. *)
Definition processEmailRest (fuel : nat) (emailId : string) (e : EmailData)
    (idempotencyKey : string) (userId : option string) (granted : bool)
  : Async (t * Env) unit :=
  tryCatch
    (run waitForSlotFrom granted fuel;
     await res ← executeOnce fuel idempotencyKey e;
     updateStatus emailId sent (Some res) None)
    (λ err,
       run updateStatus emailId failed None
             (Some (default "Unknown error" (messageOf err)));
       throw err).

(** The promise [processEmail(...).catch(error => ...)] of [sendEmail], as
    a whole. *)
Definition pipeline (emailId : string) (e : EmailData) (idempotencyKey : string)
    (userId : option string) : Task :=
  λ fuel,
    tryCatch
      (processEmail fuel emailId e idempotencyKey userId)
      (λ err, updateStatus emailId failed None (messageOf err)).

(** The same promise from the first suspension of [processEmail] on: what
    [sendEmail] leaves behind when it returns. *)
Definition launched (emailId : string) (e : EmailData) (idempotencyKey : string)
    (userId : option string) (granted : bool) : Task :=
  λ fuel,
    tryCatch
      (processEmailRest fuel emailId e idempotencyKey userId granted)
      (λ err, updateStatus emailId failed None (messageOf err)).

Definition initialStatus (emailId : string) (s : t) (now : Z) : EmailStatus :=
  {| id := emailId; status := pending; attempts := 0;
     maxAttemptsOf := maxAttempts (retry (config s));
     lastAttempt := None; nextRetry := None; result := None;
     createdAt := now; updatedAt := now |}.

(** [sendEmail(email, userId)]. Besides the identifier the model returns
    the message object as the call leaves it and the task it launched
    without awaiting it: [processEmail] has run up to its first suspension
    when the call returns, and the task is the rest of its promise. The call
    [generateKey(email, userId)] binds [userId] to the second parameter of
    [generateKey]. *)
Definition sendEmail (e : EmailData) (userId : option string)
  : Async (t * Env) (string * EmailData * Task) :=
  await emailId ← generateUUID;
  run modify (λ '(s, env),
        (setStatusTracking
           (<[emailId := initialStatus emailId s (clock env)]> (statusTracking s)) s,
         env));
  let '(idempotencyKey, e') :=
    IdempotencyService.generateKey (stringify host) e userId None in
  await granted ← processEmailStart emailId;
  ret (emailId, e', launched emailId e' idempotencyKey userId granted).

(** [enqueueEmail(email, priority)] *)
Definition enqueueEmail (e : EmailData) (p : Z) : Async (t * Env) string :=
  await newId ← generateUUID;
  λ '(s, env),
    let '(queueId, q) := EmailQueue.enqueue newId (clock env) e p (queue s) in
    (Returned queueId, (setQueue q s, env)).

(** The handler that [startQueueProcessing] installs. *)
Definition queueHandler (fuel : nat) (item : QueueItem) : Async (t * Env) unit :=
  processEmail fuel (itemId item) (email item) "" None.

(** [startQueueProcessing()]: the handler is called on the first item
    before the call returns, and has run up to the first suspension of its
    [processEmail]. *)
Definition startQueueProcessing : Async (t * Env) (EmailQueue.Suspended bool) :=
  zoom queue setQueue
    (EmailQueue.startProcessing (λ item, processEmailStart (itemId item))).

(** The drain loop of the queue: [rounds] bounds the rounds of the loop,
    [fuel] the waiting loops of each handler. *)
Definition drain (rounds fuel : nat) : Async (t * Env) unit :=
  zoom queue setQueue (EmailQueue.processNext sleepIn (queueHandler fuel) rounds).

(** The drain loop from the suspension at which [startQueueProcessing]
    left it. *)
Definition resumeDrain (rounds fuel : nat) (suspended : EmailQueue.Suspended bool)
  : Async (t * Env) unit :=
  zoom queue setQueue
    (EmailQueue.resumeProcessing sleepIn (queueHandler fuel)
       (λ item granted,
          processEmailRest fuel (itemId item) (email item) "" None granted)
       rounds suspended).

Definition stopQueueProcessing (s : t) : t :=
  setQueue (EmailQueue.stopProcessing (queue s)) s.

Definition clearCache (s : t) : t :=
  setIdempotencyService (IdempotencyService.clearCache (idempotencyService s)) s.

Definition resetCircuitBreakers (s : t) : t :=
  setCircuitBreakers (CircuitBreaker.reset <$> circuitBreakers s) s.

Definition resetRateLimiter (s : t) : t :=
  setRateLimiter (RateLimiter.reset (rateLimiter s)) s.

(** [getProviderStats()]: the entry of each configured backend that has a
    circuit breaker. The result is used as a map from names; the order in
    which a JavaScript [Map] lists its entries is not modelled. *)
Definition getProviderStats (s : t) : gmap string ProviderStats.t :=
  foldl (λ stats p,
           match circuitBreakers s !! name p with
           | Some cb =>
               <[name p := {| ProviderStats.circuitBreaker := CircuitBreaker.getStats cb;
                              ProviderStats.healthy := true |}]> stats
           | None => stats
           end)
        ∅ (providers (config s)).

(** [getRateLimitStats()]: the two readings are taken one after the other,
    each purging the limiter. *)
Definition getRateLimitStats : Async (t * Env) RateLimitStats.t :=
  λ '(s, env),
    zoom rateLimiter setRateLimiter
      (await usage ← RateLimiter.getCurrentUsage Date_now (rateLimit (config s));
       await remaining ← RateLimiter.getRemainingSlots Date_now (rateLimit (config s));
       ret {| RateLimitStats.currentUsage := usage;
              RateLimitStats.remainingSlots := remaining;
              RateLimitStats.maxRequests := maxRequests (rateLimit (config s));
              RateLimitStats.timeWindow := timeWindow (rateLimit (config s)) |})
      (s, env).

Definition getQueueStats (s : t) : QueueStats.t :=
  {| QueueStats.size := EmailQueue.getSize (queue s);
     QueueStats.items := EmailQueue.getItems (queue s) |}.

Definition getIdempotencyStats (s : t) : IdempotencyStats.t :=
  {| IdempotencyStats.cacheSize :=
       IdempotencyService.getCacheSize (idempotencyService s);
     IdempotencyStats.pendingRequests :=
       IdempotencyService.getPendingRequestsCount (idempotencyService s) |}.

End Service.

End EmailService.

(** * Notions used in the statements *)

(** The code units of a string of ASCII characters. *)
Definition codeUnits (s : string) : list Z :=
  (λ a, Z.of_nat (Ascii.nat_of_ascii a)) <$> String.list_ascii_of_string s.

(** An operation instrumented with the number of times it has been
    invoked. *)
Definition counted {W A} (op : Async W A) : Async (W * nat) A :=
  λ '(w, n), match op w with (r, w') => (r, (w', S n)) end.

(** ** The order of the queue *)

(** The length of the leading run of items whose priority number is lower
    than [p]. *)
Fixpoint lowerRun (q : list QueueItem) (p : Z) : nat :=
  match q with
  | x :: rest => if priority x <? p then S (lowerRun rest p) else O
  | [] => O
  end.

(** Insertion behind the leading run of items of lower priority number. *)
Fixpoint insertBehindLower (item : QueueItem) (q : list QueueItem) : list QueueItem :=
  match q with
  | x :: rest =>
      if priority x <? priority item then x :: insertBehindLower item rest
      else item :: x :: rest
  | [] => [item]
  end.

Definition byPriority (x y : QueueItem) : Prop := priority x ≤ priority y.

(** The priority numbers do not decrease from the front of the queue to its
    back. *)
Definition ascending (q : list QueueItem) : Prop := StronglySorted byPriority q.

(** The first three results of [dequeue], by identifier. *)
Definition dequeue3 (s : EmailQueue.t) : list (option string) :=
  let '(x1, s1) := EmailQueue.dequeue s in
  let '(x2, s2) := EmailQueue.dequeue s1 in
  let '(x3, _) := EmailQueue.dequeue s2 in
  [itemId <$> x1; itemId <$> x2; itemId <$> x3].

(** The queue scenario of the specification: [a] at priority 5, [b] at
    priority 10, [c] at priority 5, on an empty queue. *)
Definition queueScenario (ida idb idc : string) (ta tb tc : Z) (a b c : EmailData)
  : EmailQueue.t :=
  let s1 := snd (EmailQueue.enqueue ida ta a 5 EmailQueue.empty) in
  let s2 := snd (EmailQueue.enqueue idb tb b 10 s1) in
  snd (EmailQueue.enqueue idc tc c 5 s2).

(** ** Histories of a circuit breaker *)

Section CircuitBreakerNotions.
Context {W : Type} (Date_now : W → Z) (showDate : option Z → string).
Context (config : CircuitBreakerConfig).

(** The breaker as a call of [execute] leaves it. *)
Definition breakerAfter {T} (op : Async W T) (cb : CircuitBreaker.t) (w : W)
  : CircuitBreaker.t :=
  fst (snd (CircuitBreaker.execute Date_now showDate config op (cb, w))).

(** [n] consecutive calls of [execute], each with an operation that throws
    in the world in which it is called, on a breaker fresh from its
    constructor. *)
Inductive afterFailures : nat → CircuitBreaker.t → Prop :=
| AfterNone : afterFailures 0 CircuitBreaker.new
| AfterOneMore n cb T (op : Async W T) w w' e :
    afterFailures n cb →
    op w = (Thrown e, w') →
    afterFailures (S n) (breakerAfter op cb w).

(** Every breaker that calls of [execute] and [reset] can produce. *)
Inductive reachable : CircuitBreaker.t → Prop :=
| ReachNew : reachable CircuitBreaker.new
| ReachExecute cb T (op : Async W T) w :
    reachable cb → reachable (breakerAfter op cb w)
| ReachReset cb : reachable cb → reachable (CircuitBreaker.reset cb).

Definition halfOpened (cb : CircuitBreaker.t) : CircuitBreaker.t :=
  {| CircuitBreaker.state := HALF_OPEN;
     CircuitBreaker.failureCount := CircuitBreaker.failureCount cb;
     CircuitBreaker.lastFailureTime := CircuitBreaker.lastFailureTime cb;
     CircuitBreaker.nextAttemptTime := CircuitBreaker.nextAttemptTime cb |}.

Definition reopened (cb : CircuitBreaker.t) (now : Z) : CircuitBreaker.t :=
  {| CircuitBreaker.state := OPEN;
     CircuitBreaker.failureCount := CircuitBreaker.failureCount cb + 1;
     CircuitBreaker.lastFailureTime := Some now;
     CircuitBreaker.nextAttemptTime := Some (now + recoveryTimeout config) |}.

(** What [execute] does once the guard has let the call through with the
    breaker in state [cb1]. *)
Definition guarded {T} (op : Async W T) (cb1 : CircuitBreaker.t) (w : W)
  : Outcome T * (CircuitBreaker.t * W) :=
  match op w with
  | (Returned r, w') => (Returned r, (CircuitBreaker.onSuccess cb1, w'))
  | (Thrown e, w') =>
      (Thrown e, (CircuitBreaker.onFailure config (Date_now w') cb1, w'))
  | (Unsettled, w') => (Unsettled, (cb1, w'))
  end.

(** The invariant of reachable breakers. *)
Definition wellFormed (cb : CircuitBreaker.t) : Prop :=
  match CircuitBreaker.state cb with
  | CLOSED => CircuitBreaker.failureCount cb < failureThreshold config
  | HALF_OPEN => failureThreshold config ≤ CircuitBreaker.failureCount cb
  | OPEN =>
      failureThreshold config ≤ CircuitBreaker.failureCount cb
      ∧ ∃ tf, CircuitBreaker.lastFailureTime cb = Some tf
              ∧ CircuitBreaker.nextAttemptTime cb = Some (tf + recoveryTimeout config)
  end.

End CircuitBreakerNotions.

(** A breaker with threshold 3 whose clock is the world itself, and an
    operation that always throws. *)
Definition sampleBreakerConfig : CircuitBreakerConfig :=
  {| failureThreshold := 3; recoveryTimeout := 1000; monitoringPeriod := 2000 |}.

Definition alwaysThrows : Async Z unit := throw (ErrorObj "Failure").

Definition afterThreeFailures : CircuitBreaker.t :=
  let step cb now :=
    breakerAfter (λ w : Z, w) (λ _, "date") sampleBreakerConfig alwaysThrows cb now in
  step (step (step CircuitBreaker.new 10) 20) 30.

(** ** Scripted operations for the retry executor *)

(** The delays slept after the failed attempts [a], [a+1], ..., [a+j-1]. *)
Fixpoint delaysFrom (config : RetryConfig) (a : Z) (j : nat) : list Z :=
  match j with
  | O => []
  | S j' => RetryMechanism.calculateDelay config a :: delaysFrom config (a + 1) j'
  end.

(** An operation given by the way each of its invocations settles; the
    world counts the invocations and records the delays slept. *)
Definition scripted {T} (script : nat → Outcome T) : Async (nat * list Z) T :=
  λ '(calls, naps), (script calls, (S calls, naps)).

Definition nap (ms : Z) (w : nat * list Z) : nat * list Z :=
  (fst w, snd w ++ [ms]).

Definition sampleRetryConfig : RetryConfig :=
  {| maxAttempts := 3; initialDelay := 100; maxDelay := 1000; backoffMultiplier := 2 |}.

(** Throws twice, then returns 7. *)
Definition thirdTimeLucky (n : nat) : Outcome Z :=
  if (n <? 2)%nat then Thrown (ErrorObj "Temporary failure") else Returned 7.

(** ** Histories of a rate limiter *)

Section RateLimiterNotions.
Context {W : Type} (Date_now : W → Z) (sleep : Z → W → W).
Context (config : RateLimitConfig).

(** The recorded timestamps do not outnumber [maxRequests]. *)
Definition withinLimit (rl : RateLimiter.t) : Prop :=
  Z.of_nat (length (RateLimiter.requests rl)) ≤ maxRequests config.

(** The limiter states that calls of [acquire], [waitForSlot] and
    [getCurrentUsage] produce, each call in a world of its own, together with
    the clock readings of the admissions so far (latest first). *)
Inductive limiterReach : RateLimiter.t → list Z → Prop :=
| ReachFresh : limiterReach RateLimiter.new []
| ReachAcquire rl adm w ok rl' w' :
    limiterReach rl adm →
    RateLimiter.acquire Date_now config (rl, w) = (Returned ok, (rl', w')) →
    limiterReach rl' (if ok : bool then Date_now w :: adm else adm)
| ReachWait rl adm w fuel r rl' w' :
    limiterReach rl adm →
    RateLimiter.waitForSlot Date_now sleep config fuel (rl, w) = (r, (rl', w')) →
    limiterReach rl' (match r with Returned _ => Date_now w' :: adm | _ => adm end)
| ReachUsage rl adm w n rl' w' :
    limiterReach rl adm →
    RateLimiter.getCurrentUsage Date_now config (rl, w) = (Returned n, (rl', w')) →
    limiterReach rl' adm.

End RateLimiterNotions.

Definition sampleRateLimit : RateLimitConfig :=
  {| maxRequests := 2; timeWindow := 1000 |}.

(** Three calls of [acquire] at the clock readings 0, 1 and 2. *)
Definition afterThreeAcquires : RateLimiter.t :=
  let step rl now :=
    fst (snd (RateLimiter.acquire (λ w : Z, w) sampleRateLimit (rl, now))) in
  step (step (step RateLimiter.new 0) 1) 2.

(** ** Idempotent execution *)

Section IdempotencyNotions.
Context {W T : Type}.

(** What the owner of the pending marker does with the settled operation. *)
Definition settle (key : string)
    (settled : Outcome T * (IdempotencyService.t T * W))
  : Outcome T * (IdempotencyService.t T * W) :=
  match settled with
  | (Returned r, (s1, w1)) =>
      (Returned r,
       (IdempotencyService.pendingDelete key (IdempotencyService.cacheSet key r s1), w1))
  | (Thrown e, (s1, w1)) => (Thrown e, (IdempotencyService.pendingDelete key s1, w1))
  | (Unsettled, sw) => (Unsettled, sw)
  end.

End IdempotencyNotions.

(** A service in which the key ["k"] is pending and nothing is cached, in a
    world made of the clock and the number of invocations of the operation;
    a suspended caller sees only the clock move. *)
Definition pendingOnly : IdempotencyService.t Z :=
  {| IdempotencyService.cache := ∅; IdempotencyService.pendingRequests := {["k"]} |}.

Definition tick (ms : Z) (sw : IdempotencyService.t Z * (Z * nat))
  : IdempotencyService.t Z * (Z * nat) :=
  (fst sw, (fst (snd sw) + ms, snd (snd sw))).

Definition countedReturn (r : Z) : Async (IdempotencyService.t Z * (Z * nat)) Z :=
  λ '(s, (now, calls)), (Returned r, (s, (now, S calls))).

(** ** Invariants of asynchronous code *)

(** [stable I m]: however [m] settles, or fails to, a world that satisfies
    [I] before still satisfies it after. *)
Definition stable {W A} (I : W → Prop) (m : Async W A) : Prop :=
  ∀ w o w', I w → m w = (o, w') → I w'.

(** A property of the status table alone. *)
Definition onStatusTable (Q : gmap string EmailStatus → Prop)
  : EmailService.t * Env → Prop :=
  λ x, Q (EmailService.statusTracking (fst x)).

(** The record of backend calls is as it was and the empty key still holds
    the outcome [r]. *)
Definition servedFromCache (log : list (string * EmailData)) (r : EmailResult)
  : EmailService.t * Env → Prop :=
  λ x, sendLog (snd x) = log
       ∧ IdempotencyService.cache (EmailService.idempotencyService (fst x)) !! ""
         = Some r.

(** ** Submissions *)

Definition unsortedEmail : EmailData :=
  {| to := ManyRecipients ["b@example.com"; "a@example.com"];
     from := "noreply@example.com"; subject := "Test Email";
     body := "This is a test email"; html := None; cc := None; bcc := None;
     attachments := None |}.

(** The message object after [sendEmail(email, userId)]. *)
Definition messageAfterSendEmail (host : Host) (e : EmailData)
    (userId : option string) (w : EmailService.t * Env) : option EmailData :=
  match fst (EmailService.sendEmail host e userId w) with
  | Returned (_, after, _) => Some after
  | _ => None
  end.

(** A backend that fails on every attempt: its [send] settles, and either
    throws or returns an outcome that does not report success. *)
Definition alwaysFails (p : EmailProvider) : Prop :=
  ∀ e env, match fst (respond p e env) with
           | Returned r => success r = false
           | Thrown _ => True
           | Unsettled => False
           end.

Definition failure (o : Outcome EmailResult) : Prop :=
  match o with
  | Returned r => success r = false
  | Thrown _ => True
  | Unsettled => False
  end.

(** A backend that rejects every call of [send]. *)
Definition alwaysRejects (p : EmailProvider) : Prop :=
  ∀ e env, ∃ err, fst (respond p e env) = Thrown err.

(** The cause that the failure of a backend leaves behind for the fallback
    loop: what its last attempt threw (as an [Error]), or the error text of
    the outcome it returned. *)
Definition causeOf (o : Outcome EmailResult) : option JsThrown :=
  match o with
  | Returned r => Some (ErrorObj (orElse (error r) "Provider returned failure"))
  | Thrown (ErrorObj m) => Some (ErrorObj m)
  | Thrown (OtherValue _) => Some (ErrorObj "Unknown error")
  | Unsettled => None
  end.

(** What the turn of the backend [p] in the fallback loop showed, given
    the number [n] of calls it made and the state in which the turn ended:
    without a call, the breaker of [p] is open and not yet due, and the cause
    is its circuit-open error; otherwise the cause is that of the last call,
    the one that ended in the world [env']. *)
Definition observedAt (host : Host) (p : EmailProvider) (n : nat) (e : EmailData)
    (cause : JsThrown) (s' : EmailService.t) (env' : Env) : Prop :=
  match n with
  | O =>
      ∃ cb, EmailService.circuitBreakers s' !! name p = Some cb
            ∧ CircuitBreaker.state cb = OPEN
            ∧ CircuitBreaker.shouldAttemptReset (clock env') cb = false
            ∧ cause = CircuitBreaker.openError (showDate host) cb
  | S _ =>
      ∃ envK o, send p e envK = (o, env') ∧ failure o ∧ causeOf o = Some cause
  end.

(** The calls of [send] with the message [e] when the backends of [ps] are
    called in the order of the list, the first [counts !! 0] times, the
    second [counts !! 1] times, and so on. *)
Definition callBlocks (ps : list EmailProvider) (counts : list nat) (e : EmailData)
  : list (string * EmailData) :=
  concat (zip_with (λ p n, replicate n (name p, e)) ps counts).

(** ** A concrete service *)

Definition sampleHost : Host :=
  {| uuid := λ n, "id-" +:+ pretty n;
     stringify := λ _, [];
     showDate := λ _, "date" |}.

(** A backend that always answers with a structured failure after 5 ms. *)
Definition failingProvider : EmailProvider :=
  {| name := "FailingProvider";
     respond := λ _ env,
       (Returned {| success := false; messageId := None;
                    error := Some "SMTP connection failed";
                    provider := "FailingProvider"; timestamp := clock env |}, 5) |}.

Definition failingConfig : EmailServiceConfig :=
  {| retry := sampleRetryConfig; rateLimit := sampleRateLimit;
     circuitBreaker := sampleBreakerConfig; providers := [failingProvider] |}.

Definition sampleEmail : EmailData :=
  {| to := OneRecipient "test@example.com"; from := "noreply@example.com";
     subject := "Test Email"; body := "This is a test email"; html := None;
     cc := None; bcc := None; attachments := None |}.

Definition sampleEnv : Env := {| clock := 0; sendLog := []; generated := 0 |}.

(** The status of a submission once its task has returned. *)
Definition settledStatus (host : Host) (e : EmailData) (userId : option string)
    (fuel : nat) (w : EmailService.t * Env) : option StatusTag :=
  match EmailService.sendEmail host e userId w with
  | (Returned (emailId, _, task), w1) =>
      match task fuel w1 with
      | (Returned _, (s2, _)) => status <$> EmailService.getEmailStatus emailId s2
      | _ => None
      end
  | _ => None
  end.

(** The status of the identifier that [enqueueEmail] returns. *)
Definition queuedStatus (host : Host) (e : EmailData) (p : Z)
    (w : EmailService.t * Env) : option EmailStatus :=
  match EmailService.enqueueEmail host e p w with
  | (Returned queueId, (s1, _)) => EmailService.getEmailStatus queueId s1
  | _ => None
  end.

(** [generateUUID] has handed out [g] identifiers so far. *)
Definition identifiersSoFar (g : nat) : EmailService.t * Env → Prop :=
  λ w, generated (snd w) = g.

(** ** The life of a service *)

(** One step in the life of a service: a call of a public method, a run of
    a pipeline task or of the drain loop, as a whole or from the suspension
    at which the call that started it left it (for any bound on their loops),
    or the passing of time. *)
Inductive serviceStep (host : Host)
  : EmailService.t * Env → EmailService.t * Env → Prop :=
| StepSendEmail e userId w r w' :
    EmailService.sendEmail host e userId w = (r, w') → serviceStep host w w'
| StepPipeline emailId e key userId fuel w o w' :
    EmailService.pipeline host emailId e key userId fuel w = (o, w') →
    serviceStep host w w'
| StepLaunched emailId e key userId granted fuel w o w' :
    EmailService.launched host emailId e key userId granted fuel w = (o, w') →
    serviceStep host w w'
| StepEnqueueEmail e p w r w' :
    EmailService.enqueueEmail host e p w = (r, w') → serviceStep host w w'
| StepStartQueue w r w' :
    EmailService.startQueueProcessing w = (r, w') → serviceStep host w w'
| StepDrain rounds fuel w o w' :
    EmailService.drain host rounds fuel w = (o, w') → serviceStep host w w'
| StepResumeDrain rounds fuel suspended w o w' :
    EmailService.resumeDrain host rounds fuel suspended w = (o, w') →
    serviceStep host w w'
| StepStopQueue s env :
    serviceStep host (s, env) (EmailService.stopQueueProcessing s, env)
| StepClearCache s env :
    serviceStep host (s, env) (EmailService.clearCache s, env)
| StepResetCircuitBreakers s env :
    serviceStep host (s, env) (EmailService.resetCircuitBreakers s, env)
| StepResetRateLimiter s env :
    serviceStep host (s, env) (EmailService.resetRateLimiter s, env)
| StepClock s env ms :
    serviceStep host (s, env) (s, sleep ms env).

(** The states of a service built by the constructor from [cfg]. *)
Definition serviceReach (host : Host) (cfg : EmailServiceConfig) (env0 : Env)
    (w : EmailService.t * Env) : Prop :=
  rtc (serviceStep host) (EmailService.new cfg, env0) w.

(** Every record of the status table is under an identifier that
    [generateUUID] has handed out. *)
Definition allocated (host : Host) (w : EmailService.t * Env) : Prop :=
  ∀ j, is_Some (EmailService.statusTracking (fst w) !! j) →
       ∃ n, (n < generated (snd w))%nat ∧ j = uuid host n.

(** The identifier number [k] has been handed out and has no record. *)
Definition withoutRecord (host : Host) (k : nat) (w : EmailService.t * Env) : Prop :=
  EmailService.statusTracking (fst w) !! uuid host k = None
  ∧ (k < generated (snd w))%nat.

(** Nothing is cached, nothing is pending, and the rate limiter is within
    its limit. *)
Definition nothingCached (cfg : EmailServiceConfig) (w : EmailService.t * Env)
  : Prop :=
  EmailService.config (fst w) = cfg
  ∧ IdempotencyService.cache (EmailService.idempotencyService (fst w)) = ∅
  ∧ IdempotencyService.pendingRequests (EmailService.idempotencyService (fst w)) = ∅
  ∧ withinLimit (rateLimit cfg) (EmailService.rateLimiter (fst w)).

(** ** Histories of a queue *)

(** The queues that the methods of [EmailQueue] and its drain loop produce,
    for any processor, world and bound on the rounds of the loop. *)
Inductive queueReach : EmailQueue.t → Prop :=
| QueueEmpty : queueReach EmailQueue.empty
| QueueEnqueue s newId now e p :
    queueReach s → queueReach (snd (EmailQueue.enqueue newId now e p s))
| QueueDequeue s : queueReach s → queueReach (snd (EmailQueue.dequeue s))
| QueueRemove s id : queueReach s → queueReach (snd (EmailQueue.remove id s))
| QueueUpdatePriority s id newPriority :
    queueReach s → queueReach (snd (EmailQueue.updatePriority id newPriority s))
| QueueClear s : queueReach s → queueReach (EmailQueue.clear s)
| QueueStart s W R (processorStart : QueueItem → Async W R) w r s' w' :
    queueReach s →
    EmailQueue.startProcessing processorStart (s, w) = (r, (s', w')) →
    queueReach s'
| QueueStop s : queueReach s → queueReach (EmailQueue.stopProcessing s)
| QueueProcessNext s W (sleep : Z → W → W) processor rounds w o s' w' :
    queueReach s →
    EmailQueue.processNext sleep processor rounds (s, w) = (o, (s', w')) →
    queueReach s'
| QueueResume s W R (sleep : Z → W → W) processor
    (processorRest : QueueItem → R → Async W unit) rounds suspended w o s' w' :
    queueReach s →
    EmailQueue.resumeProcessing sleep processor processorRest rounds suspended (s, w)
    = (o, (s', w')) →
    queueReach s'.

(** A processor instrumented with the record of the items handed to it,
    oldest first, each as it was when handed over. *)
Definition recorded {W} (processor : QueueItem → Async W unit)
  : QueueItem → Async (W * list QueueItem) unit :=
  λ item '(w, seen),
    match processor item w with (r, w') => (r, (w', seen ++ [item])) end.

Definition sleepRecorded {W} (sleep : Z → W → W) (ms : Z) (x : W * list QueueItem)
  : W * list QueueItem :=
  (sleep ms (fst x), snd x).

(** The item as the drain loop hands it over in [n] successive attempts,
    the retry count going up by one each time. *)
Fixpoint attemptsFrom (n : nat) (x : QueueItem) : list QueueItem :=
  match n with
  | O => []
  | S n' => x :: attemptsFrom n' (EmailQueue.bumpRetry x)
  end.

(** The number of times a processor that always rejects is handed an item:
    once, and once more for each retry count below 3 it passes through. *)
Definition attemptsLeft (x : QueueItem) : nat :=
  Z.to_nat (Z.max 1 (4 - retryCount x)).

(** ** What the statistics of a circuit breaker show *)

Definition statsConsistent (config : CircuitBreakerConfig) (cb : CircuitBreaker.t)
  : Prop :=
  0 ≤ CircuitBreaker.failureCount cb
  ∧ (CircuitBreaker.failureCount cb = 0 ↔ CircuitBreaker.lastFailureTime cb = None)
  ∧ match CircuitBreaker.state cb with
    | CLOSED =>
        CircuitBreaker.failureCount cb < failureThreshold config
        ∧ CircuitBreaker.nextAttemptTime cb = None
    | _ =>
        failureThreshold config ≤ CircuitBreaker.failureCount cb
        ∧ ∃ tf, CircuitBreaker.lastFailureTime cb = Some tf
                ∧ CircuitBreaker.nextAttemptTime cb = Some (tf + recoveryTimeout config)
    end.

(** ** The content that a key is computed from *)

(** The order of [Array.prototype.sort()] on strings. *)
Definition codeUnitOrder (a b : string) : Prop := String.leb a b = true.

Definition sortedStrings (l : list string) : Prop := StronglySorted codeUnitOrder l.

(** The same addresses, in any order. *)
Definition sameRecipients (r1 r2 : Recipients) : Prop :=
  match r1, r2 with
  | ManyRecipients l1, ManyRecipients l2 => l1 ≡ₚ l2
  | OneRecipient a1, OneRecipient a2 => a1 = a2
  | _, _ => False
  end.

Definition sameCopies (c1 c2 : option (list string)) : Prop :=
  match c1, c2 with
  | Some l1, Some l2 => l1 ≡ₚ l2
  | None, None => True
  | _, _ => False
  end.

(** Two messages that differ at most in the order of their recipients and
    in their attachments. *)
Definition sameKeyContent (e1 e2 : EmailData) : Prop :=
  sameRecipients (to e1) (to e2)
  ∧ from e1 = from e2 ∧ subject e1 = subject e2 ∧ body e1 = body e2
  ∧ html e1 = html e2
  ∧ sameCopies (cc e1) (cc e2) ∧ sameCopies (bcc e1) (bcc e2).

Definition sortedRecipients (r : Recipients) : Prop :=
  match r with
  | ManyRecipients l => sortedStrings l
  | OneRecipient _ => True
  end.

Definition sortedCopies (c : option (list string)) : Prop :=
  match c with
  | Some l => sortedStrings l
  | None => True
  end.

(** One round of the string hash with multiplier 31, on unbounded
    integers. *)
Definition polynomialStep (hash char : Z) : Z := 31 * hash + char.

(** The unsorted message with its recipients in order and an attachment. *)
Definition sortedEmailWithAttachment : EmailData :=
  {| to := ManyRecipients ["a@example.com"; "b@example.com"];
     from := "noreply@example.com"; subject := "Test Email";
     body := "This is a test email"; html := None; cc := None; bcc := None;
     attachments := Some [{| filename := "notes.txt"; content := "hello";
                             contentType := None |}] |}.

(** A serialiser for examples: the addresses of [to], separated by commas. *)
Definition sampleStringify (c : IdempotencyService.KeyContent) : list Z :=
  codeUnits (match IdempotencyService.k_to c with
             | ManyRecipients l => String.concat "," l
             | OneRecipient a => a
             end).

(** ** What a service keeps true *)

(** A backend whose [send] always fulfils, whatever the outcome says. *)
Definition neverRejects (p : EmailProvider) : Prop :=
  ∀ e env, ∃ r, fst (respond p e env) = Returned r.

(** What holds of the record stored under the identifier [k]. *)
Definition recordSound (cfg : EmailServiceConfig) (k : string) (es : EmailStatus)
  : Prop :=
  id es = k
  ∧ status es ≠ retrying
  ∧ nextRetry es = None
  ∧ maxAttemptsOf es = maxAttempts (retry cfg)
  ∧ 0 ≤ attempts es
  ∧ (attempts es = 0 ↔ lastAttempt es = None)
  ∧ (status es = pending → attempts es = 0 ∧ result es = None)
  ∧ (status es = sent → ∃ r, result es = Some r ∧ success r = true)
  ∧ (status es = failed →
     ∃ text now,
       text ≠ ""
       ∧ result es = Some {| success := false; messageId := None;
                             error := Some text; provider := "unknown";
                             timestamp := now |}).

(** The configuration is the one given to the constructor, every cached
    outcome reports success, and every record is sound. *)
Definition recordsSound (cfg : EmailServiceConfig) (w : EmailService.t * Env)
  : Prop :=
  EmailService.config (fst w) = cfg
  ∧ (∀ k r, IdempotencyService.cache (EmailService.idempotencyService (fst w)) !! k
            = Some r → success r = true)
  ∧ (∀ k es, EmailService.statusTracking (fst w) !! k = Some es →
             recordSound cfg k es).

(** The names of the configured backends. *)
Definition providerNames (cfg : EmailServiceConfig) : list string :=
  name <$> providers cfg.

(** Every configured name has a circuit breaker, no other name has one, each
    breaker is one that calls of [execute] and [reset] produce, and the
    breaker of a name whose backends never reject is as the constructor made
    it. *)
Definition breakersSound (host : Host) (cfg : EmailServiceConfig)
    (w : EmailService.t * Env) : Prop :=
  EmailService.config (fst w) = cfg
  ∧ (∀ n, is_Some (EmailService.circuitBreakers (fst w) !! n) ↔ n ∈ providerNames cfg)
  ∧ (∀ n cb, EmailService.circuitBreakers (fst w) !! n = Some cb →
             reachable EmailService.Date_now (showDate host) (circuitBreaker cfg) cb
             ∧ ((∀ p, p ∈ providers cfg → name p = n → neverRejects p) →
                cb = CircuitBreaker.new)).

(** The rate limiter holds no more timestamps than its limit. *)
Definition limiterSound (cfg : EmailServiceConfig) (w : EmailService.t * Env)
  : Prop :=
  EmailService.config (fst w) = cfg
  ∧ withinLimit (rateLimit cfg) (EmailService.rateLimiter (fst w)).

(** The queue is in ascending order of the priority number. *)
Definition queueSound (w : EmailService.t * Env) : Prop :=
  ascending (EmailQueue.queue (EmailService.queue (fst w))).

(** The calls of [send] that a run has added to the record of calls. *)
Definition callsAdded (before after : Env) (calls : list (string * EmailData))
  : Prop :=
  sendLog after = sendLog before ++ calls.

(** ** Invariants with a condition on what is returned *)

(** [stableWith I Q m]: [m] keeps [I], and what it returns satisfies [Q]. *)
Definition stableWith {W A} (I : W → Prop) (Q : A → Prop) (m : Async W A) : Prop :=
  ∀ w o w', I w → m w = (o, w') → I w' ∧ ∀ a, o = Returned a → Q a.

(** ** A service after one submission *)

(** The service built from [failingConfig], after one call of [sendEmail]. *)
Definition afterOneSubmission : EmailService.t * Env :=
  snd (EmailService.sendEmail sampleHost sampleEmail None
         (EmailService.new failingConfig, sampleEnv)).

(** ** Backends that work, and breakers that are open *)

(** A backend whose [send] always fulfils with an outcome that reports
    success. *)
Definition alwaysSucceeds (p : EmailProvider) : Prop :=
  ∀ e env, ∃ r d, respond p e env = (Returned r, d) ∧ success r = true.

(** The error that [sendWithFallback] throws when the breaker of every
    backend is open: the circuit-open error of the last backend, or the
    general one when there is no backend at all. *)
Definition lastOpenError (host : Host) (s : EmailService.t) : JsThrown :=
  match last (providers (EmailService.config s)) with
  | Some p =>
      match EmailService.circuitBreakers s !! name p with
      | Some cb => CircuitBreaker.openError (showDate host) cb
      | None => ErrorObj "All providers failed"
      end
  | None => ErrorObj "All providers failed"
  end.

(** A backend that answers every message with success after 5 ms. *)
Definition workingProvider : EmailProvider :=
  {| name := "WorkingProvider";
     respond := λ _ env,
       (Returned {| success := true; messageId := Some "msg_1"; error := None;
                    provider := "WorkingProvider"; timestamp := clock env |}, 5) |}.

(** A failing backend in front of a working one. *)
Definition fallbackConfig : EmailServiceConfig :=
  {| retry := sampleRetryConfig; rateLimit := sampleRateLimit;
     circuitBreaker := sampleBreakerConfig;
     providers := [failingProvider; workingProvider] |}.

(** The service of [failingConfig] with the breaker of its backend open
    since the clock read 30. *)
Definition shieldedService : EmailService.t :=
  EmailService.setCircuitBreakers
    (<["FailingProvider" := afterThreeFailures]> ∅)
    (EmailService.new failingConfig).

(** The service of [fallbackConfig] in which the outcome of an earlier
    submission of the user ["user123"] is cached. *)
Definition earlierOutcome : EmailResult :=
  {| success := true; messageId := Some "msg_1"; error := None;
     provider := "WorkingProvider"; timestamp := 0 |}.

Definition answeredService : EmailService.t :=
  EmailService.setIdempotencyService
    {| IdempotencyService.cache := <["idempotency_user123" := earlierOutcome]> ∅;
       IdempotencyService.pendingRequests := ∅ |}
    (EmailService.new fallbackConfig).

(** The record of a submission once its task has returned. *)
Definition settledRecord (host : Host) (e : EmailData) (userId : option string)
    (fuel : nat) (w : EmailService.t * Env) : option EmailStatus :=
  match EmailService.sendEmail host e userId w with
  | (Returned (emailId, _, task), w1) =>
      match task fuel w1 with
      | (Returned _, (s2, _)) => EmailService.getEmailStatus emailId s2
      | _ => None
      end
  | _ => None
  end.

(** The service of [failingConfig] after one call of [enqueueEmail]. *)
Definition afterOneEnqueue : EmailService.t * Env :=
  snd (EmailService.enqueueEmail sampleHost sampleEmail 5
         (EmailService.new failingConfig, sampleEnv)).

(** The statistics of a breaker fresh from its constructor. *)
Definition freshBreakerStats : EmailService.ProviderStats.t :=
  {| EmailService.ProviderStats.circuitBreaker :=
       CircuitBreaker.getStats CircuitBreaker.new;
     EmailService.ProviderStats.healthy := true |}.

(** ** Mock backends *)

(** What the constructor and the setters of a mock backend keep. *)
Definition wellFormedMock (m : MockEmailProvider.t) : Prop :=
  (0 <= MockEmailProvider.successRate m <= 1)%Q
  ∧ (0 <= MockEmailProvider.averageDelay m)%Q.

(** The mocks that the constructor and the setters produce. *)
Inductive mockReach : MockEmailProvider.t → Prop :=
| MockNew name successRate averageDelay isHealthy :
    mockReach (MockEmailProvider.new name successRate averageDelay isHealthy)
| MockSetSuccessRate rate m :
    mockReach m → mockReach (MockEmailProvider.setSuccessRate rate m)
| MockSetAverageDelay delay m :
    mockReach m → mockReach (MockEmailProvider.setAverageDelay delay m)
| MockSetHealthy healthy m :
    mockReach m → mockReach (MockEmailProvider.setHealthy healthy m).

(** [Math.random()] returns numbers from 0 up to, but not including, 1. *)
Definition unitDraws (d : MockEmailProvider.Draws) : Prop :=
  (0 <= MockEmailProvider.forDelay d < 1)%Q
  ∧ (0 <= MockEmailProvider.forOutcome d < 1)%Q
  ∧ (0 <= MockEmailProvider.forDetail d < 1)%Q.

(** Draws, a rendering and a timer for examples. *)
Definition sampleDraws : MockEmailProvider.Draws :=
  {| MockEmailProvider.forDelay := 1 # 4;
     MockEmailProvider.forOutcome := 1 # 2;
     MockEmailProvider.forDetail := 3 # 4 |}.

Definition sampleBase36 (r : Q) : string := "k2j5x9q1z".

Definition sampleTimer (delay : Q) : Z := Qceiling delay.

(** A service whose backends are the two mocks of the example of use. *)
Definition mockConfig : EmailServiceConfig :=
  {| retry := sampleRetryConfig; rateLimit := sampleRateLimit;
     circuitBreaker := sampleBreakerConfig;
     providers :=
       MockEmailProvider.asProvider sampleBase36 sampleTimer (λ _, sampleDraws)
       <$> [MockEmailProvider.ReliableProvider;
            MockEmailProvider.UnreliableProvider] |}.

(** * Properties *)

(** ** Checks of the model on known values *)

(** The key hash is the 31-multiplier string hash on 32-bit integers. *)
Example hashOf_abc : IdempotencyService.hashOf (codeUnits "abc") = 96354.
Proof. reflexivity. Qed.

Example hashOf_wraps :
  IdempotencyService.hashOf (codeUnits "polygenelubricants") = - 2 ^ 31.
Proof. vm_compute. reflexivity. Qed.

Example sort_by_code_unit :
  IdempotencyService.sort ["b@x.com"; "a@x.com"; "B@x.com"] = ["B@x.com"; "a@x.com"; "b@x.com"].
Proof. reflexivity. Qed.

Example generateKey_explicit_token (e : EmailData) :
  IdempotencyService.generateKey (λ _, []) e (Some "user123") None
  = ("idempotency_user123", e).
Proof. reflexivity. Qed.

Example calculateDelay_values :
  RetryMechanism.calculateDelay
    {| maxAttempts := 3; initialDelay := 100; maxDelay := 1000; backoffMultiplier := 2 |}
  <$> [1; 2; 3; 4; 5; 6]
  = [100; 200; 400; 800; 1000; 1000].
Proof. reflexivity. Qed.

(** ** EmailQueue *)

(** The loop of [insertWithPriority] counts the leading items of lower
    priority number. *)
Lemma scan_lowerRun (q : list QueueItem) (p : Z) :
  ∀ i k, EmailQueue.scan q p i k
         = match lowerRun q p with O => k | S n => (i + S n)%nat end.
Proof.
  induction q as [|x rest IH]; intros i k; simpl; [done|].
  destruct (priority x <? p); [|done].
  rewrite IH. destruct (lowerRun rest p); lia.
Qed.

Lemma insertWithPriority_queue (item : QueueItem) (s : EmailQueue.t) :
  EmailQueue.queue (EmailQueue.insertWithPriority item s)
  = insertBehindLower item (EmailQueue.queue s).
Proof.
  unfold EmailQueue.insertWithPriority, EmailQueue.splice0. simpl.
  rewrite scan_lowerRun.
  replace (match lowerRun (EmailQueue.queue s) (priority item) with
           | O => O | S n => (0 + S n)%nat end)
    with (lowerRun (EmailQueue.queue s) (priority item))
    by (by destruct (lowerRun _ _)).
  induction (EmailQueue.queue s) as [|x rest IH]; simpl; [done|].
  destruct (priority x <? priority item); simpl; [by rewrite IH|done].
Qed.

Lemma insertBehindLower_permutation (item : QueueItem) (q : list QueueItem) :
  insertBehindLower item q ≡ₚ item :: q.
Proof.
  induction q as [|x rest IH]; simpl; [done|].
  destruct (priority x <? priority item); [|done].
  rewrite IH. apply Permutation_swap.
Qed.

Lemma insertBehindLower_ascending (item : QueueItem) (q : list QueueItem) :
  ascending q → ascending (insertBehindLower item q).
Proof.
  unfold ascending. induction 1 as [|x rest Hrest IH Hx]; simpl.
  - repeat constructor.
  - destruct (Z.ltb_spec (priority x) (priority item)) as [Hlt|Hge].
    + constructor; [exact IH|].
      rewrite insertBehindLower_permutation. constructor; [|exact Hx].
      unfold byPriority. lia.
    + constructor; [by constructor|]. constructor; [exact Hge|].
      eapply Forall_impl; [exact Hx|]. unfold byPriority. intros y Hy. simpl in *. lia.
Qed.

(** The scenario of the specification, evaluated: the dequeues return c,
    then a, then b. *)
Lemma queue_scenario_order ida idb idc ta tb tc a b c :
  dequeue3 (queueScenario ida idb idc ta tb tc a b c)
  = [Some idc; Some ida; Some idb].
Proof. reflexivity. Qed.

(** C1, amended. [insertWithPriority], through which [enqueue] places
    every item, keeps the queue in ascending order of the priority number,
    so [dequeue] returns an item whose number is no higher
    than that of any item left (the lower number is served first): inserting
    into an ascending queue gives an ascending queue with the same items and
    the new one; [dequeue] takes the front of it; and after enqueue(a, 5),
    enqueue(b, 10), enqueue(c, 5) on an empty queue the first two dequeues
    return the two items of priority 5 and the third returns b. *)
Theorem queue_serves_lower_number_first :
  (∀ item s,
     ascending (EmailQueue.queue s) →
     ascending (EmailQueue.queue (EmailQueue.insertWithPriority item s))
     ∧ EmailQueue.queue (EmailQueue.insertWithPriority item s)
       ≡ₚ item :: EmailQueue.queue s)
  ∧ (∀ s x s',
       ascending (EmailQueue.queue s) →
       EmailQueue.dequeue s = (Some x, s') →
       EmailQueue.queue s = x :: EmailQueue.queue s'
       ∧ Forall (byPriority x) (EmailQueue.queue s')
       ∧ ascending (EmailQueue.queue s'))
  ∧ (∀ ida idb idc ta tb tc a b c,
       take 2 (dequeue3 (queueScenario ida idb idc ta tb tc a b c))
       ≡ₚ [Some ida; Some idc]
       ∧ dequeue3 (queueScenario ida idb idc ta tb tc a b c) !! 2%nat
         = Some (Some idb)).
Proof.
  split; [|split].
  - intros item s Hasc. rewrite insertWithPriority_queue.
    split; [by apply insertBehindLower_ascending|apply insertBehindLower_permutation].
  - intros s x s' Hasc. unfold EmailQueue.dequeue.
    destruct (EmailQueue.queue s) as [|y rest] eqn:Hq; [discriminate|].
    intros [= -> <-]. simpl. split; [done|].
    unfold ascending in Hasc. apply StronglySorted_inv in Hasc as [Hrest Hx].
    by split.
  - intros. rewrite queue_scenario_order. simpl. split; [apply Permutation_swap|done].
Qed.

(** C1 as stated fails: in the scenario the three dequeues return c, a, b,
    not b, a, c. *)
Lemma queue_scenario_counterexample :
  dequeue3 (queueScenario "a" "b" "c" 0 1 2 sampleEmail sampleEmail sampleEmail)
  = [Some "c"; Some "a"; Some "b"]
  ∧ [Some "c"; Some "a"; Some "b"] ≠ [Some "b"; Some "a"; Some "c"].
Proof. split; [apply queue_scenario_order|discriminate]. Qed.

(** ** CircuitBreaker *)

Section CircuitBreakerProps.
Context {W : Type} (Date_now : W → Z) (showDate : option Z → string).
Context (config : CircuitBreakerConfig).

#[local] Abbreviation execute := (CircuitBreaker.execute Date_now showDate config).

Lemma execute_not_open {T} (op : Async W T) cb w :
  CircuitBreaker.state cb ≠ OPEN →
  execute op (cb, w) = guarded Date_now config op cb w.
Proof.
  intros Hst. unfold CircuitBreaker.execute, guarded, bind, tryCatch, outside,
    modify, ret, throw, CircuitBreaker.enter.
  destruct (CircuitBreaker.state cb) eqn:E; try congruence;
    destruct (op w) as [[r|e|] w']; reflexivity.
Qed.

Lemma execute_open_early {T} (op : Async W T) cb w :
  CircuitBreaker.state cb = OPEN →
  CircuitBreaker.shouldAttemptReset (Date_now w) cb = false →
  execute op (cb, w) = (Thrown (CircuitBreaker.openError showDate cb), (cb, w)).
Proof.
  intros Hst Hno. unfold CircuitBreaker.execute, bind, CircuitBreaker.enter.
  rewrite Hst, Hno. reflexivity.
Qed.

Lemma execute_open_due {T} (op : Async W T) cb w :
  CircuitBreaker.state cb = OPEN →
  CircuitBreaker.shouldAttemptReset (Date_now w) cb = true →
  execute op (cb, w) = guarded Date_now config op (halfOpened cb) w.
Proof.
  intros Hst Hyes. unfold CircuitBreaker.execute, guarded, bind, tryCatch,
    outside, modify, ret, throw, CircuitBreaker.enter.
  rewrite Hst, Hyes. fold (halfOpened cb).
  destruct (op w) as [[r|e|] w']; reflexivity.
Qed.

Lemma onFailure_wellFormed now cb :
  wellFormed config cb → CircuitBreaker.state cb ≠ OPEN →
  wellFormed config (CircuitBreaker.onFailure config now cb).
Proof.
  unfold wellFormed, CircuitBreaker.onFailure. intros Hwf Hst.
  destruct (failureThreshold config <=? CircuitBreaker.failureCount cb + 1) eqn:E;
    simpl.
  - apply Z.leb_le in E. split; [lia|eauto].
  - apply Z.leb_gt in E.
    destruct (CircuitBreaker.state cb); try congruence; lia.
Qed.

Lemma guarded_wellFormed {T} (op : Async W T) cb w :
  wellFormed config cb → CircuitBreaker.state cb ≠ OPEN →
  1 ≤ failureThreshold config →
  wellFormed config (fst (snd (guarded Date_now config op cb w))).
Proof.
  intros Hwf Hst Hpos. unfold guarded.
  destruct (op w) as [[r|e|] w']; simpl.
  - unfold wellFormed; simpl; lia.
  - by apply onFailure_wellFormed.
  - done.
Qed.

Lemma reachable_wellFormed cb :
  1 ≤ failureThreshold config → reachable Date_now showDate config cb → wellFormed config cb.
Proof.
  intros Hpos Hr. induction Hr as [|cb T op w Hr IH|cb Hr IH].
  - unfold wellFormed; simpl; lia.
  - unfold breakerAfter.
    destruct (CircuitBreaker.state cb) eqn:Hst.
    + rewrite execute_not_open by congruence.
      apply guarded_wellFormed; [done|congruence|done].
    + destruct (CircuitBreaker.shouldAttemptReset (Date_now w) cb) eqn:Hdue.
      * rewrite execute_open_due by done.
        apply guarded_wellFormed; [|simpl; congruence|done].
        unfold wellFormed in *; rewrite Hst in IH; simpl. tauto.
      * rewrite execute_open_early by done. done.
    + rewrite execute_not_open by congruence.
      apply guarded_wellFormed; [done|congruence|done].
  - unfold wellFormed; simpl; lia.
Qed.

Lemma afterFailures_closed n cb :
  afterFailures Date_now showDate config n cb →
  Z.of_nat n < failureThreshold config →
  CircuitBreaker.state cb = CLOSED
  ∧ CircuitBreaker.failureCount cb = Z.of_nat n
  ∧ CircuitBreaker.nextAttemptTime cb = None.
Proof.
  induction 1 as [|n cb T op w w' e Hprev IH Hop]; intros Hlt; [done|].
  destruct IH as (Hst & Hcount & Hnext); [lia|].
  unfold breakerAfter. rewrite execute_not_open by congruence.
  unfold guarded. rewrite Hop. simpl. unfold CircuitBreaker.onFailure.
  rewrite Hcount.
  destruct (failureThreshold config <=? Z.of_nat n + 1) eqn:E;
    [apply Z.leb_le in E; lia|].
  simpl. repeat split; [done|lia|done].
Qed.

Lemma afterFailures_threshold n cb :
  afterFailures Date_now showDate config n cb →
  Z.of_nat n = failureThreshold config →
  1 ≤ failureThreshold config →
  CircuitBreaker.state cb = OPEN
  ∧ CircuitBreaker.failureCount cb = failureThreshold config
  ∧ ∃ tf, CircuitBreaker.lastFailureTime cb = Some tf
          ∧ CircuitBreaker.nextAttemptTime cb = Some (tf + recoveryTimeout config).
Proof.
  intros Haf Hn Hpos. destruct Haf as [|n cb T op w w' e Hprev Hop]; [simpl in *; lia|].
  destruct (afterFailures_closed _ _ Hprev) as (Hst & Hcount & _); [lia|].
  unfold breakerAfter. rewrite execute_not_open by congruence.
  unfold guarded. rewrite Hop. simpl. unfold CircuitBreaker.onFailure.
  rewrite Hcount.
  destruct (failureThreshold config <=? Z.of_nat n + 1) eqn:E;
    [|apply Z.leb_gt in E; lia].
  simpl. repeat split; [lia|eauto].
Qed.

End CircuitBreakerProps.

(** C2. A breaker fresh from its constructor is Closed while fewer than
    [failureThreshold] consecutive calls have failed and Open after exactly
    [failureThreshold] of them. A reachable Open breaker remembers the time
    [tf] of the last failure; a call before [tf + recoveryTimeout] throws the
    circuit-open error and does not invoke the operation (the invocation
    count stays [n]); a call at or after that time moves the breaker to
    HalfOpen and invokes the operation once, a success closing the breaker
    with failure count 0 and a failure opening it again; and whenever the
    operation is invoked and throws, the call throws the same value. *)
Theorem circuit_breaker_lifecycle {W : Type} (Date_now : W → Z)
    (showDate : option Z → string) (config : CircuitBreakerConfig) :
  1 ≤ failureThreshold config →
  (∀ n cb, afterFailures Date_now showDate config n cb →
     (Z.of_nat n < failureThreshold config → CircuitBreaker.state cb = CLOSED)
     ∧ (Z.of_nat n = failureThreshold config → CircuitBreaker.state cb = OPEN))
  ∧ (∀ cb, reachable Date_now showDate config cb →
       CircuitBreaker.state cb = OPEN →
       ∃ tf, CircuitBreaker.lastFailureTime cb = Some tf
         ∧ CircuitBreaker.nextAttemptTime cb = Some (tf + recoveryTimeout config)
         ∧ ∀ T (op : Async W T) w n,
             let call := CircuitBreaker.execute (λ x, Date_now (fst x)) showDate
                           config (counted op) (cb, (w, n)) in
             (Date_now w < tf + recoveryTimeout config →
                call = (Thrown (CircuitBreaker.openError showDate cb), (cb, (w, n))))
             ∧ (tf + recoveryTimeout config ≤ Date_now w →
                  CircuitBreaker.enter Date_now showDate (cb, w)
                  = (Returned tt, (halfOpened cb, w))
                  ∧ match op w with
                    | (Returned r, w') =>
                        call = (Returned r, (CircuitBreaker.new, (w', S n)))
                    | (Thrown e, w') =>
                        call = (Thrown e, (reopened config cb (Date_now w'), (w', S n)))
                    | (Unsettled, w') =>
                        call = (Unsettled, (halfOpened cb, (w', S n)))
                    end))
  ∧ (∀ cb T (op : Async W T) w w' e,
       op w = (Thrown e, w') →
       (CircuitBreaker.state cb = OPEN →
        CircuitBreaker.shouldAttemptReset (Date_now w) cb = true) →
       ∃ cb', CircuitBreaker.execute Date_now showDate config op (cb, w)
              = (Thrown e, (cb', w'))).
Proof.
  intros Hpos. split; [|split].
  - intros n cb Haf. split; intros Hn.
    + by destruct (afterFailures_closed _ _ _ _ _ Haf Hn).
    + by destruct (afterFailures_threshold _ _ _ _ _ Haf Hn Hpos).
  - intros cb Hreach Hopen.
    pose proof (reachable_wellFormed _ _ _ _ Hpos Hreach) as Hwf.
    unfold wellFormed in Hwf. rewrite Hopen in Hwf.
    destruct Hwf as (Hcount & tf & Hlast & Hnext).
    exists tf. split; [done|]. split; [done|].
    intros T op w n call. subst call. split; intros Htime.
    + apply execute_open_early; [done|].
      unfold CircuitBreaker.shouldAttemptReset. rewrite Hnext. simpl.
      apply Z.leb_gt. lia.
    + assert (Hdue : CircuitBreaker.shouldAttemptReset (Date_now w) cb = true).
      { unfold CircuitBreaker.shouldAttemptReset. rewrite Hnext.
        apply Z.leb_le. lia. }
      split.
      * unfold CircuitBreaker.enter. rewrite Hopen, Hdue. reflexivity.
      * rewrite execute_open_due by done.
        unfold guarded, counted. destruct (op w) as [[r|e|] w']; try reflexivity.
        simpl. unfold CircuitBreaker.onFailure. simpl.
        destruct (failureThreshold config <=? CircuitBreaker.failureCount cb + 1) eqn:E;
          [reflexivity|apply Z.leb_gt in E; lia].
  - intros cb T op w w' e Hop Hgate.
    destruct (CircuitBreaker.state cb) eqn:Hst.
    + rewrite execute_not_open by congruence. unfold guarded. rewrite Hop. eauto.
    + rewrite execute_open_due by auto. unfold guarded. rewrite Hop. eauto.
    + rewrite execute_not_open by congruence. unfold guarded. rewrite Hop. eauto.
Qed.

Lemma circuit_breaker_lifecycle_witness :
  CircuitBreaker.state afterThreeFailures = OPEN.
Proof.
  refine (proj2 (proj1 (circuit_breaker_lifecycle (λ w : Z, w) (λ _, "date")
                          sampleBreakerConfig _) 3%nat afterThreeFailures _) _).
  - simpl; lia.
  - unfold afterThreeFailures.
    eapply AfterOneMore; [|reflexivity].
    eapply AfterOneMore; [|reflexivity].
    eapply AfterOneMore; [|reflexivity].
    apply AfterNone.
  - reflexivity.
Defined.

(** ** RetryMechanism *)

Section RetryProps.
Context {W T : Type} (sleep : Z → W → W) (config : RetryConfig).

(** The body of [execute], one call deep. *)
Lemma retry_execute_unfold (op : Async W T) attempt w :
  RetryMechanism.execute sleep config op attempt w =
  match op w with
  | (Returned r, w1) => (Returned r, w1)
  | (Unsettled, w1) => (Unsettled, w1)
  | (Thrown e, w1) =>
      if maxAttempts config <=? attempt then (Thrown e, w1)
      else RetryMechanism.execute sleep config op (attempt + 1)
             (sleep (RetryMechanism.calculateDelay config attempt) w1)
  end.
Proof.
  simp execute. destruct (op w) as [[r|e|] w1]; simpl; try reflexivity.
  destruct (Z_le_dec (maxAttempts config) attempt) as [H|H]; simpl;
    destruct (Z.leb_spec (maxAttempts config) attempt); (reflexivity || lia).
Qed.

End RetryProps.

Section ScriptedRetry.
Context {T : Type} (config : RetryConfig) (script : nat → Outcome T).

#[local] Abbreviation execute := (RetryMechanism.execute nap config (scripted script)).

Lemma retry_succeeds_after j :
  ∀ a c naps r,
    (∀ i, (i < j)%nat → ∃ e, script (c + i)%nat = Thrown e) →
    script (c + j)%nat = Returned r →
    a + Z.of_nat j ≤ maxAttempts config →
    execute a (c, naps) = (Returned r, (S (c + j), naps ++ delaysFrom config a j)).
Proof.
  induction j as [|j IH]; intros a c naps r Hfail Hok Hle;
    rewrite retry_execute_unfold; simpl.
  - rewrite Nat.add_0_r in Hok. rewrite Hok, Nat.add_0_r, app_nil_r. reflexivity.
  - destruct (Hfail 0%nat) as [e He]; [lia|]. rewrite Nat.add_0_r in He. rewrite He.
    destruct (Z.leb_spec (maxAttempts config) a); [lia|].
    unfold nap; simpl. rewrite (IH (a + 1) (S c) _ r).
    + rewrite <- app_assoc. simpl. do 3 f_equal. lia.
    + intros i Hi. destruct (Hfail (S i)) as [e' He']; [lia|].
      exists e'. rewrite <- He'. f_equal. lia.
    + rewrite <- Hok. f_equal. lia.
    + lia.
Qed.

Lemma retry_gives_up_after j :
  ∀ a c naps (errs : nat → JsThrown),
    (∀ i, (i ≤ j)%nat → script (c + i)%nat = Thrown (errs (c + i)%nat)) →
    a + Z.of_nat j = maxAttempts config →
    execute a (c, naps)
    = (Thrown (errs (c + j)%nat), (S (c + j), naps ++ delaysFrom config a j)).
Proof.
  induction j as [|j IH]; intros a c naps errs Hfail Hle;
    rewrite retry_execute_unfold; simpl;
    pose proof (Hfail 0%nat ltac:(lia)) as He; rewrite Nat.add_0_r in He; rewrite He.
  - destruct (Z.leb_spec (maxAttempts config) a); [|lia].
    rewrite Nat.add_0_r, app_nil_r. reflexivity.
  - destruct (Z.leb_spec (maxAttempts config) a); [lia|].
    unfold nap; simpl. rewrite (IH (a + 1) (S c) _ errs).
    + rewrite <- app_assoc. simpl.
      replace (S (c + j))%nat with (c + S j)%nat by lia. reflexivity.
    + intros i Hi. replace (S c + i)%nat with (c + S i)%nat by lia.
      apply Hfail. lia.
    + lia.
Qed.

End ScriptedRetry.

(** C4. The delay after attempt [n] is
    [min (initialDelay * backoffMultiplier ^ (n - 1)) maxDelay]. When the
    first success of the operation is its invocation number [k + 1] and
    [k + 1 <= maxAttempts], [execute] invokes it [min (k + 1) maxAttempts]
    times, returns that result, and has slept the delays of attempts [1..k].
    When each of the first [maxAttempts] invocations throws, [execute] invokes
    the operation [maxAttempts] times and throws what the last one threw. *)
Theorem retry_execute_attempts {T : Type} (config : RetryConfig)
    (script : nat → Outcome T) :
  1 ≤ maxAttempts config →
  (∀ n, 1 ≤ n →
     RetryMechanism.calculateDelay config n
     = Z.min (initialDelay config * backoffMultiplier config ^ (n - 1))
             (maxDelay config))
  ∧ (∀ k r,
       (∀ i, (i < k)%nat → ∃ e, script i = Thrown e) →
       script k = Returned r →
       Z.of_nat (S k) ≤ maxAttempts config →
       RetryMechanism.execute nap config (scripted script) 1 (0%nat, [])
       = (Returned r,
          (Z.to_nat (Z.min (Z.of_nat (S k)) (maxAttempts config)),
           delaysFrom config 1 k)))
  ∧ (∀ errs : nat → JsThrown,
       (∀ i, Z.of_nat i < maxAttempts config → script i = Thrown (errs i)) →
       RetryMechanism.execute nap config (scripted script) 1 (0%nat, [])
       = (Thrown (errs (Z.to_nat (maxAttempts config) - 1)%nat),
          (Z.to_nat (maxAttempts config),
           delaysFrom config 1 (Z.to_nat (maxAttempts config) - 1)))).
Proof.
  intros Hpos. split; [|split].
  - intros n Hn. reflexivity.
  - intros k r Hfail Hok Hle.
    rewrite (retry_succeeds_after config script k 1 0%nat [] r); auto; [|lia].
    simpl. do 2 f_equal. lia.
  - intros errs Hfail.
    rewrite (retry_gives_up_after config script
               (Z.to_nat (maxAttempts config) - 1) 1 0%nat [] errs).
    + simpl. do 2 f_equal. lia.
    + intros i Hi. apply Hfail. lia.
    + lia.
Qed.

Lemma retry_execute_attempts_witness :
  RetryMechanism.execute nap sampleRetryConfig (scripted thirdTimeLucky) 1 (0%nat, [])
  = (Returned 7, (3%nat, [100; 200])).
Proof.
  refine (proj1 (proj2 (retry_execute_attempts sampleRetryConfig thirdTimeLucky _))
            2%nat 7 _ _ _).
  - simpl; lia.
  - intros i Hi. exists (ErrorObj "Temporary failure").
    destruct i as [|[|i]]; [reflexivity|reflexivity|lia].
  - reflexivity.
  - simpl; lia.
Defined.

(** ** RateLimiter *)

Section RateLimiterProps.
Context {W : Type} (Date_now : W → Z) (sleep : Z → W → W).
Context (config : RateLimitConfig).

#[local] Abbreviation acquire := (RateLimiter.acquire Date_now config).
#[local] Abbreviation waitForSlot := (RateLimiter.waitForSlot Date_now sleep config).
#[local] Abbreviation getCurrentUsage := (RateLimiter.getCurrentUsage Date_now config).
#[local] Abbreviation purge := (RateLimiter.purge config).

Lemma purge_shorter now reqs : (length (purge now reqs) ≤ length reqs)%nat.
Proof. apply length_filter. Qed.

Lemma acquire_cases rl w :
  acquire (rl, w)
  = if Z.of_nat (length (purge (Date_now w) (RateLimiter.requests rl)))
       <? maxRequests config
    then (Returned true,
          ({| RateLimiter.requests :=
                purge (Date_now w) (RateLimiter.requests rl) ++ [Date_now w] |}, w))
    else (Returned false,
          ({| RateLimiter.requests :=
                purge (Date_now w) (RateLimiter.requests rl) |}, w)).
Proof.
  unfold RateLimiter.acquire.
  destruct (Z.leb_spec (maxRequests config)
              (Z.of_nat (length (purge (Date_now w) (RateLimiter.requests rl)))));
    destruct (Z.ltb_spec
              (Z.of_nat (length (purge (Date_now w) (RateLimiter.requests rl))))
              (maxRequests config)); (reflexivity || lia).
Qed.

(** One round of the loop of [waitForSlot]. *)
Lemma waitForSlot_step fuel s :
  waitForSlot (S fuel) s
  = match acquire s with
    | (Returned true, s1) => (Returned tt, s1)
    | (Returned false, s1) =>
        match RateLimiter.backOff Date_now sleep config s1 with
        | (Returned _, s2) => waitForSlot fuel s2
        | (Thrown e, s2) => (Thrown e, s2)
        | (Unsettled, s2) => (Unsettled, s2)
        end
    | (Thrown e, s1) => (Thrown e, s1)
    | (Unsettled, s1) => (Unsettled, s1)
    end.
Proof.
  simpl. unfold bind. destruct (acquire s) as [[[|]|e|] s1]; reflexivity.
Qed.

(** What one call of [acquire] keeps: the bound, and no timestamp other than
    the old ones and the reading of an admission. *)
Lemma acquire_keeps rl w ok rl' w' :
  acquire (rl, w) = (Returned ok, (rl', w')) →
  withinLimit config rl →
  w' = w ∧ withinLimit config rl'
  ∧ ∀ t, t ∈ RateLimiter.requests rl' →
         t ∈ RateLimiter.requests rl ∨ (ok = true ∧ t = Date_now w).
Proof.
  rewrite acquire_cases. unfold withinLimit. intros Heq Hin.
  pose proof (purge_shorter (Date_now w) (RateLimiter.requests rl)) as Hlen.
  destruct (Z.ltb_spec
              (Z.of_nat (length (purge (Date_now w) (RateLimiter.requests rl))))
              (maxRequests config)) as [Hlt|Hge];
    inversion Heq; subst; simpl; (split; [done|]); split.
  - rewrite length_app. simpl. lia.
  - intros t Ht. apply elem_of_app in Ht as [Ht|Ht].
    + left. by apply list_elem_of_filter in Ht as [_ Ht].
    + right. apply list_elem_of_singleton in Ht. done.
  - lia.
  - intros t Ht. left. by apply list_elem_of_filter in Ht as [_ Ht].
Qed.

Lemma backOff_keeps rl w :
  ∃ w', RateLimiter.backOff Date_now sleep config (rl, w) = (Returned tt, (rl, w')).
Proof.
  unfold RateLimiter.backOff.
  destruct (RateLimiter.oldestRequest (RateLimiter.requests rl)); [|eauto].
  destruct (0 <? _); eauto.
Qed.

Lemma waitForSlot_keeps fuel :
  ∀ rl w r rl' w',
    waitForSlot fuel (rl, w) = (r, (rl', w')) →
    withinLimit config rl →
    withinLimit config rl'
    ∧ ∀ t, t ∈ RateLimiter.requests rl' →
           t ∈ RateLimiter.requests rl ∨ (r = Returned tt ∧ t = Date_now w').
Proof.
  induction fuel as [|fuel IH]; intros rl w r rl' w' Hrun Hin.
  - inversion Hrun; subst. auto.
  - rewrite waitForSlot_step in Hrun.
    destruct (acquire (rl, w)) as [[ok|e|] [rl1 w1]] eqn:Hacq;
      try (rewrite acquire_cases in Hacq; destruct (_ <? _) in Hacq; discriminate).
    destruct (acquire_keeps _ _ _ _ _ Hacq Hin) as (-> & Hin1 & Hts).
    destruct ok.
    + inversion Hrun; subst. split; [done|].
      intros t Ht. destruct (Hts t Ht) as [?|[_ ->]]; auto.
    + destruct (backOff_keeps rl1 w) as [w2 Hback]. rewrite Hback in Hrun.
      destruct (IH _ _ _ _ _ Hrun Hin1) as [Hin' Hts']. split; [done|].
      intros t Ht. destruct (Hts' t Ht) as [Hold|?]; [|auto].
      destruct (Hts t Hold) as [?|[? _]]; [auto|discriminate].
Qed.

Lemma usage_cases rl w :
  getCurrentUsage (rl, w)
  = (Returned (Z.of_nat (length (purge (Date_now w) (RateLimiter.requests rl)))),
     ({| RateLimiter.requests := purge (Date_now w) (RateLimiter.requests rl) |}, w)).
Proof. reflexivity. Qed.

Lemma limiterReach_invariant rl adm :
  0 ≤ maxRequests config →
  limiterReach Date_now sleep config rl adm →
  withinLimit config rl ∧ ∀ t, t ∈ RateLimiter.requests rl → t ∈ adm.
Proof.
  intros Hmax. induction 1 as [|rl adm w ok rl' w' Hr [Hin Hsub] Hacq
                               |rl adm w fuel r rl' w' Hr [Hin Hsub] Hwait
                               |rl adm w n rl' w' Hr [Hin Hsub] Huse].
  - split; [unfold withinLimit; simpl; lia|]. intros t Ht. inversion Ht.
  - destruct (acquire_keeps _ _ _ _ _ Hacq Hin) as (_ & Hin' & Hts).
    split; [done|]. intros t Ht.
    destruct (Hts t Ht) as [Hold|[-> ->]].
    + destruct ok; [right|]; auto.
    + left.
  - destruct (waitForSlot_keeps _ _ _ _ _ _ Hwait Hin) as [Hin' Hts].
    split; [done|]. intros t Ht.
    destruct (Hts t Ht) as [Hold|[-> ->]].
    + destruct r; [right|..]; auto.
    + left.
  - pose proof (purge_shorter (Date_now w) (RateLimiter.requests rl)).
    rewrite usage_cases in Huse. inversion Huse; subst.
    split; [unfold withinLimit in *; simpl; lia|].
    intros t Ht. simpl in Ht. apply list_elem_of_filter in Ht as [_ Ht]. auto.
Qed.

(** [Math.min(...requests)] is one of the requests and no larger than any. *)
Lemma oldestRequest_spec reqs o :
  RateLimiter.oldestRequest reqs = Some o →
  o ∈ reqs ∧ ∀ t, t ∈ reqs → o ≤ t.
Proof.
  destruct reqs as [|r rest]; [discriminate|]. simpl. intros [= <-].
  induction rest as [|x rest [IHin IHle]]; simpl.
  - split; [left|]. intros t Ht. apply list_elem_of_singleton in Ht. lia.
  - split.
    + destruct (Z.min_spec x (foldr Z.min r rest)) as [[_ ->]|[_ ->]].
      * right; left.
      * apply elem_of_cons in IHin as [->|Hin]; [left|right; right; done].
    + intros t Ht.
      assert (foldr Z.min r rest ≤ t ∨ t = x) as [Hle| ->]; [|lia..].
      apply elem_of_cons in Ht as [->|Ht].
      * left. apply IHle. left.
      * apply elem_of_cons in Ht as [->|Ht]; [by right|].
        left. apply IHle. by right.
Qed.

(** With a limit of at least one request and timers that last as long as
    asked, two rounds of the loop of [waitForSlot] are enough. *)
Lemma waitForSlot_settles fuel rl w :
  (∀ ms w0, Date_now (sleep ms w0) = Date_now w0 + ms) →
  1 ≤ maxRequests config →
  withinLimit config rl →
  (2 ≤ fuel)%nat →
  ∃ rl' w', waitForSlot fuel (rl, w) = (Returned tt, (rl', w')) ∧ withinLimit config rl'.
Proof.
  intros Hsleep Hmax Hin Hfuel.
  destruct fuel as [|[|fuel]]; [lia..|].
  rewrite waitForSlot_step, acquire_cases.
  pose proof (purge_shorter (Date_now w) (RateLimiter.requests rl)) as Hlen.
  set (reqs := purge (Date_now w) (RateLimiter.requests rl)) in *.
  destruct (Z.ltb_spec (Z.of_nat (length reqs)) (maxRequests config)) as [Hlt|Hge].
  - eexists _, _. split; [reflexivity|].
    unfold withinLimit. simpl. rewrite length_app. simpl. lia.
  - unfold RateLimiter.backOff. cbn [RateLimiter.requests].
    destruct (RateLimiter.oldestRequest reqs) as [o|] eqn:Hold.
    2:{ destruct reqs; [simpl in Hge; lia|discriminate]. }
    destruct (oldestRequest_spec _ _ Hold) as [Hoin Hole].
    assert (Hfresh : Date_now w - o < timeWindow config).
    { apply list_elem_of_filter in Hoin as [Hp _]. exact Hp. }
    destruct (Z.ltb_spec 0 (timeWindow config - (Date_now w - o))); [|lia].
    set (w1 := sleep (timeWindow config - (Date_now w - o)) w).
    rewrite waitForSlot_step, acquire_cases. cbn [RateLimiter.requests].
    assert (Hshrink : (length (purge (Date_now w1) reqs) < length reqs)%nat).
    { apply (length_filter_lt _ _ o); [done|].
      unfold w1. rewrite Hsleep. lia. }
    unfold withinLimit in Hin.
    destruct (Z.ltb_spec (Z.of_nat (length (purge (Date_now w1) reqs)))
                (maxRequests config)); [|lia].
    eexists _, _. split; [reflexivity|].
    unfold withinLimit. simpl. rewrite length_app. simpl. lia.
Qed.

End RateLimiterProps.

(** C7. In every state that calls of [acquire], [waitForSlot] and
    [getCurrentUsage] produce, the limiter holds at most [maxRequests]
    timestamps and [getCurrentUsage] reports at most [maxRequests];
    [acquire] admits, appending the clock reading, exactly when fewer than
    [maxRequests] timestamps survive the purge, and otherwise returns false;
    and once every admission lies at least [timeWindow] in the past,
    [getCurrentUsage] reports 0. *)
Theorem rate_limiter_usage_bounded {W : Type} (Date_now : W → Z)
    (sleep : Z → W → W) (config : RateLimitConfig) :
  0 ≤ maxRequests config →
  ∀ rl adm, limiterReach Date_now sleep config rl adm →
    Z.of_nat (length (RateLimiter.requests rl)) ≤ maxRequests config
    ∧ (∀ w, ∃ n rl',
         RateLimiter.getCurrentUsage Date_now config (rl, w) = (Returned n, (rl', w))
         ∧ 0 ≤ n ≤ maxRequests config)
    ∧ (∀ w reqs,
         reqs = RateLimiter.purge config (Date_now w) (RateLimiter.requests rl) →
         RateLimiter.acquire Date_now config (rl, w)
         = if Z.of_nat (length reqs) <? maxRequests config
           then (Returned true,
                 ({| RateLimiter.requests := reqs ++ [Date_now w] |}, w))
           else (Returned false, ({| RateLimiter.requests := reqs |}, w)))
    ∧ (∀ w, (∀ t, t ∈ adm → timeWindow config ≤ Date_now w - t) →
         fst (RateLimiter.getCurrentUsage Date_now config (rl, w)) = Returned 0).
Proof.
  intros Hmax rl adm Hreach.
  destruct (limiterReach_invariant _ _ _ _ _ Hmax Hreach) as [Hin Hsub].
  split; [exact Hin|]. split; [|split].
  - intros w. eexists _, _. split; [apply usage_cases|].
    pose proof (purge_shorter config (Date_now w) (RateLimiter.requests rl)).
    unfold withinLimit in Hin. lia.
  - intros w reqs ->. apply acquire_cases.
  - intros w Hold. rewrite usage_cases. simpl.
    replace (RateLimiter.purge config (Date_now w) (RateLimiter.requests rl))
      with (@nil Z); [reflexivity|].
    symmetry. unfold RateLimiter.purge.
    induction (RateLimiter.requests rl) as [|t rest IH]; [reflexivity|].
    rewrite filter_cons_False.
    + apply IH. intros t' Ht'. apply Hsub. by right.
    + specialize (Hold t (Hsub t ltac:(left))). lia.
Qed.

Lemma rate_limiter_usage_bounded_witness :
  Z.of_nat (length (RateLimiter.requests afterThreeAcquires)) ≤ 2.
Proof.
  refine (proj1 (rate_limiter_usage_bounded (λ w : Z, w) Z.add sampleRateLimit _
                   afterThreeAcquires [1; 0] _)).
  - simpl; lia.
  - change afterThreeAcquires with {| RateLimiter.requests := [0; 1] |}.
    apply (ReachAcquire (λ w : Z, w) Z.add sampleRateLimit {| RateLimiter.requests := [0; 1] |} [1; 0] 2 false
             {| RateLimiter.requests := [0; 1] |} 2); [|reflexivity].
    apply (ReachAcquire (λ w : Z, w) Z.add sampleRateLimit {| RateLimiter.requests := [0] |} [0] 1 true
             {| RateLimiter.requests := [0; 1] |} 1); [|reflexivity].
    apply (ReachAcquire (λ w : Z, w) Z.add sampleRateLimit RateLimiter.new [] 0 true
             {| RateLimiter.requests := [0] |} 0); [|reflexivity].
    apply ReachFresh.
Defined.

(** ** IdempotencyService *)

Section IdempotencyProps.
Context {W T : Type} (Date_now : W → Z) (truthy : T → bool).
Context (pause : Z → IdempotencyService.t T * W → IdempotencyService.t T * W).

#[local] Abbreviation execute := (IdempotencyService.execute Date_now truthy pause).
#[local] Abbreviation waitForPendingRequest :=
  (IdempotencyService.waitForPendingRequest Date_now truthy pause).

Lemma execute_hit fuel key (op : Async (IdempotencyService.t T * W) T) s w r :
  IdempotencyService.whenTruthy truthy (IdempotencyService.cache s !! key) = Some r →
  execute fuel key op (s, w) = (Returned r, (s, w)).
Proof.
  intros Hhit. unfold IdempotencyService.execute, bind, IdempotencyService.cacheGet.
  rewrite Hhit. reflexivity.
Qed.

Lemma execute_waits fuel key (op : Async (IdempotencyService.t T * W) T) s w :
  IdempotencyService.whenTruthy truthy (IdempotencyService.cache s !! key) = None →
  key ∈ IdempotencyService.pendingRequests s →
  execute fuel key op (s, w) = waitForPendingRequest fuel key (s, w).
Proof.
  intros Hmiss Hpending.
  unfold IdempotencyService.execute, bind, IdempotencyService.cacheGet,
    IdempotencyService.isPending.
  rewrite Hmiss, bool_decide_eq_true_2 by done. reflexivity.
Qed.

Lemma execute_owner fuel key (op : Async (IdempotencyService.t T * W) T) s w :
  IdempotencyService.whenTruthy truthy (IdempotencyService.cache s !! key) = None →
  key ∉ IdempotencyService.pendingRequests s →
  execute fuel key op (s, w)
  = settle key (op (IdempotencyService.pendingAdd key s, w)).
Proof.
  intros Hmiss Hfree.
  unfold IdempotencyService.execute, bind, IdempotencyService.cacheGet,
    IdempotencyService.isPending, tryFinally, modify, ret, settle.
  rewrite Hmiss, bool_decide_eq_false_2 by done.
  destruct (op _) as [[r|e|] [s1 w1]]; reflexivity.
Qed.

End IdempotencyProps.

Lemma pendingAdd_marks {T} key (s : IdempotencyService.t T) :
  key ∈ IdempotencyService.pendingRequests (IdempotencyService.pendingAdd key s).
Proof. simpl. apply elem_of_union_l. by apply elem_of_singleton. Qed.

Lemma pendingDelete_clears {T} key (s : IdempotencyService.t T) :
  key ∉ IdempotencyService.pendingRequests (IdempotencyService.pendingDelete key s).
Proof.
  simpl. intros [_ Hout]%elem_of_difference. apply Hout. by apply elem_of_singleton.
Qed.

(** The polling loop, run from [(s, w)]: it pauses some number [n] of
    times and settles in the state that these pauses leave; at each of the
    earlier looks the time was not up, nothing truthy was cached for the key
    and the key was pending, and the outcome is what the last look found. *)
Lemma poll_run {W T : Type} (Date_now : W → Z) (truthy : T → bool)
    (pause : Z → IdempotencyService.t T * W → IdempotencyService.t T * W)
    (fuel : nat) (key : string) (startTime : Z) (sw : IdempotencyService.t T * W) :
  ∃ (n : nat) outcome,
    let final := Nat.iter n (pause 100) sw in
    (n ≤ fuel)%nat
    ∧ IdempotencyService.poll Date_now truthy pause fuel key startTime sw
      = (outcome, final)
    ∧ (∀ i, (i < n)%nat →
         let seen := Nat.iter i (pause 100) sw in
         Date_now (snd seen) - startTime < 30000
         ∧ IdempotencyService.whenTruthy truthy
             (IdempotencyService.cache (fst seen) !! key) = None
         ∧ key ∈ IdempotencyService.pendingRequests (fst seen))
    ∧ match outcome with
      | Returned r =>
          Date_now (snd final) - startTime < 30000
          ∧ IdempotencyService.whenTruthy truthy
              (IdempotencyService.cache (fst final) !! key) = Some r
      | Thrown e =>
          (e = ErrorObj "Timeout waiting for pending request"
           ∧ 30000 ≤ Date_now (snd final) - startTime)
          ∨ (e = ErrorObj "Request failed while waiting for pending operation"
             ∧ Date_now (snd final) - startTime < 30000
             ∧ IdempotencyService.whenTruthy truthy
                 (IdempotencyService.cache (fst final) !! key) = None
             ∧ key ∉ IdempotencyService.pendingRequests (fst final))
      | Unsettled => n = fuel
      end.
Proof.
  revert sw. induction fuel as [|fuel IH]; intros [s w].
  - exists 0%nat, Unsettled. simpl. split_and!; try done. intros i Hi. lia.
  - simpl IdempotencyService.poll.
    destruct (Date_now w - startTime <? 30000) eqn:Htime;
      [apply Z.ltb_lt in Htime|apply Z.ltb_ge in Htime].
    + destruct (IdempotencyService.whenTruthy truthy
                  (IdempotencyService.cache s !! key)) as [r|] eqn:Hlook.
      * exists 0%nat, (Returned r). simpl. split_and!; try done; [lia|].
        intros i Hi. lia.
      * destruct (bool_decide (key ∈ IdempotencyService.pendingRequests s))
          eqn:Hpending;
          [apply bool_decide_eq_true_1 in Hpending
          |apply bool_decide_eq_false_1 in Hpending].
        -- destruct (IH (pause 100 (s, w))) as (n & outcome & Hn & Hrun & Hseen & Hend).
           exists (S n), outcome. cbv zeta. rewrite Nat.iter_succ_r.
           split_and!; [lia|exact Hrun| |].
           ++ intros [|i] Hi; [done|]. rewrite Nat.iter_succ_r. apply Hseen. lia.
           ++ destruct outcome; [exact Hend|exact Hend|by rewrite Hend].
        -- exists 0%nat, (Thrown (ErrorObj "Request failed while waiting for pending operation")).
           simpl. split_and!; try done; [lia|intros i Hi; lia|]. by right.
    + exists 0%nat, (Thrown (ErrorObj "Timeout waiting for pending request")).
      simpl. split_and!; try done; [lia|intros i Hi; lia|]. by left.
Qed.

(** C3, amended. If the cache holds a truthy result for the key,
    [execute] returns it and leaves the service and the world as they were,
    whatever the operation is. Otherwise, if the key is not pending,
    [execute] marks the key pending and runs the operation in that state.
    When the operation returns, its result is stored under the key and the
    key is no longer pending; a truthy result is then returned by every later
    call without running its operation. When the operation throws, the same
    value is thrown, the cache is as the operation left it and the key is no
    longer pending; if nothing truthy is cached then, a later call runs its
    own operation again. Otherwise, if the key is pending, [execute] never
    runs the operation and writes nothing: it makes some number [n] of pauses
    of 100 ms and settles in the state that they leave, so the key is still
    pending then unless a pause removed it. It saw the key pending and
    nothing truthy cached before each pause; it returns the truthy result it
    finds cached, throws [Request failed ...] when it finds the key no longer
    pending and nothing truthy cached, and throws [Timeout ...] when it finds
    that 30000 ms have passed, whatever the marker is. *)
Theorem idempotency_execute_cases {W T : Type} (Date_now : W → Z)
    (truthy : T → bool)
    (pause : Z → IdempotencyService.t T * W → IdempotencyService.t T * W)
    (fuel : nat) (key : string) (op : Async (IdempotencyService.t T * W) T)
    (s : IdempotencyService.t T) (w : W) :
  let execute := IdempotencyService.execute Date_now truthy pause in
  let cached (s0 : IdempotencyService.t T) :=
    IdempotencyService.whenTruthy truthy (IdempotencyService.cache s0 !! key) in
  let owner (op0 : Async (IdempotencyService.t T * W) T) s0 w0 :=
    match op0 (IdempotencyService.pendingAdd key s0, w0) with
    | (Returned r, (s1, w1)) =>
        (Returned r,
         (IdempotencyService.pendingDelete key
            (IdempotencyService.cacheSet key r s1), w1))
    | (Thrown e, (s1, w1)) =>
        (Thrown e, (IdempotencyService.pendingDelete key s1, w1))
    | (Unsettled, (s1, w1)) => (Unsettled, (s1, w1))
    end in
  (∀ r, IdempotencyService.cache s !! key = Some r → truthy r = true →
        execute fuel key op (s, w) = (Returned r, (s, w)))
  ∧ (cached s = None →
     key ∉ IdempotencyService.pendingRequests s →
     key ∈ IdempotencyService.pendingRequests (IdempotencyService.pendingAdd key s)
     ∧ execute fuel key op (s, w) = owner op s w
     ∧ ∀ outcome s2 w2,
         execute fuel key op (s, w) = (outcome, (s2, w2)) →
         match outcome with
         | Returned r =>
             IdempotencyService.cache s2 !! key = Some r
             ∧ (key ∉ IdempotencyService.pendingRequests s2)
             ∧ (truthy r = true →
                ∀ fuel' op' w',
                  execute fuel' key op' (s2, w') = (Returned r, (s2, w')))
         | Thrown _ =>
             (∃ s1, op (IdempotencyService.pendingAdd key s, w)
                    = (outcome, (s1, w2))
                    ∧ IdempotencyService.cache s2 = IdempotencyService.cache s1)
             ∧ (key ∉ IdempotencyService.pendingRequests s2)
             ∧ (cached s2 = None →
                ∀ fuel' op' w',
                  execute fuel' key op' (s2, w') = owner op' s2 w')
         | Unsettled =>
             op (IdempotencyService.pendingAdd key s, w) = (Unsettled, (s2, w2))
         end)
  ∧ (cached s = None →
     key ∈ IdempotencyService.pendingRequests s →
     ∃ (n : nat) outcome,
       let final := Nat.iter n (pause 100) (s, w) in
       (n ≤ fuel)%nat
       ∧ (∀ op', execute fuel key op' (s, w) = (outcome, final))
       ∧ ((∀ sw, key ∈ IdempotencyService.pendingRequests (fst sw) →
                 key ∈ IdempotencyService.pendingRequests (fst (pause 100 sw))) →
          key ∈ IdempotencyService.pendingRequests (fst final))
       ∧ (∀ i, (i < n)%nat →
            let seen := Nat.iter i (pause 100) (s, w) in
            Date_now (snd seen) - Date_now w < 30000
            ∧ cached (fst seen) = None
            ∧ key ∈ IdempotencyService.pendingRequests (fst seen))
       ∧ match outcome with
         | Returned r =>
             Date_now (snd final) - Date_now w < 30000
             ∧ cached (fst final) = Some r
         | Thrown e =>
             (e = ErrorObj "Timeout waiting for pending request"
              ∧ 30000 ≤ Date_now (snd final) - Date_now w)
             ∨ (e = ErrorObj "Request failed while waiting for pending operation"
                ∧ Date_now (snd final) - Date_now w < 30000
                ∧ cached (fst final) = None
                ∧ key ∉ IdempotencyService.pendingRequests (fst final))
         | Unsettled => n = fuel
         end).
Proof.
  intros execute cached owner.
  assert (Howner : ∀ fuel0 op0 s0 w0,
            cached s0 = None →
            key ∉ IdempotencyService.pendingRequests s0 →
            execute fuel0 key op0 (s0, w0) = owner op0 s0 w0).
  { intros fuel0 op0 s0 w0 Hmiss Hfree. unfold execute.
    rewrite execute_owner by done. unfold settle, owner.
    by destruct (op0 _) as [[r|e|] [s1 w1]]. }
  split; [|split].
  - intros r Hhit Htrue. apply execute_hit.
    unfold IdempotencyService.whenTruthy. by rewrite Hhit, Htrue.
  - intros Hmiss Hfree. split; [apply pendingAdd_marks|].
    split; [by apply Howner|].
    intros outcome s2 w2. rewrite Howner by done. unfold owner.
    destruct (op _) as [[r|e|] [s1 w1]] eqn:Hop.
    + intros [= <- <- <-]. split; [simpl; apply lookup_insert_eq|].
      split; [apply pendingDelete_clears|].
      intros Htrue fuel' op' w'. apply execute_hit. simpl.
      rewrite lookup_insert_eq. simpl. by rewrite Htrue.
    + intros [= <- <- <-]. split; [by exists s1|].
      split; [apply pendingDelete_clears|].
      intros Hnone fuel' op' w'. apply Howner; [done|apply pendingDelete_clears].
    + by intros [= <- <- <-].
  - intros Hmiss Hpending.
    destruct (poll_run Date_now truthy pause fuel key (Date_now w) (s, w))
      as (n & outcome & Hn & Hrun & Hseen & Hend).
    exists n, outcome. cbv zeta. split; [exact Hn|].
    split.
    { intros op'. unfold execute. rewrite execute_waits by done. exact Hrun. }
    split; [|split; [exact Hseen|exact Hend]].
    intros Hkeeps. clear Hrun Hseen Hend Hn.
    induction n as [|n IH]; [exact Hpending|]. simpl. by apply Hkeeps.
Qed.

(** C3 as stated fails: nothing is cached for ["k"], yet [execute] does
    not invoke the operation (0 invocations) and throws the timeout error
    while ["k"] is still pending. *)
Lemma idempotency_pending_counterexample :
  let call :=
    IdempotencyService.execute (λ w : Z * nat, fst w) (λ _, true) tick 400 "k"
      (countedReturn 7) (pendingOnly, (0, 0%nat)) in
  IdempotencyService.cache pendingOnly !! "k" = None
  ∧ fst call = Thrown (ErrorObj "Timeout waiting for pending request")
  ∧ snd (snd (snd call)) = 0%nat
  ∧ "k" ∈ IdempotencyService.pendingRequests (fst (snd call)).
Proof.
  assert (Hcall :
    IdempotencyService.execute (λ w : Z * nat, fst w) (λ _, true) tick 400 "k"
      (countedReturn 7) (pendingOnly, (0, 0%nat))
    = (Thrown (ErrorObj "Timeout waiting for pending request"),
       (pendingOnly, (30000, 0%nat)))) by (vm_compute; reflexivity).
  cbv zeta. rewrite Hcall. simpl. split; [reflexivity|].
  split; [reflexivity|]. split; [reflexivity|]. by apply elem_of_singleton.
Qed.

(** ** Reasoning about asynchronous code *)

Section AsyncRules.
Context {W : Type}.

Lemma bind_returned {A B} (m : Async W A) (k : A → Async W B) w a w' :
  m w = (Returned a, w') → bind m k w = k a w'.
Proof. intros H. unfold bind. by rewrite H. Qed.

Lemma bind_thrown {A B} (m : Async W A) (k : A → Async W B) w e w' :
  m w = (Thrown e, w') → bind m k w = (Thrown e, w').
Proof. intros H. unfold bind. by rewrite H. Qed.

Lemma bind_unsettled {A B} (m : Async W A) (k : A → Async W B) w w' :
  m w = (Unsettled, w') → bind m k w = (Unsettled, w').
Proof. intros H. unfold bind. by rewrite H. Qed.

Lemma tryCatch_returned {A} (m : Async W A) h w a w' :
  m w = (Returned a, w') → tryCatch m h w = (Returned a, w').
Proof. intros H. unfold tryCatch. by rewrite H. Qed.

Lemma tryCatch_thrown {A} (m : Async W A) h w e w' :
  m w = (Thrown e, w') → tryCatch m h w = h e w'.
Proof. intros H. unfold tryCatch. by rewrite H. Qed.

Lemma tryCatch_unsettled {A} (m : Async W A) h w w' :
  m w = (Unsettled, w') → tryCatch m h w = (Unsettled, w').
Proof. intros H. unfold tryCatch. by rewrite H. Qed.

Lemma stable_ret {A} (I : W → Prop) (a : A) : stable I (ret a).
Proof. intros w o w' HI [= _ <-]. done. Qed.

Lemma stable_throw {A} (I : W → Prop) e : stable I (@throw W A e).
Proof. intros w o w' HI [= _ <-]. done. Qed.

Lemma stable_bind {A B} (I : W → Prop) (m : Async W A) (k : A → Async W B) :
  stable I m → (∀ a, stable I (k a)) → stable I (bind m k).
Proof.
  intros Hm Hk w o w' HI. unfold bind.
  destruct (m w) as [[a|e|] w1] eqn:E; pose proof (Hm _ _ _ HI E) as HI1.
  - apply Hk; done.
  - by intros [= _ <-].
  - by intros [= _ <-].
Qed.

Lemma stable_tryCatch {A} (I : W → Prop) (m : Async W A) h :
  stable I m → (∀ e, stable I (h e)) → stable I (tryCatch m h).
Proof.
  intros Hm Hh w o w' HI. unfold tryCatch.
  destruct (m w) as [[a|e|] w1] eqn:E; pose proof (Hm _ _ _ HI E) as HI1.
  - by intros [= _ <-].
  - apply Hh; done.
  - by intros [= _ <-].
Qed.

Lemma stable_modify (I : W → Prop) (f : W → W) :
  (∀ w, I w → I (f w)) → stable I (modify f).
Proof. intros Hf w o w' HI [= _ <-]. auto. Qed.

End AsyncRules.

(** A component's computation is stable inside the larger state when it is
    stable on its own and writing the component back does not disturb the
    invariant. *)
Lemma stable_zoom {S C W A} (I : S * W → Prop) (get : S → C) (set : C → S → S)
    (m : Async (C * (S * W)) A) :
  stable (λ x, I (snd x)) m →
  (∀ c s w, I (s, w) → I (set c s, w)) →
  stable I (zoom get set m).
Proof.
  intros Hm Hset [s w] o [s' w'] HI. unfold zoom.
  destruct (m (get s, (s, w))) as [r [c1 [s1 w1]]] eqn:E.
  intros [= _ <- <-]. apply Hset. exact (Hm (get s, (s, w)) _ _ HI E).
Qed.

(** ** What each component does to the world around it *)

(** The circuit breaker touches the world only through the operation. *)
Lemma circuit_breaker_world {W T : Type} (Date_now : W → Z) showDate config
    (P : W → Prop) (op : Async W T) cb w o cb' w' :
  (∀ w0 o0 w1, P w0 → op w0 = (o0, w1) → P w1) →
  P w →
  CircuitBreaker.execute Date_now showDate config op (cb, w) = (o, (cb', w')) →
  P w'.
Proof.
  intros Hop HP.
  assert (Hg : ∀ cb1, guarded Date_now config op cb1 w = (o, (cb', w')) → P w').
  { intros cb1. unfold guarded. destruct (op w) as [[r|e|] w1] eqn:E;
      intros [= _ _ <-]; eapply Hop; eauto. }
  destruct (CircuitBreaker.state cb) eqn:Hst.
  - rewrite execute_not_open by congruence. apply Hg.
  - destruct (CircuitBreaker.shouldAttemptReset (Date_now w) cb) eqn:Hdue.
    + rewrite execute_open_due by done. apply Hg.
    + rewrite execute_open_early by done. by intros [= _ _ <-].
  - rewrite execute_not_open by congruence. apply Hg.
Qed.

(** The retry executor touches the world only through the operation and
    its timers. *)
Lemma retry_world {W T : Type} (sleep : Z → W → W) config (P : W → Prop)
    (op : Async W T) :
  (∀ w0 o0 w1, P w0 → op w0 = (o0, w1) → P w1) →
  (∀ ms w0, P w0 → P (sleep ms w0)) →
  ∀ attempt w o w',
    P w → RetryMechanism.execute sleep config op attempt w = (o, w') → P w'.
Proof.
  intros Hop Hsleep attempt.
  remember (Z.to_nat (maxAttempts config - attempt)) as n eqn:Hn.
  revert attempt Hn.
  induction (lt_wf n) as [n _ IH]; intros attempt Hn w o w' HP.
  rewrite retry_execute_unfold.
  destruct (op w) as [[r|e|] w1] eqn:E; pose proof (Hop _ _ _ HP E) as HP1.
  - by intros [= _ <-].
  - destruct (Z.leb_spec (maxAttempts config) attempt) as [Hle|Hlt].
    + by intros [= _ <-].
    + eapply (IH (Z.to_nat (maxAttempts config - (attempt + 1)))); [lia|done|].
      by apply Hsleep.
  - by intros [= _ <-].
Qed.

(** The retry executor settles whenever the operation does. *)
Lemma retry_settles {W T : Type} (sleep : Z → W → W) config (op : Async W T)
    (Q : Outcome T → Prop) :
  (∀ w0, Q (fst (op w0))) →
  ∀ attempt w, Q (fst (RetryMechanism.execute sleep config op attempt w)).
Proof.
  intros Hop attempt.
  remember (Z.to_nat (maxAttempts config - attempt)) as n eqn:Hn.
  revert attempt Hn.
  induction (lt_wf n) as [n _ IH]; intros attempt Hn w.
  rewrite retry_execute_unfold. pose proof (Hop w) as HQ.
  destruct (op w) as [[r|e|] w1] eqn:E; simpl in *; try done.
  destruct (Z.leb_spec (maxAttempts config) attempt) as [Hle|Hlt]; [done|].
  eapply (IH (Z.to_nat (maxAttempts config - (attempt + 1)))); [lia|done].
Qed.

(** The rate limiter touches the world only through its timers. *)
Lemma rate_limiter_world {W : Type} (Date_now : W → Z) (sleep : Z → W → W) config
    (P : W → Prop) :
  (∀ ms w0, P w0 → P (sleep ms w0)) →
  ∀ fuel rl w o rl' w',
    P w →
    RateLimiter.waitForSlot Date_now sleep config fuel (rl, w) = (o, (rl', w')) →
    P w'.
Proof.
  intros Hsleep. induction fuel as [|fuel IH]; intros rl w o rl' w' HP.
  - by intros [= _ _ <-].
  - rewrite waitForSlot_step, acquire_cases.
    destruct (_ <? _); [by intros [= _ _ <-]|].
    unfold RateLimiter.backOff. cbn [RateLimiter.requests].
    destruct (RateLimiter.oldestRequest _); [destruct (0 <? _)|];
      apply IH; auto.
Qed.

(** The polling loop touches the service and the world only through
    [pause]. *)
Lemma poll_world {W T : Type} (Date_now : W → Z) (truthy : T → bool) pause
    (P : IdempotencyService.t T * W → Prop) :
  (∀ ms x, P x → P (pause ms x)) →
  ∀ fuel key start x o x',
    P x →
    IdempotencyService.poll Date_now truthy pause fuel key start x = (o, x') →
    P x'.
Proof.
  intros Hpause. induction fuel as [|fuel IH]; intros key start [s w] o x' HP.
  - by intros [= _ <-].
  - simpl. destruct (_ <? 30000); [|by intros [= _ <-]].
    destruct (IdempotencyService.whenTruthy _ _); [by intros [= _ <-]|].
    destruct (bool_decide _); [|by intros [= _ <-]].
    apply IH. by apply Hpause.
Qed.

(** The drain loop touches the world only through the handler and its
    timers. *)
Lemma processNext_world {W : Type} (sleep : Z → W → W)
    (processor : QueueItem → Async W unit) (P : W → Prop) :
  (∀ item, stable P (processor item)) →
  (∀ ms w0, P w0 → P (sleep ms w0)) →
  ∀ rounds q w o q' w',
    P w →
    EmailQueue.processNext sleep processor rounds (q, w) = (o, (q', w')) →
    P w'.
Proof.
  intros Hproc Hsleep. induction rounds as [|rounds IH]; intros q w o q' w' HP.
  - by intros [= _ _ <-].
  - simpl. destruct (negb _); [by intros [= _ _ <-]|].
    destruct (EmailQueue.dequeue q) as [[item|] q1].
    + destruct (processor item w) as [[[]|e|] w1] eqn:E;
        pose proof (Hproc item _ _ _ HP E) as HP1.
      * apply IH. auto.
      * apply IH. auto.
      * by intros [= _ _ <-].
    + apply IH. auto.
Qed.

(** ** EmailService *)

Section ServiceProps.
Context (host : Host).

#[local] Abbreviation updateStatus := (EmailService.updateStatus).
#[local] Abbreviation waitForSlot := (EmailService.waitForSlot).
#[local] Abbreviation executeOnce := (EmailService.executeOnce host).
#[local] Abbreviation sendWithFallback := (EmailService.sendWithFallback host).
#[local] Abbreviation processEmail := (EmailService.processEmail host).

Lemma service_eta s :
  EmailService.setIdempotencyService (EmailService.idempotencyService s) s = s.
Proof. by destruct s. Qed.

Lemma updateStatus_absent emailId tag res err s env :
  EmailService.statusTracking s !! emailId = None →
  updateStatus emailId tag res err (s, env) = (Returned tt, (s, env)).
Proof. intros H. unfold EmailService.updateStatus. by rewrite H. Qed.

Lemma updateStatus_present emailId tag res err s env es :
  EmailService.statusTracking s !! emailId = Some es →
  updateStatus emailId tag res err (s, env)
  = (Returned tt,
     (EmailService.setStatusTracking
        (<[emailId := EmailService.transition (clock env) tag res err es]>
           (EmailService.statusTracking s)) s, env)).
Proof. intros H. unfold EmailService.updateStatus. by rewrite H. Qed.

(** [updateStatus] always returns, and changes nothing but the record it
    found. *)
Lemma updateStatus_footprint emailId tag res err s env :
  ∃ s', updateStatus emailId tag res err (s, env) = (Returned tt, (s', env))
        ∧ s' = EmailService.setStatusTracking (EmailService.statusTracking s') s
        ∧ (∀ j, EmailService.statusTracking s !! j = None ↔
                EmailService.statusTracking s' !! j = None)
        ∧ (EmailService.statusTracking s !! emailId = None → s' = s).
Proof.
  destruct (EmailService.statusTracking s !! emailId) as [es|] eqn:E.
  - rewrite (updateStatus_present _ _ _ _ _ _ _ E). eexists. split; [done|].
    split; [by destruct s|]. split; [|done].
    intros j. simpl. destruct (decide (emailId = j)) as [<-|Hne].
    + rewrite lookup_insert_eq, E. split; discriminate.
    + by rewrite lookup_insert_ne.
  - rewrite (updateStatus_absent _ _ _ _ _ _ E). eexists. split; [done|].
    split; [by destruct s|]. done.
Qed.

Lemma waitForSlot_footprint fuel s env o s' env' :
  waitForSlot fuel (s, env) = (o, (s', env')) →
  s' = EmailService.setRateLimiter (EmailService.rateLimiter s') s
  ∧ sendLog env' = sendLog env ∧ generated env' = generated env.
Proof.
  unfold EmailService.waitForSlot, zoom.
  destruct (RateLimiter.waitForSlot _ _ _ _ _) as [r [rl1 [s1 env1]]] eqn:E.
  intros [= _ <- <-].
  apply (rate_limiter_world _ _ _
           (λ w, fst w = s ∧ sendLog (snd w) = sendLog env
                 ∧ generated (snd w) = generated env)) in E; [|by intros ms [] |done].
  simpl in E. destruct E as (-> & ? & ?). done.
Qed.

Lemma attemptVia_world p e cb s env o cb' s' env' :
  EmailService.attemptVia host p e (cb, (s, env)) = (o, (cb', (s', env'))) →
  s' = s.
Proof.
  unfold EmailService.attemptVia. intros E.
  apply (circuit_breaker_world _ _ _ (λ w, fst w = s)) in E; [done| |done].
  intros [s0 env0] o0 [s1 env1] Hs. unfold outside.
  destruct (RetryMechanism.execute _ _ _ _ _). by intros [= _ <- _].
Qed.

Lemma tryProvider_footprint p cb e s env o s' env' :
  EmailService.tryProvider host p cb e (s, env) = (o, (s', env')) →
  s' = EmailService.setCircuitBreakers (EmailService.circuitBreakers s') s.
Proof.
  unfold EmailService.tryProvider, tryCatch, bind, zoom, ret.
  destruct (EmailService.attemptVia host p e _) as [r [cb1 [s1 env1]]] eqn:E.
  apply attemptVia_world in E as ->.
  destruct r as [res|err|]; [destruct (success res)|..];
    intros [= _ <- _]; reflexivity.
Qed.

Lemma fallback_footprint ps e :
  ∀ lastError s env o s' env',
    EmailService.fallback host ps e lastError (s, env) = (o, (s', env')) →
    s' = EmailService.setCircuitBreakers (EmailService.circuitBreakers s') s.
Proof.
  induction ps as [|p rest IH]; intros lastError s env o s' env'; simpl.
  - intros [= _ <- _]. by destruct s.
  - destruct (EmailService.circuitBreakers s !! name p) as [cb|]; [|apply IH].
    unfold bind.
    destruct (EmailService.tryProvider host p cb e (s, env))
      as [r [s1 env1]] eqn:E.
    apply tryProvider_footprint in E.
    destruct r as [[res|err]|err|].
    + intros [= _ <- _]. exact E.
    + intros H. apply IH in H. rewrite H, E. reflexivity.
    + intros [= _ <- _]. exact E.
    + intros [= _ <- _]. exact E.
Qed.

Lemma sendWithFallback_footprint e s env o s' env' :
  sendWithFallback e (s, env) = (o, (s', env')) →
  s' = EmailService.setCircuitBreakers (EmailService.circuitBreakers s') s.
Proof. apply fallback_footprint. Qed.

(** A cached outcome is returned as it is: nothing changes. *)
Lemma executeOnce_hit fuel key e s env r :
  IdempotencyService.cache (EmailService.idempotencyService s) !! key = Some r →
  executeOnce fuel key e (s, env) = (Returned r, (s, env)).
Proof.
  intros Hhit. unfold EmailService.executeOnce, zoom.
  rewrite (execute_hit _ _ _ _ _ _ _ _ r) by (simpl; by rewrite Hhit).
  by rewrite service_eta.
Qed.

(** With nothing cached and nothing pending for the key, the caller runs
    [sendWithFallback] and settles with its outcome. *)
Lemma executeOnce_owner fuel key e s env :
  IdempotencyService.cache (EmailService.idempotencyService s) !! key = None →
  key ∉ IdempotencyService.pendingRequests (EmailService.idempotencyService s) →
  executeOnce fuel key e (s, env)
  = match sendWithFallback e (s, env) with
    | (Returned r, (s1, env1)) =>
        (Returned r,
         (EmailService.setIdempotencyService
            (IdempotencyService.pendingDelete key
               (IdempotencyService.cacheSet key r
                  (IdempotencyService.pendingAdd key
                     (EmailService.idempotencyService s)))) s1, env1))
    | (Thrown err, (s1, env1)) =>
        (Thrown err,
         (EmailService.setIdempotencyService
            (IdempotencyService.pendingDelete key
               (IdempotencyService.pendingAdd key
                  (EmailService.idempotencyService s))) s1, env1))
    | (Unsettled, (s1, env1)) =>
        (Unsettled,
         (EmailService.setIdempotencyService
            (IdempotencyService.pendingAdd key
               (EmailService.idempotencyService s)) s1, env1))
    end.
Proof.
  intros Hmiss Hfree. unfold EmailService.executeOnce, zoom.
  rewrite execute_owner by (simpl; by rewrite ?Hmiss).
  unfold outside, settle.
  destruct (sendWithFallback e (s, env)) as [[r|err|] [s1 env1]]; reflexivity.
Qed.

Lemma executeOnce_footprint fuel key e s env o s' env' :
  executeOnce fuel key e (s, env) = (o, (s', env')) →
  s' = EmailService.setIdempotencyService (EmailService.idempotencyService s')
         (EmailService.setCircuitBreakers (EmailService.circuitBreakers s') s).
Proof.
  unfold EmailService.executeOnce, zoom.
  destruct (IdempotencyService.execute _ _ _ _ _ _ _) as [r [i1 [s1 env1]]] eqn:E.
  intros [= _ <- _].
  assert (Hs : s1 = EmailService.setCircuitBreakers (EmailService.circuitBreakers s1) s);
    [|rewrite Hs; reflexivity].
  revert E.
  unfold IdempotencyService.execute, bind, IdempotencyService.cacheGet,
    IdempotencyService.isPending, ret, modify, tryFinally.
  destruct (IdempotencyService.whenTruthy _ _).
  { intros [= _ _ <- _]. by destruct s. }
  destruct (bool_decide _).
  - unfold IdempotencyService.waitForPendingRequest. intros E.
    apply (poll_world _ _ _ (λ x, fst (snd x) = s)) in E; [|by intros ms [? []]|done].
    simpl in E. subst. by destruct s.
  - unfold outside.
    destruct (sendWithFallback e (s, env)) as [r0 [s2 env2]] eqn:E2.
    apply sendWithFallback_footprint in E2.
    destruct r0; intros [= _ _ <- _]; exact E2.
Qed.

End ServiceProps.

Section PipelineInvariants.
Context (host : Host).

Lemma processEmail_stable (I : EmailService.t * Env → Prop) fuel emailId e key userId :
  (∀ tag res err, stable I (EmailService.updateStatus emailId tag res err)) →
  stable I (EmailService.waitForSlot fuel) →
  stable I (EmailService.executeOnce host fuel key e) →
  stable I (EmailService.processEmail host fuel emailId e key userId).
Proof.
  intros Hupd Hwait Hexec. unfold EmailService.processEmail.
  apply stable_tryCatch.
  - apply stable_bind; [apply Hupd|intros _].
    apply stable_bind; [apply Hwait|intros _].
    apply stable_bind; [apply Hexec|intros res]. apply Hupd.
  - intros err. apply stable_bind; [apply Hupd|intros _]. apply stable_throw.
Qed.

Lemma waitForSlot_keeps_table Q fuel :
  stable (onStatusTable Q) (EmailService.waitForSlot fuel).
Proof.
  intros [s env] o [s' env'] HQ Hrun. unfold onStatusTable in *.
  apply waitForSlot_footprint in Hrun as (-> & _). exact HQ.
Qed.

Lemma executeOnce_keeps_table Q fuel key e :
  stable (onStatusTable Q) (EmailService.executeOnce host fuel key e).
Proof.
  intros [s env] o [s' env'] HQ Hrun. unfold onStatusTable in *.
  apply executeOnce_footprint in Hrun as ->. exact HQ.
Qed.

Lemma updateStatus_keeps_table (Q : gmap string EmailStatus → Prop)
    emailId tag res err :
  (∀ m es es', m !! emailId = Some es → Q m → Q (<[emailId := es']> m)) →
  stable (onStatusTable Q) (EmailService.updateStatus emailId tag res err).
Proof.
  intros HQ [s env] o [s' env'] Hs. unfold onStatusTable in *. simpl in *.
  unfold EmailService.updateStatus.
  destruct (EmailService.statusTracking s !! emailId) as [es|] eqn:E.
  - intros [= _ <- _]. simpl. eapply HQ; eauto.
  - by intros [= _ <- _].
Qed.

Lemma processEmail_keeps_table (Q : gmap string EmailStatus → Prop)
    fuel emailId e key userId :
  (∀ m es es', m !! emailId = Some es → Q m → Q (<[emailId := es']> m)) →
  stable (onStatusTable Q) (EmailService.processEmail host fuel emailId e key userId).
Proof.
  intros HQ. apply processEmail_stable.
  - intros. by apply updateStatus_keeps_table.
  - apply waitForSlot_keeps_table.
  - apply executeOnce_keeps_table.
Qed.

(** No step of the pipeline adds a record to the status table. *)
Lemma processEmail_adds_no_record j fuel emailId e key userId :
  stable (onStatusTable (λ m, m !! j = None))
         (EmailService.processEmail host fuel emailId e key userId).
Proof.
  apply processEmail_keeps_table. intros m es es' Hes Hj.
  destruct (decide (emailId = j)) as [<-|Hne]; [congruence|].
  by rewrite lookup_insert_ne.
Qed.

(** For an identifier without a record the pipeline leaves the whole
    table as it was. *)
Lemma processEmail_without_record M fuel emailId e key userId :
  M !! emailId = None →
  stable (onStatusTable (λ m, m = M))
         (EmailService.processEmail host fuel emailId e key userId).
Proof.
  intros HM. apply processEmail_keeps_table. intros m es es' Hes ->. congruence.
Qed.

Lemma drain_stable (I : EmailService.t * Env → Prop) rounds fuel :
  (∀ item, stable I (EmailService.queueHandler host fuel item)) →
  (∀ ms x, I x → I (EmailService.sleepIn ms x)) →
  (∀ q s env, I (s, env) → I (EmailService.setQueue q s, env)) →
  stable I (EmailService.drain host rounds fuel).
Proof.
  intros Hproc Hsleep Hset. unfold EmailService.drain.
  apply stable_zoom; [|exact Hset].
  intros [q w] o [q' w'] HI Hrun. simpl in *.
  eapply processNext_world; eauto.
Qed.

Lemma drain_adds_no_record j rounds fuel :
  stable (onStatusTable (λ m, m !! j = None)) (EmailService.drain host rounds fuel).
Proof.
  apply drain_stable.
  - intros item. apply processEmail_adds_no_record.
  - by intros ms [s env].
  - by intros q s env.
Qed.

End PipelineInvariants.

(** [enqueueEmail] returns the identifier it generated and leaves the
    status table as it was, so as long as that identifier had no record it has
    none afterwards; for an identifier without a record every [updateStatus]
    is a no-op, the handler of the drain loop leaves the whole status table
    unchanged, and however far the drain loop runs [getEmailStatus] still
    returns nothing for it. *)
Lemma queued_email_untracked (host : Host) (s : EmailService.t) (env : Env)
    (e : EmailData) (p : Z) :
  EmailService.statusTracking s !! uuid host (generated env) = None →
  ∃ queueId s1 env1,
    queueId = uuid host (generated env)
    ∧ EmailService.enqueueEmail host e p (s, env) = (Returned queueId, (s1, env1))
    ∧ EmailService.statusTracking s1 = EmailService.statusTracking s
    ∧ EmailService.getEmailStatus queueId s1 = None
    ∧ (∀ s2 env2 tag res err,
         EmailService.getEmailStatus queueId s2 = None →
         EmailService.updateStatus queueId tag res err (s2, env2)
         = (Returned tt, (s2, env2)))
    ∧ (∀ fuel item s2 env2 o s3 env3,
         itemId item = queueId →
         EmailService.getEmailStatus queueId s2 = None →
         EmailService.queueHandler host fuel item (s2, env2) = (o, (s3, env3)) →
         EmailService.statusTracking s3 = EmailService.statusTracking s2)
    ∧ (∀ rounds fuel s2 env2 o s3 env3,
         EmailService.getEmailStatus queueId s2 = None →
         EmailService.drain host rounds fuel (s2, env2) = (o, (s3, env3)) →
         EmailService.getEmailStatus queueId s3 = None).
Proof.
  intros Hfresh. eexists _, _, _. split; [reflexivity|].
  split; [reflexivity|]. split; [reflexivity|]. split; [exact Hfresh|].
  split; [|split].
  - intros s2 env2 tag res err Hnone. by apply updateStatus_absent.
  - intros fuel item s2 env2 o s3 env3 Hid Hnone Hrun.
    unfold EmailService.queueHandler in Hrun. rewrite Hid in Hrun.
    exact (processEmail_without_record host (EmailService.statusTracking s2)
             fuel _ _ _ _ Hnone (s2, env2) o (s3, env3) eq_refl Hrun).
  - intros rounds fuel s2 env2 o s3 env3 Hnone Hrun.
    exact (drain_adds_no_record host _ rounds fuel (s2, env2) o (s3, env3) Hnone Hrun).
Qed.

Section SharedKey.
Context (host : Host).

Lemma processEmail_servedFromCache log r fuel emailId e userId :
  stable (servedFromCache log r)
         (EmailService.processEmail host fuel emailId e "" userId).
Proof.
  apply processEmail_stable.
  - intros tag res err [s env] o [s' env'] HI Hrun.
    destruct (updateStatus_footprint emailId tag res err s env)
      as (s1 & Heq & Hs1 & _).
    rewrite Heq in Hrun. inversion Hrun; subst. rewrite Hs1. exact HI.
  - intros [s env] o [s' env'] [Hlog Hc] Hrun.
    apply waitForSlot_footprint in Hrun as (-> & Hlog' & _).
    split; [simpl in *; congruence|exact Hc].
  - intros [s env] o [s' env'] [Hlog Hc] Hrun.
    rewrite (executeOnce_hit host fuel "" e s env r Hc) in Hrun.
    inversion Hrun; subst. by split.
Qed.

(** [sendWithFallback] returns only outcomes that report success. *)
Lemma fallback_returns_success ps e :
  ∀ lastError w r w',
    EmailService.fallback host ps e lastError w = (Returned r, w') →
    success r = true.
Proof.
  induction ps as [|p rest IH]; intros lastError [s env] r w'; simpl.
  - discriminate.
  - destruct (EmailService.circuitBreakers s !! name p) as [cb|]; [|apply IH].
    unfold bind.
    destruct (EmailService.tryProvider host p cb e (s, env))
      as [[[res|err]|err|] w1] eqn:E; try discriminate.
    + intros [= <- _]. revert E.
      unfold EmailService.tryProvider, tryCatch, bind, ret.
      destruct (zoom _ _ _ _) as [[res'|err'|] w2]; try discriminate.
      destruct (success res') eqn:Hs; [|discriminate].
      by intros [= <- _].
    + apply IH.
Qed.

(** The steps of a run of [processEmail] that returns. *)
Lemma processEmail_returned fuel emailId e key userId w w' :
  EmailService.processEmail host fuel emailId e key userId w = (Returned tt, w') →
  ∃ w1 w2 res w3,
    EmailService.updateStatus emailId sending None None w = (Returned tt, w1)
    ∧ EmailService.waitForSlot fuel w1 = (Returned tt, w2)
    ∧ EmailService.executeOnce host fuel key e w2 = (Returned res, w3)
    ∧ EmailService.updateStatus emailId sent (Some res) None w3 = (Returned tt, w').
Proof.
  unfold EmailService.processEmail, tryCatch, bind, throw.
  destruct (EmailService.updateStatus emailId sending None None w)
    as [[[]|e1|] w1] eqn:E1.
  2:{ destruct (EmailService.updateStatus emailId failed _ _ w1) as [[|?|] ?];
        discriminate. }
  2:{ discriminate. }
  destruct (EmailService.waitForSlot fuel w1) as [[[]|e2|] w2] eqn:E2.
  2:{ destruct (EmailService.updateStatus emailId failed _ _ w2) as [[|?|] ?];
        discriminate. }
  2:{ discriminate. }
  destruct (EmailService.executeOnce host fuel key e w2) as [[res|e3|] w3] eqn:E3.
  2:{ destruct (EmailService.updateStatus emailId failed _ _ w3) as [[|?|] ?];
        discriminate. }
  2:{ discriminate. }
  destruct (EmailService.updateStatus emailId sent (Some res) None w3)
    as [[[]|e4|] w4] eqn:E4.
  2:{ destruct (EmailService.updateStatus emailId failed _ _ w4) as [[|?|] ?];
        discriminate. }
  2:{ discriminate. }
  intros [= <-]. eauto 10.
Qed.

End SharedKey.

(** C9. The handler of the drain loop runs the pipeline of every item under
    the empty string as its key. While the cache holds an outcome for the
    empty key, [executeOnce] returns that outcome without touching anything,
    a run of the handler, and of the drain loop over any number of rounds,
    adds no call to the record of backend calls and leaves the outcome cached;
    and a run of the handler that starts with nothing cached or pending for
    the empty key and returns has cached a successful outcome under it. *)
Theorem queue_drain_shares_empty_key (host : Host) :
  (∀ fuel item,
     EmailService.queueHandler host fuel item
     = EmailService.processEmail host fuel (itemId item) (email item) "" None)
  ∧ (∀ fuel e s env r,
       IdempotencyService.cache (EmailService.idempotencyService s) !! "" = Some r →
       EmailService.executeOnce host fuel "" e (s, env) = (Returned r, (s, env)))
  ∧ (∀ fuel item s env o s' env' r,
       IdempotencyService.cache (EmailService.idempotencyService s) !! "" = Some r →
       EmailService.queueHandler host fuel item (s, env) = (o, (s', env')) →
       sendLog env' = sendLog env
       ∧ IdempotencyService.cache (EmailService.idempotencyService s') !! "" = Some r)
  ∧ (∀ rounds fuel s env o s' env' r,
       IdempotencyService.cache (EmailService.idempotencyService s) !! "" = Some r →
       EmailService.drain host rounds fuel (s, env) = (o, (s', env')) →
       sendLog env' = sendLog env
       ∧ IdempotencyService.cache (EmailService.idempotencyService s') !! "" = Some r)
  ∧ (∀ fuel item s env s' env',
       IdempotencyService.cache (EmailService.idempotencyService s) !! "" = None →
       "" ∉ IdempotencyService.pendingRequests (EmailService.idempotencyService s) →
       EmailService.queueHandler host fuel item (s, env) = (Returned tt, (s', env')) →
       ∃ r, success r = true
            ∧ IdempotencyService.cache (EmailService.idempotencyService s') !! ""
              = Some r).
Proof.
  split; [reflexivity|]. split; [|split; [|split]].
  - intros fuel e s env r Hhit. by apply executeOnce_hit.
  - intros fuel item s env o s' env' r Hhit Hrun.
    exact (processEmail_servedFromCache host (sendLog env) r fuel
             (itemId item) (email item) None
             (s, env) o (s', env') (conj eq_refl Hhit) Hrun).
  - intros rounds fuel s env o s' env' r Hhit Hrun.
    refine (drain_stable host (servedFromCache (sendLog env) r) rounds fuel _ _ _
              (s, env) o (s', env') (conj eq_refl Hhit) Hrun).
    + intros item. apply processEmail_servedFromCache.
    + by intros ms [s0 env0].
    + by intros q s0 env0.
  - intros fuel item s env s' env' Hmiss Hfree Hrun.
    unfold EmailService.queueHandler in Hrun.
    apply processEmail_returned in Hrun
      as ([s1 env1] & [s2 env2] & res & [s3 env3] & H1 & H2 & H3 & H4).
    destruct (updateStatus_footprint (itemId item) sending None None s env)
      as (s1' & Heq1 & Hs1 & _).
    rewrite Heq1 in H1. inversion H1; subst s1' env1. clear H1.
    apply waitForSlot_footprint in H2 as (Hs2 & _).
    assert (Hidem : EmailService.idempotencyService s2
                    = EmailService.idempotencyService s).
    { rewrite Hs2, Hs1. reflexivity. }
    rewrite executeOnce_owner in H3 by (by rewrite Hidem).
    destruct (EmailService.sendWithFallback host (email item) (s2, env2))
      as [[r|err|] [s4 env4]] eqn:Hsend; try discriminate.
    inversion H3; subst res s3 env3. clear H3.
    apply fallback_returns_success in Hsend.
    destruct (updateStatus_footprint (itemId item) sent (Some r) None
                (EmailService.setIdempotencyService
                   (IdempotencyService.pendingDelete ""
                      (IdempotencyService.cacheSet "" r
                         (IdempotencyService.pendingAdd ""
                            (EmailService.idempotencyService s2)))) s4) env4)
      as (s5 & Heq5 & Hs5 & _).
    rewrite Heq5 in H4. inversion H4; subst s5 env'. clear H4.
    exists r. split; [done|]. rewrite Hs5. simpl. apply lookup_insert_eq.
Qed.

(** ** A pipeline and the call that starts it *)

Section Launch.
Context (host : Host).

(** [processEmailStart] returns: it has written [sending] to the record of
    the identifier, if there is one, and called [acquire] once. *)
Lemma processEmailStart_run emailId s env :
  ∃ sA granted rl,
    EmailService.updateStatus emailId sending None None (s, env)
    = (Returned tt, (sA, env))
    ∧ RateLimiter.acquire EmailService.Date_now (rateLimit (EmailService.config s))
        (EmailService.rateLimiter s, (sA, env))
      = (Returned granted, (rl, (sA, env)))
    ∧ EmailService.processEmailStart emailId (s, env)
      = (Returned granted, (EmailService.setRateLimiter rl sA, env)).
Proof.
  destruct (updateStatus_footprint emailId sending None None s env)
    as (sA & HA & HsA & _).
  exists sA.
  pose proof (acquire_cases EmailService.Date_now (rateLimit (EmailService.config s))
                (EmailService.rateLimiter s) (sA, env)) as Hacq.
  unfold EmailService.processEmailStart, bind. rewrite HA. unfold zoom.
  assert (Hcfg : EmailService.config sA = EmailService.config s) by (by rewrite HsA).
  assert (Hrl : EmailService.rateLimiter sA = EmailService.rateLimiter s)
    by (by rewrite HsA).
  rewrite Hcfg, Hrl.
  destruct (_ <? _) in Hacq; rewrite Hacq; eauto.
Qed.

(** The rate limiter looks at the clock only: the service that travels
    with the clock comes back as it went in. *)
Lemma backOff_beside cfg rl (s1 s2 : EmailService.t) env :
  ∃ env',
    RateLimiter.backOff EmailService.Date_now EmailService.sleepIn cfg (rl, (s1, env))
    = (Returned tt, (rl, (s1, env')))
    ∧ RateLimiter.backOff EmailService.Date_now EmailService.sleepIn cfg
        (rl, (s2, env))
      = (Returned tt, (rl, (s2, env'))).
Proof.
  unfold RateLimiter.backOff, EmailService.Date_now, EmailService.sleepIn. simpl.
  destruct (RateLimiter.oldestRequest _); [destruct (0 <? _)|]; eauto.
Qed.

Lemma waitForSlot_beside cfg fuel :
  ∀ rl (s1 s2 : EmailService.t) env,
    ∃ o rl' env',
      RateLimiter.waitForSlot EmailService.Date_now EmailService.sleepIn cfg fuel
        (rl, (s1, env)) = (o, (rl', (s1, env')))
      ∧ RateLimiter.waitForSlot EmailService.Date_now EmailService.sleepIn cfg fuel
          (rl, (s2, env)) = (o, (rl', (s2, env'))).
Proof.
  induction fuel as [|fuel IH]; intros rl s1 s2 env; [by eexists _, _, _|].
  rewrite !waitForSlot_step, !acquire_cases.
  change (EmailService.Date_now (s2, env)) with (EmailService.Date_now (s1, env)).
  destruct (_ <? _); [by eexists _, _, _|].
  destruct (backOff_beside cfg
              {| RateLimiter.requests :=
                   RateLimiter.purge cfg (EmailService.Date_now (s1, env))
                     (RateLimiter.requests rl) |}
              s1 s2 env) as (env1 & -> & ->).
  apply IH.
Qed.

(** For a bound of at least one round, [waitForSlot] is its first
    [acquire] followed by its rest. *)
Lemma waitForSlot_split fuel s env :
  EmailService.waitForSlot (S fuel) (s, env)
  = match RateLimiter.acquire EmailService.Date_now (rateLimit (EmailService.config s))
            (EmailService.rateLimiter s, (s, env)) with
    | (Returned granted, (rl, _)) =>
        EmailService.waitForSlotFrom granted (S fuel)
          (EmailService.setRateLimiter rl s, env)
    | (_, (rl, _)) => (Unsettled, (EmailService.setRateLimiter rl s, env))
    end.
Proof.
  unfold EmailService.waitForSlot, EmailService.waitForSlotFrom, zoom.
  rewrite waitForSlot_step, acquire_cases.
  cbn [RateLimiter.waitForSlotFrom].
  destruct (_ <? _); [reflexivity|].
  cbn [EmailService.config EmailService.setRateLimiter EmailService.rateLimiter].
  unfold bind.
  set (rl := {| RateLimiter.requests := _ |}).
  destruct (backOff_beside (rateLimit (EmailService.config s)) rl s
              (EmailService.setRateLimiter rl s) env) as (env1 & -> & ->).
  destruct (waitForSlot_beside (rateLimit (EmailService.config s)) fuel rl s
              (EmailService.setRateLimiter rl s) env1) as (o & rl' & env' & -> & ->).
  reflexivity.
Qed.

(** For a bound of at least one round, [processEmail] is its start
    followed by its rest. *)
Lemma processEmail_split fuel emailId e key userId w :
  (1 ≤ fuel)%nat →
  EmailService.processEmail host fuel emailId e key userId w
  = (await granted ← EmailService.processEmailStart emailId;
     EmailService.processEmailRest host fuel emailId e key userId granted) w.
Proof.
  intros Hfuel. destruct fuel as [|fuel]; [lia|]. destruct w as [s env].
  destruct (processEmailStart_run emailId s env)
    as (sA & granted & rl & HA & Hacq & Hstart).
  unfold bind at 1. rewrite Hstart.
  unfold EmailService.processEmail, EmailService.processEmailRest, tryCatch, bind.
  rewrite HA.
  assert (HsA : EmailService.config sA = EmailService.config s
                ∧ EmailService.rateLimiter sA = EmailService.rateLimiter s).
  { destruct (updateStatus_footprint emailId sending None None s env)
      as (sA' & HA' & HsA & _). rewrite HA in HA'. injection HA' as <-.
    by rewrite HsA. }
  destruct HsA as [Hcfg Hrl].
  by rewrite waitForSlot_split, Hcfg, Hrl, Hacq.
Qed.

(** The whole promise of [sendEmail] is the start of [processEmail]
    followed by the task that [sendEmail] leaves behind. *)
Lemma pipeline_split emailId e key userId fuel w :
  (1 ≤ fuel)%nat →
  EmailService.pipeline host emailId e key userId fuel w
  = (await granted ← EmailService.processEmailStart emailId;
     EmailService.launched host emailId e key userId granted fuel) w.
Proof.
  intros Hfuel. unfold EmailService.pipeline, EmailService.launched, tryCatch.
  rewrite processEmail_split by done. destruct w as [s env].
  destruct (processEmailStart_run emailId s env)
    as (sA & granted & rl & _ & _ & Hstart).
  unfold bind. by rewrite Hstart.
Qed.

(** The run of [sendEmail] itself. *)
Lemma sendEmail_run e userId s env :
  EmailService.sendEmail host e userId (s, env)
  = let emailId := uuid host (generated env) in
    let keyed := IdempotencyService.generateKey (stringify host) e userId None in
    match EmailService.processEmailStart emailId
            (EmailService.setStatusTracking
               (<[emailId := EmailService.initialStatus emailId s (clock env)]>
                  (EmailService.statusTracking s)) s,
             {| clock := clock env; sendLog := sendLog env;
                generated := S (generated env) |}) with
    | (Returned granted, w1) =>
        (Returned (emailId, snd keyed,
                   EmailService.launched host emailId (snd keyed) (fst keyed) userId
                     granted), w1)
    | (Thrown err, w1) => (Thrown err, w1)
    | (Unsettled, w1) => (Unsettled, w1)
    end.
Proof.
  unfold EmailService.sendEmail, bind, EmailService.generateUUID, modify, ret.
  simpl. destruct (IdempotencyService.generateKey _ _ _ _). reflexivity.
Qed.

(** [sendEmail] returns, and the task it leaves behind finishes the
    promise that started when the record had just been written. *)
Lemma sendEmail_task e userId s env :
  let emailId := uuid host (generated env) in
  let keyed := IdempotencyService.generateKey (stringify host) e userId None in
  let registered :=
    (EmailService.setStatusTracking
       (<[emailId := EmailService.initialStatus emailId s (clock env)]>
          (EmailService.statusTracking s)) s,
     {| clock := clock env; sendLog := sendLog env;
        generated := S (generated env) |}) in
  ∃ granted w1,
    EmailService.processEmailStart emailId registered = (Returned granted, w1)
    ∧ EmailService.sendEmail host e userId (s, env)
      = (Returned (emailId, snd keyed,
                   EmailService.launched host emailId (snd keyed) (fst keyed) userId
                     granted), w1)
    ∧ ∀ fuel, (1 ≤ fuel)%nat →
        EmailService.launched host emailId (snd keyed) (fst keyed) userId granted
          fuel w1
        = EmailService.pipeline host emailId (snd keyed) (fst keyed) userId fuel
            registered.
Proof.
  intros emailId keyed registered.
  destruct (processEmailStart_run emailId (fst registered) (snd registered))
    as (sA & granted & rl & _ & _ & Hstart).
  change (fst registered, snd registered) with registered in Hstart.
  exists granted, (EmailService.setRateLimiter rl sA, snd registered).
  split; [exact Hstart|]. split.
  - rewrite sendEmail_run. cbv zeta. fold emailId keyed registered.
    by rewrite Hstart.
  - intros fuel Hfuel. rewrite pipeline_split by done. unfold bind.
    by rewrite Hstart.
Qed.

End Launch.

(** ** What the two halves of a pipeline keep true *)

Section LaunchInvariants.
Context (host : Host).

Lemma setRateLimiter_eta s :
  EmailService.setRateLimiter (EmailService.rateLimiter s) s = s.
Proof. by destruct s. Qed.

Lemma waitForSlotFrom_spent granted s env :
  EmailService.waitForSlotFrom granted 0 (s, env) = (Unsettled, (s, env)).
Proof.
  unfold EmailService.waitForSlotFrom, zoom. simpl. by rewrite setRateLimiter_eta.
Qed.

Lemma waitForSlotFrom_granted fuel s env :
  EmailService.waitForSlotFrom true (S fuel) (s, env) = (Returned tt, (s, env)).
Proof.
  unfold EmailService.waitForSlotFrom, zoom. simpl. by rewrite setRateLimiter_eta.
Qed.

(** After a refusal the rest of [waitForSlot] is the timer of [backOff]
    and then the loop again. *)
Lemma waitForSlotFrom_refused fuel s env :
  ∃ env',
    RateLimiter.backOff EmailService.Date_now EmailService.sleepIn
      (rateLimit (EmailService.config s)) (EmailService.rateLimiter s, (s, env))
    = (Returned tt, (EmailService.rateLimiter s, (s, env')))
    ∧ (env' = env ∨ ∃ ms, env' = sleep ms env)
    ∧ EmailService.waitForSlotFrom false (S fuel) (s, env)
      = EmailService.waitForSlot fuel (s, env').
Proof.
  unfold EmailService.waitForSlotFrom, EmailService.waitForSlot, zoom.
  cbn [RateLimiter.waitForSlotFrom]. unfold bind, RateLimiter.backOff.
  destruct (RateLimiter.oldestRequest _) as [oldest|]; [destruct (0 <? _)|];
    eexists; (split; [reflexivity|]); (split; [|reflexivity]); eauto.
Qed.

Lemma waitForSlotFrom_stable (I : EmailService.t * Env → Prop) granted fuel :
  (∀ f, stable I (EmailService.waitForSlot f)) →
  (∀ ms s env, I (s, env) → I (s, sleep ms env)) →
  stable I (EmailService.waitForSlotFrom granted fuel).
Proof.
  intros Hwait Hsleep [s env] o w' HI.
  destruct fuel as [|fuel]; [rewrite waitForSlotFrom_spent; by intros [= _ <-]|].
  destruct granted; [rewrite waitForSlotFrom_granted; by intros [= _ <-]|].
  destruct (waitForSlotFrom_refused fuel s env) as (env' & _ & Henv & ->).
  apply Hwait. destruct Henv as [->|[ms ->]]; auto.
Qed.

Lemma processEmailRest_stable (I : EmailService.t * Env → Prop)
    fuel emailId e key userId granted :
  (∀ tag res err, stable I (EmailService.updateStatus emailId tag res err)) →
  (∀ f, stable I (EmailService.waitForSlot f)) →
  (∀ ms s env, I (s, env) → I (s, sleep ms env)) →
  stable I (EmailService.executeOnce host fuel key e) →
  stable I (EmailService.processEmailRest host fuel emailId e key userId granted).
Proof.
  intros Hupd Hwait Hsleep Hexec. unfold EmailService.processEmailRest.
  apply stable_tryCatch.
  - apply stable_bind; [by apply waitForSlotFrom_stable|intros _].
    apply stable_bind; [apply Hexec|intros res]. apply Hupd.
  - intros err. apply stable_bind; [apply Hupd|intros _]. apply stable_throw.
Qed.

Lemma launched_stable (I : EmailService.t * Env → Prop)
    emailId e key userId granted fuel :
  stable I (EmailService.processEmailRest host fuel emailId e key userId granted) →
  (∀ tag res err, stable I (EmailService.updateStatus emailId tag res err)) →
  stable I (EmailService.launched host emailId e key userId granted fuel).
Proof. intros Hp Hu. unfold EmailService.launched. by apply stable_tryCatch. Qed.

(** The start of a pipeline keeps what the write of [sending] keeps and a
    call of [acquire] does not disturb. *)
Lemma processEmailStart_stable (I : EmailService.t * Env → Prop) emailId :
  stable I (EmailService.updateStatus emailId sending None None) →
  (∀ s env granted rl,
     I (s, env) →
     RateLimiter.acquire EmailService.Date_now (rateLimit (EmailService.config s))
       (EmailService.rateLimiter s, (s, env))
     = (Returned granted, (rl, (s, env))) →
     I (EmailService.setRateLimiter rl s, env)) →
  stable I (EmailService.processEmailStart emailId).
Proof.
  intros Hupd Hacq [s env] o w' HI. unfold EmailService.processEmailStart, bind.
  destruct (updateStatus_footprint emailId sending None None s env)
    as (sA & HA & _).
  rewrite HA. pose proof (Hupd _ _ _ HI HA) as HIA.
  unfold zoom. rewrite acquire_cases.
  pose proof (Hacq sA env) as Hacq'. rewrite acquire_cases in Hacq'.
  destruct (_ <? _); intros [= _ <-]; eapply Hacq'; eauto.
Qed.

(** A property that does not look at the rate limiter. *)
Lemma processEmailStart_beside (I : EmailService.t * Env → Prop) emailId :
  stable I (EmailService.updateStatus emailId sending None None) →
  (∀ rl s env, I (s, env) → I (EmailService.setRateLimiter rl s, env)) →
  stable I (EmailService.processEmailStart emailId).
Proof. intros Hupd Hset. apply processEmailStart_stable; [done|]. intros; by apply Hset. Qed.

(** [sendEmail] keeps what the write of the first record and the start of
    the pipeline keep. *)
Lemma sendEmail_stable (I : EmailService.t * Env → Prop) e userId :
  (∀ s env,
     I (s, env) →
     I (EmailService.setStatusTracking
          (<[uuid host (generated env) :=
               EmailService.initialStatus (uuid host (generated env)) s (clock env)]>
             (EmailService.statusTracking s)) s,
        {| clock := clock env; sendLog := sendLog env;
           generated := S (generated env) |})) →
  (∀ emailId, stable I (EmailService.processEmailStart emailId)) →
  stable I (EmailService.sendEmail host e userId).
Proof.
  intros Hreg Hstart [s env] o w' HI. rewrite sendEmail_run. cbv zeta.
  destruct (EmailService.processEmailStart _ _) as [[granted|err|] w1] eqn:E;
    intros [= _ <-]; exact (Hstart _ _ _ _ (Hreg _ _ HI) E).
Qed.

End LaunchInvariants.

(** [startProcessing] and the loop it leaves suspended touch the world
    only through the processor and the timers. *)
Lemma startProcessing_world {W R : Type} (processorStart : QueueItem → Async W R)
    (P : W → Prop) :
  (∀ item, stable P (processorStart item)) →
  ∀ q w o q' w',
    P w → EmailQueue.startProcessing processorStart (q, w) = (o, (q', w')) → P w'.
Proof.
  intros Hstart q w o q' w' HP. unfold EmailQueue.startProcessing.
  destruct (EmailQueue.processing q); [by intros [= _ _ <-]|].
  destruct (EmailQueue.dequeue _) as [[item|] q1]; [|by intros [= _ _ <-]].
  destruct (processorStart item w) as [[r|e|] w1] eqn:E;
    pose proof (Hstart item _ _ _ HP E); by intros [= _ _ <-].
Qed.

Lemma resumeProcessing_world {W R : Type} (sleep : Z → W → W)
    (processor : QueueItem → Async W unit)
    (processorRest : QueueItem → R → Async W unit) (P : W → Prop) :
  (∀ item, stable P (processor item)) →
  (∀ item r, stable P (processorRest item r)) →
  (∀ ms w0, P w0 → P (sleep ms w0)) →
  ∀ rounds suspended q w o q' w',
    P w →
    EmailQueue.resumeProcessing sleep processor processorRest rounds suspended (q, w)
    = (o, (q', w')) →
    P w'.
Proof.
  intros Hproc Hrest Hsleep rounds suspended q w o q' w' HP.
  unfold EmailQueue.resumeProcessing. destruct suspended as [ms|item r].
  - apply (processNext_world sleep processor P Hproc Hsleep). auto.
  - destruct (processorRest item r w) as [[[]|e|] w1] eqn:E;
      pose proof (Hrest item r _ _ _ HP E) as HP1.
    + apply (processNext_world sleep processor P Hproc Hsleep). auto.
    + apply (processNext_world sleep processor P Hproc Hsleep). auto.
    + by intros [= _ _ <-].
Qed.

Section QueueLaunch.
Context (host : Host).

Lemma startQueueProcessing_stable (I : EmailService.t * Env → Prop) :
  (∀ emailId, stable I (EmailService.processEmailStart emailId)) →
  (∀ q s env, I (s, env) → I (EmailService.setQueue q s, env)) →
  stable I EmailService.startQueueProcessing.
Proof.
  intros Hstart Hset. unfold EmailService.startQueueProcessing.
  apply stable_zoom; [|exact Hset].
  intros [q w] o [q' w'] HI Hrun.
  exact (startProcessing_world
           (λ item, EmailService.processEmailStart (itemId item)) I
           (λ item, Hstart (itemId item)) q w o q' w' HI Hrun).
Qed.

Lemma resumeDrain_stable (I : EmailService.t * Env → Prop) rounds fuel suspended :
  (∀ item, stable I (EmailService.queueHandler host fuel item)) →
  (∀ item granted,
     stable I (EmailService.processEmailRest host fuel (itemId item) (email item)
                 "" None granted)) →
  (∀ ms x, I x → I (EmailService.sleepIn ms x)) →
  (∀ q s env, I (s, env) → I (EmailService.setQueue q s, env)) →
  stable I (EmailService.resumeDrain host rounds fuel suspended).
Proof.
  intros Hproc Hrest Hsleep Hset. unfold EmailService.resumeDrain.
  apply stable_zoom; [|exact Hset].
  intros [q w] o [q' w'] HI Hrun.
  exact (resumeProcessing_world EmailService.sleepIn
           (EmailService.queueHandler host fuel) _ I Hproc Hrest Hsleep
           rounds suspended q w o q' w' HI Hrun).
Qed.

End QueueLaunch.

(** ** Submission *)

Section Submission.
Context (host : Host).

Lemma transition_status now tag res err es :
  status (EmailService.transition now tag res err es) = tag.
Proof. destruct tag, res; reflexivity. Qed.

Lemma transition_failed now res err es :
  result (EmailService.transition now failed res err es)
  = Some {| success := false; messageId := None;
            error := Some (orElse err "Unknown error");
            provider := "unknown"; timestamp := now |}.
Proof. destruct res; reflexivity. Qed.

(** The background task has a handler for every rejection. *)
Lemma pipeline_never_rejects emailId e key userId fuel w :
  fst (EmailService.pipeline host emailId e key userId fuel w) = Returned tt
  ∨ fst (EmailService.pipeline host emailId e key userId fuel w) = Unsettled.
Proof.
  unfold EmailService.pipeline, tryCatch.
  destruct (EmailService.processEmail _ _ _ _ _ _ _) as [[[]|err|] [s1 env1]]; auto.
  destruct (updateStatus_footprint emailId failed None (messageOf err) s1 env1)
    as (s2 & -> & _). auto.
Qed.

Lemma launched_never_rejects emailId e key userId granted fuel w :
  fst (EmailService.launched host emailId e key userId granted fuel w) = Returned tt
  ∨ fst (EmailService.launched host emailId e key userId granted fuel w) = Unsettled.
Proof.
  unfold EmailService.launched, tryCatch.
  destruct (EmailService.processEmailRest _ _ _ _ _ _ _ _)
    as [[[]|err|] [s1 env1]]; auto.
  destruct (updateStatus_footprint emailId failed None (messageOf err) s1 env1)
    as (s2 & -> & _). auto.
Qed.

Lemma processEmail_keeps_record emailId fuel e key userId :
  stable (onStatusTable (λ m, is_Some (m !! emailId)))
         (EmailService.processEmail host fuel emailId e key userId).
Proof.
  apply processEmail_keeps_table. intros m es es' _ _.
  rewrite lookup_insert_eq. eauto.
Qed.

Lemma processEmailRest_keeps_table (Q : gmap string EmailStatus → Prop)
    fuel emailId e key userId granted :
  (∀ m es es', m !! emailId = Some es → Q m → Q (<[emailId := es']> m)) →
  stable (onStatusTable Q)
         (EmailService.processEmailRest host fuel emailId e key userId granted).
Proof.
  intros HQ. apply processEmailRest_stable.
  - intros. by apply updateStatus_keeps_table.
  - intros f. apply waitForSlot_keeps_table.
  - by intros ms s env.
  - apply executeOnce_keeps_table.
Qed.

Lemma processEmailRest_keeps_record emailId fuel e key userId granted :
  stable (onStatusTable (λ m, is_Some (m !! emailId)))
         (EmailService.processEmailRest host fuel emailId e key userId granted).
Proof.
  apply processEmailRest_keeps_table. intros m es es' _ _.
  rewrite lookup_insert_eq. eauto.
Qed.

(** When the rest of [processEmail] throws, the handler that [sendEmail]
    attached writes [failed] with the message of what was thrown. *)
Lemma launched_handles emailId e key userId granted fuel s env err s2 env2 :
  is_Some (EmailService.statusTracking s !! emailId) →
  EmailService.processEmailRest host fuel emailId e key userId granted (s, env)
  = (Thrown err, (s2, env2)) →
  ∃ s3 record,
    EmailService.launched host emailId e key userId granted fuel (s, env)
    = (Returned tt, (s3, env2))
    ∧ EmailService.getEmailStatus emailId s3 = Some record
    ∧ status record = failed
    ∧ result record
      = Some {| success := false; messageId := None;
                error := Some (orElse (messageOf err) "Unknown error");
                provider := "unknown"; timestamp := clock env2 |}.
Proof.
  intros Hrec Hthrown.
  assert (Hrec2 : is_Some (EmailService.statusTracking s2 !! emailId)).
  { exact (processEmailRest_keeps_record emailId fuel e key userId granted
             (s, env) _ (s2, env2) Hrec Hthrown). }
  destruct Hrec2 as [es Hes]. unfold EmailService.launched, tryCatch.
  rewrite Hthrown, (updateStatus_present _ _ _ _ _ _ _ Hes).
  eexists _, _. split; [reflexivity|].
  unfold EmailService.getEmailStatus. simpl. rewrite lookup_insert_eq.
  split; [reflexivity|]. split; reflexivity.
Qed.

End Submission.

(** For every message, submitter and state of the service, [sendEmail]
    returns the identifier that [generateUUID] produced. It writes under that
    identifier a record with status [pending] and 0 attempts, computes the
    key, and starts the pipeline in the state so reached: when the call
    returns, the pipeline has written [sending] with a first attempt to the
    record and has called [acquire] once; all else is as it was. The task the
    call leaves behind is the rest of that pipeline; it never rejects, in any
    world, and when the pipeline inside it throws, the task still returns and
    the record of the identifier is [failed] with the message of what was
    thrown. *)
Lemma sendEmail_settles (host : Host) (e : EmailData) (userId : option string)
    (s : EmailService.t) (env : Env) :
  ∃ emailId e' key granted task s0 env0 s1,
    EmailService.sendEmail host e userId (s, env)
    = (Returned (emailId, e', task), (s1, env0))
    ∧ emailId = uuid host (generated env)
    ∧ s0 = EmailService.setStatusTracking
             (<[emailId := {| id := emailId; status := pending; attempts := 0;
                              maxAttemptsOf :=
                                maxAttempts (retry (EmailService.config s));
                              lastAttempt := None; nextRetry := None;
                              result := None;
                              createdAt := clock env; updatedAt := clock env |}]>
                (EmailService.statusTracking s)) s
    ∧ env0 = {| clock := clock env; sendLog := sendLog env;
                generated := S (generated env) |}
    ∧ (key, e') = IdempotencyService.generateKey (stringify host) e userId None
    ∧ EmailService.processEmailStart emailId (s0, env0) = (Returned granted, (s1, env0))
    ∧ task = EmailService.launched host emailId e' key userId granted
    ∧ (∀ fuel, (1 ≤ fuel)%nat →
         task fuel (s1, env0)
         = EmailService.pipeline host emailId e' key userId fuel (s0, env0))
    ∧ EmailService.getEmailStatus emailId s1
      = Some {| id := emailId; status := sending; attempts := 1;
                maxAttemptsOf := maxAttempts (retry (EmailService.config s));
                lastAttempt := Some (clock env); nextRetry := None; result := None;
                createdAt := clock env; updatedAt := clock env |}
    ∧ (∀ j, j ≠ emailId →
            EmailService.getEmailStatus j s1 = EmailService.getEmailStatus j s)
    ∧ (let live :=
         RateLimiter.purge (rateLimit (EmailService.config s)) (clock env)
           (RateLimiter.requests (EmailService.rateLimiter s)) in
       granted = (Z.of_nat (length live) <? maxRequests (rateLimit (EmailService.config s)))
       ∧ RateLimiter.requests (EmailService.rateLimiter s1)
         = if granted then live ++ [clock env] else live)
    ∧ EmailService.config s1 = EmailService.config s
    ∧ EmailService.circuitBreakers s1 = EmailService.circuitBreakers s
    ∧ EmailService.idempotencyService s1 = EmailService.idempotencyService s
    ∧ EmailService.queue s1 = EmailService.queue s
    ∧ (∀ fuel w, fst (task fuel w) = Returned tt ∨ fst (task fuel w) = Unsettled)
    ∧ (∀ fuel err s2 env2,
         EmailService.processEmailRest host fuel emailId e' key userId granted
           (s1, env0)
         = (Thrown err, (s2, env2)) →
         ∃ s3 record,
           task fuel (s1, env0) = (Returned tt, (s3, env2))
           ∧ EmailService.getEmailStatus emailId s3 = Some record
           ∧ status record = failed
           ∧ result record
             = Some {| success := false; messageId := None;
                       error := Some (orElse (messageOf err) "Unknown error");
                       provider := "unknown"; timestamp := clock env2 |}).
Proof.
  pose proof (sendEmail_task host e userId s env) as Htask. cbv zeta in Htask.
  destruct (IdempotencyService.generateKey (stringify host) e userId None)
    as [key e'] eqn:Hkey.
  set (emailId := uuid host (generated env)) in *.
  set (env0 := {| clock := clock env; sendLog := sendLog env;
                  generated := S (generated env) |}) in *.
  set (s0 := EmailService.setStatusTracking _ s) in *.
  destruct Htask as (granted & w1 & Hstart & Hsend & Hrest).
  assert (H0 : EmailService.statusTracking s0 !! emailId
               = Some (EmailService.initialStatus emailId s (clock env)))
    by apply lookup_insert_eq.
  cbn [fst snd] in Hsend, Hrest.
  destruct (processEmailStart_run emailId s0 env0)
    as (sA & granted' & rl & HA & Hacq & Hshape).
  rewrite Hstart in Hshape. injection Hshape as <- ->.
  rewrite (updateStatus_present _ _ _ _ _ _ _ H0) in HA. injection HA as <-.
  rewrite acquire_cases in Hacq.
  change (EmailService.config s0) with (EmailService.config s) in Hacq.
  change (EmailService.rateLimiter s0) with (EmailService.rateLimiter s) in Hacq.
  cbn [EmailService.Date_now snd clock env0] in Hacq.
  set (live := RateLimiter.purge _ _ _) in Hacq.
  exists emailId, e', key, granted,
    (EmailService.launched host emailId e' key userId granted), s0, env0.
  destruct (Z.of_nat (length live) <? maxRequests (rateLimit (EmailService.config s)))
    eqn:Hfree; injection Hacq as <- <-.
  all: eexists; split; [exact Hsend|].
  all: split; [reflexivity|]. all: split; [reflexivity|].
  all: split; [reflexivity|]. all: split; [reflexivity|].
  all: split; [exact Hstart|]. all: split; [reflexivity|].
  all: split; [exact Hrest|].
  all: split; [unfold EmailService.getEmailStatus; simpl;
               by rewrite lookup_insert_eq|].
  all: split; [intros j Hj; unfold EmailService.getEmailStatus; simpl;
               by rewrite !lookup_insert_ne|].
  all: split; [cbv zeta; fold live; by rewrite Hfree|].
  all: do 4 (split; [reflexivity|]).
  all: split; [intros; apply launched_never_rejects|].
  all: intros fuel err s2 env2 Hthrown.
  all: eapply launched_handles; [|exact Hthrown].
  all: simpl; rewrite lookup_insert_eq; eauto.
Qed.

(** ** Mutation of the submitted message *)

(** C8, as the code behaves: submitting a message whose [to] array is
    [b@example.com, a@example.com] without a submitter id leaves the array as
    [a@example.com, b@example.com]: [generateKey] sorts the arrays of the
    message in place. With a submitter id the message is left as it was. *)
Theorem sendEmail_sorts_recipients_in_place (host : Host) (w : EmailService.t * Env) :
  (to <$> messageAfterSendEmail host unsortedEmail None w)
  = Some (ManyRecipients ["a@example.com"; "b@example.com"])
  ∧ messageAfterSendEmail host unsortedEmail None w ≠ Some unsortedEmail
  ∧ messageAfterSendEmail host unsortedEmail (Some "user123") w = Some unsortedEmail.
Proof.
  destruct w as [s env]. unfold messageAfterSendEmail.
  destruct (sendEmail_task host unsortedEmail None s env)
    as (g1 & w1 & _ & -> & _).
  destruct (sendEmail_task host unsortedEmail (Some "user123") s env)
    as (g2 & w2 & _ & -> & _).
  repeat split. discriminate.
Qed.

(** ** Exhausting every backend *)

(** The call of [execute] settles the way the operation does, or throws. *)
Lemma circuit_breaker_outcome {W T : Type} (Date_now : W → Z) showDate config
    (Q : Outcome T → Prop) (op : Async W T) cb w :
  (∀ w0, Q (fst (op w0))) →
  (∀ e, Q (Thrown e)) →
  Q (fst (CircuitBreaker.execute Date_now showDate config op (cb, w))).
Proof.
  intros Hop Hthrow.
  assert (Hg : ∀ cb1, Q (fst (guarded Date_now config op cb1 w))).
  { intros cb1. unfold guarded. pose proof (Hop w) as HQ.
    destruct (op w) as [[r|e|] w1]; exact HQ. }
  destruct (CircuitBreaker.state cb) eqn:Hst.
  - rewrite execute_not_open by congruence. apply Hg.
  - destruct (CircuitBreaker.shouldAttemptReset (Date_now w) cb) eqn:Hdue.
    + rewrite execute_open_due by done. apply Hg.
    + rewrite execute_open_early by done. apply Hthrow.
  - rewrite execute_not_open by congruence. apply Hg.
Qed.

Section Exhaustion.
Context (host : Host).

Lemma attemptVia_fails p e cb s env :
  alwaysFails p →
  failure (fst (EmailService.attemptVia host p e (cb, (s, env)))).
Proof.
  intros Hp. unfold EmailService.attemptVia.
  apply circuit_breaker_outcome; [|done].
  intros [s0 env0]. unfold outside.
  pose proof (retry_settles sleep (retry (EmailService.config s)) (send p e) failure)
    as Hretry.
  specialize (Hretry ltac:(intros env1; unfold send; specialize (Hp e env1);
                           destruct (respond p e env1); exact Hp) 1 env0).
  destruct (RetryMechanism.execute _ _ _ _ _). exact Hretry.
Qed.

Lemma tryProvider_fails p e cb s env :
  alwaysFails p →
  ∃ m w', EmailService.tryProvider host p cb e (s, env)
          = (Returned (inr (ErrorObj m)), w').
Proof.
  intros Hp. pose proof (attemptVia_fails p e cb s env Hp) as Hfail.
  unfold EmailService.tryProvider, tryCatch, bind, zoom, ret.
  destruct (EmailService.attemptVia host p e _) as [[r|[m|v]|] [cb' [s' env']]];
    simpl in Hfail; [rewrite Hfail|..]; eauto; done.
Qed.

(** With every backend failing, the loop of [sendWithFallback] runs to its
    end and throws an [Error]. *)
Lemma fallback_all_fail ps e :
  Forall alwaysFails ps →
  ∀ lastError w,
    (∀ err, lastError = Some err → ∃ m, err = ErrorObj m) →
    ∃ m w', EmailService.fallback host ps e lastError w = (Thrown (ErrorObj m), w').
Proof.
  induction 1 as [|p rest Hp Hrest IH]; intros lastError [s env] Hlast; simpl.
  - destruct lastError as [err|]; simpl.
    + destruct (Hlast err eq_refl) as [m ->]. eauto.
    + eauto.
  - destruct (EmailService.circuitBreakers s !! name p) as [cb|]; [|by apply IH].
    destruct (tryProvider_fails p e cb s env Hp) as (m & w1 & Htry).
    unfold bind. rewrite Htry. apply IH. intros err [= <-]. eauto.
Qed.

Lemma service_waitForSlot_settles fuel s env :
  1 ≤ maxRequests (rateLimit (EmailService.config s)) →
  Z.of_nat (length (RateLimiter.requests (EmailService.rateLimiter s)))
  ≤ maxRequests (rateLimit (EmailService.config s)) →
  (2 ≤ fuel)%nat →
  ∃ rl' env',
    EmailService.waitForSlot fuel (s, env)
    = (Returned tt, (EmailService.setRateLimiter rl' s, env')).
Proof.
  intros Hmax Hin Hfuel.
  destruct (waitForSlot_settles EmailService.Date_now EmailService.sleepIn
              (rateLimit (EmailService.config s)) fuel
              (EmailService.rateLimiter s) (s, env))
    as (rl' & [s' env'] & Hrun & _); [by intros ms []|done|done|done|].
  pose proof Hrun as Hworld.
  apply (rate_limiter_world _ _ _ (λ w, fst w = s)) in Hworld;
    [|by intros ms []|done].
  simpl in Hworld. subst s'.
  unfold EmailService.waitForSlot, zoom. rewrite Hrun. eauto.
Qed.

Lemma orElse_nonempty x fallback : fallback ≠ "" → orElse x fallback ≠ "".
Proof.
  intros Hf. unfold orElse. destruct x as [s|]; [|done].
  destruct (String.eqb_spec s ""); done.
Qed.

End Exhaustion.

(** ** The identifiers handed out *)

Section Identifiers.
Context (host : Host).

Lemma send_keeps_generated p e env o env' :
  send p e env = (o, env') → generated env' = generated env.
Proof. unfold send. destruct (respond p e env). by intros [= _ <-]. Qed.

Lemma attemptVia_keeps_generated p e cb s env o cb' s' env' :
  EmailService.attemptVia host p e (cb, (s, env)) = (o, (cb', (s', env'))) →
  generated env' = generated env.
Proof.
  unfold EmailService.attemptVia. intros E.
  apply (circuit_breaker_world _ _ _ (λ w, generated (snd w) = generated env)) in E;
    [done| |done].
  intros [s0 env0] o0 [s1 env1] Hg. unfold outside.
  destruct (RetryMechanism.execute _ _ _ _ _) as [r env2] eqn:Hretry.
  intros [= _ _ <-]. simpl in *.
  apply (retry_world _ _ (λ env3, generated env3 = generated env)) in Hretry;
    [done| |done|done].
  intros env3 o3 env4 Hg3 Hsend. apply send_keeps_generated in Hsend. congruence.
Qed.

Lemma fallback_keeps_generated ps e :
  ∀ lastError s env o s' env',
    EmailService.fallback host ps e lastError (s, env) = (o, (s', env')) →
    generated env' = generated env.
Proof.
  induction ps as [|p rest IH]; intros lastError s env o s' env'; simpl.
  - by intros [= _ _ <-].
  - destruct (EmailService.circuitBreakers s !! name p) as [cb|]; [|apply IH].
    unfold bind.
    destruct (EmailService.tryProvider host p cb e (s, env))
      as [r [s1 env1]] eqn:E.
    assert (Hg : generated env1 = generated env).
    { revert E. unfold EmailService.tryProvider, tryCatch, bind, zoom, ret.
      destruct (EmailService.attemptVia host p e _) as [r0 [cb1 [s2 env2]]] eqn:E0.
      apply attemptVia_keeps_generated in E0.
      destruct r0 as [res|err|]; [destruct (success res)|..];
        by intros [= _ _ <-]. }
    destruct r as [[res|err]|err|]; try (by intros [= _ _ <-]).
    intros H. apply IH in H. congruence.
Qed.

Lemma executeOnce_keeps_generated g fuel key e :
  stable (identifiersSoFar g) (EmailService.executeOnce host fuel key e).
Proof.
  intros [s env] o [s' env'] Hg. unfold identifiersSoFar in *. simpl in *.
  unfold EmailService.executeOnce, zoom.
  destruct (IdempotencyService.execute _ _ _ _ _ _ _) as [r [i1 [s1 env1]]] eqn:E.
  intros [= _ _ <-]. revert E.
  unfold IdempotencyService.execute, bind, IdempotencyService.cacheGet,
    IdempotencyService.isPending, ret, modify, tryFinally.
  destruct (IdempotencyService.whenTruthy _ _); [by intros [= _ _ _ <-]|].
  destruct (bool_decide _).
  - unfold IdempotencyService.waitForPendingRequest. intros E.
    apply (poll_world _ _ _ (λ x, generated (snd (snd x)) = g)) in E;
      [done|by intros ms [? []]|done].
  - unfold outside.
    destruct (EmailService.sendWithFallback host e (s, env))
      as [r0 [s2 env2]] eqn:E2.
    apply fallback_keeps_generated in E2.
    destruct r0; intros [= _ _ _ <-]; congruence.
Qed.

Lemma processEmail_keeps_generated g fuel emailId e key userId :
  stable (identifiersSoFar g)
         (EmailService.processEmail host fuel emailId e key userId).
Proof.
  apply processEmail_stable.
  - intros tag res err [s env] o [s' env'] Hg Hrun.
    destruct (updateStatus_footprint emailId tag res err s env) as (s1 & Heq & _).
    rewrite Heq in Hrun. by inversion Hrun; subst.
  - intros [s env] o [s' env'] Hg Hrun.
    apply waitForSlot_footprint in Hrun as (_ & _ & Hgen).
    unfold identifiersSoFar in *. simpl in *. congruence.
  - apply executeOnce_keeps_generated.
Qed.

Lemma pipeline_stable (I : EmailService.t * Env → Prop) emailId e key userId fuel :
  stable I (EmailService.processEmail host fuel emailId e key userId) →
  (∀ tag res err, stable I (EmailService.updateStatus emailId tag res err)) →
  stable I (EmailService.pipeline host emailId e key userId fuel).
Proof. intros Hp Hu. unfold EmailService.pipeline. by apply stable_tryCatch. Qed.

Lemma updateStatus_keeps_generated g emailId tag res err :
  stable (identifiersSoFar g) (EmailService.updateStatus emailId tag res err).
Proof.
  intros [s env] o [s' env'] Hg Hrun.
  destruct (updateStatus_footprint emailId tag res err s env) as (s1 & Heq & _).
  rewrite Heq in Hrun. by inversion Hrun; subst.
Qed.

Lemma waitForSlot_keeps_generated g fuel :
  stable (identifiersSoFar g) (EmailService.waitForSlot fuel).
Proof.
  intros [s env] o [s' env'] Hg Hrun.
  apply waitForSlot_footprint in Hrun as (_ & _ & Hgen).
  unfold identifiersSoFar in *. simpl in *. congruence.
Qed.

Lemma processEmailStart_keeps_generated g emailId :
  stable (identifiersSoFar g) (EmailService.processEmailStart emailId).
Proof.
  apply processEmailStart_beside; [apply updateStatus_keeps_generated|].
  by intros rl s env.
Qed.

Lemma processEmailRest_keeps_generated g fuel emailId e key userId granted :
  stable (identifiersSoFar g)
         (EmailService.processEmailRest host fuel emailId e key userId granted).
Proof.
  apply processEmailRest_stable.
  - intros. apply updateStatus_keeps_generated.
  - intros f. apply waitForSlot_keeps_generated.
  - by intros ms s env.
  - apply executeOnce_keeps_generated.
Qed.

Lemma updateStatus_adds_no_record j emailId tag res err :
  stable (onStatusTable (λ m, m !! j = None))
         (EmailService.updateStatus emailId tag res err).
Proof.
  apply updateStatus_keeps_table. intros m es es' Hes Hj.
  destruct (decide (emailId = j)) as [<-|Hne]; [congruence|].
  by rewrite lookup_insert_ne.
Qed.

Lemma processEmailStart_adds_no_record j emailId :
  stable (onStatusTable (λ m, m !! j = None))
         (EmailService.processEmailStart emailId).
Proof.
  apply processEmailStart_beside; [apply updateStatus_adds_no_record|].
  by intros rl s env.
Qed.

Lemma processEmailRest_adds_no_record j fuel emailId e key userId granted :
  stable (onStatusTable (λ m, m !! j = None))
         (EmailService.processEmailRest host fuel emailId e key userId granted).
Proof.
  apply processEmailRest_keeps_table. intros m es es' Hes Hj.
  destruct (decide (emailId = j)) as [<-|Hne]; [congruence|].
  by rewrite lookup_insert_ne.
Qed.

End Identifiers.

(** ** The life of a service *)

Section ServiceLife.
Context (host : Host).

Lemma enqueueEmail_run e p s env :
  EmailService.enqueueEmail host e p (s, env)
  = (Returned (uuid host (generated env)),
     (EmailService.setQueue
        (snd (EmailQueue.enqueue (uuid host (generated env)) (clock env) e p
                (EmailService.queue s))) s,
      {| clock := clock env; sendLog := sendLog env;
         generated := S (generated env) |})).
Proof. reflexivity. Qed.

Lemma startQueueProcessing_keeps_generated g :
  stable (identifiersSoFar g) EmailService.startQueueProcessing.
Proof.
  apply startQueueProcessing_stable.
  - intros emailId. apply processEmailStart_keeps_generated.
  - by intros q s env.
Qed.

Lemma startQueueProcessing_adds_no_record j :
  stable (onStatusTable (λ m, m !! j = None)) EmailService.startQueueProcessing.
Proof.
  apply startQueueProcessing_stable.
  - intros emailId. apply processEmailStart_adds_no_record.
  - by intros q s env.
Qed.

Lemma resumeDrain_keeps_generated g rounds fuel suspended :
  stable (identifiersSoFar g) (EmailService.resumeDrain host rounds fuel suspended).
Proof.
  apply resumeDrain_stable.
  - intros item. apply processEmail_keeps_generated.
  - intros item granted. apply processEmailRest_keeps_generated.
  - by intros ms [s env].
  - by intros q s env.
Qed.

Lemma resumeDrain_adds_no_record j rounds fuel suspended :
  stable (onStatusTable (λ m, m !! j = None))
         (EmailService.resumeDrain host rounds fuel suspended).
Proof.
  apply resumeDrain_stable.
  - intros item. apply processEmail_adds_no_record.
  - intros item granted. apply processEmailRest_adds_no_record.
  - by intros ms [s env].
  - by intros q s env.
Qed.

Lemma drain_keeps_generated g rounds fuel :
  stable (identifiersSoFar g) (EmailService.drain host rounds fuel).
Proof.
  apply drain_stable.
  - intros item. apply processEmail_keeps_generated.
  - by intros ms [s env].
  - by intros q s env.
Qed.

(** What a step does to the status table and to the count of identifiers:
    only [sendEmail] adds a record, under the identifier it generates. *)
Lemma serviceStep_footprint w w' :
  serviceStep host w w' →
  (generated (snd w) ≤ generated (snd w'))%nat
  ∧ ∀ j, EmailService.statusTracking (fst w) !! j = None →
         EmailService.statusTracking (fst w') !! j = None
         ∨ (j = uuid host (generated (snd w))
            ∧ (generated (snd w) < generated (snd w'))%nat).
Proof.
  intros Hstep.
  assert (Hkeep : ∀ A (m : Async (EmailService.t * Env) A) o,
            (∀ g, stable (identifiersSoFar g) m) →
            (∀ j, stable (onStatusTable (λ t, t !! j = None)) m) →
            m w = (o, w') →
            (generated (snd w) ≤ generated (snd w'))%nat
            ∧ ∀ j, EmailService.statusTracking (fst w) !! j = None →
                   EmailService.statusTracking (fst w') !! j = None
                   ∨ (j = uuid host (generated (snd w))
                      ∧ (generated (snd w) < generated (snd w'))%nat)).
  { intros A m o Hg Ht Hrun. split.
    - pose proof (Hg (generated (snd w)) w o w' eq_refl Hrun) as Hgen.
      unfold identifiersSoFar in Hgen. lia.
    - intros j Hj. left. exact (Ht j w o w' Hj Hrun). }
  destruct Hstep as [e userId [s env] r [s' env'] Hrun
                    |emailId e key userId fuel w o w' Hrun
                    |emailId e key userId granted fuel w o w' Hrun
                    |e p [s env] r [s' env'] Hrun
                    |w r w' Hrun
                    |rounds fuel w o w' Hrun
                    |rounds fuel suspended w o w' Hrun
                    |s env|s env|s env|s env|s env ms]; simpl.
  - destruct (sendEmail_task host e userId s env)
      as (granted & w1 & Hstart & Hsend & _).
    rewrite Hsend in Hrun. injection Hrun as _ ->.
    assert (Hgen : identifiersSoFar (S (generated env)) (s', env'))
      by (eapply processEmailStart_keeps_generated; [|exact Hstart]; reflexivity).
    unfold identifiersSoFar in Hgen. simpl in Hgen. split; [lia|]. intros j Hj.
    destruct (decide (uuid host (generated env) = j)) as [<-|Hne].
    + right. split; [done|lia].
    + left.
      change (onStatusTable (λ m, m !! j = None) (s', env')).
      eapply (processEmailStart_adds_no_record j); [|exact Hstart].
      unfold onStatusTable. simpl. by rewrite lookup_insert_ne.
  - eapply Hkeep; [| |exact Hrun].
    + intros g. apply pipeline_stable; [apply processEmail_keeps_generated|].
      intros. apply updateStatus_keeps_generated.
    + intros j. apply pipeline_stable; [apply processEmail_adds_no_record|].
      intros. apply updateStatus_adds_no_record.
  - eapply Hkeep; [| |exact Hrun].
    + intros g. apply launched_stable; [apply processEmailRest_keeps_generated|].
      intros. apply updateStatus_keeps_generated.
    + intros j. apply launched_stable; [apply processEmailRest_adds_no_record|].
      intros. apply updateStatus_adds_no_record.
  - rewrite enqueueEmail_run in Hrun. inversion Hrun; subst. simpl.
    split; [lia|auto].
  - eapply Hkeep; [| |exact Hrun].
    + intros g. apply startQueueProcessing_keeps_generated.
    + intros j. apply startQueueProcessing_adds_no_record.
  - eapply Hkeep; [| |exact Hrun].
    + intros g. apply drain_keeps_generated.
    + intros j. apply drain_adds_no_record.
  - eapply Hkeep; [| |exact Hrun].
    + intros g. apply resumeDrain_keeps_generated.
    + intros j. apply resumeDrain_adds_no_record.
  - split; [lia|auto].
  - split; [lia|auto].
  - split; [lia|auto].
  - split; [lia|auto].
  - split; [lia|auto].
Qed.

Lemma serviceStep_allocated w w' :
  serviceStep host w w' → allocated host w → allocated host w'.
Proof.
  intros Hstep Hall j Hj.
  destruct (serviceStep_footprint _ _ Hstep) as [Hgen Hadd].
  destruct (EmailService.statusTracking (fst w) !! j) as [es|] eqn:E.
  - destruct (Hall j) as (n & Hn & ->); [rewrite E; eauto|]. exists n. split; [lia|done].
  - destruct (Hadd j E) as [Hnone|[-> Hlt]].
    + rewrite Hnone in Hj. by destruct Hj.
    + eauto.
Qed.

Lemma serviceReach_allocated cfg env0 w :
  serviceReach host cfg env0 w → allocated host w.
Proof.
  unfold serviceReach. revert w. apply rtc_ind_r.
  - intros j [es Hes]. simpl in Hes. by rewrite lookup_empty in Hes.
  - intros w1 w2 _ Hstep IH. by eapply serviceStep_allocated.
Qed.

Lemma serviceStep_withoutRecord k w w' :
  (∀ n m, uuid host n = uuid host m → n = m) →
  serviceStep host w w' → withoutRecord host k w → withoutRecord host k w'.
Proof.
  intros Hinj Hstep [Hnone Hk].
  destruct (serviceStep_footprint _ _ Hstep) as [Hgen Hadd].
  split; [|lia].
  destruct (Hadd _ Hnone) as [?|[Heq _]]; [done|]. apply Hinj in Heq. lia.
Qed.

Lemma later_withoutRecord k w w' :
  (∀ n m, uuid host n = uuid host m → n = m) →
  rtc (serviceStep host) w w' → withoutRecord host k w → withoutRecord host k w'.
Proof.
  intros Hinj Hsteps Hk. revert w' Hsteps. apply rtc_ind_r; [done|].
  intros w1 w2 _ Hstep IH. by eapply serviceStep_withoutRecord.
Qed.

(** The identifier that the next call of [generateUUID] returns has no
    record. *)
Lemma next_identifier_is_fresh cfg env0 s env :
  (∀ n m, uuid host n = uuid host m → n = m) →
  serviceReach host cfg env0 (s, env) →
  EmailService.statusTracking s !! uuid host (generated env) = None.
Proof.
  intros Hinj Hreach. apply serviceReach_allocated in Hreach.
  destruct (EmailService.statusTracking s !! uuid host (generated env)) eqn:E;
    [|done].
  destruct (Hreach (uuid host (generated env))) as (n & Hn & Heq);
    [simpl; rewrite E; eauto|].
  apply Hinj in Heq. simpl in Hn. lia.
Qed.

End ServiceLife.

(** ** One backend of the fallback loop *)

Section OneBackend.
Context (host : Host).

(** The log of calls after a [send]. *)
#[local] Abbreviation afterSend p e env d :=
  ({| clock := clock env + Z.max 0 d; sendLog := sendLog env ++ [(name p, e)];
      generated := generated env |}).

Lemma tryProvider_run p cb e s env :
  EmailService.tryProvider host p cb e (s, env)
  = match EmailService.attemptVia host p e (cb, (s, env)) with
    | (o, (cb', (_, env'))) =>
        (match o with
         | Returned res =>
             Returned (if success res then inl res
                       else inr (ErrorObj (orElse (error res)
                                             "Provider returned failure")))
         | Thrown err => Returned (inr (EmailService.asError err))
         | Unsettled => Unsettled
         end,
         (EmailService.setCircuitBreakers
            (<[name p := cb']> (EmailService.circuitBreakers s)) s, env'))
    end.
Proof.
  unfold EmailService.tryProvider, tryCatch, bind, zoom, ret.
  destruct (EmailService.attemptVia host p e _) as [o [cb' [s' env']]] eqn:E.
  apply attemptVia_world in E as ->.
  destruct o as [res|err|]; [destruct (success res)|..]; reflexivity.
Qed.

Lemma attemptVia_breaker p e cb s env :
  fst (snd (EmailService.attemptVia host p e (cb, (s, env))))
  = breakerAfter EmailService.Date_now (showDate host)
      (circuitBreaker (EmailService.config s))
      (outside (RetryMechanism.execute sleep (retry (EmailService.config s))
                  (send p e) 1))
      cb (s, env).
Proof. reflexivity. Qed.

Lemma retry_returned p e r d env cfg :
  respond p e env = (Returned r, d) →
  RetryMechanism.execute sleep cfg (send p e) 1 env
  = (Returned r, afterSend p e env d).
Proof.
  intros Hresp. rewrite retry_execute_unfold. unfold send. by rewrite Hresp.
Qed.

Lemma attemptVia_returned p e cb s env r d :
  CircuitBreaker.state cb ≠ OPEN →
  respond p e env = (Returned r, d) →
  EmailService.attemptVia host p e (cb, (s, env))
  = (Returned r, (CircuitBreaker.new, (s, afterSend p e env d))).
Proof.
  intros Hst Hresp. unfold EmailService.attemptVia.
  rewrite execute_not_open by done. unfold guarded, outside.
  by rewrite (retry_returned p e r d env _ Hresp).
Qed.

Lemma attemptVia_open p e cb s env :
  CircuitBreaker.state cb = OPEN →
  CircuitBreaker.shouldAttemptReset (clock env) cb = false →
  EmailService.attemptVia host p e (cb, (s, env))
  = (Thrown (CircuitBreaker.openError (showDate host) cb), (cb, (s, env))).
Proof.
  intros Hst Hearly. unfold EmailService.attemptVia.
  by rewrite execute_open_early.
Qed.

(** Whatever happens, one backend of the loop adds to the record of calls
    only calls of that backend with the message at hand. *)
Lemma attemptVia_calls p e cb s env o cb' s' env' :
  EmailService.attemptVia host p e (cb, (s, env)) = (o, (cb', (s', env'))) →
  ∃ n, callsAdded env env' (replicate n (name p, e)).
Proof.
  unfold EmailService.attemptVia. intros E.
  apply (circuit_breaker_world _ _ _
           (λ w, ∃ n, callsAdded env (snd w) (replicate n (name p, e)))) in E;
    [done| |exists 0%nat; unfold callsAdded; by rewrite app_nil_r].
  intros [s0 env0] o0 [s1 env1] Hlog. unfold outside.
  destruct (RetryMechanism.execute _ _ _ _ _) as [r env2] eqn:Hretry.
  intros [= _ _ <-]. simpl in *.
  apply (retry_world _ _
           (λ env3, ∃ n, callsAdded env env3 (replicate n (name p, e)))) in Hretry;
    [done| |by intros ms env3|done].
  intros env3 o3 env4 [n Hn] Hsend. unfold send in Hsend.
  destruct (respond p e env3). injection Hsend as _ <-.
  exists (S n). unfold callsAdded in *. cbn [sendLog].
  by rewrite Hn, replicate_S_end, app_assoc.
Qed.

Lemma tryProvider_calls p cb e s env o s' env' :
  EmailService.tryProvider host p cb e (s, env) = (o, (s', env')) →
  ∃ n, callsAdded env env' (replicate n (name p, e)).
Proof.
  rewrite tryProvider_run.
  destruct (EmailService.attemptVia host p e _) as [o0 [cb' [s0 env0]]] eqn:E.
  apply attemptVia_calls in E. by intros [= _ _ <-].
Qed.

End OneBackend.

(** ** What the circuit breakers keep true *)

Section BreakerInvariant.
Context (host : Host) (cfg : EmailServiceConfig).

#[local] Abbreviation I := (breakersSound host cfg).

Lemma constructor_breakers ps :
  ∀ (acc : gmap string CircuitBreaker.t) n,
    foldl (λ m p, <[name p := CircuitBreaker.new]> m) acc ps !! n
    = if decide (n ∈ name <$> ps) then Some CircuitBreaker.new else acc !! n.
Proof.
  induction ps as [|p ps IH]; intros acc n; simpl; [done|].
  rewrite IH. destruct (decide (n ∈ name <$> ps)) as [Hin|Hout].
  - rewrite decide_True; [done|]. by right.
  - destruct (decide (n = name p)) as [->|Hne].
    + rewrite decide_True by left. apply lookup_insert_eq.
    + rewrite decide_False; [by rewrite lookup_insert_ne|].
      intros [?|?]%elem_of_cons; done.
Qed.

Lemma new_breakersSound env : I (EmailService.new cfg, env).
Proof.
  unfold breakersSound, EmailService.new, providerNames. simpl.
  split; [done|]. split.
  - intros n. rewrite constructor_breakers.
    destruct (decide (n ∈ name <$> providers cfg)); simpl.
    + split; [done|]. by eexists.
    + rewrite lookup_empty. split; [by intros [? ?]|done].
  - intros n cb. rewrite constructor_breakers.
    destruct (decide (n ∈ name <$> providers cfg)); [|by rewrite lookup_empty].
    intros [= <-]. split; [constructor|done].
Qed.

Lemma tryProvider_breakersSound p cb e s env o s' env' :
  I (s, env) → p ∈ providers cfg →
  EmailService.circuitBreakers s !! name p = Some cb →
  EmailService.tryProvider host p cb e (s, env) = (o, (s', env')) →
  I (s', env').
Proof.
  intros (Hcfg & Hdom & Hcbs) Hp Hcb. simpl in Hcfg, Hdom, Hcbs.
  rewrite tryProvider_run.
  pose proof (attemptVia_breaker host p e cb s env) as Hafter.
  destruct (respond p e env) as [answer d] eqn:Hresp.
  pose proof (λ r Hst (H : answer = Returned r),
              attemptVia_returned host p e cb s env r d Hst
                (eq_trans Hresp (f_equal (λ a, (a, d)) H))) as Hret.
  destruct (EmailService.attemptVia host p e _) as [o0 [cb' [s0 env0]]].
  simpl in Hafter. intros [= _ <- _].
  destruct (Hcbs _ _ Hcb) as [Hreach Hnew].
  unfold breakersSound. simpl. split; [done|]. split.
  - intros n. rewrite lookup_insert_is_Some, <- Hdom.
    destruct (decide (name p = n)) as [<-|Hne]; [|tauto].
    split; [by eexists|by left].
  - intros n cb1. destruct (decide (name p = n)) as [<-|Hne].
    + rewrite lookup_insert_eq. intros [= <-]. split.
      * rewrite Hafter, Hcfg. by constructor.
      * intros Hnever. specialize (Hnew Hnever). subst cb.
        destruct (Hnever p Hp eq_refl e env) as [r Hr].
        rewrite Hresp in Hr. simpl in Hr.
        specialize (Hret r ltac:(done) Hr). by injection Hret as _ <- _.
    + rewrite lookup_insert_ne by done. apply Hcbs.
Qed.

Lemma fallback_breakersSound ps e :
  (∀ p, p ∈ ps → p ∈ providers cfg) →
  ∀ lastError, stable I (EmailService.fallback host ps e lastError).
Proof.
  induction ps as [|p rest IH]; intros Hps lastError [s env] o [s' env'] HI; simpl.
  - by intros [= _ <- <-].
  - assert (Hrest : ∀ q, q ∈ rest → q ∈ providers cfg)
      by (intros q Hq; apply Hps; by right).
    destruct (EmailService.circuitBreakers s !! name p) as [cb|] eqn:Hcb;
      [|by apply IH].
    unfold bind.
    destruct (EmailService.tryProvider host p cb e (s, env))
      as [r [s1 env1]] eqn:E.
    apply tryProvider_breakersSound in E; [|done|apply Hps; by left|done].
    destruct r as [[res|err]|err|]; try (by intros [= _ <- <-]).
    by apply IH.
Qed.

Lemma sendWithFallback_breakersSound e :
  stable I (EmailService.sendWithFallback host e).
Proof.
  intros [s env] o w' HI. unfold EmailService.sendWithFallback.
  destruct HI as (Hcfg & HI). simpl in Hcfg.
  apply fallback_breakersSound; [by rewrite Hcfg|by split].
Qed.

End BreakerInvariant.

Section ExecuteOnceInvariant.
Context (host : Host).

(** [executeOnce] keeps what the fallback loop keeps, when the invariant
    looks neither at the idempotency service nor at the clock. *)
Lemma executeOnce_stable (I : EmailService.t * Env → Prop) fuel key e :
  stable I (EmailService.sendWithFallback host e) →
  (∀ i s env, I (s, env) → I (EmailService.setIdempotencyService i s, env)) →
  (∀ ms s env, I (s, env) → I (s, sleep ms env)) →
  stable I (EmailService.executeOnce host fuel key e).
Proof.
  intros Hsend Hidem Hsleep [s env] o [s' env'] HI.
  unfold EmailService.executeOnce, zoom.
  destruct (IdempotencyService.execute _ _ _ _ _ _ _) as [r [i1 [s1 env1]]] eqn:E.
  intros [= _ <- <-]. apply Hidem.
  revert E.
  unfold IdempotencyService.execute, bind, IdempotencyService.cacheGet,
    IdempotencyService.isPending, ret, modify, tryFinally.
  destruct (IdempotencyService.whenTruthy _ _).
  { by intros [= _ _ <- <-]. }
  destruct (bool_decide _).
  - unfold IdempotencyService.waitForPendingRequest. intros E.
    apply (poll_world _ _ _ (λ x, I (snd x))) in E; [done| |done].
    intros ms [i [s0 env0]]. simpl. apply Hsleep.
  - unfold outside.
    destruct (EmailService.sendWithFallback host e (s, env)) as [r0 [s2 env2]] eqn:E2.
    apply Hsend in E2; [|done].
    destruct r0; by intros [= _ _ <- <-].
Qed.

End ExecuteOnceInvariant.

Section BreakerLife.
Context (host : Host) (cfg : EmailServiceConfig).

Lemma updateStatus_breakersSound emailId tag res err :
  stable (breakersSound host cfg) (EmailService.updateStatus emailId tag res err).
Proof.
  intros [s env] o [s' env'] HI Hrun.
  destruct (updateStatus_footprint emailId tag res err s env) as (s1 & Heq & Hs1 & _).
  rewrite Heq in Hrun. inversion Hrun; subst. rewrite Hs1. exact HI.
Qed.

Lemma waitForSlot_breakersSound fuel :
  stable (breakersSound host cfg) (EmailService.waitForSlot fuel).
Proof.
  intros [s env] o [s' env'] HI Hrun.
  apply waitForSlot_footprint in Hrun as (-> & _). exact HI.
Qed.

Lemma executeOnce_breakersSound fuel key e :
  stable (breakersSound host cfg) (EmailService.executeOnce host fuel key e).
Proof.
  apply executeOnce_stable.
  - apply sendWithFallback_breakersSound.
  - by intros i s env.
  - by intros ms s env.
Qed.

Lemma processEmail_breakersSound fuel emailId e key userId :
  stable (breakersSound host cfg)
         (EmailService.processEmail host fuel emailId e key userId).
Proof.
  apply processEmail_stable.
  - intros. apply updateStatus_breakersSound.
  - apply waitForSlot_breakersSound.
  - apply executeOnce_breakersSound.
Qed.

Lemma processEmailStart_breakersSound emailId :
  stable (breakersSound host cfg) (EmailService.processEmailStart emailId).
Proof.
  apply processEmailStart_beside; [apply updateStatus_breakersSound|].
  by intros rl s env.
Qed.

Lemma processEmailRest_breakersSound fuel emailId e key userId granted :
  stable (breakersSound host cfg)
         (EmailService.processEmailRest host fuel emailId e key userId granted).
Proof.
  apply processEmailRest_stable.
  - intros. apply updateStatus_breakersSound.
  - intros f. apply waitForSlot_breakersSound.
  - by intros ms s env.
  - apply executeOnce_breakersSound.
Qed.

Lemma serviceStep_breakersSound w w' :
  serviceStep host w w' → breakersSound host cfg w → breakersSound host cfg w'.
Proof.
  intros Hstep HI.
  destruct Hstep as [e userId w r w' Hrun
                    |emailId e key userId fuel w o w' Hrun
                    |emailId e key userId granted fuel w o w' Hrun
                    |e p [s env] r [s' env'] Hrun
                    |w r w' Hrun
                    |rounds fuel w o w' Hrun
                    |rounds fuel suspended w o w' Hrun
                    |s env|s env|s env|s env|s env ms].
  - refine (sendEmail_stable host _ e userId _ _ w r w' HI Hrun).
    + by intros s env.
    + apply processEmailStart_breakersSound.
  - refine (pipeline_stable host _ _ _ _ _ _ _ _ w o w' HI Hrun);
      [apply processEmail_breakersSound|intros; apply updateStatus_breakersSound].
  - refine (launched_stable host _ _ _ _ _ _ _ _ _ w o w' HI Hrun);
      [apply processEmailRest_breakersSound
      |intros; apply updateStatus_breakersSound].
  - rewrite enqueueEmail_run in Hrun. inversion Hrun; subst. exact HI.
  - refine (startQueueProcessing_stable _ _ _ w r w' HI Hrun).
    + apply processEmailStart_breakersSound.
    + by intros q s env.
  - refine (drain_stable host _ rounds fuel _ _ _ w o w' HI Hrun).
    + intros item. apply processEmail_breakersSound.
    + by intros ms [s env].
    + by intros q s env.
  - refine (resumeDrain_stable host _ rounds fuel suspended _ _ _ _ w o w' HI Hrun).
    + intros item. apply processEmail_breakersSound.
    + intros item granted. apply processEmailRest_breakersSound.
    + by intros ms [s env].
    + by intros q s env.
  - exact HI.
  - exact HI.
  - destruct HI as (Hcfg & Hdom & Hcbs). simpl in *.
    unfold breakersSound, EmailService.resetCircuitBreakers. simpl.
    split; [done|]. split.
    + intros n. rewrite lookup_fmap, <- Hdom. apply fmap_is_Some.
    + intros n cb. rewrite lookup_fmap.
      destruct (EmailService.circuitBreakers s !! n) as [cb0|] eqn:Hn; [|done].
      intros [= <-]. split; [|done].
      apply ReachReset. by apply (Hcbs n).
  - exact HI.
  - exact HI.
Qed.

Lemma serviceReach_breakersSound env0 w :
  serviceReach host cfg env0 w → breakersSound host cfg w.
Proof.
  unfold serviceReach. revert w. apply rtc_ind_r.
  - apply new_breakersSound.
  - intros w1 w2 _ Hstep IH. by eapply serviceStep_breakersSound.
Qed.

End BreakerLife.

(** ** A service whose backends all fail *)

Section AllBackendsFail.
Context (host : Host) (cfg : EmailServiceConfig).
Hypothesis backends_fail : Forall alwaysFails (providers cfg).
Hypothesis limit_positive : 1 ≤ maxRequests (rateLimit cfg).

Lemma waitForSlot_withinLimit fuel s env o s' env' :
  EmailService.waitForSlot fuel (s, env) = (o, (s', env')) →
  withinLimit (rateLimit (EmailService.config s)) (EmailService.rateLimiter s) →
  withinLimit (rateLimit (EmailService.config s)) (EmailService.rateLimiter s').
Proof.
  unfold EmailService.waitForSlot, zoom.
  destruct (RateLimiter.waitForSlot _ _ _ _ _) as [r [rl1 [s1 env1]]] eqn:E.
  intros [= _ <- _] Hin. simpl.
  by destruct (waitForSlot_keeps _ _ _ _ _ _ _ _ _ E Hin).
Qed.

Lemma updateStatus_nothingCached emailId tag res err :
  stable (nothingCached cfg) (EmailService.updateStatus emailId tag res err).
Proof.
  intros [s env] o [s' env'] HI Hrun.
  destruct (updateStatus_footprint emailId tag res err s env)
    as (s1 & Heq & Hs1 & _).
  rewrite Heq in Hrun. inversion Hrun; subst. rewrite Hs1. exact HI.
Qed.

Lemma waitForSlot_nothingCached fuel :
  stable (nothingCached cfg) (EmailService.waitForSlot fuel).
Proof.
  intros [s env] o [s' env'] (Hcfg & Hc & Hp & Hin) Hrun.
  simpl in Hcfg, Hc, Hp, Hin.
  pose proof Hrun as Hlimit. apply waitForSlot_withinLimit in Hlimit;
    [|by rewrite Hcfg].
  apply waitForSlot_footprint in Hrun as (Hs' & _).
  unfold nothingCached. rewrite Hs' in *. simpl in *.
  rewrite Hcfg in Hlimit. done.
Qed.

Lemma executeOnce_nothingCached fuel key e :
  stable (nothingCached cfg) (EmailService.executeOnce host fuel key e).
Proof.
  intros [s env] o [s' env'] (Hcfg & Hc & Hp & Hin) Hrun.
  simpl in Hcfg, Hc, Hp, Hin.
  rewrite executeOnce_owner in Hrun
    by (rewrite ?Hc, ?Hp; (apply lookup_empty || apply not_elem_of_empty)).
  destruct (fallback_all_fail host (providers (EmailService.config s)) e
              ltac:(by rewrite Hcfg) None (s, env))
    as (m & [sC envC] & HC); [discriminate|].
  fold (EmailService.sendWithFallback host e (s, env)) in HC.
  rewrite HC in Hrun. inversion Hrun; subst. clear Hrun.
  apply sendWithFallback_footprint in HC.
  unfold nothingCached. simpl. rewrite HC. simpl.
  rewrite Hc, Hp, union_empty_r_L, difference_diag_L. done.
Qed.

Lemma processEmail_nothingCached fuel emailId e key userId :
  stable (nothingCached cfg) (EmailService.processEmail host fuel emailId e key userId).
Proof.
  apply processEmail_stable.
  - intros. apply updateStatus_nothingCached.
  - apply waitForSlot_nothingCached.
  - apply executeOnce_nothingCached.
Qed.

Lemma processEmailStart_nothingCached emailId :
  stable (nothingCached cfg) (EmailService.processEmailStart emailId).
Proof.
  apply processEmailStart_stable; [apply updateStatus_nothingCached|].
  intros s env granted rl (Hcfg & Hc & Hp & Hin) Hacq. simpl in Hcfg, Hc, Hp, Hin.
  rewrite Hcfg in Hacq.
  destruct (acquire_keeps _ _ _ _ _ _ _ Hacq Hin) as (_ & Hin' & _).
  by repeat split.
Qed.

Lemma processEmailRest_nothingCached fuel emailId e key userId granted :
  stable (nothingCached cfg)
         (EmailService.processEmailRest host fuel emailId e key userId granted).
Proof.
  apply processEmailRest_stable.
  - intros. apply updateStatus_nothingCached.
  - intros f. apply waitForSlot_nothingCached.
  - by intros ms s env.
  - apply executeOnce_nothingCached.
Qed.

Lemma serviceStep_nothingCached w w' :
  serviceStep host w w' → nothingCached cfg w → nothingCached cfg w'.
Proof.
  intros Hstep HI.
  destruct Hstep as [e userId w r w' Hrun
                    |emailId e key userId fuel w o w' Hrun
                    |emailId e key userId granted fuel w o w' Hrun
                    |e p [s env] r [s' env'] Hrun
                    |w r w' Hrun
                    |rounds fuel w o w' Hrun
                    |rounds fuel suspended w o w' Hrun
                    |s env|s env|s env|s env|s env ms].
  - refine (sendEmail_stable host (nothingCached cfg) e userId _ _ w r w' HI Hrun).
    + by intros s env.
    + apply processEmailStart_nothingCached.
  - refine (pipeline_stable host (nothingCached cfg) _ _ _ _ _ _ _ w o w' HI Hrun);
      [apply processEmail_nothingCached|intros; apply updateStatus_nothingCached].
  - refine (launched_stable host (nothingCached cfg) _ _ _ _ _ _ _ _ w o w' HI Hrun);
      [apply processEmailRest_nothingCached
      |intros; apply updateStatus_nothingCached].
  - rewrite enqueueEmail_run in Hrun. inversion Hrun; subst. exact HI.
  - refine (startQueueProcessing_stable (nothingCached cfg) _ _ w r w' HI Hrun).
    + apply processEmailStart_nothingCached.
    + by intros q s env.
  - refine (drain_stable host (nothingCached cfg) rounds fuel _ _ _ w o w' HI Hrun).
    + intros item. apply processEmail_nothingCached.
    + by intros ms [s env].
    + by intros q s env.
  - refine (resumeDrain_stable host (nothingCached cfg) rounds fuel suspended
              _ _ _ _ w o w' HI Hrun).
    + intros item. apply processEmail_nothingCached.
    + intros item granted. apply processEmailRest_nothingCached.
    + by intros ms [s env].
    + by intros q s env.
  - exact HI.
  - destruct HI as (? & ? & ? & ?). by repeat split.
  - exact HI.
  - destruct HI as (? & ? & ? & ?). repeat split; try done.
    unfold withinLimit. simpl. lia.
  - exact HI.
Qed.

Lemma serviceReach_nothingCached env0 w :
  serviceReach host cfg env0 w → nothingCached cfg w.
Proof.
  unfold serviceReach. revert w. apply rtc_ind_r.
  - repeat split. unfold withinLimit. simpl. lia.
  - intros w1 w2 _ Hstep IH. by eapply serviceStep_nothingCached.
Qed.

End AllBackendsFail.

(** ** The attempts and the cause when every backend fails *)

Section Attempts.
Context (host : Host).

(** The retry executor on [send]: the calls before the last one all threw,
    the last one settles the executor, and a backend that rejects every call
    is called until the attempts are used up. *)
Lemma retry_send_calls cfg p e :
  ∀ attempt env o env',
    RetryMechanism.execute sleep cfg (send p e) attempt env = (o, env') →
    ∃ k envK,
      callsAdded env envK (replicate k (name p, e))
      ∧ send p e envK = (o, env')
      ∧ Z.of_nat k ≤ Z.max 0 (maxAttempts cfg - attempt)
      ∧ (alwaysRejects p → Z.of_nat k = Z.max 0 (maxAttempts cfg - attempt)).
Proof.
  intros attempt.
  remember (Z.to_nat (maxAttempts cfg - attempt)) as n eqn:Hn.
  revert attempt Hn.
  induction (lt_wf n) as [n _ IH]; intros attempt Hn env o env'.
  rewrite retry_execute_unfold.
  destruct (send p e env) as [[r|err|] env1] eqn:E.
  - intros [= <- <-]. exists 0%nat, env. split_and!; try done.
    + unfold callsAdded. by rewrite app_nil_r.
    + lia.
    + intros Hrej. destruct (Hrej e env) as [err Herr].
      unfold send in E. destruct (respond p e env). simpl in Herr. congruence.
  - destruct (Z.leb_spec (maxAttempts cfg) attempt) as [Hle|Hlt].
    + intros [= <- <-]. exists 0%nat, env. split_and!; try done.
      * unfold callsAdded. by rewrite app_nil_r.
      * lia.
      * intros _. lia.
    + intros Hrun.
      destruct (IH (Z.to_nat (maxAttempts cfg - (attempt + 1))) ltac:(lia)
                  (attempt + 1) eq_refl _ _ _ Hrun)
        as (k & envK & Hcalls & Hlast & Hk & Hrej).
      exists (S k), envK. split_and!; try done.
      * unfold callsAdded in *. rewrite Hcalls. cbn [sleep sendLog].
        unfold send in E. destruct (respond p e env). injection E as _ <-.
        cbn [sendLog]. by rewrite <- app_assoc.
      * lia.
      * intros Hp. specialize (Hrej Hp). lia.
  - intros [= <- <-]. exists 0%nat, env. split_and!; try done.
    + unfold callsAdded. by rewrite app_nil_r.
    + lia.
    + intros Hrej. destruct (Hrej e env) as [err Herr].
      unfold send in E. destruct (respond p e env). simpl in Herr. congruence.
Qed.

(** What passes through the guard of a breaker, for a backend that fails:
    at least one call, the last of which gives the cause. *)
Lemma guarded_turn p e cb1 s env :
  alwaysFails p →
  ∃ k envK o cb' env',
    guarded EmailService.Date_now (circuitBreaker (EmailService.config s))
      (outside (RetryMechanism.execute sleep (retry (EmailService.config s))
                  (send p e) 1))
      cb1 (s, env)
    = (o, (cb', (s, env')))
    ∧ callsAdded env envK (replicate k (name p, e))
    ∧ send p e envK = (o, env')
    ∧ failure o
    ∧ Z.of_nat (S k) ≤ Z.max 1 (maxAttempts (retry (EmailService.config s)))
    ∧ (alwaysRejects p →
       Z.of_nat (S k) = Z.max 1 (maxAttempts (retry (EmailService.config s)))).
Proof.
  intros Hp. unfold guarded, outside.
  destruct (RetryMechanism.execute sleep _ (send p e) 1 env) as [o env'] eqn:Hretry.
  destruct (retry_send_calls _ p e 1 env o env' Hretry)
    as (k & envK & Hcalls & Hlast & Hk & Hrej).
  assert (Hfail : failure o).
  { pose proof (Hp e envK) as HpK. unfold send in Hlast.
    destruct (respond p e envK) as [o' d]. injection Hlast as <- _. exact HpK. }
  exists k, envK, o.
  destruct o as [r|err|]; [| |done]; eexists _, env';
    (split; [reflexivity|]); split_and!; try done; try lia.
  all: intros Hrejects; specialize (Hrej Hrejects); lia.
Qed.

(** One backend of the loop, when it fails: the calls of its turn, and the
    cause it leaves. Without a call the breaker was open and not yet due, and
    nothing has changed. *)
Lemma tryProvider_turn p cb e s env :
  alwaysFails p →
  ∃ n cause cb' env',
    EmailService.tryProvider host p cb e (s, env)
    = (Returned (inr cause),
       (EmailService.setCircuitBreakers
          (<[name p := cb']> (EmailService.circuitBreakers s)) s, env'))
    ∧ callsAdded env env' (replicate n (name p, e))
    ∧ Z.of_nat n ≤ Z.max 1 (maxAttempts (retry (EmailService.config s)))
    ∧ (alwaysRejects p →
       n = 0%nat ∨ Z.of_nat n = Z.max 1 (maxAttempts (retry (EmailService.config s))))
    ∧ match n with
      | O =>
          CircuitBreaker.state cb = OPEN
          ∧ CircuitBreaker.shouldAttemptReset (clock env) cb = false
          ∧ cause = CircuitBreaker.openError (showDate host) cb
          ∧ cb' = cb ∧ env' = env
      | S _ =>
          ∃ envK o, send p e envK = (o, env') ∧ failure o ∧ causeOf o = Some cause
      end.
Proof.
  intros Hp. rewrite tryProvider_run. unfold EmailService.attemptVia.
  assert (Hthrough : ∀ cb1,
    ∃ n cause cb' env',
      (let '(o, (cb', (_, env'))) :=
         guarded EmailService.Date_now (circuitBreaker (EmailService.config s))
           (outside (RetryMechanism.execute sleep (retry (EmailService.config s))
                       (send p e) 1))
           cb1 (s, env) in
       (match o with
        | Returned res =>
            Returned (if success res then inl res
                      else inr (ErrorObj (orElse (error res)
                                            "Provider returned failure")))
        | Thrown err => Returned (inr (EmailService.asError err))
        | Unsettled => Unsettled
        end,
        (EmailService.setCircuitBreakers
           (<[name p := cb']> (EmailService.circuitBreakers s)) s, env')))
      = (Returned (inr cause),
         (EmailService.setCircuitBreakers
            (<[name p := cb']> (EmailService.circuitBreakers s)) s, env'))
      ∧ callsAdded env env' (replicate (S n) (name p, e))
      ∧ Z.of_nat (S n) ≤ Z.max 1 (maxAttempts (retry (EmailService.config s)))
      ∧ (alwaysRejects p →
         Z.of_nat (S n) = Z.max 1 (maxAttempts (retry (EmailService.config s))))
      ∧ ∃ envK o, send p e envK = (o, env') ∧ failure o ∧ causeOf o = Some cause).
  { intros cb1.
    destruct (guarded_turn p e cb1 s env Hp)
      as (k & envK & o & cb' & env' & -> & Hcalls & Hlast & Hfail & Hk & Hrej).
    assert (Hlog : callsAdded env env' (replicate (S k) (name p, e))).
    { unfold callsAdded in *. unfold send in Hlast.
      destruct (respond p e envK). injection Hlast as _ <-. cbn [sendLog].
      by rewrite Hcalls, replicate_S_end, app_assoc. }
    destruct o as [r|[m|v]|]; simpl in Hfail; [rewrite Hfail| | |done];
      eexists k, _, cb', env'; (split; [reflexivity|]); split_and!; try done;
      eexists envK, _; (split; [exact Hlast|]); by split. }
  destruct (CircuitBreaker.state cb) eqn:Hst.
  - rewrite execute_not_open by congruence.
    destruct (Hthrough cb) as (n & cause & cb' & env' & Hrun & ? & ? & ? & ?).
    exists (S n), cause, cb', env'. split; [exact Hrun|]. split_and!; auto.
  - destruct (CircuitBreaker.shouldAttemptReset (clock env) cb) eqn:Hdue.
    + rewrite execute_open_due by done.
      destruct (Hthrough (halfOpened cb)) as (n & cause & cb' & env' & Hrun & ? & ? & ? & ?).
      exists (S n), cause, cb', env'. split; [exact Hrun|]. split_and!; auto.
    + rewrite execute_open_early by done.
      exists 0%nat, (CircuitBreaker.openError (showDate host) cb), cb, env.
      split; [reflexivity|]. split_and!; try done.
      * unfold callsAdded. by rewrite app_nil_r.
      * lia.
      * auto.
  - rewrite execute_not_open by congruence.
    destruct (Hthrough cb) as (n & cause & cb' & env' & Hrun & ? & ? & ? & ?).
    exists (S n), cause, cb', env'. split; [exact Hrun|]. split_and!; auto.
Qed.

Lemma callBlocks_cons p ps n counts e :
  callBlocks (p :: ps) (n :: counts) e
  = replicate n (name p, e) ++ callBlocks ps counts e.
Proof. reflexivity. Qed.

(** The loop of [sendWithFallback] over backends that all fail: each has
    its turn, in the order of the list, and the loop throws the cause that
    the last turn left. *)
Lemma fallback_exhausts ps e :
  Forall alwaysFails ps →
  ∀ lastError s env,
    (∀ p, p ∈ ps → is_Some (EmailService.circuitBreakers s !! name p)) →
    ∃ counts cause s' env',
      EmailService.fallback host ps e lastError (s, env) = (Thrown cause, (s', env'))
      ∧ length counts = length ps
      ∧ callsAdded env env' (callBlocks ps counts e)
      ∧ Forall (λ n, Z.of_nat n ≤ Z.max 1 (maxAttempts (retry (EmailService.config s))))
               counts
      ∧ s' = EmailService.setCircuitBreakers (EmailService.circuitBreakers s') s
      ∧ (∀ n, n ∉ name <$> ps →
              EmailService.circuitBreakers s' !! n
              = EmailService.circuitBreakers s !! n)
      ∧ (NoDup (name <$> ps) →
         ∀ i p cb, ps !! i = Some p →
                   EmailService.circuitBreakers s !! name p = Some cb →
                   CircuitBreaker.state cb ≠ OPEN →
                   ∃ n, counts !! i = Some (S n))
      ∧ (∀ i p n, ps !! i = Some p → counts !! i = Some n → alwaysRejects p →
                  n = 0%nat
                  ∨ Z.of_nat n = Z.max 1 (maxAttempts (retry (EmailService.config s))))
      ∧ match last ps, last counts with
        | Some p, Some n => observedAt host p n e cause s' env'
        | _, _ => cause = default (ErrorObj "All providers failed") lastError
        end.
Proof.
  induction 1 as [|p rest Hp Hrest IH]; intros lastError s env Hcbs.
  { exists [], (default (ErrorObj "All providers failed") lastError), s, env.
    split; [reflexivity|]. split_and!; try done.
    - unfold callsAdded. by rewrite app_nil_r.
    - by destruct s. }
  cbn [EmailService.fallback].
  destruct (Hcbs p ltac:(left)) as [cb Hcb]. rewrite Hcb.
  destruct (tryProvider_turn p cb e s env Hp)
    as (n & c & cb' & env1 & Htry & Hcalls & Hn & Hrej & Hturn).
  unfold bind. rewrite Htry.
  set (s1 := EmailService.setCircuitBreakers _ s) in *.
  destruct (IH (Some c) s1 env1) as (counts & cause & s' & env' & Hrun & Hlen
                                     & Hlog & Hbound & Hfoot & Hothers & Hfirst
                                     & Hexact & Hlast).
  { intros q Hq. unfold s1. simpl. rewrite lookup_insert_is_Some.
    destruct (decide (name p = name q)); [by left|right].
    split; [done|]. apply Hcbs. by right. }
  exists (n :: counts), cause, s', env'.
  split; [exact Hrun|]. split_and!.
  - simpl. by rewrite Hlen.
  - rewrite callBlocks_cons. unfold callsAdded in *.
    by rewrite Hlog, Hcalls, app_assoc.
  - constructor; [exact Hn|exact Hbound].
  - rewrite Hfoot. unfold s1. reflexivity.
  - intros m Hm. rewrite Hothers by (intros Hin; apply Hm; by right).
    unfold s1. simpl. apply lookup_insert_ne. intros <-. apply Hm. left.
  - intros Hnodup i q cbq Hi Hq Hst. apply NoDup_cons in Hnodup as [Hfresh Hnodup].
    destruct i as [|i].
    + injection Hi as <-. rewrite Hcb in Hq. injection Hq as <-.
      destruct n as [|n]; [|by eexists]. destruct Hturn as (Hopen & _). done.
    + simpl in Hi. apply (Hfirst Hnodup i q cbq Hi); [|done].
      unfold s1. simpl. rewrite lookup_insert_ne; [done|].
      intros Heq. apply Hfresh. rewrite Heq.
      apply list_elem_of_fmap. exists q. split; [done|].
      by eapply list_elem_of_lookup_2.
  - intros i q m Hi Hm Hq. destruct i as [|i].
    + injection Hi as <-. injection Hm as <-. by apply Hrej.
    + simpl in Hi, Hm. by apply (Hexact i q m).
  - destruct rest as [|q rest'].
    + destruct counts; [|done]. simpl in Hrun. injection Hrun as <- <- <-.
      simpl. unfold observedAt. destruct n as [|n].
      * destruct Hturn as (Hopen & Hearly & -> & -> & ->).
        exists cb. split_and!; try done. unfold s1. simpl. apply lookup_insert_eq.
      * exact Hturn.
    + destruct counts as [|m counts']; [done|].
      change (last (p :: q :: rest')) with (last (q :: rest')).
      change (last (n :: m :: counts')) with (last (m :: counts')).
      destruct (proj2 (last_is_Some (q :: rest')) ltac:(done)) as [x Hx].
      destruct (proj2 (last_is_Some (m :: counts')) ltac:(done)) as [y Hy].
      rewrite Hx, Hy in *. exact Hlast.
Qed.

End Attempts.
(** When every configured backend fails on every attempt and has a circuit
    breaker, the rate limiter is within a limit of at least one request, and
    no outcome is cached or pending for the key of the message, then the task
    that [sendEmail] leaves behind returns, and it leaves the record of the
    identifier with status [failed] and an outcome with [success = false],
    provider ["unknown"] and a non-empty error text, the message of the cause
    that [sendWithFallback] threw. The calls of this run are those of the
    backends in their order, and the cause is the one that the turn of the
    last backend left. *)
Lemma exhausted_submission_fails (host : Host) (e : EmailData)
    (userId : option string) (s : EmailService.t) (env : Env) (fuel : nat) :
  Forall alwaysFails (providers (EmailService.config s)) →
  (∀ p, p ∈ providers (EmailService.config s) →
        is_Some (EmailService.circuitBreakers s !! name p)) →
  1 ≤ maxRequests (rateLimit (EmailService.config s)) →
  Z.of_nat (length (RateLimiter.requests (EmailService.rateLimiter s)))
  ≤ maxRequests (rateLimit (EmailService.config s)) →
  (2 ≤ fuel)%nat →
  IdempotencyService.cache (EmailService.idempotencyService s)
    !! fst (IdempotencyService.generateKey (stringify host) e userId None) = None →
  fst (IdempotencyService.generateKey (stringify host) e userId None)
  ∉ IdempotencyService.pendingRequests (EmailService.idempotencyService s) →
  ∃ emailId e' task w1 s2 env2 cause record text counts,
    EmailService.sendEmail host e userId (s, env)
    = (Returned (emailId, e', task), w1)
    ∧ task fuel w1 = (Returned tt, (s2, env2))
    ∧ EmailService.getEmailStatus emailId s2 = Some record
    ∧ status record = failed
    ∧ result record
      = Some {| success := false; messageId := None; error := Some text;
                provider := "unknown"; timestamp := clock env2 |}
    ∧ text ≠ ""
    ∧ text = orElse (messageOf cause) "Unknown error"
    ∧ length counts = length (providers (EmailService.config s))
    ∧ callsAdded env env2 (callBlocks (providers (EmailService.config s)) counts e')
    ∧ Forall (λ n, Z.of_nat n
                   ≤ Z.max 1 (maxAttempts (retry (EmailService.config s)))) counts
    ∧ (NoDup (name <$> providers (EmailService.config s)) →
       ∀ i p cb, providers (EmailService.config s) !! i = Some p →
                 EmailService.circuitBreakers s !! name p = Some cb →
                 CircuitBreaker.state cb ≠ OPEN →
                 ∃ n, counts !! i = Some (S n))
    ∧ (∀ i p n, providers (EmailService.config s) !! i = Some p →
                counts !! i = Some n → alwaysRejects p →
                n = 0%nat
                ∨ Z.of_nat n = Z.max 1 (maxAttempts (retry (EmailService.config s))))
    ∧ match last (providers (EmailService.config s)), last counts with
      | Some p, Some n => observedAt host p n e' cause s2 env2
      | _, _ => cause = ErrorObj "All providers failed"
      end.
Proof.
  intros Hfail Hcbs Hmax Hin Hfuel Hmiss Hfree.
  destruct (sendEmail_task host e userId s env)
    as (granted & w1 & _ & Hsend & Hrest).
  specialize (Hrest fuel ltac:(lia)). revert Hsend Hrest.
  destruct (IdempotencyService.generateKey (stringify host) e userId None)
    as [key e'] eqn:Hkey. simpl in Hmiss, Hfree. simpl fst. simpl snd.
  set (emailId := uuid host (generated env)).
  set (env1 := {| clock := clock env; sendLog := sendLog env;
                  generated := S (generated env) |}).
  set (s1 := EmailService.setStatusTracking _ s).
  intros Hsend Hrest.
  (* status = sending *)
  assert (H1 : EmailService.statusTracking s1 !! emailId
               = Some (EmailService.initialStatus emailId s (clock env)))
    by apply lookup_insert_eq.
  pose proof (updateStatus_present emailId sending None None s1 env1 _ H1) as HA.
  set (recA := EmailService.transition (clock env1) sending None None _) in HA.
  set (sA := EmailService.setStatusTracking _ s1) in HA.
  (* the rate limiter *)
  destruct (service_waitForSlot_settles fuel sA env1 Hmax Hin Hfuel)
    as (rl' & envB & HB).
  pose proof (waitForSlot_footprint _ _ _ _ _ _ HB) as (_ & HlogB & _).
  set (sB := EmailService.setRateLimiter rl' sA) in HB.
  (* every backend fails *)
  destruct (fallback_all_fail host (providers (EmailService.config sB)) e' Hfail
              None (sB, envB)) as (m & [sC envC] & HC); [discriminate|].
  destruct (fallback_exhausts host (providers (EmailService.config sB)) e' Hfail
              None sB envB Hcbs)
    as (counts & cause & sC' & envC' & HC' & Hlen & Hcalls & Hbound & _ & _
        & Hfirst & Hexact & Hlast).
  rewrite HC in HC'. injection HC' as <- <- <-.
  fold (EmailService.sendWithFallback host e' (sB, envB)) in HC.
  pose proof (sendWithFallback_footprint host _ _ _ _ _ _ HC) as HsC.
  pose proof (executeOnce_owner host fuel key e' sB envB Hmiss Hfree) as HD.
  rewrite HC in HD.
  set (sD := EmailService.setIdempotencyService _ sC) in HD.
  assert (Hbody :
    EmailService.processEmail host fuel emailId e' key userId (s1, env1)
    = (Thrown (ErrorObj m),
       (EmailService.setStatusTracking
          (<[emailId := EmailService.transition (clock envC) failed None
                          (Some m) recA]> (EmailService.statusTracking sD)) sD,
        envC))).
  { unfold EmailService.processEmail, tryCatch, bind.
    rewrite HA, HB, HD.
    assert (HrecD : EmailService.statusTracking sD !! emailId = Some recA).
    { unfold sD. simpl. rewrite HsC. simpl. apply lookup_insert_eq. }
    rewrite (updateStatus_present _ _ _ _ _ _ _ HrecD). reflexivity. }
  set (sE := EmailService.setStatusTracking _ sD) in Hbody.
  eexists emailId, e', _, w1, _, envC, (ErrorObj m), _,
    (orElse (Some m) "Unknown error"), counts.
  split; [exact Hsend|]. split.
  { rewrite Hrest. unfold EmailService.pipeline, tryCatch. rewrite Hbody.
    apply updateStatus_present. unfold sE. simpl. apply lookup_insert_eq. }
  split; [unfold EmailService.getEmailStatus; simpl; apply lookup_insert_eq|].
  split; [reflexivity|]. split; [reflexivity|].
  split; [by apply orElse_nonempty|]. split; [reflexivity|].
  split; [exact Hlen|]. split.
  { unfold callsAdded in *. rewrite Hcalls, HlogB. reflexivity. }
  split; [exact Hbound|]. split; [exact Hfirst|]. split; [exact Hexact|].
  change (providers (EmailService.config sB))
    with (providers (EmailService.config s)) in Hlast.
  destruct (last (providers (EmailService.config s))) as [p|]; [|exact Hlast].
  destruct (last counts) as [n|]; [|exact Hlast].
  unfold observedAt in *. destruct n as [|n]; [|exact Hlast].
  destruct Hlast as (cb & Hcb & Hrest'). exists cb. split; [|exact Hrest'].
  simpl. exact Hcb.
Qed.


(** ** The claims about submission and queueing *)

(** C5. For every message, submitter and state of the service, [sendEmail]
    returns, and its result is the identifier [generateUUID] produced; in a
    service whose identifiers are pairwise distinct that identifier had no
    record before. The call writes under the identifier a record with status
    [pending] and 0 attempts, computes the key with [generateKey], and starts
    the pipeline in the state so reached, without awaiting it: the pipeline
    runs up to its first suspension inside the call, so that when the call
    returns the record reads [sending] with one attempt, [acquire] has been
    called once, and all else is as it was. The task the call leaves behind is
    the rest of that pipeline; it never rejects, in any world; and when the
    pipeline inside it throws, the task still returns and the record of the
    identifier has status [failed], with the message of what was thrown as its
    error text. *)
Theorem sendEmail_returns_id (host : Host) (e : EmailData) (userId : option string)
    (s : EmailService.t) (env : Env) :
  ∃ emailId e' key granted task s0 env0 s1,
    EmailService.sendEmail host e userId (s, env)
    = (Returned (emailId, e', task), (s1, env0))
    ∧ emailId = uuid host (generated env)
    ∧ (∀ cfg envI,
         (∀ n m, uuid host n = uuid host m → n = m) →
         serviceReach host cfg envI (s, env) →
         EmailService.getEmailStatus emailId s = None)
    ∧ s0 = EmailService.setStatusTracking
             (<[emailId := {| id := emailId; status := pending; attempts := 0;
                              maxAttemptsOf :=
                                maxAttempts (retry (EmailService.config s));
                              lastAttempt := None; nextRetry := None;
                              result := None;
                              createdAt := clock env; updatedAt := clock env |}]>
                (EmailService.statusTracking s)) s
    ∧ env0 = {| clock := clock env; sendLog := sendLog env;
                generated := S (generated env) |}
    ∧ (key, e') = IdempotencyService.generateKey (stringify host) e userId None
    ∧ EmailService.processEmailStart emailId (s0, env0) = (Returned granted, (s1, env0))
    ∧ task = EmailService.launched host emailId e' key userId granted
    ∧ (∀ fuel, (1 ≤ fuel)%nat →
         task fuel (s1, env0)
         = EmailService.pipeline host emailId e' key userId fuel (s0, env0))
    ∧ EmailService.getEmailStatus emailId s1
      = Some {| id := emailId; status := sending; attempts := 1;
                maxAttemptsOf := maxAttempts (retry (EmailService.config s));
                lastAttempt := Some (clock env); nextRetry := None; result := None;
                createdAt := clock env; updatedAt := clock env |}
    ∧ (∀ j, j ≠ emailId →
            EmailService.getEmailStatus j s1 = EmailService.getEmailStatus j s)
    ∧ (let live :=
         RateLimiter.purge (rateLimit (EmailService.config s)) (clock env)
           (RateLimiter.requests (EmailService.rateLimiter s)) in
       granted = (Z.of_nat (length live) <? maxRequests (rateLimit (EmailService.config s)))
       ∧ RateLimiter.requests (EmailService.rateLimiter s1)
         = if granted then live ++ [clock env] else live)
    ∧ EmailService.config s1 = EmailService.config s
    ∧ EmailService.circuitBreakers s1 = EmailService.circuitBreakers s
    ∧ EmailService.idempotencyService s1 = EmailService.idempotencyService s
    ∧ EmailService.queue s1 = EmailService.queue s
    ∧ (∀ fuel w, fst (task fuel w) = Returned tt ∨ fst (task fuel w) = Unsettled)
    ∧ (∀ fuel err s2 env2,
         EmailService.processEmailRest host fuel emailId e' key userId granted
           (s1, env0)
         = (Thrown err, (s2, env2)) →
         ∃ s3 record,
           task fuel (s1, env0) = (Returned tt, (s3, env2))
           ∧ EmailService.getEmailStatus emailId s3 = Some record
           ∧ status record = failed
           ∧ result record
             = Some {| success := false; messageId := None;
                       error := Some (orElse (messageOf err) "Unknown error");
                       provider := "unknown"; timestamp := clock env2 |}).
Proof.
  destruct (sendEmail_settles host e userId s env)
    as (emailId & e' & key & granted & task & s0 & env0 & s1
        & Hrun & Hid & Hrest).
  exists emailId, e', key, granted, task, s0, env0, s1.
  split; [exact Hrun|]. split; [exact Hid|]. split; [|exact Hrest].
  intros cfg envI Hinj Hreach. subst emailId.
  by eapply next_identifier_is_fresh.
Qed.

(** C6. In a service whose backends all fail on every attempt and whose
    rate limit is at least one request, for every submission in every state
    the service can be in, the task that [sendEmail] leaves behind returns,
    and it leaves the record of the identifier with status [failed] and an
    outcome with [success = false], provider ["unknown"] and a non-empty error
    text: the message of the cause observed last. The calls that the run adds
    to the record are calls of the configured backends with the message, in
    the order of the configuration, [counts !! i] for the backend number [i]
    and never more than [maxAttempts] (or one) for a backend; with pairwise
    distinct names a backend whose breaker was not open is called at least
    once; a backend that rejects every call is called [maxAttempts] times (or
    once), or not at all. The cause is the one that the turn of the last
    backend left: the circuit-open error of its breaker when it was not
    called, and otherwise what its last call, the one that ended in the final
    world of the run, threw or returned. *)
Theorem all_backends_fail_status_failed (host : Host) (cfg : EmailServiceConfig)
    (env0 : Env) (e : EmailData) (userId : option string)
    (s : EmailService.t) (env : Env) (fuel : nat) :
  Forall alwaysFails (providers cfg) →
  1 ≤ maxRequests (rateLimit cfg) →
  (2 ≤ fuel)%nat →
  serviceReach host cfg env0 (s, env) →
  ∃ emailId e' task w1 s2 env2 cause record text counts,
    EmailService.sendEmail host e userId (s, env)
    = (Returned (emailId, e', task), w1)
    ∧ task fuel w1 = (Returned tt, (s2, env2))
    ∧ EmailService.getEmailStatus emailId s2 = Some record
    ∧ status record = failed
    ∧ result record
      = Some {| success := false; messageId := None; error := Some text;
                provider := "unknown"; timestamp := clock env2 |}
    ∧ text ≠ ""
    ∧ text = orElse (messageOf cause) "Unknown error"
    ∧ length counts = length (providers cfg)
    ∧ callsAdded env env2 (callBlocks (providers cfg) counts e')
    ∧ Forall (λ n, Z.of_nat n ≤ Z.max 1 (maxAttempts (retry cfg))) counts
    ∧ (NoDup (name <$> providers cfg) →
       ∀ i p cb, providers cfg !! i = Some p →
                 EmailService.circuitBreakers s !! name p = Some cb →
                 CircuitBreaker.state cb ≠ OPEN →
                 ∃ n, counts !! i = Some (S n))
    ∧ (∀ i p n, providers cfg !! i = Some p → counts !! i = Some n →
                alwaysRejects p →
                n = 0%nat ∨ Z.of_nat n = Z.max 1 (maxAttempts (retry cfg)))
    ∧ match last (providers cfg), last counts with
      | Some p, Some n => observedAt host p n e' cause s2 env2
      | _, _ => cause = ErrorObj "All providers failed"
      end.
Proof.
  intros Hfail Hmax Hfuel Hreach.
  destruct (serviceReach_nothingCached host cfg Hfail Hmax env0 _ Hreach)
    as (Hcfg & Hcache & Hpending & Hlimit).
  destruct (serviceReach_breakersSound host cfg env0 _ Hreach) as (_ & Hdom & _).
  simpl in *. rewrite <- Hcfg in *.
  apply exhausted_submission_fails; rewrite ?Hcache, ?Hpending;
    try (done || apply not_elem_of_empty).
  intros p Hp. apply Hdom. unfold providerNames.
  apply list_elem_of_fmap. by exists p.
Qed.

Lemma all_backends_fail_status_failed_witness :
  settledStatus sampleHost sampleEmail None 2
    (EmailService.new failingConfig, sampleEnv) = Some failed.
Proof.
  destruct (all_backends_fail_status_failed sampleHost failingConfig sampleEnv
              sampleEmail None (EmailService.new failingConfig) sampleEnv 2)
    as (emailId & e' & task & w1 & s2 & env2 & cause & record & text & counts
        & Hsend & Htask & Hget & Hstatus & _).
  - repeat constructor.
  - simpl; lia.
  - lia.
  - apply rtc_refl.
  - unfold settledStatus. rewrite Hsend, Htask, Hget. simpl. by rewrite Hstatus.
Defined.

(** C10. In a service whose identifiers are pairwise distinct,
    [enqueueEmail] returns an identifier that has no status record before the
    call, and the call leaves the status table as it was; whatever the service
    does afterwards (submissions, pipeline tasks, the drain loop over any
    number of rounds, administrative calls), [getEmailStatus] returns nothing
    for that identifier; every [updateStatus] for an identifier without a
    record is a no-op; and the handler of the drain loop, run on the item of
    that identifier, leaves the whole status table unchanged. *)
Theorem queued_email_has_no_status (host : Host) (cfg : EmailServiceConfig)
    (env0 : Env) (s : EmailService.t) (env : Env) (e : EmailData) (p : Z) :
  (∀ n m, uuid host n = uuid host m → n = m) →
  serviceReach host cfg env0 (s, env) →
  ∃ queueId s1 env1,
    EmailService.enqueueEmail host e p (s, env) = (Returned queueId, (s1, env1))
    ∧ EmailService.getEmailStatus queueId s = None
    ∧ EmailService.statusTracking s1 = EmailService.statusTracking s
    ∧ (∀ w2, rtc (serviceStep host) (s1, env1) w2 →
             EmailService.getEmailStatus queueId (fst w2) = None)
    ∧ (∀ s2 env2 tag res err,
         EmailService.getEmailStatus queueId s2 = None →
         EmailService.updateStatus queueId tag res err (s2, env2)
         = (Returned tt, (s2, env2)))
    ∧ (∀ fuel item s2 env2 o s3 env3,
         itemId item = queueId →
         EmailService.getEmailStatus queueId s2 = None →
         EmailService.queueHandler host fuel item (s2, env2) = (o, (s3, env3)) →
         EmailService.statusTracking s3 = EmailService.statusTracking s2).
Proof.
  intros Hinj Hreach.
  pose proof (next_identifier_is_fresh host cfg env0 s env Hinj Hreach) as Hfresh.
  destruct (queued_email_untracked host s env e p Hfresh)
    as (queueId & s1 & env1 & -> & Henq & Hsame & Hnone & Hupd & Hhandler & _).
  eexists _, s1, env1. split; [exact Henq|]. split; [exact Hfresh|].
  split; [exact Hsame|]. split; [|split; [exact Hupd|exact Hhandler]].
  intros w2 Hlater.
  rewrite enqueueEmail_run in Henq. inversion Henq; subst s1 env1.
  refine (proj1 (later_withoutRecord host (generated env) _ w2 Hinj Hlater _)).
  split; [exact Hnone|simpl; lia].
Qed.

Lemma sampleHost_identifiers_distinct n m :
  uuid sampleHost n = uuid sampleHost m → n = m.
Proof.
  simpl. intros H. apply (inj (String.app "id-")) in H. by apply (inj pretty) in H.
Qed.

Lemma queued_email_has_no_status_witness :
  queuedStatus sampleHost sampleEmail 5 (EmailService.new failingConfig, sampleEnv)
  = None.
Proof.
  destruct (queued_email_has_no_status sampleHost failingConfig sampleEnv
              (EmailService.new failingConfig) sampleEnv sampleEmail 5)
    as (queueId & s1 & env1 & Henq & _ & _ & Hlater & _).
  - apply sampleHost_identifiers_distinct.
  - apply rtc_refl.
  - unfold queuedStatus. rewrite Henq. exact (Hlater (s1, env1) (rtc_refl _ _)).
Defined.

(** * Further properties of the classes *)

(** ** EmailQueue: lookup, removal and change of priority *)

Section QueueLookup.
Implicit Types (q front back : list QueueItem) (x item : QueueItem).

#[local] Abbreviation hasId id := (λ x : QueueItem, itemId x = id).
#[local] Abbreviation lacksId id := (λ x : QueueItem, itemId x ≠ id).

Lemma find_first_match id front x back :
  Forall (lacksId id) front → itemId x = id →
  list_find (hasId id) (front ++ x :: back) = Some (length front, x).
Proof.
  intros Hfront Hx. apply list_find_Some. split_and!.
  - by apply list_lookup_middle.
  - exact Hx.
  - intros j y Hj Hlt. rewrite lookup_app_l in Hj by done.
    rewrite Forall_lookup in Hfront. by eapply Hfront.
Qed.

Lemma find_skips_other id front x back :
  itemId x ≠ id →
  snd <$> list_find (hasId id) (front ++ x :: back)
  = snd <$> list_find (hasId id) (front ++ back).
Proof.
  intros Hx. induction front as [|y front IH]; simpl.
  - destruct (decide (itemId x = id)); [done|].
    by destruct (list_find _ back) as [[]|].
  - destruct (decide (itemId y = id)); [done|].
    destruct (list_find _ (front ++ x :: back)) as [[]|],
             (list_find _ (front ++ back)) as [[]|]; simpl in *; congruence.
Qed.

Lemma remove_missing id s :
  Forall (lacksId id) (EmailQueue.queue s) → EmailQueue.remove id s = (false, s).
Proof.
  intros Hq. unfold EmailQueue.remove, EmailQueue.findIndex.
  by rewrite (proj2 (list_find_None _ _) Hq).
Qed.

Lemma remove_first_match id s front x back :
  EmailQueue.queue s = front ++ x :: back →
  Forall (lacksId id) front → itemId x = id →
  EmailQueue.remove id s
  = (true, {| EmailQueue.queue := front ++ back;
              EmailQueue.processing := EmailQueue.processing s |}).
Proof.
  intros Hq Hfront Hx. unfold EmailQueue.remove, EmailQueue.findIndex.
  rewrite Hq, (find_first_match id front x back Hfront Hx). simpl.
  by rewrite delete_middle.
Qed.

Lemma insertBehindLower_split item q :
  ∃ front back, q = front ++ back
                ∧ insertBehindLower item q = front ++ item :: back.
Proof.
  induction q as [|y q (front & back & -> & IH)]; simpl.
  - by exists [], [].
  - destruct (priority y <? priority item).
    + exists (y :: front), back. by rewrite IH.
    + by exists [], (y :: front ++ back).
Qed.

(** A queue splits at the first item with a given identifier, if any. *)
Lemma split_at_first_match id q :
  Forall (lacksId id) q
  ∨ ∃ front x back, q = front ++ x :: back
                    ∧ Forall (lacksId id) front ∧ itemId x = id.
Proof.
  induction q as [|y q [IH|(front & x & back & -> & Hfront & Hx)]].
  - left. constructor.
  - destruct (decide (itemId y = id)) as [Hy|Hy].
    + right. exists [], y, q. by repeat split.
    + left. by constructor.
  - right. destruct (decide (itemId y = id)) as [Hy|Hy].
    + exists [], y, (front ++ x :: back). by repeat split.
    + exists (y :: front), x, back. repeat split; [|done]. by constructor.
Qed.

End QueueLookup.

(** X1. [remove(id)] returns false and leaves the queue as it was when no
    queued item has the identifier; otherwise it returns true and takes out
    the first item with that identifier, the items before and after it
    keeping their order. *)
Theorem queue_remove_cases (id : string) (s : EmailQueue.t) :
  (Forall (λ x, itemId x ≠ id) (EmailQueue.queue s) →
   EmailQueue.remove id s = (false, s))
  ∧ (∀ front x back,
       EmailQueue.queue s = front ++ x :: back →
       Forall (λ y, itemId y ≠ id) front → itemId x = id →
       EmailQueue.remove id s
       = (true, {| EmailQueue.queue := front ++ back;
                   EmailQueue.processing := EmailQueue.processing s |})
       ∧ EmailQueue.getSize (snd (EmailQueue.remove id s))
         = pred (EmailQueue.getSize s)).
Proof.
  split; [apply remove_missing|].
  intros front x back Hq Hfront Hx.
  rewrite (remove_first_match id s front x back Hq Hfront Hx).
  split; [done|]. unfold EmailQueue.getSize. simpl.
  rewrite Hq, !length_app. simpl. lia.
Qed.


Section QueueRoundTrip.

Lemma enqueue_queue newId now e p s :
  ∃ front back,
    EmailQueue.queue s = front ++ back
    ∧ EmailQueue.queue (snd (EmailQueue.enqueue newId now e p s))
      = front ++ {| itemId := newId; email := e; priority := p;
                    enqueuedAt := now; retryCount := 0 |} :: back.
Proof.
  unfold EmailQueue.enqueue. cbn [snd]. rewrite insertWithPriority_queue.
  apply insertBehindLower_split.
Qed.

Lemma queue_eta (s : EmailQueue.t) :
  {| EmailQueue.queue := EmailQueue.queue s;
     EmailQueue.processing := EmailQueue.processing s |} = s.
Proof. by destruct s. Qed.

End QueueRoundTrip.

(** X2. After [enqueue] under an identifier that no queued item carries,
    [getItemById] finds the new item with the message and priority given and
    retry count 0, every other identifier is looked up as before, the size
    has grown by one, and [remove] of the identifier gives back the queue as
    it was before the [enqueue]. *)
Theorem queue_enqueue_round_trip (newId : string) (now : Z) (e : EmailData)
    (p : Z) (s : EmailQueue.t) :
  Forall (λ x, itemId x ≠ newId) (EmailQueue.queue s) →
  let s' := snd (EmailQueue.enqueue newId now e p s) in
  EmailQueue.getItemById newId s'
  = Some {| itemId := newId; email := e; priority := p;
            enqueuedAt := now; retryCount := 0 |}
  ∧ (∀ id, id ≠ newId → EmailQueue.getItemById id s' = EmailQueue.getItemById id s)
  ∧ EmailQueue.getSize s' = S (EmailQueue.getSize s)
  ∧ EmailQueue.isEmpty s' = false
  ∧ EmailQueue.remove newId s' = (true, s).
Proof.
  intros Hfresh s'.
  destruct (enqueue_queue newId now e p s) as (front & back & Hq & Hq').
  fold s' in Hq'.
  set (item := {| itemId := newId; email := e; priority := p;
                  enqueuedAt := now; retryCount := 0 |}) in *.
  assert (Hitem : itemId item = newId) by done.
  assert (Hfront : Forall (λ x, itemId x ≠ newId) front).
  { rewrite Hq in Hfresh. by apply Forall_app in Hfresh as [? _]. }
  assert (Hsize : EmailQueue.getSize s' = S (EmailQueue.getSize s)).
  { unfold EmailQueue.getSize. rewrite Hq, Hq', !length_app. simpl. lia. }
  split_and!.
  - unfold EmailQueue.getItemById. rewrite Hq'.
    by rewrite (find_first_match newId front item back Hfront Hitem).
  - intros id Hne. unfold EmailQueue.getItemById. rewrite Hq, Hq'.
    apply find_skips_other. congruence.
  - exact Hsize.
  - unfold EmailQueue.isEmpty. fold (EmailQueue.getSize s'). by rewrite Hsize.
  - rewrite (remove_first_match newId s' front item back Hq' Hfront Hitem).
    rewrite <- Hq. f_equal.
    change (EmailQueue.processing s') with (EmailQueue.processing s).
    apply queue_eta.
Qed.

(** An instance: the queue of the specification's scenario, and a fourth
    message under a new identifier. *)
Lemma queue_enqueue_round_trip_witness :
  let s := queueScenario "a" "b" "c" 0 1 2 sampleEmail sampleEmail sampleEmail in
  EmailQueue.remove "d" (snd (EmailQueue.enqueue "d" 3 sampleEmail 7 s)) = (true, s).
Proof.
  intros s.
  apply (queue_enqueue_round_trip "d" 3 sampleEmail 7 s).
  repeat constructor; discriminate.
Defined.

Lemma ascending_middle front x back :
  ascending (front ++ x :: back) → ascending (front ++ back).
Proof.
  unfold ascending. rewrite !StronglySorted_app, StronglySorted_cons.
  intros (Hcross & Hfront & _ & Hback). split_and!; [|done..].
  intros x1 x2 H1 H2. apply Hcross; [done|]. by right.
Qed.

Lemma remove_ascending id s :
  ascending (EmailQueue.queue s) →
  ascending (EmailQueue.queue (snd (EmailQueue.remove id s))).
Proof.
  intros Hasc.
  destruct (split_at_first_match id (EmailQueue.queue s))
    as [Hno|(front & x & back & Hq & Hfront & Hx)].
  - by rewrite remove_missing.
  - rewrite (remove_first_match id s front x back Hq Hfront Hx). simpl.
    rewrite Hq in Hasc. by eapply ascending_middle.
Qed.

Lemma updatePriority_missing id newPriority s :
  Forall (λ x, itemId x ≠ id) (EmailQueue.queue s) →
  EmailQueue.updatePriority id newPriority s = (false, s).
Proof.
  intros Hq. unfold EmailQueue.updatePriority, EmailQueue.getItemById.
  by rewrite (proj2 (list_find_None _ _) Hq).
Qed.

Lemma updatePriority_first_match id newPriority s front x back :
  EmailQueue.queue s = front ++ x :: back →
  Forall (λ y, itemId y ≠ id) front → itemId x = id →
  EmailQueue.updatePriority id newPriority s
  = (true,
     EmailQueue.insertWithPriority (EmailQueue.setPriority newPriority x)
       {| EmailQueue.queue := front ++ back;
          EmailQueue.processing := EmailQueue.processing s |}).
Proof.
  intros Hq Hfront Hx. unfold EmailQueue.updatePriority, EmailQueue.getItemById.
  rewrite (remove_first_match id s front x back Hq Hfront Hx).
  by rewrite Hq, (find_first_match id front x back Hfront Hx).
Qed.

Lemma updatePriority_ascending id newPriority s :
  ascending (EmailQueue.queue s) →
  ascending (EmailQueue.queue (snd (EmailQueue.updatePriority id newPriority s))).
Proof.
  intros Hasc.
  destruct (split_at_first_match id (EmailQueue.queue s))
    as [Hno|(front & x & back & Hq & Hfront & Hx)].
  - by rewrite updatePriority_missing.
  - rewrite (updatePriority_first_match id newPriority s front x back Hq Hfront Hx).
    simpl snd. rewrite insertWithPriority_queue. apply insertBehindLower_ascending.
    simpl. rewrite Hq in Hasc. by eapply ascending_middle.
Qed.

(** X3. [updatePriority(id, newPriority)] returns false and changes nothing
    when no queued item has the identifier. Otherwise it returns true: the
    first item with the identifier is taken out and put back with the new
    priority behind the items of lower priority number, its other fields and
    all other items being kept, so the size is the same; and a queue in
    ascending order of the priority number stays in ascending order. *)
Theorem queue_updatePriority_cases (id : string) (newPriority : Z)
    (s : EmailQueue.t) :
  (Forall (λ x, itemId x ≠ id) (EmailQueue.queue s) →
   EmailQueue.updatePriority id newPriority s = (false, s))
  ∧ (∀ front x back,
       EmailQueue.queue s = front ++ x :: back →
       Forall (λ y, itemId y ≠ id) front → itemId x = id →
       let moved := EmailQueue.setPriority newPriority x in
       let s' := snd (EmailQueue.updatePriority id newPriority s) in
       fst (EmailQueue.updatePriority id newPriority s) = true
       ∧ EmailQueue.queue s' = insertBehindLower moved (front ++ back)
       ∧ EmailQueue.queue s' ≡ₚ moved :: front ++ back
       ∧ EmailQueue.getSize s' = EmailQueue.getSize s
       ∧ EmailQueue.processing s' = EmailQueue.processing s
       ∧ (ascending (EmailQueue.queue s) → ascending (EmailQueue.queue s'))).
Proof.
  split; [apply updatePriority_missing|].
  intros front x back Hq Hfront Hx moved s'.
  pose proof (updatePriority_first_match id newPriority s front x back Hq Hfront Hx)
    as Hrun.
  assert (Hq' : EmailQueue.queue s' = insertBehindLower moved (front ++ back)).
  { unfold s'. rewrite Hrun. simpl snd. by rewrite insertWithPriority_queue. }
  split_and!.
  - by rewrite Hrun.
  - exact Hq'.
  - rewrite Hq'. apply insertBehindLower_permutation.
  - unfold EmailQueue.getSize.
    rewrite Hq', insertBehindLower_permutation, Hq. simpl.
    rewrite !length_app. simpl. lia.
  - unfold s'. by rewrite Hrun.
  - intros Hasc. by apply updatePriority_ascending.
Qed.

Section QueueOrder.

Lemma requeue_ascending item s :
  ascending (EmailQueue.queue s) →
  ascending (EmailQueue.queue (EmailQueue.requeue item s)).
Proof.
  intros Hasc. unfold EmailQueue.requeue.
  destruct (retryCount item <? 3); [|done].
  rewrite insertWithPriority_queue. by apply insertBehindLower_ascending.
Qed.

Lemma dequeue_ascending s :
  ascending (EmailQueue.queue s) →
  ascending (EmailQueue.queue (snd (EmailQueue.dequeue s))).
Proof.
  unfold EmailQueue.dequeue. destruct (EmailQueue.queue s) as [|x rest] eqn:E.
  - simpl. by rewrite E.
  - simpl. unfold ascending. by intros [_ ?]%StronglySorted_cons.
Qed.

Lemma processNext_ascending {W} (sleep : Z → W → W) processor rounds :
  ∀ s w o s' w',
    EmailQueue.processNext sleep processor rounds (s, w) = (o, (s', w')) →
    ascending (EmailQueue.queue s) → ascending (EmailQueue.queue s').
Proof.
  induction rounds as [|rounds IH]; intros s w o s' w'; simpl.
  { by intros [= _ <- _]. }
  destruct (negb (EmailQueue.processing s)); [by intros [= _ <- _]|].
  intros Hrun Hasc. pose proof (dequeue_ascending s Hasc) as Hrest.
  destruct (EmailQueue.dequeue s) as [[item|] s1]; simpl in Hrest.
  - destruct (processor item w) as [[| |] w1].
    + by eapply IH.
    + eapply IH; [exact Hrun|]. by apply requeue_ascending.
    + by inversion Hrun; subst.
  - by eapply IH.
Qed.

Lemma startProcessing_ascending {W R} (processorStart : QueueItem → Async W R) :
  ∀ s w o s' w',
    EmailQueue.startProcessing processorStart (s, w) = (o, (s', w')) →
    ascending (EmailQueue.queue s) → ascending (EmailQueue.queue s').
Proof.
  intros s w o s' w'. unfold EmailQueue.startProcessing.
  destruct (EmailQueue.processing s); [by intros [= _ <- _]|].
  intros Hrun Hasc.
  pose proof (dequeue_ascending
                {| EmailQueue.queue := EmailQueue.queue s;
                   EmailQueue.processing := true |} Hasc) as Hrest.
  destruct (EmailQueue.dequeue _) as [[item|] s1]; simpl in Hrest.
  - destruct (processorStart item w) as [[r|e|] w1]; inversion Hrun; subst;
      [done|by apply requeue_ascending|done].
  - by inversion Hrun; subst.
Qed.

Lemma resumeProcessing_ascending {W R} (sleep : Z → W → W) processor
    (processorRest : QueueItem → R → Async W unit) rounds suspended :
  ∀ s w o s' w',
    EmailQueue.resumeProcessing sleep processor processorRest rounds suspended (s, w)
    = (o, (s', w')) →
    ascending (EmailQueue.queue s) → ascending (EmailQueue.queue s').
Proof.
  intros s w o s' w'. unfold EmailQueue.resumeProcessing.
  destruct suspended as [ms|item r].
  - apply processNext_ascending.
  - destruct (processorRest item r w) as [[| |] w1]; intros Hrun Hasc.
    + by eapply processNext_ascending.
    + eapply processNext_ascending; [exact Hrun|]. by apply requeue_ascending.
    + by inversion Hrun; subst.
Qed.

Lemma queueReach_ascending s : queueReach s → ascending (EmailQueue.queue s).
Proof.
  induction 1 as [|s newId now e p _ IH|s _ IH|s id _ IH|s id newPriority _ IH
                 |s _ IH|s W R processorStart w r s' w' _ IH Hrun|s _ IH
                 |s W sleep processor rounds w o s' w' _ IH Hrun
                 |s W R sleep processor processorRest rounds suspended w o s' w'
                    _ IH Hrun].
  - constructor.
  - unfold EmailQueue.enqueue. cbn [snd]. rewrite insertWithPriority_queue.
    by apply insertBehindLower_ascending.
  - by apply dequeue_ascending.
  - by apply remove_ascending.
  - by apply updatePriority_ascending.
  - constructor.
  - by eapply startProcessing_ascending.
  - exact IH.
  - by eapply processNext_ascending.
  - by eapply resumeProcessing_ascending.
Qed.

End QueueOrder.

(** X4. Whatever sequence of [enqueue], [dequeue], [remove],
    [updatePriority], [clear], [startProcessing], [stopProcessing] and runs of
    the drain loop (with its re-insertion of failed items) has produced a
    queue, its items are in ascending order of the priority number, and the
    item that [peek] shows, which is the one [dequeue] returns next, has a
    priority number no higher than any queued item. *)
Theorem queue_always_ascending (s : EmailQueue.t) :
  queueReach s →
  ascending (EmailQueue.getItems s)
  ∧ EmailQueue.peek s = fst (EmailQueue.dequeue s)
  ∧ (∀ x, EmailQueue.peek s = Some x →
          Forall (λ y, priority x ≤ priority y) (EmailQueue.getItems s)).
Proof.
  intros Hasc%queueReach_ascending. split; [exact Hasc|].
  unfold EmailQueue.peek, EmailQueue.dequeue, EmailQueue.getItems in *.
  destruct (EmailQueue.queue s) as [|y rest]; [by split|].
  split; [done|]. intros x [= ->].
  apply StronglySorted_cons in Hasc as [Hx _].
  constructor; [unfold byPriority; lia|exact Hx].
Qed.

Lemma queue_always_ascending_witness :
  ascending
    (EmailQueue.getItems
       (queueScenario "a" "b" "c" 0 1 2 sampleEmail sampleEmail sampleEmail)).
Proof.
  apply (queue_always_ascending
           (queueScenario "a" "b" "c" 0 1 2 sampleEmail sampleEmail sampleEmail)).
  unfold queueScenario. repeat apply QueueEnqueue. apply QueueEmpty.
Defined.

(** ** EmailQueue: the drain loop *)

Section DrainLoop.
Context {W : Type} (sleep : Z → W → W) (processor : QueueItem → Async W unit).

#[local] Abbreviation loop :=
  (EmailQueue.processNext (sleepRecorded sleep) (recorded processor)).
#[local] Abbreviation running q :=
  ({| EmailQueue.queue := q; EmailQueue.processing := true |}).

Lemma processNext_polls rounds :
  ∀ w seen, ∃ w', loop rounds (running [], (w, seen))
                  = (Unsettled, (running [], (w', seen))).
Proof.
  induction rounds as [|rounds IH]; intros w seen; simpl; [by eexists|].
  apply IH.
Qed.

Lemma processNext_fulfilled rounds x rest w seen w1 :
  processor x w = (Returned tt, w1) →
  loop (S rounds) (running (x :: rest), (w, seen))
  = loop rounds (running rest, (sleep 10 w1, seen ++ [x])).
Proof. intros Hrun. simpl. by rewrite Hrun. Qed.

Lemma processNext_rejected rounds x rest w seen e w1 :
  processor x w = (Thrown e, w1) →
  loop (S rounds) (running (x :: rest), (w, seen))
  = loop rounds (EmailQueue.requeue x (running rest),
                 (sleep 10 w1, seen ++ [x])).
Proof. intros Hrun. simpl. by rewrite Hrun. Qed.

Lemma requeue_in_front x rest :
  ascending (x :: rest) →
  EmailQueue.requeue x (running rest)
  = if retryCount x <? 3 then running (EmailQueue.bumpRetry x :: rest)
    else running rest.
Proof.
  intros [Hx _]%StronglySorted_cons. unfold EmailQueue.requeue.
  destruct (retryCount x <? 3); [|done].
  unfold EmailQueue.insertWithPriority, EmailQueue.splice0. simpl.
  rewrite scan_lowerRun.
  destruct rest as [|y rest]; [done|]. simpl.
  apply Forall_cons in Hx as [Hy _]. unfold byPriority in Hy.
  by rewrite (proj2 (Z.ltb_ge _ _) Hy).
Qed.

Lemma attemptsLeft_bump x :
  retryCount x < 3 →
  attemptsLeft x = S (attemptsLeft (EmailQueue.bumpRetry x)).
Proof. unfold attemptsLeft. simpl. lia. Qed.

Lemma attemptsLeft_last x : 3 ≤ retryCount x → attemptsLeft x = 1%nat.
Proof. unfold attemptsLeft. lia. Qed.

Lemma processNext_exhausts n :
  (∀ item w0, ∃ e w1, processor item w0 = (Thrown e, w1)) →
  ∀ x rest rounds w seen,
    attemptsLeft x = n →
    ascending (x :: rest) →
    ∃ w', loop (n + rounds) (running (x :: rest), (w, seen))
          = loop rounds (running rest, (w', seen ++ attemptsFrom n x)).
Proof.
  intros Hrejects. induction n as [|n IH]; intros x rest rounds w seen Hn Hasc.
  { unfold attemptsLeft in Hn. lia. }
  destruct (Hrejects x w) as (e & w1 & Hrun).
  change (S n + rounds)%nat with (S (n + rounds)).
  rewrite (processNext_rejected _ _ _ _ _ _ _ Hrun), (requeue_in_front _ _ Hasc).
  destruct (Z.ltb_spec (retryCount x) 3) as [Hlt|Hge].
  - rewrite (attemptsLeft_bump x Hlt) in Hn. injection Hn as Hn.
    destruct (IH (EmailQueue.bumpRetry x) rest rounds (sleep 10 w1) (seen ++ [x]) Hn)
      as (w' & Hloop).
    { apply StronglySorted_cons in Hasc as [Hx Hrest]. by constructor. }
    exists w'. rewrite Hloop. simpl. by rewrite <- app_assoc.
  - rewrite (attemptsLeft_last x Hge) in Hn. injection Hn as <-.
    by exists (sleep 10 w1).
Qed.

End DrainLoop.

(** X5. When the processor fulfils for every item, the drain loop hands it
    each queued item once, in the order of the queue, and empties the queue;
    after that it keeps polling the empty queue and never returns. *)
Theorem drain_hands_over_in_order {W : Type} (sleep : Z → W → W)
    (processor : QueueItem → Async W unit) (q : list QueueItem) (k : nat)
    (w : W) (seen : list QueueItem) :
  (∀ item w0, ∃ w1, processor item w0 = (Returned tt, w1)) →
  ∃ w', EmailQueue.processNext (sleepRecorded sleep) (recorded processor)
          (length q + k)
          ({| EmailQueue.queue := q; EmailQueue.processing := true |}, (w, seen))
        = (Unsettled,
           ({| EmailQueue.queue := []; EmailQueue.processing := true |},
            (w', seen ++ q))).
Proof.
  intros Hfulfils. revert w seen.
  induction q as [|x rest IH]; intros w seen.
  - rewrite app_nil_r. apply processNext_polls.
  - destruct (Hfulfils x w) as (w1 & Hrun).
    change (length (x :: rest) + k)%nat with (S (length rest + k)).
    rewrite (processNext_fulfilled _ _ _ _ _ _ _ _ Hrun).
    destruct (IH (sleep 10 w1) (seen ++ [x])) as (w' & Hloop).
    exists w'. rewrite Hloop. by rewrite <- app_assoc.
Qed.

Lemma drain_hands_over_in_order_witness :
  ∃ w', EmailQueue.processNext (sleepRecorded Z.add) (recorded (λ _, ret tt)) 5
          ({| EmailQueue.queue :=
                EmailQueue.queue
                  (queueScenario "a" "b" "c" 0 1 2 sampleEmail sampleEmail sampleEmail);
              EmailQueue.processing := true |}, (0, []))
        = (Unsettled,
           ({| EmailQueue.queue := []; EmailQueue.processing := true |},
            (w', [] ++ EmailQueue.queue
                         (queueScenario "a" "b" "c" 0 1 2
                            sampleEmail sampleEmail sampleEmail)))).
Proof.
  apply (drain_hands_over_in_order Z.add (λ _, ret tt)
           (EmailQueue.queue
              (queueScenario "a" "b" "c" 0 1 2 sampleEmail sampleEmail sampleEmail))
           2 0 []).
  intros item w0. by exists w0.
Defined.

(** X6. When the processor rejects every item, the drain loop of a queue in
    ascending order hands over the first item again and again, its retry
    count one higher each time, until the count has reached 3, then drops it
    and goes on with the next: an item enqueued with retry count 0 is tried
    4 times in a row. In the end the queue is empty and the loop keeps
    polling. *)
Theorem drain_retries_then_drops {W : Type} (sleep : Z → W → W)
    (processor : QueueItem → Async W unit) (q : list QueueItem) (k : nat)
    (w : W) (seen : list QueueItem) :
  (∀ item w0, ∃ e w1, processor item w0 = (Thrown e, w1)) →
  ascending q →
  (∀ x, retryCount x = 0 →
        attemptsFrom (attemptsLeft x) x
        = [x; EmailQueue.bumpRetry x;
           EmailQueue.bumpRetry (EmailQueue.bumpRetry x);
           EmailQueue.bumpRetry (EmailQueue.bumpRetry (EmailQueue.bumpRetry x))])
  ∧ ∃ w', EmailQueue.processNext (sleepRecorded sleep) (recorded processor)
            (sum_list_with attemptsLeft q + k)
            ({| EmailQueue.queue := q; EmailQueue.processing := true |}, (w, seen))
          = (Unsettled,
             ({| EmailQueue.queue := []; EmailQueue.processing := true |},
              (w', seen ++ flat_map (λ x, attemptsFrom (attemptsLeft x) x) q))).
Proof.
  intros Hrejects Hasc. split.
  { intros x Hx. unfold attemptsLeft. by rewrite Hx. }
  revert w seen. induction q as [|x rest IH]; intros w seen.
  - rewrite app_nil_r. apply processNext_polls.
  - simpl sum_list_with. rewrite <- Nat.add_assoc.
    destruct (processNext_exhausts sleep processor (attemptsLeft x) Hrejects
                x rest (sum_list_with attemptsLeft rest + k)%nat w seen eq_refl Hasc)
      as (w1 & Hhead).
    rewrite Hhead.
    destruct (IH ltac:(by apply StronglySorted_cons in Hasc as [_ ?]) w1
                 (seen ++ attemptsFrom (attemptsLeft x) x)) as (w' & Hloop).
    exists w'. rewrite Hloop. simpl. by rewrite <- app_assoc.
Qed.

Lemma drain_retries_then_drops_witness :
  let x := {| itemId := "a"; email := sampleEmail; priority := 5;
              enqueuedAt := 0; retryCount := 0 |} in
  ∃ w', EmailQueue.processNext (sleepRecorded Z.add)
          (recorded (λ _, throw (ErrorObj "Failure"))) 4
          ({| EmailQueue.queue := [x]; EmailQueue.processing := true |}, (0, []))
        = (Unsettled,
           ({| EmailQueue.queue := []; EmailQueue.processing := true |},
            (w', [x; EmailQueue.bumpRetry x;
                  EmailQueue.bumpRetry (EmailQueue.bumpRetry x);
                  EmailQueue.bumpRetry
                    (EmailQueue.bumpRetry (EmailQueue.bumpRetry x))]))).
Proof.
  intros x.
  apply (drain_retries_then_drops Z.add (λ _, throw (ErrorObj "Failure"))
           [x] 0 0 []).
  - intros item w0. by exists (ErrorObj "Failure"), w0.
  - repeat constructor.
Defined.

(** ** CircuitBreaker: what the statistics show *)

Section CircuitBreakerStatsProps.
Context {W : Type} (Date_now : W → Z) (showDate : option Z → string).
Context (config : CircuitBreakerConfig).

(** The breakers that calls of [execute] and [reset] produce are built from
    the fresh one by [onFailure] outside the Open state and by the move from
    Open to HalfOpen. *)
Lemma reachable_invariant (P : CircuitBreaker.t → Prop) :
  P CircuitBreaker.new →
  (∀ cb now, P cb → CircuitBreaker.state cb ≠ OPEN →
             P (CircuitBreaker.onFailure config now cb)) →
  (∀ cb, P cb → CircuitBreaker.state cb = OPEN → P (halfOpened cb)) →
  ∀ cb, reachable Date_now showDate config cb → P cb.
Proof.
  intros Hnew Hfail Hhalf cb Hr.
  assert (Hguard : ∀ T (op : Async W T) cb1 w,
             P cb1 → CircuitBreaker.state cb1 ≠ OPEN →
             P (fst (snd (guarded Date_now config op cb1 w)))).
  { intros T op cb1 w H1 Hst. unfold guarded.
    destruct (op w) as [[r|e|] w']; simpl; [exact Hnew|by apply Hfail|exact H1]. }
  induction Hr as [|cb T op w Hr IH|cb Hr IH]; [exact Hnew| |exact Hnew].
  unfold breakerAfter.
  assert (Hcases : CircuitBreaker.state cb = OPEN ∨ CircuitBreaker.state cb ≠ OPEN)
    by (destruct (CircuitBreaker.state cb); [right|left|right]; congruence).
  destruct Hcases as [Hst|Hst].
  - destruct (CircuitBreaker.shouldAttemptReset (Date_now w) cb) eqn:Hdue.
    + rewrite execute_open_due by done. apply Hguard; [by apply Hhalf|done].
    + by rewrite execute_open_early.
  - rewrite execute_not_open by done. by apply Hguard.
Qed.

Lemma onFailure_statsConsistent cb now :
  statsConsistent config cb → CircuitBreaker.state cb ≠ OPEN →
  statsConsistent config (CircuitBreaker.onFailure config now cb).
Proof.
  unfold statsConsistent, CircuitBreaker.onFailure.
  intros (Hpos & Hzero & Hst) Hopen.
  destruct (Z.leb_spec (failureThreshold config) (CircuitBreaker.failureCount cb + 1));
    simpl.
  - split_and!; [lia|split; [lia|done]|lia|by eexists].
  - destruct (CircuitBreaker.state cb); [|done|lia].
    split_and!; [lia|split; [lia|done]|lia|tauto].
Qed.

End CircuitBreakerStatsProps.

(** X7. The statistics of every breaker that calls of [execute] and [reset]
    produce are consistent: the failure count is not negative, and it is 0
    exactly when no last failure time is recorded; a Closed breaker has fewer
    failures than the threshold and no next attempt time; a breaker that is
    Open or HalfOpen has at least [failureThreshold] failures, and its next
    attempt time is the last failure time plus [recoveryTimeout]. *)
Theorem circuit_breaker_stats_consistent {W : Type} (Date_now : W → Z)
    (showDate : option Z → string) (config : CircuitBreakerConfig)
    (cb : CircuitBreaker.t) :
  1 ≤ failureThreshold config →
  reachable Date_now showDate config cb →
  let stats := CircuitBreaker.getStats cb in
  0 ≤ CircuitBreakerStats.failureCount stats
  ∧ (CircuitBreakerStats.failureCount stats = 0
     ↔ CircuitBreakerStats.lastFailureTime stats = None)
  ∧ (if CircuitBreaker.isClosed cb
     then CircuitBreakerStats.failureCount stats < failureThreshold config
          ∧ CircuitBreakerStats.nextAttemptTime stats = None
     else failureThreshold config ≤ CircuitBreakerStats.failureCount stats
          ∧ ∃ tf, CircuitBreakerStats.lastFailureTime stats = Some tf
                  ∧ CircuitBreakerStats.nextAttemptTime stats
                    = Some (tf + recoveryTimeout config))
  ∧ orb (CircuitBreaker.isOpen cb) (CircuitBreaker.isHalfOpen cb)
    = negb (CircuitBreaker.isClosed cb).
Proof.
  intros Hpos Hr stats.
  assert (Hinv : statsConsistent config cb).
  { clear stats. revert cb Hr. apply reachable_invariant.
    - unfold statsConsistent. simpl. split_and!; [lia|done|lia|done].
    - intros cb now. apply onFailure_statsConsistent.
    - intros cb (H1 & H2 & H3) Hst. unfold statsConsistent in *.
      rewrite Hst in H3. exact (conj H1 (conj H2 H3)). }
  destruct Hinv as (H1 & H2 & H3). unfold stats, CircuitBreaker.getStats,
    CircuitBreaker.isClosed, CircuitBreaker.isOpen, CircuitBreaker.isHalfOpen.
  simpl. split_and!; [done|done| |by destruct (CircuitBreaker.state cb)].
  by destruct (CircuitBreaker.state cb).
Qed.

Lemma circuit_breaker_stats_consistent_witness :
  CircuitBreakerStats.nextAttemptTime (CircuitBreaker.getStats afterThreeFailures)
  = Some (30 + 1000)
  ∧ CircuitBreakerStats.failureCount (CircuitBreaker.getStats afterThreeFailures) = 3.
Proof.
  assert (Hr : reachable (λ w : Z, w) (λ _, "date") sampleBreakerConfig
                 afterThreeFailures).
  { unfold afterThreeFailures. cbv beta zeta.
    repeat apply ReachExecute. apply ReachNew. }
  pose proof (circuit_breaker_stats_consistent (λ w : Z, w) (λ _, "date")
                sampleBreakerConfig afterThreeFailures ltac:(simpl; lia) Hr)
    as (_ & _ & Hopen & _).
  change (CircuitBreaker.isClosed afterThreeFailures) with false in Hopen.
  destruct Hopen as (_ & tf & Hlast & Hnext).
  injection Hlast as <-. split; [exact Hnext|reflexivity].
Defined.

(** ** RateLimiter: slots, waiting and a limit of zero *)

Section RateLimiterSlots.
Context {W : Type} (Date_now : W → Z) (sleep : Z → W → W).
Context (config : RateLimitConfig).

#[local] Abbreviation acquire := (RateLimiter.acquire Date_now config).
#[local] Abbreviation waitForSlot := (RateLimiter.waitForSlot Date_now sleep config).
#[local] Abbreviation getCurrentUsage := (RateLimiter.getCurrentUsage Date_now config).
#[local] Abbreviation getRemainingSlots :=
  (RateLimiter.getRemainingSlots Date_now config).
#[local] Abbreviation purge := (RateLimiter.purge config).

Lemma remaining_cases rl w :
  getRemainingSlots (rl, w)
  = (Returned (Z.max 0 (maxRequests config
                        - Z.of_nat (length (purge (Date_now w) (RateLimiter.requests rl))))),
     ({| RateLimiter.requests := purge (Date_now w) (RateLimiter.requests rl) |}, w)).
Proof. reflexivity. Qed.

Lemma purge_idempotent now reqs : purge now (purge now reqs) = purge now reqs.
Proof.
  unfold RateLimiter.purge. induction reqs as [|t reqs IH]; [done|].
  rewrite filter_cons. case_decide as Ht; [|exact IH].
  rewrite filter_cons, decide_True by done. by rewrite IH.
Qed.

Lemma purge_keeps_now now reqs :
  0 < timeWindow config →
  purge now (purge now reqs ++ [now]) = purge now reqs ++ [now].
Proof.
  intros Hwindow. unfold RateLimiter.purge.
  rewrite filter_app. fold (purge now reqs). fold (purge now (purge now reqs)).
  rewrite purge_idempotent. f_equal.
  rewrite filter_cons, decide_True by lia. done.
Qed.

Lemma waitForSlot_blocked fuel :
  maxRequests config ≤ 0 →
  ∀ rl w, fst (waitForSlot fuel (rl, w)) = Unsettled.
Proof.
  intros Hmax. induction fuel as [|fuel IH]; intros rl w; [done|].
  rewrite waitForSlot_step, acquire_cases.
  destruct (Z.ltb_spec
              (Z.of_nat (length (purge (Date_now w) (RateLimiter.requests rl))))
              (maxRequests config)); [lia|].
  destruct (backOff_keeps Date_now sleep config
              {| RateLimiter.requests := purge (Date_now w) (RateLimiter.requests rl) |}
              w) as (w' & ->).
  apply IH.
Qed.

End RateLimiterSlots.

(** X8. The readings of a rate limiter agree with what [acquire] does next.
    [getCurrentUsage] counts the timestamps younger than [timeWindow], and
    [getRemainingSlots] is [max 0 (maxRequests - usage)] and leaves the
    limiter as [getCurrentUsage] does. [acquire] at the same clock reading
    admits exactly when a slot remains; with a positive window the admission
    takes one slot and raises the usage by one; and while the limiter holds
    no more than [maxRequests] timestamps, usage and remaining slots add up to
    [maxRequests]. *)
Theorem rate_limiter_slots_accounting {W : Type} (Date_now : W → Z)
    (config : RateLimitConfig) (rl : RateLimiter.t) (w : W) :
  ∃ usage remaining rl1,
    RateLimiter.getCurrentUsage Date_now config (rl, w) = (Returned usage, (rl1, w))
    ∧ RateLimiter.getRemainingSlots Date_now config (rl, w)
      = (Returned remaining, (rl1, w))
    ∧ 0 ≤ usage
    ∧ remaining = Z.max 0 (maxRequests config - usage)
    ∧ fst (RateLimiter.acquire Date_now config (rl, w)) = Returned (0 <? remaining)
    ∧ (withinLimit config rl → usage + remaining = maxRequests config)
    ∧ (0 < remaining → 0 < timeWindow config →
       ∃ rl2,
         RateLimiter.acquire Date_now config (rl, w) = (Returned true, (rl2, w))
         ∧ RateLimiter.getCurrentUsage Date_now config (rl2, w)
           = (Returned (usage + 1), (rl2, w))
         ∧ RateLimiter.getRemainingSlots Date_now config (rl2, w)
           = (Returned (remaining - 1), (rl2, w))).
Proof.
  pose proof (purge_shorter config (Date_now w) (RateLimiter.requests rl)) as Hlen.
  set (live := RateLimiter.purge config (Date_now w) (RateLimiter.requests rl)) in *.
  exists (Z.of_nat (length live)),
         (Z.max 0 (maxRequests config - Z.of_nat (length live))),
         {| RateLimiter.requests := live |}.
  rewrite usage_cases, remaining_cases, acquire_cases. fold live.
  split_and!; [done|done|lia|done| | |].
  - destruct (Z.ltb_spec (Z.of_nat (length live)) (maxRequests config));
      destruct (Z.ltb_spec 0 (Z.max 0 (maxRequests config - Z.of_nat (length live))));
      (done || lia).
  - unfold withinLimit. lia.
  - intros Hslot Hwindow.
    destruct (Z.ltb_spec (Z.of_nat (length live)) (maxRequests config)); [|lia].
    eexists. split; [reflexivity|].
    rewrite usage_cases, remaining_cases. cbn [RateLimiter.requests].
    unfold live. rewrite purge_keeps_now by done. fold live.
    rewrite length_app. simpl.
    split; repeat f_equal; lia.
Qed.

(** X9. With [maxRequests] at 0 or below [acquire] never admits a request,
    and [waitForSlot] never returns, however many rounds its loop is
    given. *)
Theorem rate_limiter_zero_limit_blocks {W : Type} (Date_now : W → Z)
    (sleep : Z → W → W) (config : RateLimitConfig) (fuel : nat)
    (rl : RateLimiter.t) (w : W) :
  maxRequests config ≤ 0 →
  fst (RateLimiter.acquire Date_now config (rl, w)) = Returned false
  ∧ fst (RateLimiter.waitForSlot Date_now sleep config fuel (rl, w)) = Unsettled.
Proof.
  intros Hmax. split; [|by apply waitForSlot_blocked].
  rewrite acquire_cases.
  destruct (Z.ltb_spec
              (Z.of_nat (length (RateLimiter.purge config (Date_now w)
                                   (RateLimiter.requests rl))))
              (maxRequests config)); [lia|done].
Qed.

Lemma rate_limiter_zero_limit_blocks_witness :
  fst (RateLimiter.waitForSlot (λ w : Z, w) Z.add
         {| maxRequests := 0; timeWindow := 1000 |} 50 (RateLimiter.new, 0))
  = Unsettled.
Proof.
  apply (rate_limiter_zero_limit_blocks (λ w : Z, w) Z.add
           {| maxRequests := 0; timeWindow := 1000 |} 50 RateLimiter.new 0).
  simpl. lia.
Defined.

(** X10. With a limit of at least one request and timers that last as long
    as asked, [waitForSlot] returns at once, without sleeping, when fewer
    than [maxRequests] timestamps are younger than the window; otherwise it
    sleeps once, until the oldest of them is [timeWindow] old, and is then
    admitted at that time. *)
Theorem rate_limiter_waits_for_oldest {W : Type} (Date_now : W → Z)
    (sleep : Z → W → W) (config : RateLimitConfig) (fuel : nat)
    (rl : RateLimiter.t) (w : W) :
  (∀ ms w0, Date_now (sleep ms w0) = Date_now w0 + ms) →
  1 ≤ maxRequests config →
  withinLimit config rl →
  (2 ≤ fuel)%nat →
  let live := RateLimiter.purge config (Date_now w) (RateLimiter.requests rl) in
  if Z.of_nat (length live) <? maxRequests config
  then RateLimiter.waitForSlot Date_now sleep config fuel (rl, w)
       = (Returned tt, ({| RateLimiter.requests := live ++ [Date_now w] |}, w))
  else ∃ oldest,
         RateLimiter.oldestRequest live = Some oldest
         ∧ 0 < timeWindow config - (Date_now w - oldest)
         ∧ let w' := sleep (timeWindow config - (Date_now w - oldest)) w in
           Date_now w' = oldest + timeWindow config
           ∧ RateLimiter.waitForSlot Date_now sleep config fuel (rl, w)
             = (Returned tt,
                ({| RateLimiter.requests :=
                      RateLimiter.purge config (Date_now w') live ++ [Date_now w'] |},
                 w')).
Proof.
  intros Hsleep Hmax Hin Hfuel live.
  destruct fuel as [|[|fuel]]; [lia..|].
  pose proof (purge_shorter config (Date_now w) (RateLimiter.requests rl)) as Hlen.
  fold live in Hlen.
  rewrite waitForSlot_step, acquire_cases. fold live.
  destruct (Z.ltb_spec (Z.of_nat (length live)) (maxRequests config)) as [Hlt|Hge];
    [done|].
  unfold RateLimiter.backOff. cbn [RateLimiter.requests].
  destruct (RateLimiter.oldestRequest live) as [o|] eqn:Hold.
  2:{ destruct live; [simpl in Hge; lia|discriminate]. }
  destruct (oldestRequest_spec _ _ Hold) as [Hoin Hole].
  assert (Hfresh : Date_now w - o < timeWindow config).
  { unfold live, RateLimiter.purge in Hoin.
    apply list_elem_of_filter in Hoin as [Hp _]. exact Hp. }
  exists o. split; [done|]. split; [lia|]. cbv zeta.
  set (w' := sleep (timeWindow config - (Date_now w - o)) w).
  assert (Hnow : Date_now w' = o + timeWindow config).
  { unfold w'. rewrite Hsleep. lia. }
  split; [exact Hnow|].
  destruct (Z.ltb_spec 0 (timeWindow config - (Date_now w - o))); [|lia].
  fold w'. rewrite waitForSlot_step, acquire_cases. cbn [RateLimiter.requests].
  assert (Hshrink : (length (RateLimiter.purge config (Date_now w') live)
                     < length live)%nat).
  { apply (length_filter_lt _ _ o); [done|]. lia. }
  unfold withinLimit in Hin.
  destruct (Z.ltb_spec
              (Z.of_nat (length (RateLimiter.purge config (Date_now w') live)))
              (maxRequests config)); [done|lia].
Qed.

Lemma rate_limiter_waits_for_oldest_witness :
  RateLimiter.waitForSlot (λ w : Z, w) (λ ms w, w + ms) sampleRateLimit 2
    ({| RateLimiter.requests := [0; 1] |}, 2)
  = (Returned tt, ({| RateLimiter.requests := [1; 1000] |}, 1000)).
Proof.
  pose proof (rate_limiter_waits_for_oldest (λ w : Z, w) (λ ms w, w + ms)
                sampleRateLimit 2 {| RateLimiter.requests := [0; 1] |} 2
                ltac:(reflexivity) ltac:(simpl; lia)
                ltac:(unfold withinLimit; simpl; lia) ltac:(lia)) as Hwait.
  vm_compute in Hwait. destruct Hwait as (oldest & Hold & _ & _ & Hrun).
  injection Hold as <-. exact Hrun.
Defined.

(** ** RetryMechanism: the delays and the number of invocations *)

(** X11. With a non-negative initial delay and a multiplier of at least 1
    the delay that [getNextRetryDelay] announces never shrinks from one
    attempt to the next, never exceeds [maxDelay], and is never below the
    smaller of [initialDelay] and [maxDelay], which is the delay after the
    first attempt. *)
Theorem retry_delays_grow_to_cap (config : RetryConfig) (attempt : Z) :
  0 ≤ initialDelay config →
  1 ≤ backoffMultiplier config →
  1 ≤ attempt →
  RetryMechanism.getNextRetryDelay config attempt
  ≤ RetryMechanism.getNextRetryDelay config (attempt + 1)
  ∧ RetryMechanism.getNextRetryDelay config attempt ≤ maxDelay config
  ∧ RetryMechanism.getNextRetryDelay config 1 ≤ RetryMechanism.getNextRetryDelay config attempt
  ∧ RetryMechanism.getNextRetryDelay config 1
    = Z.min (initialDelay config) (maxDelay config).
Proof.
  intros Hinit Hmult Hattempt.
  unfold RetryMechanism.getNextRetryDelay, RetryMechanism.calculateDelay.
  cbv zeta. replace (attempt + 1 - 1) with (Z.succ (attempt - 1)) by lia.
  change (1 - 1) with 0. rewrite Z.pow_0_r, Z.mul_1_r.
  rewrite Z.pow_succ_r by lia.
  assert (Hpow : 1 ≤ backoffMultiplier config ^ (attempt - 1)).
  { rewrite <- (Z.pow_1_l (attempt - 1)) at 1 by lia.
    apply Z.pow_le_mono_l. lia. }
  split_and!; [nia|lia|nia|done].
Qed.

Lemma retry_delays_grow_to_cap_witness :
  RetryMechanism.getNextRetryDelay sampleRetryConfig 4
  ≤ RetryMechanism.getNextRetryDelay sampleRetryConfig (4 + 1).
Proof.
  apply (retry_delays_grow_to_cap sampleRetryConfig 4); simpl; lia.
Defined.

Section RetryAnyScript.
Context {T : Type} (config : RetryConfig) (script : nat → Outcome T).

Lemma retry_any_script n :
  ∀ attempt c naps,
    Z.to_nat (maxAttempts config - attempt) = n →
    ∃ j : nat,
      RetryMechanism.execute nap config (scripted script) attempt (c, naps)
      = (script (c + j)%nat, (S (c + j), naps ++ delaysFrom config attempt j))
      ∧ (∀ i, (i < j)%nat → ∃ e, script (c + i)%nat = Thrown e)
      ∧ Z.of_nat j ≤ Z.max 0 (maxAttempts config - attempt)
      ∧ (∀ e, script (c + j)%nat = Thrown e →
              maxAttempts config ≤ attempt + Z.of_nat j).
Proof.
  induction n as [|n IH]; intros attempt c naps Hn;
    rewrite retry_execute_unfold; unfold scripted at 1;
    destruct (script c) as [r|e|] eqn:Hc.
  1,3,4,6: exists 0%nat; rewrite Nat.add_0_r, Hc, app_nil_r;
           split_and!; [done|lia|lia|congruence].
  - exists 0%nat. rewrite Nat.add_0_r, Hc, app_nil_r.
    destruct (Z.leb_spec (maxAttempts config) attempt); [|lia].
    split_and!; [done|lia|lia|lia].
  - destruct (Z.leb_spec (maxAttempts config) attempt); [lia|].
    destruct (IH (attempt + 1) (S c)
                 (naps ++ [RetryMechanism.calculateDelay config attempt])
                 ltac:(lia)) as (j & Hrun & Hthrows & Hj & Hlast).
    exists (S j).
    change (nap (RetryMechanism.calculateDelay config attempt) (S c, naps))
      with (S c, naps ++ [RetryMechanism.calculateDelay config attempt]).
    rewrite Hrun.
    replace (c + S j)%nat with (S c + j)%nat by lia.
    split_and!.
    + simpl. by rewrite <- app_assoc.
    + intros [|i] Hi; [exists e; by rewrite Nat.add_0_r|].
      destruct (Hthrows i ltac:(lia)) as (e' & He'). exists e'.
      by replace (c + S i)%nat with (S c + i)%nat by lia.
    + lia.
    + intros e' He'. specialize (Hlast e' He'). lia.
Qed.

Lemma delaysFrom_capped attempt j :
  Forall (λ d, d ≤ maxDelay config) (delaysFrom config attempt j).
Proof.
  revert attempt. induction j as [|j IH]; intros attempt; simpl; constructor.
  - unfold RetryMechanism.calculateDelay. lia.
  - apply IH.
Qed.

End RetryAnyScript.

(** X12. Whatever the operation does at each of its invocations, [execute]
    invokes it again and again until an invocation does not throw or the
    attempt number has reached [maxAttempts], and settles as that last
    invocation did. It makes at least one invocation and no more than
    [maxAttempts - attempt] further ones, a throw is passed on only once the
    attempts are used up, and between two invocations it sleeps the delay of
    the attempt that failed, never more than [maxDelay]. *)
Theorem retry_stops_at_first_settlement {T : Type} (config : RetryConfig)
    (script : nat → Outcome T) (attempt : Z) (c : nat) (naps : list Z) :
  ∃ j : nat,
    RetryMechanism.execute nap config (scripted script) attempt (c, naps)
    = (script (c + j)%nat, (S (c + j), naps ++ delaysFrom config attempt j))
    ∧ (∀ i, (i < j)%nat → ∃ e, script (c + i)%nat = Thrown e)
    ∧ Z.of_nat j ≤ Z.max 0 (maxAttempts config - attempt)
    ∧ (∀ e, script (c + j)%nat = Thrown e →
            maxAttempts config ≤ attempt + Z.of_nat j)
    ∧ Forall (λ d, d ≤ maxDelay config) (delaysFrom config attempt j)
    ∧ (maxAttempts config ≤ attempt → j = 0%nat).
Proof.
  destruct (retry_any_script config script _ attempt c naps eq_refl)
    as (j & Hrun & Hthrows & Hj & Hlast).
  exists j. split_and!; [done..| |lia]. apply delaysFrom_capped.
Qed.

(** ** IdempotencyService: the key *)

Section SortOrder.

Lemma ascii_compare_trans_le a b c :
  Ascii.compare a b ≠ Gt → Ascii.compare b c ≠ Gt → Ascii.compare a c ≠ Gt.
Proof.
  unfold Ascii.compare. rewrite !N.compare_le_iff || idtac.
  intros H1 H2.
  destruct (N.compare_spec (Ascii.N_of_ascii a) (Ascii.N_of_ascii b));
    destruct (N.compare_spec (Ascii.N_of_ascii b) (Ascii.N_of_ascii c));
    destruct (N.compare_spec (Ascii.N_of_ascii a) (Ascii.N_of_ascii c));
    try congruence; lia.
Qed.

Lemma string_compare_trans s1 :
  ∀ s2 s3, String.compare s1 s2 ≠ Gt → String.compare s2 s3 ≠ Gt →
           String.compare s1 s3 ≠ Gt.
Proof.
  induction s1 as [|c1 s1 IH]; intros [|c2 s2] [|c3 s3]; simpl; try congruence.
  unfold Ascii.compare.
  destruct (N.compare_spec (Ascii.N_of_ascii c1) (Ascii.N_of_ascii c2)) as [E12|L12|G12];
    destruct (N.compare_spec (Ascii.N_of_ascii c2) (Ascii.N_of_ascii c3)) as [E23|L23|G23];
    destruct (N.compare_spec (Ascii.N_of_ascii c1) (Ascii.N_of_ascii c3)) as [E13|L13|G13];
    try congruence; try lia; intros; try congruence.
  by eapply IH.
Qed.

#[local] Instance codeUnitOrder_trans : Transitive codeUnitOrder.
Proof.
  intros a b c. unfold codeUnitOrder, String.leb.
  pose proof (string_compare_trans a b c) as Htrans.
  destruct (String.compare a b), (String.compare b c), (String.compare a c);
    try done; intros _ _; exfalso; by apply Htrans.
Qed.

#[local] Instance codeUnitOrder_antisym : AntiSymm (=) codeUnitOrder.
Proof. intros a b. apply String.leb_antisym. Qed.

Lemma insertSorted_permutation s l : IdempotencyService.insertSorted s l ≡ₚ s :: l.
Proof.
  induction l as [|x l IH]; simpl; [done|].
  destruct (String.leb s x); [done|]. rewrite IH. apply Permutation_swap.
Qed.

Lemma sort_permutation l : IdempotencyService.sort l ≡ₚ l.
Proof.
  induction l as [|x l IH]; simpl; [done|].
  unfold IdempotencyService.sort in *. simpl.
  by rewrite insertSorted_permutation, IH.
Qed.

Lemma insertSorted_sorted s l :
  sortedStrings l → sortedStrings (IdempotencyService.insertSorted s l).
Proof.
  unfold sortedStrings. induction 1 as [|x l Hl IH Hx]; simpl.
  - repeat constructor.
  - destruct (String.leb s x) eqn:Hsx.
    + constructor; [by constructor|]. constructor; [exact Hsx|].
      eapply Forall_impl; [exact Hx|]. intros y Hy.
      by etransitivity.
    + constructor; [exact IH|].
      rewrite insertSorted_permutation. constructor; [|exact Hx].
      destruct (String.leb_total s x) as [H|H]; [congruence|exact H].
Qed.

Lemma sort_sorted l : sortedStrings (IdempotencyService.sort l).
Proof.
  induction l as [|x l IH]; [constructor|].
  unfold IdempotencyService.sort in *. simpl. by apply insertSorted_sorted.
Qed.

Lemma sort_of_permutation l1 l2 :
  l1 ≡ₚ l2 → IdempotencyService.sort l1 = IdempotencyService.sort l2.
Proof.
  intros Hperm. apply (StronglySorted_unique codeUnitOrder); [apply sort_sorted..|].
  by rewrite !sort_permutation.
Qed.

Lemma sort_of_sorted l : sortedStrings l → IdempotencyService.sort l = l.
Proof.
  intros Hl. apply (StronglySorted_unique codeUnitOrder);
    [apply sort_sorted|exact Hl|apply sort_permutation].
Qed.

End SortOrder.

(** X13. Without a token of the caller the key does not depend on the order
    of the recipients in [to], [cc] and [bcc], nor on the attachments: two
    messages that agree on everything else get the same key, for any
    serialiser. With a token of the caller, that is a string that is not
    empty, the key does not depend on the message at all: it is
    [idempotency_] followed by the token, for any two messages and any two
    submitters, and the message is left as it is. *)
Theorem generateKey_ignores_order (stringify : IdempotencyService.KeyContent → list Z)
    (e1 e2 : EmailData) (idempotencyKey userId : option string) :
  (sameKeyContent e1 e2 →
   fst (IdempotencyService.generateKey stringify e1 idempotencyKey userId)
   = fst (IdempotencyService.generateKey stringify e2 idempotencyKey userId))
  ∧ (∀ token userId',
       token ≠ "" →
       IdempotencyService.generateKey stringify e1 (Some token) userId
       = ("idempotency_" +:+ token, e1)
       ∧ fst (IdempotencyService.generateKey stringify e1 (Some token) userId)
         = fst (IdempotencyService.generateKey stringify e2 (Some token) userId')).
Proof.
  split.
  - intros (Hto & Hfrom & Hsubject & Hbody & Hhtml & Hcc & Hbcc).
    unfold IdempotencyService.generateKey.
    destruct (IdempotencyService.truthyString idempotencyKey); [done|].
    cbv zeta. cbn [fst].
    assert (Hto' : match to e1 with
                   | ManyRecipients l => ManyRecipients (IdempotencyService.sort l)
                   | OneRecipient a => OneRecipient a
                   end
                   = match to e2 with
                     | ManyRecipients l => ManyRecipients (IdempotencyService.sort l)
                     | OneRecipient a => OneRecipient a
                     end).
    { unfold sameRecipients in Hto. destruct (to e1), (to e2); try done.
      - by subst.
      - f_equal. by apply sort_of_permutation. }
    assert (Hcopies : ∀ c1 c2, sameCopies c1 c2 →
              IdempotencyService.sort <$> c1 = IdempotencyService.sort <$> c2).
    { intros [l1|] [l2|]; simpl; try done. intros Hp. f_equal.
      by apply sort_of_permutation. }
    by rewrite Hto', Hfrom, Hsubject, Hbody, Hhtml, (Hcopies _ _ Hcc),
         (Hcopies _ _ Hbcc).
  - intros token userId' Htoken.
    assert (Hgiven : IdempotencyService.truthyString (Some token) = Some token).
    { unfold IdempotencyService.truthyString.
      destruct (String.eqb_spec token ""); [done|reflexivity]. }
    unfold IdempotencyService.generateKey. by rewrite Hgiven.
Qed.

Lemma generateKey_ignores_order_witness :
  fst (IdempotencyService.generateKey sampleStringify unsortedEmail None None)
  = fst (IdempotencyService.generateKey sampleStringify
           sortedEmailWithAttachment None None)
  ∧ fst (IdempotencyService.generateKey sampleStringify unsortedEmail
           (Some "token-1") None)
    = fst (IdempotencyService.generateKey sampleStringify sampleEmail
             (Some "token-1") (Some "user-7")).
Proof.
  split.
  - apply (proj1 (generateKey_ignores_order sampleStringify unsortedEmail
                    sortedEmailWithAttachment None None)).
    repeat split. apply Permutation_swap.
  - apply (proj2 (generateKey_ignores_order sampleStringify unsortedEmail
                    sampleEmail None None) "token-1" (Some "user-7")).
    discriminate.
Defined.

(** X14. Without a token, [generateKey] leaves the message with the
    addresses of [to], [cc] and [bcc] each in ascending order of their code
    units and otherwise as it was: the same addresses, the same other fields,
    the same attachments. A second call on the message it left returns the
    same key and changes nothing more. With a non-empty token the key is
    that token behind the prefix [idempotency_] and the message is not
    touched; an empty token counts as no token. *)
Theorem generateKey_sorts_message (stringify : IdempotencyService.KeyContent → list Z)
    (e : EmailData) (userId : option string) :
  let keyed := IdempotencyService.generateKey stringify e None userId in
  sameKeyContent e (snd keyed)
  ∧ attachments (snd keyed) = attachments e
  ∧ sortedRecipients (to (snd keyed))
  ∧ sortedCopies (cc (snd keyed))
  ∧ sortedCopies (bcc (snd keyed))
  ∧ IdempotencyService.generateKey stringify (snd keyed) None userId = keyed
  ∧ (∀ k, k ≠ "" →
          IdempotencyService.generateKey stringify e (Some k) userId
          = ("idempotency_" +:+ k, e))
  ∧ IdempotencyService.generateKey stringify e (Some "") userId = keyed.
Proof.
  intros keyed. unfold keyed, IdempotencyService.generateKey.
  cbn [IdempotencyService.truthyString String.eqb]. cbv zeta.
  cbn [snd fst to from subject body html cc bcc attachments].
  split_and!.
  - unfold sameKeyContent. cbn [to from subject body html cc bcc].
    split_and!; try done.
    + destruct (to e); simpl; [done|]. symmetry. apply sort_permutation.
    + destruct (cc e); simpl; [|done]. symmetry. apply sort_permutation.
    + destruct (bcc e); simpl; [|done]. symmetry. apply sort_permutation.
  - done.
  - destruct (to e); simpl; [done|]. apply sort_sorted.
  - destruct (cc e); simpl; [|done]. apply sort_sorted.
  - destruct (bcc e); simpl; [|done]. apply sort_sorted.
  - assert (Hto : ∀ r, match match r with
                               | ManyRecipients l => ManyRecipients (IdempotencyService.sort l)
                               | OneRecipient a => OneRecipient a
                               end with
                       | ManyRecipients l => ManyRecipients (IdempotencyService.sort l)
                       | OneRecipient a => OneRecipient a
                       end
                       = match r with
                         | ManyRecipients l => ManyRecipients (IdempotencyService.sort l)
                         | OneRecipient a => OneRecipient a
                         end).
    { intros [a|l]; [done|]. f_equal. apply sort_of_sorted, sort_sorted. }
    assert (Hcopies : ∀ c : option (list string),
              IdempotencyService.sort <$> (IdempotencyService.sort <$> c)
              = IdempotencyService.sort <$> c).
    { intros [l|]; [|done]. simpl. f_equal. apply sort_of_sorted, sort_sorted. }
    by rewrite Hto, !Hcopies.
  - intros k Hk. unfold IdempotencyService.truthyString.
    by rewrite (proj2 (String.eqb_neq k "") Hk).
  - done.
Qed.

Section KeyHash.

#[local] Abbreviation wraps x y := (∃ k, x = y + k * 2 ^ 32).

Lemma toInt32_wraps x : wraps (IdempotencyService.toInt32 x) x.
Proof.
  unfold IdempotencyService.toInt32.
  exists (- ((x + 2 ^ 31) / 2 ^ 32)).
  pose proof (Z.div_mod (x + 2 ^ 31) (2 ^ 32) ltac:(lia)). lia.
Qed.

Lemma toInt32_range x :
  - 2 ^ 31 ≤ IdempotencyService.toInt32 x < 2 ^ 31.
Proof.
  unfold IdempotencyService.toInt32.
  pose proof (Z.mod_pos_bound (x + 2 ^ 31) (2 ^ 32) ltac:(lia)). lia.
Qed.

Lemma toInt32_unique x y :
  - 2 ^ 31 ≤ x < 2 ^ 31 → wraps x y → x = IdempotencyService.toInt32 y.
Proof.
  intros Hx [k Hk]. destruct (toInt32_wraps y) as [k' Hk'].
  pose proof (toInt32_range y). lia.
Qed.

Lemma hashStep_wraps hash hash' char :
  wraps hash hash' →
  wraps (IdempotencyService.hashStep hash char) (polynomialStep hash' char).
Proof.
  intros [k Hk]. unfold IdempotencyService.hashStep, polynomialStep. cbv zeta.
  rewrite Z.land_diag, Z.shiftl_mul_pow2 by lia.
  destruct (toInt32_wraps (hash * 2 ^ 5)) as [k1 Hk1].
  destruct (toInt32_wraps
              (IdempotencyService.toInt32 (hash * 2 ^ 5) - hash + char)) as [k2 Hk2].
  exists (k2 + k1 + 31 * k). lia.
Qed.

Lemma hashStep_range hash char :
  - 2 ^ 31 ≤ IdempotencyService.hashStep hash char < 2 ^ 31.
Proof. apply toInt32_range. Qed.

Lemma foldl_hashStep_wraps l :
  ∀ hash hash', wraps hash hash' →
    wraps (foldl IdempotencyService.hashStep hash l) (foldl polynomialStep hash' l).
Proof.
  induction l as [|char l IH]; intros hash hash' Hw; simpl; [exact Hw|].
  apply IH. by apply hashStep_wraps.
Qed.

Lemma foldl_hashStep_range l :
  ∀ hash, - 2 ^ 31 ≤ hash < 2 ^ 31 →
          - 2 ^ 31 ≤ foldl IdempotencyService.hashStep hash l < 2 ^ 31.
Proof.
  induction l as [|char l IH]; intros hash Hh; simpl; [exact Hh|].
  apply IH, hashStep_range.
Qed.

End KeyHash.

(** X15. The hash behind a content key is the string hash with multiplier
    31, [31 * hash + char] at each code unit, wrapped to a signed 32-bit
    integer; so the number in the key lies between 0 and [2 ^ 31]. A key is
    either [idempotency_] and the token, or [email_], that number, an
    underscore, and the user (or [anonymous]); no key of the first form
    equals one of the second. *)
Theorem generateKey_hash_and_shape (stringify : IdempotencyService.KeyContent → list Z)
    (e : EmailData) (idempotencyKey userId : option string) (codes : list Z) :
  IdempotencyService.hashOf codes
  = IdempotencyService.toInt32 (foldl polynomialStep 0 codes)
  ∧ - 2 ^ 31 ≤ IdempotencyService.hashOf codes < 2 ^ 31
  ∧ (∃ n, 0 ≤ n ≤ 2 ^ 31
          ∧ fst (IdempotencyService.generateKey stringify e None userId)
            = "email_" +:+ pretty n +:+ "_" +:+ orElse userId "anonymous")
  ∧ (∀ k e', k ≠ "" →
       fst (IdempotencyService.generateKey stringify e' (Some k) userId)
       = "idempotency_" +:+ k
       ∧ fst (IdempotencyService.generateKey stringify e' (Some k) userId)
         ≠ fst (IdempotencyService.generateKey stringify e None userId)).
Proof.
  assert (Hrange : ∀ l, - 2 ^ 31 ≤ IdempotencyService.hashOf l < 2 ^ 31).
  { intros l. apply foldl_hashStep_range. lia. }
  split; [|split; [|split]].
  - apply toInt32_unique; [apply Hrange|].
    apply foldl_hashStep_wraps. exists 0. lia.
  - apply Hrange.
  - unfold IdempotencyService.generateKey.
    cbn [IdempotencyService.truthyString]. cbv zeta. cbn [fst].
    eexists. split; [|reflexivity].
    match goal with |- context [IdempotencyService.hashOf ?l] =>
      pose proof (Hrange l) end. lia.
  - intros k e' Hk. unfold IdempotencyService.generateKey at 1 2.
    unfold IdempotencyService.truthyString.
    rewrite (proj2 (String.eqb_neq k "") Hk). cbn [fst]. split; [done|].
    unfold IdempotencyService.generateKey. cbv zeta. cbn [fst]. discriminate.
Qed.

(** ** IdempotencyService: one call after another *)

Section IdempotencySequence.
Context {W T : Type} (Date_now : W → Z) (truthy : T → bool).
Context (pause : Z → IdempotencyService.t T * W → IdempotencyService.t T * W).

#[local] Abbreviation execute := (IdempotencyService.execute Date_now truthy pause).

Lemma pending_add_delete key (s : IdempotencyService.t T) :
  key ∉ IdempotencyService.pendingRequests s →
  IdempotencyService.pendingDelete key (IdempotencyService.pendingAdd key s) = s.
Proof.
  intros Hkey. destruct s as [c p]. unfold IdempotencyService.pendingDelete,
    IdempotencyService.pendingAdd. simpl in *. f_equal.
  apply set_eq. intros k. rewrite elem_of_difference, elem_of_union, elem_of_singleton.
  split; [tauto|]. intros Hk. split; [by right|]. congruence.
Qed.

Lemma pending_add_set_delete key r (s : IdempotencyService.t T) :
  key ∉ IdempotencyService.pendingRequests s →
  IdempotencyService.pendingDelete key
    (IdempotencyService.cacheSet key r (IdempotencyService.pendingAdd key s))
  = IdempotencyService.cacheSet key r s.
Proof.
  intros Hkey.
  change (IdempotencyService.cacheSet key r (IdempotencyService.pendingAdd key s))
    with (IdempotencyService.pendingAdd key (IdempotencyService.cacheSet key r s)).
  by apply pending_add_delete.
Qed.

(** The call of a caller that finds the key neither cached to its liking
    nor pending, with an operation that leaves the service alone. *)
Lemma execute_owner_outside fuel key (op : Async W T) s w :
  IdempotencyService.whenTruthy truthy (IdempotencyService.cache s !! key) = None →
  key ∉ IdempotencyService.pendingRequests s →
  execute fuel key (outside op) (s, w)
  = match op w with
    | (Returned r, w1) => (Returned r, (IdempotencyService.cacheSet key r s, w1))
    | (Thrown e, w1) => (Thrown e, (s, w1))
    | (Unsettled, w1) => (Unsettled, (IdempotencyService.pendingAdd key s, w1))
    end.
Proof.
  intros Hcache Hkey.
  rewrite (execute_owner Date_now truthy pause fuel key (outside op) s w Hcache Hkey).
  unfold outside, settle. destruct (op w) as [[r|e|] w1].
  - by rewrite pending_add_set_delete.
  - by rewrite pending_add_delete.
  - done.
Qed.

End IdempotencySequence.

(** X16. A first [execute] under a key that is neither cached nor pending
    runs the operation. If the operation throws, the call throws the same
    value and leaves the service exactly as it was, so the next call under the
    key runs its operation again. If it returns, the result is stored and the
    key is no longer pending; a later call under the key returns the stored
    result without running its operation when the result is truthy, and runs
    its operation as if nothing were stored when it is not. *)
Theorem idempotency_execute_in_sequence {W T : Type} (Date_now : W → Z)
    (truthy : T → bool)
    (pause : Z → IdempotencyService.t T * W → IdempotencyService.t T * W)
    (fuel : nat) (key : string) (op : Async W T)
    (s : IdempotencyService.t T) (w : W) :
  IdempotencyService.cache s !! key = None →
  key ∉ IdempotencyService.pendingRequests s →
  let execute := IdempotencyService.execute Date_now truthy pause in
  let asOwner (op2 : Async W T) s2 w2 :=
    match op2 w2 with
    | (Returned r2, w3) => (Returned r2, (IdempotencyService.cacheSet key r2 s2, w3))
    | (Thrown e2, w3) => (Thrown e2, (s2, w3))
    | (Unsettled, w3) => (Unsettled, (IdempotencyService.pendingAdd key s2, w3))
    end in
  execute fuel key (outside op) (s, w) = asOwner op s w
  ∧ match op w with
    | (Returned r, _) =>
        let s1 := IdempotencyService.cacheSet key r s in
        IdempotencyService.getResult key s1 = Some r
        ∧ IdempotencyService.hasResult key s1 = true
        ∧ IdempotencyService.pendingRequests s1 = IdempotencyService.pendingRequests s
        ∧ ∀ fuel2 (op2 : Async W T) w2,
            execute fuel2 key (outside op2) (s1, w2)
            = if truthy r then (Returned r, (s1, w2)) else asOwner op2 s1 w2
    | (Thrown e, _) =>
        ∀ fuel2 (op2 : Async W T) w2,
          execute fuel2 key (outside op2) (s, w2) = asOwner op2 s w2
    | (Unsettled, _) => True
    end.
Proof.
  intros Hcache Hkey execute asOwner.
  assert (Hmiss : IdempotencyService.whenTruthy truthy
                    (IdempotencyService.cache s !! key) = None)
    by (by rewrite Hcache).
  split; [by apply execute_owner_outside|].
  destruct (op w) as [[r|e|] w1]; [|intros; by apply execute_owner_outside|done].
  cbv zeta.
  assert (Hstored : IdempotencyService.cache (IdempotencyService.cacheSet key r s)
                    !! key = Some r) by apply lookup_insert_eq.
  split_and!.
  - exact Hstored.
  - unfold IdempotencyService.hasResult. rewrite Hstored.
    apply bool_decide_eq_true. by eexists.
  - done.
  - intros fuel2 op2 w2. destruct (truthy r) eqn:Hr.
    + apply execute_hit. by rewrite Hstored; simpl; rewrite Hr.
    + apply execute_owner_outside; [|done]. by rewrite Hstored; simpl; rewrite Hr.
Qed.

Lemma idempotency_execute_in_sequence_witness :
  IdempotencyService.execute (λ w : Z, w) (λ r : Z, negb (r =? 0))
    (λ _ x, x) 1 "k" (outside (ret 7)) (IdempotencyService.new, 0)
  = (Returned 7, (IdempotencyService.cacheSet "k" 7 IdempotencyService.new, 0)).
Proof.
  apply (idempotency_execute_in_sequence (λ w : Z, w) (λ r : Z, negb (r =? 0))
           (λ _ x, x) 1 "k" (ret 7) IdempotencyService.new 0).
  - apply lookup_empty.
  - apply not_elem_of_empty.
Defined.

(** X17. What the cache methods undo. After a first [execute] under a key
    whose operation returned, the result can be read back with [getResult],
    the cache holds one entry more and as many keys are pending as before;
    [removeFromCache] of the key then gives back the service as it was before
    the call, and touches no other key. [clearCache] leaves no result under
    any key and a cache of size 0, and keeps the pending keys. *)
Theorem idempotency_cache_round_trip {W T : Type} (Date_now : W → Z)
    (truthy : T → bool)
    (pause : Z → IdempotencyService.t T * W → IdempotencyService.t T * W)
    (fuel : nat) (key : string) (op : Async W T)
    (s : IdempotencyService.t T) (w : W) (r : T) (w1 : W) :
  IdempotencyService.cache s !! key = None →
  key ∉ IdempotencyService.pendingRequests s →
  op w = (Returned r, w1) →
  let s1 := fst (snd (IdempotencyService.execute Date_now truthy pause fuel key
                        (outside op) (s, w))) in
  IdempotencyService.getResult key s1 = Some r
  ∧ IdempotencyService.getCacheSize s1 = S (IdempotencyService.getCacheSize s)
  ∧ IdempotencyService.getPendingRequestsCount s1
    = IdempotencyService.getPendingRequestsCount s
  ∧ IdempotencyService.removeFromCache key s1 = s
  ∧ (∀ k, k ≠ key →
          IdempotencyService.getResult k (IdempotencyService.removeFromCache key s1)
          = IdempotencyService.getResult k s1)
  ∧ IdempotencyService.hasResult key (IdempotencyService.removeFromCache key s1)
    = false
  ∧ (∀ k, IdempotencyService.hasResult k (IdempotencyService.clearCache s1) = false)
  ∧ IdempotencyService.getCacheSize (IdempotencyService.clearCache s1) = 0%nat
  ∧ IdempotencyService.pendingRequests (IdempotencyService.clearCache s1)
    = IdempotencyService.pendingRequests s.
Proof.
  intros Hcache Hkey Hop s1.
  assert (Hs1 : s1 = IdempotencyService.cacheSet key r s).
  { unfold s1. rewrite execute_owner_outside; [by rewrite Hop| |done].
    by rewrite Hcache. }
  rewrite Hs1. clear s1 Hs1.
  unfold IdempotencyService.getCacheSize,
    IdempotencyService.getPendingRequestsCount, IdempotencyService.removeFromCache,
    IdempotencyService.getResult, IdempotencyService.hasResult,
    IdempotencyService.clearCache, IdempotencyService.cacheSet.
  cbn [IdempotencyService.cache IdempotencyService.pendingRequests].
  split_and!.
  - apply lookup_insert_eq.
  - by apply map_size_insert_None.
  - done.
  - rewrite delete_insert_id by done. by destruct s.
  - intros k Hk. by rewrite lookup_delete_ne.
  - rewrite lookup_delete_eq. apply bool_decide_eq_false. by intros [? ?].
  - intros k. rewrite lookup_empty. apply bool_decide_eq_false. by intros [? ?].
  - apply map_size_empty.
  - done.
Qed.

Lemma idempotency_cache_round_trip_witness :
  IdempotencyService.removeFromCache "k"
    (fst (snd (IdempotencyService.execute (λ w : Z, w) (λ r : Z, negb (r =? 0))
                 (λ _ x, x) 1 "k" (outside (ret 7)) (IdempotencyService.new, 0))))
  = IdempotencyService.new.
Proof.
  apply (idempotency_cache_round_trip (λ w : Z, w) (λ r : Z, negb (r =? 0))
           (λ _ x, x) 1 "k" (ret 7) IdempotencyService.new 0 7 0).
  - apply lookup_empty.
  - apply not_elem_of_empty.
  - reflexivity.
Defined.

(** ** EmailService: what the rate limiter and the queue keep true *)

Section LimiterAndQueueLife.
Context (host : Host) (cfg : EmailServiceConfig).

Lemma processEmail_keeps_rest (I : EmailService.t * Env → Prop)
    fuel emailId e key userId :
  (∀ m s env, I (s, env) → I (EmailService.setStatusTracking m s, env)) →
  (∀ i s env, I (s, env) → I (EmailService.setIdempotencyService i s, env)) →
  (∀ m s env, I (s, env) → I (EmailService.setCircuitBreakers m s, env)) →
  (∀ s env env', I (s, env) → I (s, env')) →
  stable I (EmailService.waitForSlot fuel) →
  stable I (EmailService.processEmail host fuel emailId e key userId).
Proof.
  intros Htable Hidem Hcbs Henv Hwait. apply processEmail_stable.
  - intros tag res err [s env] o [s' env'] HI Hrun.
    destruct (updateStatus_footprint emailId tag res err s env) as (s1 & Heq & Hs1 & _).
    rewrite Heq in Hrun. inversion Hrun; subst. rewrite Hs1. by apply Htable.
  - exact Hwait.
  - intros [s env] o [s' env'] HI Hrun.
    apply executeOnce_footprint in Hrun as ->.
    apply Hidem, Hcbs. by eapply Henv.
Qed.

Lemma waitForSlot_limiterSound fuel :
  stable (limiterSound cfg) (EmailService.waitForSlot fuel).
Proof.
  intros [s env] o [s' env'] [Hcfg Hin] Hrun. simpl in Hcfg, Hin.
  pose proof Hrun as Hlimit. apply waitForSlot_withinLimit in Hlimit;
    [|by rewrite Hcfg].
  apply waitForSlot_footprint in Hrun as (Hs' & _).
  unfold limiterSound. rewrite Hs' in *. simpl in *.
  rewrite Hcfg in Hlimit. done.
Qed.

Lemma processEmail_limiterSound fuel emailId e key userId :
  stable (limiterSound cfg) (EmailService.processEmail host fuel emailId e key userId).
Proof.
  apply processEmail_keeps_rest; try done. apply waitForSlot_limiterSound.
Qed.

Lemma processEmail_queueSound fuel emailId e key userId :
  stable queueSound (EmailService.processEmail host fuel emailId e key userId).
Proof.
  apply processEmail_keeps_rest; try done.
  intros [s env] o [s' env'] HI Hrun.
  apply waitForSlot_footprint in Hrun as (-> & _). exact HI.
Qed.

Lemma updateStatus_keeps_rest (I : EmailService.t * Env → Prop)
    emailId tag res err :
  (∀ m s env, I (s, env) → I (EmailService.setStatusTracking m s, env)) →
  stable I (EmailService.updateStatus emailId tag res err).
Proof.
  intros Htable [s env] o [s' env'] HI Hrun.
  destruct (updateStatus_footprint emailId tag res err s env) as (s1 & Heq & Hs1 & _).
  rewrite Heq in Hrun. inversion Hrun; subst. rewrite Hs1. by apply Htable.
Qed.

Lemma processEmailRest_keeps_rest (I : EmailService.t * Env → Prop)
    fuel emailId e key userId granted :
  (∀ m s env, I (s, env) → I (EmailService.setStatusTracking m s, env)) →
  (∀ i s env, I (s, env) → I (EmailService.setIdempotencyService i s, env)) →
  (∀ m s env, I (s, env) → I (EmailService.setCircuitBreakers m s, env)) →
  (∀ s env env', I (s, env) → I (s, env')) →
  (∀ f, stable I (EmailService.waitForSlot f)) →
  stable I (EmailService.processEmailRest host fuel emailId e key userId granted).
Proof.
  intros Htable Hidem Hcbs Henv Hwait. apply processEmailRest_stable.
  - intros. by apply updateStatus_keeps_rest.
  - exact Hwait.
  - intros ms s env. apply Henv.
  - intros [s env] o [s' env'] HI Hrun.
    apply executeOnce_footprint in Hrun as ->.
    apply Hidem, Hcbs. by eapply Henv.
Qed.

Lemma processEmailStart_limiterSound emailId :
  stable (limiterSound cfg) (EmailService.processEmailStart emailId).
Proof.
  apply processEmailStart_stable; [by apply updateStatus_keeps_rest|].
  intros s env granted rl [Hcfg Hin] Hacq. simpl in Hcfg, Hin.
  rewrite Hcfg in Hacq.
  destruct (acquire_keeps _ _ _ _ _ _ _ Hacq Hin) as (_ & Hin' & _).
  by split.
Qed.

Lemma processEmailRest_limiterSound fuel emailId e key userId granted :
  stable (limiterSound cfg)
         (EmailService.processEmailRest host fuel emailId e key userId granted).
Proof.
  apply processEmailRest_keeps_rest; try done. apply waitForSlot_limiterSound.
Qed.

Lemma waitForSlot_queueSound fuel : stable queueSound (EmailService.waitForSlot fuel).
Proof.
  intros [s env] o [s' env'] HI Hrun.
  apply waitForSlot_footprint in Hrun as (-> & _). exact HI.
Qed.

Lemma processEmailStart_queueSound emailId :
  stable queueSound (EmailService.processEmailStart emailId).
Proof.
  apply processEmailStart_beside; [by apply updateStatus_keeps_rest|].
  by intros rl s env.
Qed.

Lemma processEmailRest_queueSound fuel emailId e key userId granted :
  stable queueSound
         (EmailService.processEmailRest host fuel emailId e key userId granted).
Proof.
  apply processEmailRest_keeps_rest; try done. apply waitForSlot_queueSound.
Qed.

Lemma serviceStep_limiterSound w w' :
  0 ≤ maxRequests (rateLimit cfg) →
  serviceStep host w w' → limiterSound cfg w → limiterSound cfg w'.
Proof.
  intros Hmax Hstep HI.
  destruct Hstep as [e userId w r w' Hrun
                    |emailId e key userId fuel w o w' Hrun
                    |emailId e key userId granted fuel w o w' Hrun
                    |e p [s env] r [s' env'] Hrun
                    |w r w' Hrun
                    |rounds fuel w o w' Hrun
                    |rounds fuel suspended w o w' Hrun
                    |s env|s env|s env|s env|s env ms].
  - refine (sendEmail_stable host _ e userId _ _ w r w' HI Hrun).
    + by intros s env.
    + apply processEmailStart_limiterSound.
  - refine (pipeline_stable host _ _ _ _ _ _ _ _ w o w' HI Hrun);
      [apply processEmail_limiterSound|intros; by apply updateStatus_keeps_rest].
  - refine (launched_stable host _ _ _ _ _ _ _ _ _ w o w' HI Hrun);
      [apply processEmailRest_limiterSound
      |intros; by apply updateStatus_keeps_rest].
  - rewrite enqueueEmail_run in Hrun. inversion Hrun; subst. exact HI.
  - refine (startQueueProcessing_stable _ _ _ w r w' HI Hrun).
    + apply processEmailStart_limiterSound.
    + by intros q s env.
  - refine (drain_stable host _ rounds fuel _ _ _ w o w' HI Hrun).
    + intros item. apply processEmail_limiterSound.
    + by intros ms [s env].
    + by intros q s env.
  - refine (resumeDrain_stable host _ rounds fuel suspended _ _ _ _ w o w' HI Hrun).
    + intros item. apply processEmail_limiterSound.
    + intros item granted. apply processEmailRest_limiterSound.
    + by intros ms [s env].
    + by intros q s env.
  - exact HI.
  - exact HI.
  - exact HI.
  - destruct HI as [Hcfg _]. split; [done|].
    unfold withinLimit. simpl. lia.
  - exact HI.
Qed.

Lemma serviceReach_limiterSound env0 w :
  0 ≤ maxRequests (rateLimit cfg) →
  serviceReach host cfg env0 w → limiterSound cfg w.
Proof.
  intros Hmax. unfold serviceReach. revert w. apply rtc_ind_r.
  - split; [done|]. unfold withinLimit. simpl. lia.
  - intros w1 w2 _ Hstep IH. by eapply serviceStep_limiterSound.
Qed.

Lemma drain_queueSound rounds fuel :
  stable queueSound (EmailService.drain host rounds fuel).
Proof.
  intros [s env] o [s' env'] HI. unfold EmailService.drain, zoom.
  destruct (EmailQueue.processNext _ _ _ _) as [r [q1 [s1 env1]]] eqn:E.
  intros [= _ <- _]. unfold queueSound. simpl.
  by apply processNext_ascending in E.
Qed.

Lemma startQueueProcessing_queueSound :
  stable queueSound EmailService.startQueueProcessing.
Proof.
  intros [s env] o [s' env'] HI. unfold EmailService.startQueueProcessing, zoom.
  destruct (EmailQueue.startProcessing _ _) as [r [q1 [s1 env1]]] eqn:E.
  intros [= _ <- _]. unfold queueSound. simpl.
  by apply startProcessing_ascending in E.
Qed.

Lemma resumeDrain_queueSound rounds fuel suspended :
  stable queueSound (EmailService.resumeDrain host rounds fuel suspended).
Proof.
  intros [s env] o [s' env'] HI. unfold EmailService.resumeDrain, zoom.
  destruct (EmailQueue.resumeProcessing _ _ _ _ _ _) as [r [q1 [s1 env1]]] eqn:E.
  intros [= _ <- _]. unfold queueSound. simpl.
  by apply resumeProcessing_ascending in E.
Qed.

Lemma serviceStep_queueSound w w' :
  serviceStep host w w' → queueSound w → queueSound w'.
Proof.
  intros Hstep HI.
  destruct Hstep as [e userId w r w' Hrun
                    |emailId e key userId fuel w o w' Hrun
                    |emailId e key userId granted fuel w o w' Hrun
                    |e p [s env] r [s' env'] Hrun
                    |w r w' Hrun
                    |rounds fuel w o w' Hrun
                    |rounds fuel suspended w o w' Hrun
                    |s env|s env|s env|s env|s env ms].
  - refine (sendEmail_stable host _ e userId _ _ w r w' HI Hrun).
    + by intros s env.
    + apply processEmailStart_queueSound.
  - refine (pipeline_stable host _ _ _ _ _ _ _ _ w o w' HI Hrun);
      [apply processEmail_queueSound|intros; by apply updateStatus_keeps_rest].
  - refine (launched_stable host _ _ _ _ _ _ _ _ _ w o w' HI Hrun);
      [apply processEmailRest_queueSound
      |intros; by apply updateStatus_keeps_rest].
  - rewrite enqueueEmail_run in Hrun. inversion Hrun; subst.
    unfold queueSound, EmailQueue.enqueue in *. simpl fst in *. simpl snd.
    cbn [EmailService.queue EmailService.setQueue].
    rewrite insertWithPriority_queue. by apply insertBehindLower_ascending.
  - by eapply startQueueProcessing_queueSound.
  - by eapply drain_queueSound.
  - by eapply resumeDrain_queueSound.
  - exact HI.
  - exact HI.
  - exact HI.
  - exact HI.
  - exact HI.
Qed.

Lemma serviceReach_queueSound env0 w :
  serviceReach host cfg env0 w → queueSound w.
Proof.
  unfold serviceReach. revert w. apply rtc_ind_r.
  - constructor.
  - intros w1 w2 _ Hstep IH. by eapply serviceStep_queueSound.
Qed.

End LimiterAndQueueLife.

(** ** EmailService: what the status records keep true *)

Section RecordLife.
Context (host : Host) (cfg : EmailServiceConfig).

#[local] Abbreviation I := (recordsSound cfg).

Lemma initialStatus_sound emailId s now :
  EmailService.config s = cfg →
  recordSound cfg emailId (EmailService.initialStatus emailId s now).
Proof.
  intros Hcfg. unfold recordSound, EmailService.initialStatus. simpl.
  rewrite Hcfg. by split_and!.
Qed.

Lemma transition_sound k now tag res err es :
  recordSound cfg k es →
  (tag = sending ∧ res = None)
  ∨ (tag = sent ∧ ∃ r, res = Some r ∧ success r = true)
  ∨ (tag = failed ∧ res = None) →
  recordSound cfg k (EmailService.transition now tag res err es).
Proof.
  intros (Hid & Hst & Hnext & Hmax & Hpos & Hzero & Hpending & Hsent & Hfailed).
  intros [[-> ->]|[(-> & r & -> & Hr)|[-> ->]]];
    unfold recordSound, EmailService.transition; simpl.
  - split_and!; try done; [lia|split; [lia|done]].
  - split_and!; try done. intros _. by exists r.
  - split_and!; try done. intros _.
    eexists _, now. split; [|reflexivity]. by apply orElse_nonempty.
Qed.

Lemma updateStatus_recordsSound emailId tag res err :
  (tag = sending ∧ res = None)
  ∨ (tag = sent ∧ ∃ r, res = Some r ∧ success r = true)
  ∨ (tag = failed ∧ res = None) →
  stable I (EmailService.updateStatus emailId tag res err).
Proof.
  intros Htag [s env] o [s' env'] (Hcfg & Hcache & Hrecords).
  simpl in Hcfg, Hcache, Hrecords. unfold EmailService.updateStatus.
  destruct (EmailService.statusTracking s !! emailId) as [es|] eqn:E;
    intros [= _ <- _]; [|by split_and!].
  unfold recordsSound. simpl. split_and!; [done..|].
  intros k es'. destruct (decide (emailId = k)) as [<-|Hne].
  - rewrite lookup_insert_eq. intros [= <-].
    apply transition_sound; [by apply Hrecords|done].
  - rewrite lookup_insert_ne by done. apply Hrecords.
Qed.

(** A caller that waits for a pending key while only the clock moves gets
    what the cache holds, and leaves the service as it was. *)
Lemma poll_returns_cached fuel key :
  ∀ start (i : IdempotencyService.t EmailResult) (s : EmailService.t) env o i' s' env',
    IdempotencyService.poll EmailService.Date_now (λ _, true)
      (λ ms '(i0, w), (i0, EmailService.sleepIn ms w)) fuel key start (i, (s, env))
    = (o, (i', (s', env'))) →
    i' = i ∧ s' = s
    ∧ sendLog env' = sendLog env
    ∧ ∀ r, o = Returned r → IdempotencyService.cache i !! key = Some r.
Proof.
  induction fuel as [|fuel IH]; intros start i s env o i' s' env'; simpl.
  - by intros [= <- <- <- <-].
  - destruct (_ <? 30000); [|by intros [= <- <- <- <-]].
    destruct (IdempotencyService.cache i !! key) as [r|] eqn:Hc; simpl.
    + intros [= <- <- <- <-]. split_and!; try done. by intros r0 [= <-].
    + destruct (bool_decide _); [|by intros [= <- <- <- <-]].
      intros Hrun. apply IH in Hrun as (-> & -> & Hlog & Hr).
      split_and!; try done.
      intros r Hor. specialize (Hr r Hor). congruence.
Qed.

Lemma executeOnce_waits fuel key e s env :
  IdempotencyService.cache (EmailService.idempotencyService s) !! key = None →
  key ∈ IdempotencyService.pendingRequests (EmailService.idempotencyService s) →
  EmailService.executeOnce host fuel key e (s, env)
  = match IdempotencyService.poll EmailService.Date_now (λ _, true)
            (λ ms '(i0, w), (i0, EmailService.sleepIn ms w)) fuel key (clock env)
            (EmailService.idempotencyService s, (s, env)) with
    | (r, (i', (s', env'))) => (r, (EmailService.setIdempotencyService i' s', env'))
    end.
Proof.
  intros Hkey Hpend. unfold EmailService.executeOnce, zoom.
  rewrite execute_waits; [reflexivity| |done]. by rewrite Hkey.
Qed.

Lemma executeOnce_recordsSound fuel key e :
  stableWith I (λ r, success r = true) (EmailService.executeOnce host fuel key e).
Proof.
  intros [s env] o [s' env'] (Hcfg & Hcache & Hrecords).
  simpl in Hcfg, Hcache, Hrecords.
  destruct (IdempotencyService.cache (EmailService.idempotencyService s) !! key)
    as [r|] eqn:Hkey.
  { rewrite (executeOnce_hit host fuel key e s env r Hkey).
    intros [= <- <- <-]. split; [by split_and!|].
    intros a [= <-]. by eapply Hcache. }
  destruct (decide (key ∈ IdempotencyService.pendingRequests
                            (EmailService.idempotencyService s))) as [Hpend|Hfree].
  - rewrite (executeOnce_waits fuel key e s env Hkey Hpend).
    destruct (IdempotencyService.poll _ _ _ _ _ _ _) as [r [i1 [s1 env1]]] eqn:E.
    apply poll_returns_cached in E as (-> & -> & _ & Hr).
    intros [= <- <- <-]. rewrite service_eta. split; [by split_and!|].
    intros a ->. specialize (Hr a eq_refl). congruence.
  - rewrite (executeOnce_owner host fuel key e s env Hkey Hfree).
    destruct (EmailService.sendWithFallback host e (s, env))
      as [r0 [s1 env1]] eqn:E.
    pose proof (sendWithFallback_footprint host _ _ _ _ _ _ E) as Hs1.
    destruct r0 as [r|err|]; intros [= <- <- <-]; rewrite Hs1;
      (split; [|try done]).
    + unfold recordsSound. simpl. split_and!; [done| |done].
      intros k r0. destruct (decide (key = k)) as [<-|Hne].
      * rewrite lookup_insert_eq. intros [= <-].
        unfold EmailService.sendWithFallback in E.
        by eapply fallback_returns_success.
      * rewrite lookup_insert_ne by done. apply Hcache.
    + intros a [= <-]. unfold EmailService.sendWithFallback in E.
      by eapply fallback_returns_success.
    + by split_and!.
    + by split_and!.
Qed.

Lemma waitForSlot_recordsSound fuel : stable I (EmailService.waitForSlot fuel).
Proof.
  intros [s env] o [s' env'] HI Hrun.
  apply waitForSlot_footprint in Hrun as (-> & _). exact HI.
Qed.

Lemma processEmail_recordsSound fuel emailId e key userId :
  stable I (EmailService.processEmail host fuel emailId e key userId).
Proof.
  intros w o w' HI. unfold EmailService.processEmail, tryCatch, bind, throw.
  assert (Hfailed : ∀ err w1 o1 w2, I w1 →
            EmailService.updateStatus emailId failed None err w1 = (o1, w2) → I w2).
  { intros err w1 o1 w2. apply updateStatus_recordsSound. right; right. done. }
  destruct (EmailService.updateStatus emailId sending None None w)
    as [o1 w1] eqn:E1.
  apply (updateStatus_recordsSound emailId sending None None ltac:(by left)) in E1;
    [|done].
  destruct o1 as [[]|e1|].
  2:{ destruct (EmailService.updateStatus emailId failed _ _ w1) as [o5 w5] eqn:E5.
      apply Hfailed in E5; [|done]. destruct o5; by intros [= _ <-]. }
  2:{ by intros [= _ <-]. }
  destruct (EmailService.waitForSlot fuel w1) as [o2 w2] eqn:E2.
  apply waitForSlot_recordsSound in E2; [|done].
  destruct o2 as [[]|e2|].
  2:{ destruct (EmailService.updateStatus emailId failed _ _ w2) as [o5 w5] eqn:E5.
      apply Hfailed in E5; [|done]. destruct o5; by intros [= _ <-]. }
  2:{ by intros [= _ <-]. }
  destruct (EmailService.executeOnce host fuel key e w2) as [o3 w3] eqn:E3.
  apply executeOnce_recordsSound in E3 as [HI3 Hres]; [|done].
  destruct o3 as [res|e3|].
  2:{ destruct (EmailService.updateStatus emailId failed _ _ w3) as [o5 w5] eqn:E5.
      apply Hfailed in E5; [|done]. destruct o5; by intros [= _ <-]. }
  2:{ by intros [= _ <-]. }
  destruct (EmailService.updateStatus emailId sent (Some res) None w3)
    as [o4 w4] eqn:E4.
  apply (updateStatus_recordsSound emailId sent (Some res) None) in E4;
    [|right; left; split; [done|]; exists res; split; [done|]; by apply Hres|done].
  destruct o4 as [[]|e4|].
  2:{ destruct (EmailService.updateStatus emailId failed _ _ w4) as [o5 w5] eqn:E5.
      apply Hfailed in E5; [|done]. destruct o5; by intros [= _ <-]. }
  all: by intros [= _ <-].
Qed.

Lemma pipeline_recordsSound emailId e key userId fuel :
  stable I (EmailService.pipeline host emailId e key userId fuel).
Proof.
  unfold EmailService.pipeline. apply stable_tryCatch.
  - apply processEmail_recordsSound.
  - intros err. apply updateStatus_recordsSound. right; right. done.
Qed.

Lemma processEmailStart_recordsSound emailId :
  stable I (EmailService.processEmailStart emailId).
Proof.
  apply processEmailStart_beside.
  - apply updateStatus_recordsSound. by left.
  - by intros rl s env.
Qed.

Lemma processEmailRest_recordsSound fuel emailId e key userId granted :
  stable I (EmailService.processEmailRest host fuel emailId e key userId granted).
Proof.
  intros w o w' HI. unfold EmailService.processEmailRest, tryCatch, bind, throw.
  assert (Hfailed : ∀ err w1 o1 w2, I w1 →
            EmailService.updateStatus emailId failed None err w1 = (o1, w2) → I w2).
  { intros err w1 o1 w2. apply updateStatus_recordsSound. right; right. done. }
  destruct (EmailService.waitForSlotFrom granted fuel w) as [o2 w2] eqn:E2.
  apply (waitForSlotFrom_stable I granted fuel waitForSlot_recordsSound) in E2;
    [|by intros ms s env|done].
  destruct o2 as [[]|e2|].
  2:{ destruct (EmailService.updateStatus emailId failed _ _ w2) as [o5 w5] eqn:E5.
      apply Hfailed in E5; [|done]. destruct o5; by intros [= _ <-]. }
  2:{ by intros [= _ <-]. }
  destruct (EmailService.executeOnce host fuel key e w2) as [o3 w3] eqn:E3.
  apply executeOnce_recordsSound in E3 as [HI3 Hres]; [|done].
  destruct o3 as [res|e3|].
  2:{ destruct (EmailService.updateStatus emailId failed _ _ w3) as [o5 w5] eqn:E5.
      apply Hfailed in E5; [|done]. destruct o5; by intros [= _ <-]. }
  2:{ by intros [= _ <-]. }
  destruct (EmailService.updateStatus emailId sent (Some res) None w3)
    as [o4 w4] eqn:E4.
  apply (updateStatus_recordsSound emailId sent (Some res) None) in E4;
    [|right; left; split; [done|]; exists res; split; [done|]; by apply Hres|done].
  destruct o4 as [[]|e4|].
  2:{ destruct (EmailService.updateStatus emailId failed _ _ w4) as [o5 w5] eqn:E5.
      apply Hfailed in E5; [|done]. destruct o5; by intros [= _ <-]. }
  all: by intros [= _ <-].
Qed.

Lemma launched_recordsSound emailId e key userId granted fuel :
  stable I (EmailService.launched host emailId e key userId granted fuel).
Proof.
  unfold EmailService.launched. apply stable_tryCatch.
  - apply processEmailRest_recordsSound.
  - intros err. apply updateStatus_recordsSound. right; right. done.
Qed.

Lemma serviceStep_recordsSound w w' :
  serviceStep host w w' → I w → I w'.
Proof.
  intros Hstep HI.
  destruct Hstep as [e userId w r w' Hrun
                    |emailId e key userId fuel w o w' Hrun
                    |emailId e key userId granted fuel w o w' Hrun
                    |e p [s env] r [s' env'] Hrun
                    |w r w' Hrun
                    |rounds fuel w o w' Hrun
                    |rounds fuel suspended w o w' Hrun
                    |s env|s env|s env|s env|s env ms].
  - refine (sendEmail_stable host _ e userId _ _ w r w' HI Hrun).
    + intros s env (Hcfg & Hcache & Hrecords). simpl in *.
      unfold recordsSound. simpl. split_and!; [done..|].
      intros k es. destruct (decide (uuid host (generated env) = k)) as [<-|Hne].
      * rewrite lookup_insert_eq. intros [= <-]. by apply initialStatus_sound.
      * rewrite lookup_insert_ne by done. apply Hrecords.
    + apply processEmailStart_recordsSound.
  - by eapply pipeline_recordsSound.
  - by eapply launched_recordsSound.
  - rewrite enqueueEmail_run in Hrun. inversion Hrun; subst. exact HI.
  - refine (startQueueProcessing_stable _ _ _ w r w' HI Hrun).
    + apply processEmailStart_recordsSound.
    + by intros q s env.
  - refine (drain_stable host _ rounds fuel _ _ _ w o w' HI Hrun).
    + intros item. apply processEmail_recordsSound.
    + by intros ms [s env].
    + by intros q s env.
  - refine (resumeDrain_stable host _ rounds fuel suspended _ _ _ _ w o w' HI Hrun).
    + intros item. apply processEmail_recordsSound.
    + intros item granted. apply processEmailRest_recordsSound.
    + by intros ms [s env].
    + by intros q s env.
  - exact HI.
  - destruct HI as (Hcfg & Hcache & Hrecords). split_and!; [done| |done].
    intros k r. simpl. by rewrite lookup_empty.
  - exact HI.
  - exact HI.
  - exact HI.
Qed.

Lemma serviceReach_recordsSound env0 w :
  serviceReach host cfg env0 w → I w.
Proof.
  unfold serviceReach. revert w. apply rtc_ind_r.
  - split_and!; [done|intros k r; simpl; by rewrite lookup_empty|].
    intros k es. simpl. by rewrite lookup_empty.
  - intros w1 w2 _ Hstep IH. by eapply serviceStep_recordsSound.
Qed.

End RecordLife.

(** ** EmailService: the records, the statistics and the breakers *)

Lemma afterOneSubmission_reached :
  serviceReach sampleHost failingConfig sampleEnv afterOneSubmission.
Proof.
  unfold serviceReach. eapply rtc_l; [|apply rtc_refl].
  eapply (StepSendEmail sampleHost sampleEmail None).
  unfold afterOneSubmission. apply surjective_pairing.
Qed.

(** X18. In every state of a service, each status record is stored under
    its own identifier and carries the [maxAttempts] of the configuration; its
    status is never [retrying] and its [nextRetry] is never set; its attempt
    count is 0 exactly as long as no attempt time is recorded; a [pending]
    record has no attempts and no outcome; a [sent] record holds an outcome
    that reports success; a [failed] record holds an outcome with
    [success = false], provider ["unknown"] and a non-empty error text. *)
Theorem status_records_sound (host : Host) (cfg : EmailServiceConfig) (env0 : Env)
    (s : EmailService.t) (env : Env) (emailId : string) (record : EmailStatus) :
  serviceReach host cfg env0 (s, env) →
  EmailService.getEmailStatus emailId s = Some record →
  id record = emailId
  ∧ status record ≠ retrying
  ∧ nextRetry record = None
  ∧ maxAttemptsOf record = maxAttempts (retry cfg)
  ∧ 0 ≤ attempts record
  ∧ (attempts record = 0 ↔ lastAttempt record = None)
  ∧ (status record = pending → attempts record = 0 ∧ result record = None)
  ∧ (status record = sent → ∃ r, result record = Some r ∧ success r = true)
  ∧ (status record = failed →
     ∃ text now,
       text ≠ ""
       ∧ result record = Some {| success := false; messageId := None;
                                 error := Some text; provider := "unknown";
                                 timestamp := now |}).
Proof.
  intros Hreach Hget.
  destruct (serviceReach_recordsSound host cfg env0 _ Hreach) as (_ & _ & Hrecords).
  exact (Hrecords emailId record Hget).
Qed.

Lemma status_records_sound_witness :
  ∃ record,
    EmailService.getEmailStatus "id-0" (fst afterOneSubmission) = Some record
    ∧ id record = "id-0" ∧ status record ≠ retrying ∧ nextRetry record = None.
Proof.
  assert (Hget : EmailService.getEmailStatus "id-0" (fst afterOneSubmission)
                 = Some (EmailService.transition 0 sending None None
                           (EmailService.initialStatus "id-0"
                              (EmailService.new failingConfig) 0))).
  { unfold afterOneSubmission.
    destruct (sendEmail_settles sampleHost sampleEmail None
                (EmailService.new failingConfig) sampleEnv)
      as (emailId & e' & key & granted & task & s0 & env0 & s1
          & Hrun & -> & _ & _ & _ & _ & _ & _ & Hrec & _).
    rewrite Hrun. exact Hrec. }
  eexists. split; [exact Hget|].
  destruct (status_records_sound sampleHost failingConfig sampleEnv
              (fst afterOneSubmission) (snd afterOneSubmission) "id-0" _
              ltac:(rewrite <- surjective_pairing; apply afterOneSubmission_reached)
              Hget) as (H1 & H2 & H3 & _).
  by split_and!.
Defined.

Section ProviderStatsProps.

Lemma getProviderStats_fold (cbs : gmap string CircuitBreaker.t) ps :
  ∀ (acc : gmap string EmailService.ProviderStats.t) n,
    foldl (λ stats p,
             match cbs !! name p with
             | Some cb =>
                 <[name p := {| EmailService.ProviderStats.circuitBreaker :=
                                  CircuitBreaker.getStats cb;
                                EmailService.ProviderStats.healthy := true |}]> stats
             | None => stats
             end) acc ps !! n
    = match (if decide (n ∈ name <$> ps) then cbs !! n else None) with
      | Some cb => Some {| EmailService.ProviderStats.circuitBreaker :=
                             CircuitBreaker.getStats cb;
                           EmailService.ProviderStats.healthy := true |}
      | None => acc !! n
      end.
Proof.
  induction ps as [|p ps IH]; intros acc n; simpl; [done|].
  rewrite IH. destruct (decide (n ∈ name <$> ps)) as [Hin|Hout].
  - rewrite decide_True by (by right).
    destruct (cbs !! n) eqn:Hn; [done|].
    destruct (cbs !! name p) eqn:Hp; [|done].
    rewrite lookup_insert_ne; [done|]. intros Heq. rewrite Heq in Hp. congruence.
  - destruct (decide (n = name p)) as [->|Hne].
    + rewrite decide_True by left.
      destruct (cbs !! name p); [apply lookup_insert_eq|done].
    + rewrite decide_False by (intros [?|?]%elem_of_cons; done).
      destruct (cbs !! name p); [by rewrite lookup_insert_ne|done].
Qed.

Lemma getProviderStats_lookup s n :
  EmailService.getProviderStats s !! n
  = if decide (n ∈ providerNames (EmailService.config s))
    then (λ cb, {| EmailService.ProviderStats.circuitBreaker :=
                     CircuitBreaker.getStats cb;
                   EmailService.ProviderStats.healthy := true |})
         <$> EmailService.circuitBreakers s !! n
    else None.
Proof.
  unfold EmailService.getProviderStats, providerNames.
  rewrite getProviderStats_fold.
  destruct (decide _); [|by rewrite lookup_empty].
  destruct (EmailService.circuitBreakers s !! n); [done|by rewrite lookup_empty].
Qed.

Lemma reachable_statsConsistent {W : Type} (Date_now : W → Z) showDate config cb :
  1 ≤ failureThreshold config →
  reachable Date_now showDate config cb → statsConsistent config cb.
Proof.
  intros Hpos. revert cb. apply reachable_invariant.
  - unfold statsConsistent. simpl. split_and!; [lia|done|lia|done].
  - intros cb now. apply onFailure_statsConsistent.
  - intros cb (H1 & H2 & H3) Hst. unfold statsConsistent in *.
    rewrite Hst in H3. exact (conj H1 (conj H2 H3)).
Qed.

End ProviderStatsProps.

(** X19. In every state of a service [getProviderStats] has an entry for
    exactly the names of the configured backends. Each entry reports
    [healthy] as true and shows the statistics of the circuit breaker kept
    under that name, a breaker that calls of [execute] and [reset] have
    produced, so with a threshold of at least 1 its statistics are
    consistent. Right after the constructor every entry shows a closed
    breaker without failures. *)
Theorem provider_stats_cover_backends (host : Host) (cfg : EmailServiceConfig)
    (env0 : Env) (s : EmailService.t) (env : Env) :
  serviceReach host cfg env0 (s, env) →
  (∀ n, is_Some (EmailService.getProviderStats s !! n)
        ↔ ∃ p, p ∈ providers cfg ∧ name p = n)
  ∧ (∀ n st,
       EmailService.getProviderStats s !! n = Some st →
       EmailService.ProviderStats.healthy st = true
       ∧ ∃ cb, EmailService.circuitBreakers s !! n = Some cb
               ∧ EmailService.ProviderStats.circuitBreaker st
                 = CircuitBreaker.getStats cb
               ∧ reachable EmailService.Date_now (showDate host)
                   (circuitBreaker cfg) cb
               ∧ (1 ≤ failureThreshold (circuitBreaker cfg) →
                  statsConsistent (circuitBreaker cfg) cb))
  ∧ (∀ n st,
       EmailService.getProviderStats (EmailService.new cfg) !! n = Some st →
       st = freshBreakerStats).
Proof.
  intros Hreach.
  destruct (serviceReach_breakersSound host cfg env0 _ Hreach)
    as (Hcfg & Hdom & Hcbs). simpl in Hcfg, Hdom, Hcbs.
  assert (Hnames : ∀ n, n ∈ providerNames cfg ↔ ∃ p, p ∈ providers cfg ∧ name p = n).
  { intros n. unfold providerNames. rewrite list_elem_of_fmap.
    split; [intros (p & -> & Hp)|intros (p & Hp & <-)]; by exists p. }
  split_and!.
  - intros n. rewrite getProviderStats_lookup, Hcfg, <- Hnames.
    destruct (decide (n ∈ providerNames cfg)) as [Hin|Hout].
    + rewrite fmap_is_Some, Hdom. tauto.
    + split; [by intros [? ?]|done].
  - intros n st. rewrite getProviderStats_lookup, Hcfg.
    destruct (decide (n ∈ providerNames cfg)); [|done].
    destruct (EmailService.circuitBreakers s !! n) as [cb|] eqn:Hn; [|done].
    intros [= <-]. split; [done|]. exists cb.
    destruct (Hcbs n cb Hn) as [Hr _]. split_and!; try done.
    intros Hpos. by eapply reachable_statsConsistent.
  - intros n st. rewrite getProviderStats_lookup.
    destruct (decide _); [|done].
    unfold EmailService.new. cbn [EmailService.circuitBreakers].
    rewrite constructor_breakers.
    destruct (decide _); [|by rewrite lookup_empty]. by intros [= <-].
Qed.

Lemma provider_stats_cover_backends_witness :
  is_Some (EmailService.getProviderStats (fst afterOneSubmission) !! "FailingProvider").
Proof.
  destruct (provider_stats_cover_backends sampleHost failingConfig sampleEnv
              (fst afterOneSubmission) (snd afterOneSubmission)
              ltac:(rewrite <- surjective_pairing; apply afterOneSubmission_reached))
    as (Hnames & _).
  apply Hnames. exists failingProvider. split; [left|reflexivity].
Defined.

(** X20. With a limit that is not negative, in every state of a service
    [getRateLimitStats] returns a usage and a number of remaining slots that
    are not negative and add up to [maxRequests], beside the configured
    [maxRequests] and [timeWindow]; the call changes nothing but the rate
    limiter, from which it drops the timestamps older than the window. *)
Theorem rate_limit_stats_add_up (host : Host) (cfg : EmailServiceConfig)
    (env0 : Env) (s : EmailService.t) (env : Env) :
  0 ≤ maxRequests (rateLimit cfg) →
  serviceReach host cfg env0 (s, env) →
  ∃ stats,
    EmailService.getRateLimitStats (s, env)
    = (Returned stats,
       (EmailService.setRateLimiter
          {| RateLimiter.requests :=
               RateLimiter.purge (rateLimit cfg) (clock env)
                 (RateLimiter.requests (EmailService.rateLimiter s)) |} s, env))
    ∧ 0 ≤ EmailService.RateLimitStats.currentUsage stats
    ∧ 0 ≤ EmailService.RateLimitStats.remainingSlots stats
    ∧ EmailService.RateLimitStats.currentUsage stats
      + EmailService.RateLimitStats.remainingSlots stats
      = maxRequests (rateLimit cfg)
    ∧ EmailService.RateLimitStats.maxRequests stats = maxRequests (rateLimit cfg)
    ∧ EmailService.RateLimitStats.timeWindow stats = timeWindow (rateLimit cfg).
Proof.
  intros Hmax Hreach.
  destruct (serviceReach_limiterSound host cfg env0 _ Hmax Hreach) as [Hcfg Hin].
  simpl in Hcfg, Hin. unfold withinLimit in Hin.
  pose proof (purge_shorter (rateLimit cfg) (clock env)
                (RateLimiter.requests (EmailService.rateLimiter s))) as Hlen.
  unfold EmailService.getRateLimitStats, zoom, bind, ret.
  rewrite Hcfg, usage_cases, remaining_cases. cbn [RateLimiter.requests].
  rewrite purge_idempotent. unfold EmailService.Date_now. simpl snd.
  eexists. split; [reflexivity|]. simpl. split_and!; try done; lia.
Qed.

Lemma rate_limit_stats_add_up_witness :
  ∃ stats s',
    EmailService.getRateLimitStats afterOneSubmission = (Returned stats, s')
    ∧ EmailService.RateLimitStats.currentUsage stats
      + EmailService.RateLimitStats.remainingSlots stats = 2.
Proof.
  destruct (rate_limit_stats_add_up sampleHost failingConfig sampleEnv
              (fst afterOneSubmission) (snd afterOneSubmission)
              ltac:(simpl; lia)
              ltac:(rewrite <- surjective_pairing; apply afterOneSubmission_reached))
    as (stats & Hrun & _ & _ & Hsum & _).
  rewrite <- surjective_pairing in Hrun. eauto.
Defined.

(** X21. A backend whose [send] always fulfils is called once per pass of
    the fallback loop and never retried, and the call leaves its circuit
    breaker closed with no failure counted, whether the outcome reports
    success or not. So in every state of a service, the breaker of a name
    whose backends never reject is as the constructor made it. *)
Theorem fulfilled_sends_keep_breaker_closed (host : Host) (cfg : EmailServiceConfig)
    (env0 : Env) (s : EmailService.t) (env : Env) (p : EmailProvider) :
  serviceReach host cfg env0 (s, env) →
  p ∈ providers cfg →
  (∀ q, q ∈ providers cfg → name q = name p → neverRejects q) →
  EmailService.circuitBreakers s !! name p = Some CircuitBreaker.new
  ∧ EmailService.getProviderStats s !! name p
    = Some {| EmailService.ProviderStats.circuitBreaker :=
                {| CircuitBreakerStats.state := CLOSED;
                   CircuitBreakerStats.failureCount := 0;
                   CircuitBreakerStats.lastFailureTime := None;
                   CircuitBreakerStats.nextAttemptTime := None |};
              EmailService.ProviderStats.healthy := true |}
  ∧ ∀ e, ∃ r d,
      respond p e env = (Returned r, d)
      ∧ EmailService.attemptVia host p e (CircuitBreaker.new, (s, env))
        = (Returned r,
           (CircuitBreaker.new,
            (s, {| clock := clock env + Z.max 0 d;
                   sendLog := sendLog env ++ [(name p, e)];
                   generated := generated env |}))).
Proof.
  intros Hreach Hp Hnever.
  destruct (serviceReach_breakersSound host cfg env0 _ Hreach)
    as (Hcfg & Hdom & Hcbs). simpl in Hcfg, Hdom, Hcbs.
  assert (Hin : name p ∈ providerNames cfg).
  { unfold providerNames. apply list_elem_of_fmap. by exists p. }
  destruct (proj2 (Hdom (name p)) Hin) as [cb Hcb].
  destruct (Hcbs _ _ Hcb) as [_ Hnew]. specialize (Hnew Hnever). subst cb.
  split_and!.
  - exact Hcb.
  - rewrite getProviderStats_lookup, Hcfg, decide_True by done. by rewrite Hcb.
  - intros e. destruct (Hnever p Hp eq_refl e env) as [r Hr].
    destruct (respond p e env) as [answer d] eqn:Hresp. simpl in Hr. subst answer.
    exists r, d. split; [done|]. by apply attemptVia_returned.
Qed.

Lemma failingProvider_neverRejects : neverRejects failingProvider.
Proof. intros e env. by eexists. Qed.

Lemma fulfilled_sends_keep_breaker_closed_witness :
  EmailService.circuitBreakers (fst afterOneSubmission) !! "FailingProvider"
  = Some CircuitBreaker.new.
Proof.
  apply (fulfilled_sends_keep_breaker_closed sampleHost failingConfig sampleEnv
           (fst afterOneSubmission) (snd afterOneSubmission) failingProvider).
  - rewrite <- surjective_pairing. apply afterOneSubmission_reached.
  - left.
  - intros q [->|Hq%not_elem_of_nil]%elem_of_cons _; [|done].
    apply failingProvider_neverRejects.
Defined.

(** ** EmailService: the fallback loop *)

Section FallbackLoop.
Context (host : Host).

Lemma setCircuitBreakers_eta s :
  EmailService.setCircuitBreakers (EmailService.circuitBreakers s) s = s.
Proof. by destruct s. Qed.

Lemma tryProvider_open p cb e s env :
  EmailService.circuitBreakers s !! name p = Some cb →
  CircuitBreaker.state cb = OPEN →
  CircuitBreaker.shouldAttemptReset (clock env) cb = false →
  EmailService.tryProvider host p cb e (s, env)
  = (Returned (inr (CircuitBreaker.openError (showDate host) cb)), (s, env)).
Proof.
  intros Hcb Hst Hearly.
  rewrite tryProvider_run, (attemptVia_open host p e cb s env Hst Hearly).
  by rewrite insert_id, setCircuitBreakers_eta.
Qed.

Lemma fallback_all_open ps e s env :
  (∀ p, p ∈ ps →
        ∃ cb, EmailService.circuitBreakers s !! name p = Some cb
              ∧ CircuitBreaker.state cb = OPEN
              ∧ CircuitBreaker.shouldAttemptReset (clock env) cb = false) →
  ∀ lastError,
    EmailService.fallback host ps e lastError (s, env)
    = (Thrown (default (ErrorObj "All providers failed")
                 (match last ps with
                  | Some p =>
                      CircuitBreaker.openError (showDate host)
                      <$> EmailService.circuitBreakers s !! name p
                  | None => lastError
                  end)),
       (s, env)).
Proof.
  induction ps as [|p rest IH]; intros Hopen lastError; [done|].
  destruct (Hopen p ltac:(left)) as (cb & Hcb & Hst & Hearly).
  cbn [EmailService.fallback]. rewrite Hcb. unfold bind.
  rewrite (tryProvider_open p cb e s env Hcb Hst Hearly).
  rewrite IH by (intros q Hq; apply Hopen; by right).
  destruct rest as [|q rest]; [simpl; by rewrite Hcb|].
  change (last (p :: q :: rest)) with (last (q :: rest)).
  destruct (proj2 (last_is_Some (q :: rest)) ltac:(done)) as [x Hx].
  by rewrite Hx.
Qed.

(** The backends in front that fail on every attempt are gone through one
    after the other; the loop goes on behind them with an [Error] in hand,
    having touched only their breakers and called only them. *)
Lemma fallback_skips_failing front tail e :
  Forall alwaysFails front →
  ∀ lastError s env,
    ∃ lastError1 s1 env1 calls,
      EmailService.fallback host (front ++ tail) e lastError (s, env)
      = EmailService.fallback host tail e lastError1 (s1, env1)
      ∧ s1 = EmailService.setCircuitBreakers (EmailService.circuitBreakers s1) s
      ∧ (∀ n, n ∉ name <$> front →
              EmailService.circuitBreakers s1 !! n
              = EmailService.circuitBreakers s !! n)
      ∧ callsAdded env env1 calls
      ∧ Forall (λ c, fst c ∈ name <$> front ∧ snd c = e) calls.
Proof.
  induction 1 as [|p front Hp Hfront IH]; intros lastError s env.
  { exists lastError, s, env, []. simpl. split_and!; try done.
    - by rewrite setCircuitBreakers_eta.
    - unfold callsAdded. by rewrite app_nil_r. }
  cbn [app EmailService.fallback].
  destruct (EmailService.circuitBreakers s !! name p) as [cb|] eqn:Hcb.
  - destruct (tryProvider_fails host p e cb s env Hp) as (m & [s0 env0] & Htry).
    unfold bind. rewrite Htry.
    pose proof Htry as Hrun. rewrite tryProvider_run in Hrun.
    destruct (EmailService.attemptVia host p e _) as [o [cb' [s00 env00]]].
    injection Hrun as _ Hs0 Henv0. subst env00.
    destruct (tryProvider_calls host p cb e s env _ _ _ Htry) as [k Hk].
    destruct (IH (Some (ErrorObj m)) s0 env0)
      as (lastError1 & s1 & env1 & calls & Hrun & Hs1 & Hcbs & Hcalls & Hnames).
    exists lastError1, s1, env1, (replicate k (name p, e) ++ calls).
    split_and!.
    + exact Hrun.
    + rewrite Hs1, <- Hs0. reflexivity.
    + intros n Hn. rewrite Hcbs by (intros Hin; apply Hn; by right).
      rewrite <- Hs0. simpl. apply lookup_insert_ne.
      intros <-. apply Hn. left.
    + unfold callsAdded in *. by rewrite Hcalls, Hk, app_assoc.
    + apply Forall_app. split.
      * apply Forall_replicate. split; [left|done].
      * eapply Forall_impl; [exact Hnames|]. intros c [? ?]. split; [by right|done].
  - destruct (IH lastError s env)
      as (lastError1 & s1 & env1 & calls & Hrun & Hs1 & Hcbs & Hcalls & Hnames).
    exists lastError1, s1, env1, calls. split_and!; try done.
    + intros n Hn. apply Hcbs. intros Hin. apply Hn. by right.
    + eapply Forall_impl; [exact Hnames|]. intros c [? ?]. split; [by right|done].
Qed.

End FallbackLoop.

(** X22. When the breaker of every configured backend is open and not yet
    due for a trial, [sendWithFallback] calls no backend and changes nothing:
    it throws the circuit-open error of the last backend. With no backend
    configured at all it throws [All providers failed]. *)
Theorem open_breakers_shield_backends (host : Host) (e : EmailData)
    (s : EmailService.t) (env : Env) :
  (∀ p, p ∈ providers (EmailService.config s) →
        ∃ cb, EmailService.circuitBreakers s !! name p = Some cb
              ∧ CircuitBreaker.isOpen cb = true
              ∧ CircuitBreaker.shouldAttemptReset (clock env) cb = false) →
  EmailService.sendWithFallback host e (s, env)
  = (Thrown (lastOpenError host s), (s, env))
  ∧ (providers (EmailService.config s) = [] →
     lastOpenError host s = ErrorObj "All providers failed").
Proof.
  intros Hopen. split.
  - unfold EmailService.sendWithFallback, lastOpenError.
    rewrite fallback_all_open.
    + destruct (last _) as [p|]; [|done].
      by destruct (EmailService.circuitBreakers s !! name p).
    + intros p Hp. destruct (Hopen p Hp) as (cb & Hcb & Hst & Hearly).
      exists cb. split_and!; try done.
      unfold CircuitBreaker.isOpen in Hst. by destruct (CircuitBreaker.state cb).
  - unfold lastOpenError. by intros ->.
Qed.

Lemma open_breakers_shield_backends_witness :
  EmailService.sendWithFallback sampleHost sampleEmail
    (shieldedService, {| clock := 31; sendLog := []; generated := 0 |})
  = (Thrown (ErrorObj "Circuit breaker is OPEN. Last failure: date"),
     (shieldedService, {| clock := 31; sendLog := []; generated := 0 |})).
Proof.
  apply (open_breakers_shield_backends sampleHost sampleEmail shieldedService
           {| clock := 31; sendLog := []; generated := 0 |}).
  intros p [->|Hp%not_elem_of_nil]%elem_of_cons; [|done].
  exists afterThreeFailures. split_and!; reflexivity.
Defined.

(** ** EmailService: submissions that are sent *)

Section SentSubmissions.
Context (host : Host).

(** The pipeline of a submission whose record is in the table, up to the
    call of [executeOnce], and what it does with the outcome that call
    returns. *)
Lemma pipeline_until_execute fuel emailId e key userId s env es :
  EmailService.statusTracking s !! emailId = Some es →
  1 ≤ maxRequests (rateLimit (EmailService.config s)) →
  withinLimit (rateLimit (EmailService.config s)) (EmailService.rateLimiter s) →
  (2 ≤ fuel)%nat →
  ∃ rl' envB,
    let started := EmailService.transition (clock env) sending None None es in
    let sB := EmailService.setRateLimiter rl'
                (EmailService.setStatusTracking
                   (<[emailId := started]> (EmailService.statusTracking s)) s) in
    sendLog envB = sendLog env
    ∧ generated envB = generated env
    ∧ ∀ res sC envC,
        EmailService.executeOnce host fuel key e (sB, envB)
        = (Returned res, (sC, envC)) →
        EmailService.pipeline host emailId e key userId fuel (s, env)
        = (Returned tt,
           (EmailService.setStatusTracking
              (<[emailId := EmailService.transition (clock envC) sent (Some res)
                              None started]> (EmailService.statusTracking sC)) sC,
            envC)).
Proof.
  intros Hes Hmax Hin Hfuel.
  pose proof (updateStatus_present emailId sending None None s env es Hes) as HA.
  set (started := EmailService.transition (clock env) sending None None es) in *.
  set (sA := EmailService.setStatusTracking _ s) in HA.
  destruct (service_waitForSlot_settles fuel sA env Hmax Hin Hfuel)
    as (rl' & envB & HB).
  exists rl', envB. cbv zeta. fold sA.
  set (sB := EmailService.setRateLimiter rl' sA) in *.
  destruct (waitForSlot_footprint _ _ _ _ _ _ HB) as (_ & Hlog & Hgen).
  split_and!; [done..|].
  intros res sC envC HC.
  pose proof (executeOnce_footprint host _ _ _ _ _ _ _ _ HC) as HsC.
  assert (HrecC : EmailService.statusTracking sC !! emailId = Some started).
  { rewrite HsC. simpl. apply lookup_insert_eq. }
  unfold EmailService.pipeline, EmailService.processEmail, tryCatch, bind.
  rewrite HA, HB, HC.
  by rewrite (updateStatus_present _ _ _ _ _ _ _ HrecC).
Qed.

Lemma sendWithFallback_served e front good rest cb s env :
  providers (EmailService.config s) = front ++ good :: rest →
  Forall alwaysFails front →
  alwaysSucceeds good →
  name good ∉ name <$> front →
  EmailService.circuitBreakers s !! name good = Some cb →
  CircuitBreaker.state cb ≠ OPEN →
  ∃ r d env1 s' env' calls,
    EmailService.sendWithFallback host e (s, env) = (Returned r, (s', env'))
    ∧ respond good e env1 = (Returned r, d)
    ∧ success r = true
    ∧ EmailService.circuitBreakers s' !! name good = Some CircuitBreaker.new
    ∧ callsAdded env env' (calls ++ [(name good, e)])
    ∧ Forall (λ c, fst c ∈ name <$> front ∧ snd c = e) calls
    ∧ callsAdded env env1 calls
    ∧ send good e env1 = (Returned r, env').
Proof.
  intros Hps Hfront Hgood Hname Hcb Hst.
  unfold EmailService.sendWithFallback. rewrite Hps.
  destruct (fallback_skips_failing host front (good :: rest) e Hfront None s env)
    as (lastError1 & s1 & env1 & calls & Hrun & Hs1 & Hcbs & Hcalls & Hnames).
  rewrite Hrun. cbn [EmailService.fallback].
  rewrite (Hcbs _ Hname), Hcb. unfold bind.
  destruct (Hgood e env1) as (r & d & Hresp & Hr).
  rewrite tryProvider_run, (attemptVia_returned host good e cb s1 env1 r d Hst Hresp).
  rewrite Hr. unfold ret.
  eexists r, d, env1, _, _, calls. split; [reflexivity|].
  split_and!; try done.
  - simpl. apply lookup_insert_eq.
  - unfold callsAdded in *. simpl. by rewrite Hcalls, app_assoc.
  - unfold send. by rewrite Hresp.
Qed.

Lemma sendWithFallback_reaches e front good rest cb s env :
  providers (EmailService.config s) = front ++ good :: rest →
  Forall alwaysFails front →
  alwaysSucceeds good →
  name good ∉ name <$> front →
  EmailService.circuitBreakers s !! name good = Some cb →
  CircuitBreaker.state cb ≠ OPEN →
  ∃ r d env1 s' env' calls,
    EmailService.sendWithFallback host e (s, env) = (Returned r, (s', env'))
    ∧ respond good e env1 = (Returned r, d)
    ∧ success r = true
    ∧ EmailService.circuitBreakers s' !! name good = Some CircuitBreaker.new
    ∧ callsAdded env env' (calls ++ [(name good, e)])
    ∧ Forall (λ c, fst c ∈ name <$> front ∧ snd c = e) calls.
Proof.
  intros Hps Hfront Hgood Hname Hcb Hst.
  destruct (sendWithFallback_served e front good rest cb s env
              Hps Hfront Hgood Hname Hcb Hst)
    as (r & d & env1 & s' & env' & calls & H1 & H2 & H3 & H4 & H5 & H6 & _).
  by exists r, d, env1, s', env', calls.
Qed.

End SentSubmissions.

(** X23. When the backends in front fail on every attempt and the one
    behind them, whose name none of them bears and whose breaker is not open,
    answers with success, [sendWithFallback] returns that answer. The record
    of calls shows calls of the failing backends and then, last, one call of
    the working one; the backends after it are not reached; and the breaker
    of the working backend is left closed with no failure counted. *)
Theorem fallback_reaches_working_backend (host : Host) (e : EmailData)
    (front : list EmailProvider) (good : EmailProvider) (rest : list EmailProvider)
    (cb : CircuitBreaker.t) (s : EmailService.t) (env : Env) :
  providers (EmailService.config s) = front ++ good :: rest →
  Forall alwaysFails front →
  alwaysSucceeds good →
  name good ∉ name <$> front →
  EmailService.circuitBreakers s !! name good = Some cb →
  CircuitBreaker.state cb ≠ OPEN →
  ∃ r d env1 s' env' calls,
    EmailService.sendWithFallback host e (s, env) = (Returned r, (s', env'))
    ∧ respond good e env1 = (Returned r, d)
    ∧ success r = true
    ∧ EmailService.circuitBreakers s' !! name good = Some CircuitBreaker.new
    ∧ callsAdded env env' (calls ++ [(name good, e)])
    ∧ Forall (λ c, fst c ∈ name <$> front ∧ snd c = e) calls.
Proof. apply sendWithFallback_reaches. Qed.

Lemma fallback_reaches_working_backend_witness :
  ∃ r w',
    EmailService.sendWithFallback sampleHost sampleEmail
      (EmailService.new fallbackConfig, sampleEnv) = (Returned r, w')
    ∧ provider r = "WorkingProvider"
    ∧ sendLog (snd w')
      = [("FailingProvider", sampleEmail); ("WorkingProvider", sampleEmail)].
Proof.
  destruct (fallback_reaches_working_backend sampleHost sampleEmail
              [failingProvider] workingProvider [] CircuitBreaker.new
              (EmailService.new fallbackConfig) sampleEnv)
    as (r & d & env1 & s' & env' & calls & Hrun & _).
  - reflexivity.
  - repeat constructor.
  - intros e env. by eexists _, _.
  - intros [?|?%not_elem_of_nil]%elem_of_cons; [discriminate|done].
  - reflexivity.
  - discriminate.
  - exists r, (s', env'). split; [exact Hrun|].
    vm_compute in Hrun. injection Hrun as <- _ <-. split; reflexivity.
Defined.

(** X24. A submission whose key already has a cached outcome is not sent:
    with a rate limiter that lets it through, its task returns, the record of
    the new identifier is [sent] after one attempt and holds the cached
    outcome, no backend is called, and breakers and cache are as before. The
    key is made from the [userId] that [sendEmail] passes in the place of the
    token: with a non-empty [userId] it is [idempotency_] and that [userId],
    whatever the message. *)
Theorem cached_outcome_answers_submission (host : Host) (e : EmailData)
    (userId : option string) (fuel : nat) (r : EmailResult)
    (s : EmailService.t) (env : Env) :
  IdempotencyService.cache (EmailService.idempotencyService s)
    !! fst (IdempotencyService.generateKey (stringify host) e userId None) = Some r →
  1 ≤ maxRequests (rateLimit (EmailService.config s)) →
  withinLimit (rateLimit (EmailService.config s)) (EmailService.rateLimiter s) →
  (2 ≤ fuel)%nat →
  (∃ emailId e' task w1 s2 env2 record,
     EmailService.sendEmail host e userId (s, env)
     = (Returned (emailId, e', task), w1)
     ∧ task fuel w1 = (Returned tt, (s2, env2))
     ∧ EmailService.getEmailStatus emailId s2 = Some record
     ∧ status record = sent
     ∧ result record = Some r
     ∧ attempts record = 1
     ∧ sendLog env2 = sendLog env
     ∧ EmailService.circuitBreakers s2 = EmailService.circuitBreakers s
     ∧ EmailService.idempotencyService s2 = EmailService.idempotencyService s)
  ∧ (∀ u e1, u ≠ "" →
       fst (IdempotencyService.generateKey (stringify host) e1 (Some u) None)
       = "idempotency_" +:+ u).
Proof.
  intros Hhit Hmax Hin Hfuel. split.
  2:{ intros u e1 Hu. unfold IdempotencyService.generateKey,
        IdempotencyService.truthyString.
      by rewrite (proj2 (String.eqb_neq u "") Hu). }
  destruct (sendEmail_task host e userId s env)
    as (granted & w1 & _ & Hsend & Hrest).
  specialize (Hrest fuel ltac:(lia)). revert Hsend Hrest.
  destruct (IdempotencyService.generateKey (stringify host) e userId None)
    as [key e'] eqn:Hkey. simpl in Hhit. simpl fst. simpl snd.
  set (emailId := uuid host (generated env)).
  set (env1 := {| clock := clock env; sendLog := sendLog env;
                  generated := S (generated env) |}).
  set (s1 := EmailService.setStatusTracking _ s).
  intros Hsend Hrest.
  assert (H1 : EmailService.statusTracking s1 !! emailId
               = Some (EmailService.initialStatus emailId s (clock env)))
    by apply lookup_insert_eq.
  destruct (pipeline_until_execute host fuel emailId e' key userId s1 env1 _
              H1 Hmax Hin Hfuel) as (rl' & envB & Hlog & _ & Hrun).
  cbv zeta in Hrun.
  set (sB := EmailService.setRateLimiter rl' _) in Hrun.
  specialize (Hrun r sB envB (executeOnce_hit host fuel key e' sB envB r Hhit)).
  eexists emailId, e', _, w1, _, envB, _.
  split; [exact Hsend|]. split; [rewrite Hrest; exact Hrun|].
  split; [unfold EmailService.getEmailStatus; simpl; apply lookup_insert_eq|].
  by split_and!.
Qed.

Lemma cached_outcome_answers_submission_witness :
  (result <$> settledRecord sampleHost sampleEmail (Some "user123") 2
                (answeredService, sampleEnv))
  = Some (Some earlierOutcome).
Proof.
  destruct (cached_outcome_answers_submission sampleHost sampleEmail
              (Some "user123") 2 earlierOutcome answeredService sampleEnv)
    as ((emailId & e' & task & w1 & s2 & env2 & record
         & Hsend & Htask & Hget & _ & Hresult & _) & _).
  - reflexivity.
  - simpl; lia.
  - unfold withinLimit. simpl; lia.
  - lia.
  - unfold settledRecord. rewrite Hsend, Htask, Hget. simpl. by rewrite Hresult.
Defined.

(** X25. A submission whose key has no cached outcome and is not pending,
    in a service whose rate limiter lets it through, whose backends in front
    fail on every attempt and whose next backend answers with success: the
    task returns, the record of the identifier is [sent] after one attempt,
    started when the submission was made, and holds the answer of that
    backend, which is also cached under the key. That answer is what the
    backend returned to the last call on record, a call of [send] with the
    message as [generateKey] left it, made after calls of the failing backends
    only, and ending in the world in which the task ends. *)
Theorem submission_sent_by_working_backend (host : Host) (e : EmailData)
    (userId : option string) (fuel : nat) (front : list EmailProvider)
    (good : EmailProvider) (rest : list EmailProvider) (cb : CircuitBreaker.t)
    (s : EmailService.t) (env : Env) :
  let keyed := IdempotencyService.generateKey (stringify host) e userId None in
  providers (EmailService.config s) = front ++ good :: rest →
  Forall alwaysFails front →
  alwaysSucceeds good →
  name good ∉ name <$> front →
  EmailService.circuitBreakers s !! name good = Some cb →
  CircuitBreaker.state cb ≠ OPEN →
  1 ≤ maxRequests (rateLimit (EmailService.config s)) →
  withinLimit (rateLimit (EmailService.config s)) (EmailService.rateLimiter s) →
  (2 ≤ fuel)%nat →
  IdempotencyService.cache (EmailService.idempotencyService s) !! fst keyed = None →
  fst keyed ∉ IdempotencyService.pendingRequests (EmailService.idempotencyService s) →
  ∃ emailId task w1 s2 env2 r record envK calls,
    EmailService.sendEmail host e userId (s, env)
    = (Returned (emailId, snd keyed, task), w1)
    ∧ task fuel w1 = (Returned tt, (s2, env2))
    ∧ EmailService.getEmailStatus emailId s2 = Some record
    ∧ status record = sent
    ∧ result record = Some r
    ∧ success r = true
    ∧ attempts record = 1
    ∧ lastAttempt record = Some (clock env)
    ∧ IdempotencyService.cache (EmailService.idempotencyService s2) !! fst keyed
      = Some r
    ∧ last (sendLog env2) = Some (name good, snd keyed)
    ∧ send good (snd keyed) envK = (Returned r, env2)
    ∧ callsAdded env envK calls
    ∧ Forall (λ c, fst c ∈ name <$> front ∧ snd c = snd keyed) calls.
Proof.
  intros keyed Hps Hfront Hgood Hname Hcb Hst Hmax Hin Hfuel Hmiss Hfree.
  destruct (sendEmail_task host e userId s env)
    as (granted & w1 & _ & Hsend & Hrest).
  specialize (Hrest fuel ltac:(lia)). revert Hsend Hrest. fold keyed.
  destruct keyed as [key e'] eqn:Hkey. simpl in Hmiss, Hfree. simpl fst. simpl snd.
  set (emailId := uuid host (generated env)).
  set (env1 := {| clock := clock env; sendLog := sendLog env;
                  generated := S (generated env) |}).
  set (s1 := EmailService.setStatusTracking _ s).
  intros Hsend Hrest.
  assert (H1 : EmailService.statusTracking s1 !! emailId
               = Some (EmailService.initialStatus emailId s (clock env)))
    by apply lookup_insert_eq.
  destruct (pipeline_until_execute host fuel emailId e' key userId s1 env1 _
              H1 Hmax Hin Hfuel) as (rl' & envB & Hlog & _ & Hrun).
  cbv zeta in Hrun.
  set (sB := EmailService.setRateLimiter rl' _) in Hrun.
  destruct (sendWithFallback_served host e' front good rest cb sB envB
              Hps Hfront Hgood Hname Hcb Hst)
    as (r & d & envG & sC & envC & calls & HC & _ & Hr & _ & Hcalls & Hnames
        & Hbefore & Hcall).
  pose proof (executeOnce_owner host fuel key e' sB envB Hmiss Hfree) as HD.
  rewrite HC in HD. specialize (Hrun r _ envC HD).
  eexists emailId, _, w1, _, envC, r, _, envG, calls.
  split; [exact Hsend|]. split; [rewrite Hrest; exact Hrun|].
  split; [unfold EmailService.getEmailStatus; simpl; apply lookup_insert_eq|].
  split_and!; try done.
  - simpl. apply lookup_insert_eq.
  - unfold callsAdded in Hcalls. rewrite Hcalls, app_assoc. apply last_snoc.
  - unfold callsAdded in *. by rewrite Hbefore, Hlog.
Qed.

Lemma submission_sent_by_working_backend_witness :
  (status <$> settledRecord sampleHost sampleEmail None 2
                (EmailService.new fallbackConfig, sampleEnv))
  = Some sent.
Proof.
  destruct (submission_sent_by_working_backend sampleHost sampleEmail None 2
              [failingProvider] workingProvider [] CircuitBreaker.new
              (EmailService.new fallbackConfig) sampleEnv)
    as (emailId & task & w1 & s2 & env2 & r & record & envK & calls
        & Hsend & Htask & Hget & Hstatus & _).
  - reflexivity.
  - repeat constructor.
  - intros e env. by eexists _, _.
  - intros [?|?%not_elem_of_nil]%elem_of_cons; [discriminate|done].
  - reflexivity.
  - discriminate.
  - simpl; lia.
  - unfold withinLimit. simpl; lia.
  - lia.
  - reflexivity.
  - apply not_elem_of_empty.
  - unfold settledRecord. rewrite Hsend, Htask, Hget. simpl. by rewrite Hstatus.
Defined.

(** ** EmailService: the queue, its switch, and the resets *)

Lemma afterOneEnqueue_reached :
  serviceReach sampleHost failingConfig sampleEnv afterOneEnqueue.
Proof.
  unfold serviceReach. eapply rtc_l; [|apply rtc_refl].
  eapply (StepEnqueueEmail sampleHost sampleEmail 5).
  unfold afterOneEnqueue. apply surjective_pairing.
Qed.

(** X26. In every state of a service the items that [getQueueStats] lists
    are in ascending order of the priority number and as many as the size it
    reports, whatever submissions, drains and resets came before.
    [enqueueEmail] returns the next identifier and adds one item with that
    identifier, the message, the priority, the time of the call and retry
    count 0, keeping the items that were queued. *)
Theorem service_queue_stays_ordered (host : Host) (cfg : EmailServiceConfig)
    (env0 : Env) (s : EmailService.t) (env : Env) :
  serviceReach host cfg env0 (s, env) →
  ascending (EmailService.QueueStats.items (EmailService.getQueueStats s))
  ∧ EmailService.QueueStats.size (EmailService.getQueueStats s)
    = length (EmailService.QueueStats.items (EmailService.getQueueStats s))
  ∧ ∀ e p, ∃ s1 env1,
      EmailService.enqueueEmail host e p (s, env)
      = (Returned (uuid host (generated env)), (s1, env1))
      ∧ EmailService.QueueStats.items (EmailService.getQueueStats s1)
        ≡ₚ {| itemId := uuid host (generated env); email := e; priority := p;
              enqueuedAt := clock env; retryCount := 0 |}
           :: EmailService.QueueStats.items (EmailService.getQueueStats s)
      ∧ EmailService.QueueStats.size (EmailService.getQueueStats s1)
        = S (EmailService.QueueStats.size (EmailService.getQueueStats s))
      ∧ ascending (EmailService.QueueStats.items (EmailService.getQueueStats s1)).
Proof.
  intros Hreach. pose proof (serviceReach_queueSound host cfg env0 _ Hreach) as Hq.
  unfold queueSound in Hq. simpl in Hq.
  split; [exact Hq|]. split; [done|].
  intros e p. rewrite enqueueEmail_run. eexists _, _. split; [reflexivity|].
  unfold EmailService.getQueueStats, EmailQueue.getItems, EmailQueue.getSize,
    EmailQueue.enqueue.
  cbn [EmailService.QueueStats.items EmailService.QueueStats.size
       EmailService.queue EmailService.setQueue snd].
  rewrite insertWithPriority_queue.
  split_and!.
  - apply insertBehindLower_permutation.
  - by rewrite insertBehindLower_permutation.
  - by apply insertBehindLower_ascending.
Qed.

Lemma service_queue_stays_ordered_witness :
  ascending (EmailService.QueueStats.items
               (EmailService.getQueueStats (fst afterOneEnqueue))).
Proof.
  apply (service_queue_stays_ordered sampleHost failingConfig sampleEnv
           (fst afterOneEnqueue) (snd afterOneEnqueue)).
  rewrite <- surjective_pairing. apply afterOneEnqueue_reached.
Defined.

(** Starting the loop and then resuming it is one run of [processNext] with
    the flag set, when the handler is its start followed by its rest. *)
Lemma startProcessing_then_resume {W R : Type} (sleep : Z → W → W)
    (processor : QueueItem → Async W unit)
    (processorStart : QueueItem → Async W R)
    (processorRest : QueueItem → R → Async W unit) rounds q w :
  (∀ item w0,
     processor item w0
     = (await r ← processorStart item; processorRest item r) w0) →
  EmailQueue.processing q = false →
  (await suspended ← EmailQueue.startProcessing processorStart;
   EmailQueue.resumeProcessing sleep processor processorRest rounds suspended)
    (q, w)
  = EmailQueue.processNext sleep processor (S rounds)
      ({| EmailQueue.queue := EmailQueue.queue q;
          EmailQueue.processing := true |}, w).
Proof.
  intros Hsplit Hoff. destruct q as [items flag]. simpl in Hoff. subst flag.
  unfold bind at 1. unfold EmailQueue.startProcessing. simpl.
  unfold EmailQueue.dequeue. simpl. destruct items as [|item rest]; [done|].
  rewrite Hsplit. unfold bind.
  destruct (processorStart item w) as [[r|err|] w']; simpl; try done.
Qed.

Lemma processEmailRest_keeps_queue host fuel emailId e key userId granted
    s env o s' env' :
  EmailService.processEmailRest host fuel emailId e key userId granted (s, env)
  = (o, (s', env')) →
  EmailService.queue s' = EmailService.queue s.
Proof.
  intros Hrun.
  eapply (processEmailRest_keeps_rest host
            (λ w, EmailService.queue (fst w) = EmailService.queue s))
    in Hrun; try done.
  intros f [s0 env0] o0 [s1 env1] HI Hwait.
  apply waitForSlot_footprint in Hwait as (-> & _). exact HI.
Qed.

(** X27. [startQueueProcessing] throws [Queue is already processing] and
    changes nothing when the queue is being processed. Otherwise it sets the
    flag and makes the first round of the loop up to its first suspension: on
    an empty queue it leaves the loop on its timer of 1000 ms; on a queue
    with a first item it takes that item from the queue and calls the
    handler on it, which runs the start of [processEmail] for the item's
    identifier, and leaves the loop on that handler. A second start then
    throws. Starting and resuming is one run of the loop with the flag set.
    After [stopQueueProcessing] the flag is off and the items are the same:
    a round of the drain loop returns at once, a loop resumed from its timer
    takes no item, and a loop resumed from its handler finishes that item,
    puts it back when the handler fails, and takes no other. *)
Theorem queue_processing_switch (host : Host) (s : EmailService.t) (env : Env)
    (rounds fuel : nat) :
  let flagged items :=
    EmailService.setQueue
      {| EmailQueue.queue := items; EmailQueue.processing := true |} in
  let stopped := EmailService.stopQueueProcessing s in
  let rest item granted :=
    EmailService.processEmailRest host fuel (itemId item) (email item) "" None
      granted in
  (EmailQueue.processing (EmailService.queue s) = true →
   EmailService.startQueueProcessing (s, env)
   = (Thrown (ErrorObj "Queue is already processing"), (s, env)))
  ∧ (EmailQueue.processing (EmailService.queue s) = false →
     match EmailQueue.queue (EmailService.queue s) with
     | [] =>
         EmailService.startQueueProcessing (s, env)
         = (Returned (EmailQueue.OnTimer 1000), (flagged [] s, env))
     | item :: items =>
         ∃ granted s1,
           EmailService.processEmailStart (itemId item) (s, env)
           = (Returned granted, (s1, env))
           ∧ EmailService.startQueueProcessing (s, env)
             = (Returned (EmailQueue.OnProcessor item granted),
                (flagged items s1, env))
     end)
  ∧ (∀ suspended w1,
       EmailService.startQueueProcessing (s, env) = (Returned suspended, w1) →
       EmailService.startQueueProcessing w1
       = (Thrown (ErrorObj "Queue is already processing"), w1))
  ∧ ((1 ≤ fuel)%nat →
     ∀ q w,
       EmailQueue.processing q = false →
       (await suspended ←
          EmailQueue.startProcessing
            (λ item, EmailService.processEmailStart (itemId item));
        EmailQueue.resumeProcessing EmailService.sleepIn
          (EmailService.queueHandler host fuel) rest rounds suspended) (q, w)
       = EmailQueue.processNext EmailService.sleepIn
           (EmailService.queueHandler host fuel) (S rounds)
           ({| EmailQueue.queue := EmailQueue.queue q;
               EmailQueue.processing := true |}, w))
  ∧ EmailQueue.processing (EmailService.queue stopped) = false
  ∧ EmailQueue.queue (EmailService.queue stopped)
    = EmailQueue.queue (EmailService.queue s)
  ∧ EmailService.getQueueStats stopped = EmailService.getQueueStats s
  ∧ EmailService.drain host (S rounds) fuel (stopped, env)
    = (Returned tt, (stopped, env))
  ∧ (∀ ms,
       EmailService.resumeDrain host (S rounds) fuel (EmailQueue.OnTimer ms)
         (stopped, env)
       = (Returned tt, (stopped, sleep ms env)))
  ∧ (∀ item granted o s1 env1,
       rest item granted (stopped, env) = (o, (s1, env1)) →
       EmailService.resumeDrain host (S rounds) fuel
         (EmailQueue.OnProcessor item granted) (stopped, env)
       = match o with
         | Returned _ => (Returned tt, (s1, sleep 10 env1))
         | Thrown _ =>
             (Returned tt,
              (EmailService.setQueue
                 (EmailQueue.requeue item (EmailService.queue stopped)) s1,
               sleep 10 env1))
         | Unsettled => (Unsettled, (s1, env1))
         end).
Proof.
  intros flagged stopped rest.
  assert (Hstart : ∀ s0,
            EmailQueue.processing (EmailService.queue s0) = false →
            match EmailQueue.queue (EmailService.queue s0) with
            | [] =>
                EmailService.startQueueProcessing (s0, env)
                = (Returned (EmailQueue.OnTimer 1000), (flagged [] s0, env))
            | item :: items =>
                ∃ granted s1,
                  EmailService.processEmailStart (itemId item) (s0, env)
                  = (Returned granted, (s1, env))
                  ∧ EmailService.startQueueProcessing (s0, env)
                    = (Returned (EmailQueue.OnProcessor item granted),
                       (flagged items s1, env))
            end).
  { intros s0 Hoff. unfold EmailService.startQueueProcessing, zoom,
      EmailQueue.startProcessing, EmailQueue.dequeue. rewrite Hoff. simpl.
    destruct (EmailQueue.queue (EmailService.queue s0)) as [|item items]; [done|].
    destruct (processEmailStart_run (itemId item) s0 env)
      as (sA & granted & rl & _ & _ & Hrun).
    exists granted, (EmailService.setRateLimiter rl sA). by rewrite Hrun. }
  split_and!.
  - intros Hon. unfold EmailService.startQueueProcessing, zoom,
      EmailQueue.startProcessing. rewrite Hon.
    by destruct s as [c cbs rl i [q processing] table].
  - apply Hstart.
  - intros suspended w1 Hrun.
    assert (Hon : EmailQueue.processing (EmailService.queue (fst w1)) = true).
    { destruct (EmailQueue.processing (EmailService.queue s)) eqn:Hflag.
      - unfold EmailService.startQueueProcessing, zoom,
          EmailQueue.startProcessing in Hrun. by rewrite Hflag in Hrun.
      - specialize (Hstart s Hflag).
        destruct (EmailQueue.queue (EmailService.queue s)) as [|item items].
        + rewrite Hstart in Hrun. by injection Hrun as _ <-.
        + destruct Hstart as (granted & s1 & _ & Heq). rewrite Heq in Hrun.
          by injection Hrun as _ <-. }
    destruct w1 as [[c cbs rl i [q processing] table] env1]. simpl in Hon.
    subst processing.
    by unfold EmailService.startQueueProcessing, zoom, EmailQueue.startProcessing.
  - intros Hfuel q w Hoff. apply startProcessing_then_resume; [|done].
    intros item w0. by apply processEmail_split.
  - done.
  - done.
  - by destruct s as [c cbs rl i [q processing] table].
  - by destruct s as [c cbs rl i [q processing] table].
  - intros ms. by destruct s as [c cbs rl i [q processing] table].
  - intros item granted o s1 env1 Hrun.
    pose proof Hrun as Hq. unfold rest in Hq.
    apply processEmailRest_keeps_queue in Hq.
    unfold EmailService.resumeDrain, zoom, EmailQueue.resumeProcessing.
    fold (rest item granted). rewrite Hrun.
    destruct s1 as [c1 cbs1 rl1 i1 q1 table1]. simpl in Hq. subst q1.
    destruct s as [c cbs rl i [q processing] table].
    destruct o as [[]|err|]; simpl; try done.
    unfold EmailQueue.requeue. by destruct (retryCount item <? 3).
Qed.

Section Resets.
Context (host : Host).

Lemma retry_calls_once p e cfg :
  ∀ attempt env o env',
    RetryMechanism.execute sleep cfg (send p e) attempt env = (o, env') →
    ∃ n, callsAdded env env' (replicate (S n) (name p, e)).
Proof.
  intros attempt env o env'. rewrite retry_execute_unfold.
  destruct (send p e env) as [o1 env1] eqn:Hsend.
  assert (Hfirst : callsAdded env env1 [(name p, e)]).
  { unfold send in Hsend. destruct (respond p e env).
    by injection Hsend as _ <-. }
  destruct o1 as [r|err|]; [intros [= _ <-]; by exists 0%nat| |
                            intros [= _ <-]; by exists 0%nat].
  destruct (maxAttempts cfg <=? attempt); [intros [= _ <-]; by exists 0%nat|].
  intros Hretry.
  apply (retry_world _ _
           (λ env3, ∃ n, callsAdded env env3 (replicate (S n) (name p, e))))
    in Hretry; [done| |by intros ms env3|by exists 0%nat].
  intros env3 o3 env4 [n Hn] Hsend3. unfold send in Hsend3.
  destruct (respond p e env3). injection Hsend3 as _ <-.
  exists (S n). unfold callsAdded in *. cbn [sendLog].
  by rewrite Hn, (replicate_S_end (S n)), app_assoc.
Qed.

Lemma attemptVia_calls_backend p e cb s env :
  CircuitBreaker.state cb ≠ OPEN →
  ∃ n, callsAdded env
         (snd (snd (snd (EmailService.attemptVia host p e (cb, (s, env))))))
         (replicate (S n) (name p, e)).
Proof.
  intros Hst. unfold EmailService.attemptVia.
  rewrite execute_not_open by done. unfold guarded, outside.
  destruct (RetryMechanism.execute _ _ _ _ _) as [o env'] eqn:Hretry.
  apply retry_calls_once in Hretry. by destruct o.
Qed.

End Resets.

(** X28. The three resets. After [resetCircuitBreakers] every entry of
    [getProviderStats] shows a closed breaker without failures, for the same
    names as before, and the next pass of the fallback loop calls each
    backend that has a breaker at least once. After [resetRateLimiter] the
    usage is 0. After [clearCache] the cache size that [getIdempotencyStats]
    reports is 0, while the pending requests are as before. None of them
    touches the status records or the queue. *)
Theorem service_resets (host : Host) (s : EmailService.t) (env : Env) :
  (∀ n, EmailService.getProviderStats (EmailService.resetCircuitBreakers s) !! n
        = (λ _, freshBreakerStats) <$> EmailService.getProviderStats s !! n)
  ∧ (∀ p e, is_Some (EmailService.circuitBreakers s !! name p) →
       EmailService.circuitBreakers (EmailService.resetCircuitBreakers s) !! name p
       = Some CircuitBreaker.new
       ∧ ∃ n, callsAdded env
                (snd (snd (EmailService.tryProvider host p CircuitBreaker.new e
                             (EmailService.resetCircuitBreakers s, env))))
                (replicate (S n) (name p, e)))
  ∧ fst (EmailService.getRateLimitStats (EmailService.resetRateLimiter s, env))
    = Returned
        {| EmailService.RateLimitStats.currentUsage := 0;
           EmailService.RateLimitStats.remainingSlots :=
             Z.max 0 (maxRequests (rateLimit (EmailService.config s)));
           EmailService.RateLimitStats.maxRequests :=
             maxRequests (rateLimit (EmailService.config s));
           EmailService.RateLimitStats.timeWindow :=
             timeWindow (rateLimit (EmailService.config s)) |}
  ∧ EmailService.getIdempotencyStats (EmailService.clearCache s)
    = {| EmailService.IdempotencyStats.cacheSize := 0;
         EmailService.IdempotencyStats.pendingRequests :=
           EmailService.IdempotencyStats.pendingRequests
             (EmailService.getIdempotencyStats s) |}
  ∧ (∀ s', s' = EmailService.resetCircuitBreakers s
           ∨ s' = EmailService.resetRateLimiter s
           ∨ s' = EmailService.clearCache s →
           EmailService.statusTracking s' = EmailService.statusTracking s
           ∧ EmailService.queue s' = EmailService.queue s
           ∧ EmailService.config s' = EmailService.config s).
Proof.
  split_and!.
  - intros n. rewrite !getProviderStats_lookup.
    unfold EmailService.resetCircuitBreakers. simpl.
    destruct (decide _); [|done]. rewrite lookup_fmap.
    by destruct (EmailService.circuitBreakers s !! n).
  - intros p e [cb Hcb]. unfold EmailService.resetCircuitBreakers. simpl.
    split; [by rewrite lookup_fmap, Hcb|].
    rewrite tryProvider_run.
    destruct (attemptVia_calls_backend host p e CircuitBreaker.new
                (EmailService.setCircuitBreakers
                   (CircuitBreaker.reset <$> EmailService.circuitBreakers s) s)
                env ltac:(done)) as [n Hn].
    exists n. by destruct (EmailService.attemptVia host p e _) as [o [cb' [s0 env0]]].
  - unfold EmailService.getRateLimitStats, zoom, bind, ret.
    rewrite usage_cases, remaining_cases. simpl. by rewrite Z.sub_0_r.
  - unfold EmailService.getIdempotencyStats, EmailService.clearCache,
      IdempotencyService.getCacheSize, IdempotencyService.clearCache. simpl.
    by rewrite map_size_empty.
  - by intros s' [-> | [-> | ->]].
Qed.

(** ** MockEmailProvider *)

Section MockProps.
Context (base36 : Q → string) (timer : Q → Z).

Lemma clamp_unit x : (0 <= Qmax 0 (Qmin 1 x) <= 1)%Q.
Proof.
  destruct (Q.max_spec 0 (Qmin 1 x)) as [[H1 ->]|[H1 ->]];
    destruct (Q.min_spec 1 x) as [[H2 H3]|[H2 H3]];
    rewrite ?H3 in *; lra.
Qed.

Lemma clamp_high x : (1 <= x)%Q → (Qmax 0 (Qmin 1 x) == 1)%Q.
Proof.
  intros Hx.
  destruct (Q.max_spec 0 (Qmin 1 x)) as [[H1 ->]|[H1 ->]];
    destruct (Q.min_spec 1 x) as [[H2 H3]|[H2 H3]];
    rewrite ?H3 in *; lra.
Qed.

Lemma clamp_low x : (x <= 0)%Q → (Qmax 0 (Qmin 1 x) == 0)%Q.
Proof.
  intros Hx.
  destruct (Q.max_spec 0 (Qmin 1 x)) as [[H1 ->]|[H1 ->]];
    destruct (Q.min_spec 1 x) as [[H2 H3]|[H2 H3]];
    rewrite ?H3 in *; lra.
Qed.

Lemma clamp_positive x : (0 <= Qmax 0 x)%Q.
Proof. destruct (Q.max_spec 0 x) as [[H1 ->]|[H1 ->]]; lra. Qed.

Lemma mockReach_wellFormed m : mockReach m → wellFormedMock m.
Proof.
  induction 1 as [n rate avg h|rate m _ [IH1 IH2]|delay m _ [IH1 IH2]
                 |h m _ [IH1 IH2]]; unfold wellFormedMock; simpl.
  - split; [apply clamp_unit|apply clamp_positive].
  - split; [apply clamp_unit|done].
  - split; [done|apply clamp_positive].
  - by split.
Qed.

Lemma pickError_in_range r :
  (0 <= r < 1)%Q →
  ∃ text, MockEmailProvider.pickError r = Some text
          ∧ text ∈ MockEmailProvider.errors.
Proof.
  intros [Hlo Hhi]. unfold MockEmailProvider.pickError. cbv zeta.
  change (inject_Z (Z.of_nat (length MockEmailProvider.errors))) with (inject_Z 5).
  assert (Hfloor : 0 ≤ Qfloor (r * inject_Z 5) < 5).
  { split.
    - change 0 with (Qfloor 0). apply Qfloor_resp_le.
      change (inject_Z 5) with 5%Q. lra.
    - destruct (Z_lt_le_dec (Qfloor (r * inject_Z 5)) 5) as [Hlt|Hge]; [done|].
      exfalso. pose proof (Qfloor_le (r * inject_Z 5)) as Hle.
      assert (H5 : (inject_Z 5 <= inject_Z (Qfloor (r * inject_Z 5)))%Q)
        by (by rewrite <- Zle_Qle).
      change (inject_Z 5) with 5%Q in *. lra. }
  destruct (Z.ltb_spec (Qfloor (r * inject_Z 5)) 0) as [Hneg|_]; [lia|].
  destruct (Z.to_nat (Qfloor (r * inject_Z 5))) as [|[|[|[|[|n]]]]] eqn:Hn;
    [eexists; split; [reflexivity|]; repeat constructor..|lia].
Qed.

Lemma asProvider_neverRejects chance m :
  neverRejects (MockEmailProvider.asProvider base36 timer chance m).
Proof.
  intros e env. unfold MockEmailProvider.asProvider. simpl.
  destruct (MockEmailProvider.send _ _ _ _ _ _). by eexists.
Qed.

End MockProps.

(** X29. A mock backend that the constructor and the setters have produced
    has a success rate between 0 and 1 and a delay that is not negative.
    With numbers of [Math.random()] from 0 up to 1, its [send] waits between
    half and one and a half times the average delay and then fulfils: the
    outcome names the backend, bears the time of the fulfilment, and reports
    success exactly when the second number is below the success rate; a
    success carries a message id and no error, a failure no message id and
    one of the five error texts. A mock built with a rate of 1 or more
    always succeeds; one built with a rate of 0 or less never does. *)
Theorem mock_send_outcomes (base36 : Q → string) (timer : Q → Z)
    (m : MockEmailProvider.t) (d : MockEmailProvider.Draws) (email : EmailData)
    (now : Z) :
  mockReach m →
  unitDraws d →
  let outcome := fst (MockEmailProvider.send base36 timer d m email now) in
  let elapsed := snd (MockEmailProvider.send base36 timer d m email now) in
  wellFormedMock m
  ∧ (MockEmailProvider.averageDelay m * (1 # 2) <= MockEmailProvider.delayOf d m
     <= MockEmailProvider.averageDelay m * (3 # 2))%Q
  ∧ elapsed = Z.max 0 (timer (MockEmailProvider.delayOf d m))
  ∧ provider outcome = MockEmailProvider.name m
  ∧ timestamp outcome = now + elapsed
  ∧ (success outcome = true
     ↔ (MockEmailProvider.forOutcome d < MockEmailProvider.successRate m)%Q)
  ∧ (if success outcome
     then is_Some (messageId outcome) ∧ error outcome = None
     else messageId outcome = None
          ∧ ∃ text, error outcome = Some text ∧ text ∈ MockEmailProvider.errors)
  ∧ (∀ name rate delay healthy,
       ((1 <= rate)%Q →
        success (fst (MockEmailProvider.send base36 timer d
                        (MockEmailProvider.new name rate delay healthy) email now))
        = true)
       ∧ ((rate <= 0)%Q →
          success (fst (MockEmailProvider.send base36 timer d
                          (MockEmailProvider.new name rate delay healthy) email now))
          = false)).
Proof.
  intros Hm (Hdelay & Houtcome & Hdetail) outcome elapsed.
  pose proof (mockReach_wellFormed m Hm) as [Hrate Havg].
  split; [by split|]. split.
  { unfold MockEmailProvider.delayOf. split; nra. }
  unfold outcome, elapsed, MockEmailProvider.send. cbv zeta.
  split_and!.
  - by destruct (Qlt_le_dec _ _).
  - by destruct (Qlt_le_dec _ _).
  - by destruct (Qlt_le_dec _ _).
  - destruct (Qlt_le_dec _ _) as [Hlt|Hge]; simpl; [done|].
    split; [done|]. intros Hlt. lra.
  - destruct (Qlt_le_dec _ _); simpl; [by split; [eexists|]|].
    split; [done|]. by apply pickError_in_range.
  - intros name rate delay healthy. split; intros Hr; simpl.
    + destruct (Qlt_le_dec _ _) as [Hlt|Hge]; [done|].
      rewrite (clamp_high rate Hr) in Hge. lra.
    + destruct (Qlt_le_dec _ _) as [Hlt|Hge]; [|done].
      rewrite (clamp_low rate Hr) in Hlt. lra.
Qed.

Lemma mock_send_outcomes_witness :
  success (fst (MockEmailProvider.send sampleBase36 sampleTimer sampleDraws
                  MockEmailProvider.ReliableProvider sampleEmail 0)) = true.
Proof.
  assert (Hdraws : unitDraws sampleDraws).
  { unfold unitDraws, sampleDraws. simpl. repeat split; lra. }
  destruct (mock_send_outcomes sampleBase36 sampleTimer
              MockEmailProvider.ReliableProvider sampleDraws sampleEmail 0
              (MockNew _ _ _ _) Hdraws) as (_ & _ & _ & _ & _ & Hiff & _).
  apply Hiff. reflexivity.
Defined.

Lemma neverRejecting_breaker (host : Host) (cfg : EmailServiceConfig) (env0 : Env)
    (s : EmailService.t) (env : Env) (p : EmailProvider) :
  serviceReach host cfg env0 (s, env) →
  p ∈ providers cfg →
  (∀ q, q ∈ providers cfg → name q = name p → neverRejects q) →
  EmailService.circuitBreakers s !! name p = Some CircuitBreaker.new
  ∧ EmailService.getProviderStats s !! name p = Some freshBreakerStats.
Proof.
  intros Hreach Hp Hnever.
  destruct (serviceReach_breakersSound host cfg env0 _ Hreach)
    as (Hcfg & Hdom & Hcbs). simpl in Hcfg, Hdom, Hcbs.
  assert (Hin : name p ∈ providerNames cfg).
  { unfold providerNames. apply list_elem_of_fmap. by exists p. }
  destruct (proj2 (Hdom (name p)) Hin) as [cb Hcb].
  destruct (Hcbs _ _ Hcb) as [_ Hnew]. specialize (Hnew Hnever). subst cb.
  split; [exact Hcb|].
  rewrite getProviderStats_lookup, Hcfg, decide_True by done. by rewrite Hcb.
Qed.

(** X30. In a service whose backends are all mock backends, no call of a
    backend is ever retried and no circuit breaker ever leaves the state in
    which the constructor put it: a mock reports a failure by the outcome it
    returns, not by rejecting, and an outcome that is returned closes the
    breaker. In every state of such a service [getProviderStats] shows each
    backend with a closed breaker and no failure, and a pass of the fallback
    loop calls the backend exactly once. *)
Theorem mock_backends_never_open_breakers (host : Host) (cfg : EmailServiceConfig)
    (env0 : Env) (s : EmailService.t) (env : Env) (base36 : Q → string)
    (timer : Q → Z) (chance : Env → MockEmailProvider.Draws) :
  (∀ p, p ∈ providers cfg →
        ∃ m, p = MockEmailProvider.asProvider base36 timer chance m) →
  serviceReach host cfg env0 (s, env) →
  ∀ p, p ∈ providers cfg →
    EmailService.getProviderStats s !! name p = Some freshBreakerStats
    ∧ ∃ cb, EmailService.circuitBreakers s !! name p = Some cb
      ∧ ∀ e, ∃ r cb' env',
          EmailService.attemptVia host p e (cb, (s, env))
          = (Returned r, (cb', (s, env')))
          ∧ cb' = CircuitBreaker.new
          ∧ callsAdded env env' [(name p, e)].
Proof.
  intros Hmocks Hreach p Hp.
  assert (Hnever : ∀ q, q ∈ providers cfg → neverRejects q).
  { intros q Hq. destruct (Hmocks q Hq) as [m ->]. apply asProvider_neverRejects. }
  destruct (neverRejecting_breaker host cfg env0 s env p Hreach Hp
              (λ q Hq _, Hnever q Hq)) as [Hcb Hstats].
  split; [exact Hstats|]. exists CircuitBreaker.new. split; [exact Hcb|].
  intros e. destruct (Hnever p Hp e env) as [r Hr].
  destruct (respond p e env) as [answer d] eqn:Hresp. simpl in Hr. subst answer.
  eexists r, _, _. split; [by apply attemptVia_returned|]. by split.
Qed.

Lemma mock_backends_never_open_breakers_witness :
  EmailService.getProviderStats (EmailService.new mockConfig) !! "ReliableProvider"
  = Some freshBreakerStats.
Proof.
  apply (mock_backends_never_open_breakers sampleHost mockConfig sampleEnv
           (EmailService.new mockConfig) sampleEnv sampleBase36 sampleTimer
           (λ _, sampleDraws)
           ltac:(intros p (m & -> & _)%list_elem_of_fmap; by exists m)
           (rtc_refl _ _)
           (MockEmailProvider.asProvider sampleBase36 sampleTimer (λ _, sampleDraws)
              MockEmailProvider.ReliableProvider)).
  left.
Defined.
